(** * Seating-chart designer: assignment model, grid snap and drag gestures

    A shallow embedding of the parts of [src/App.jsx], of the model helpers
    it imports from [./models] and of [src/canvasRenderer.js] that decide
    the seat-assignment and layout properties of the specification,
    followed by the theorems about them.

    Conventions of the embedding.
    - JavaScript numbers that are counters or indices (entity ids, attendee
      indices, seat counts, rows, cols) are [nat]; coordinates and sizes in
      feet or pixels are exact rationals [Q] (the doubles of the source
      without rounding error); the trigonometry of the seat ring is over [R].
    - A JavaScript object used as a map ([assignments]) is a
      [gmap string nat]: property keys are strings, a numeric seat index [i]
      is the key [String(i)].
    - React state is passed explicitly: a handler reads the state of the
      render it was created in and queues updater functions, which the
      model applies in the order the handler issues them.
    - Fields that only serve presentation ([name], [color], [elementType])
      and the attendee roster itself are left out: no modelled operation
      reads or writes them. *)

From Stdlib Require Import QArith Qround Qabs Qminmax Qreals Reals Lqa Qfield.
From Stdlib Require Import Ascii String DecimalString DecimalNat.
From stdpp Require Import gmap strings list fin_maps sorting.

Local Open Scope string_scope.
Local Open Scope list_scope.

(** ** JavaScript helpers *)

(** [String(n)] for a non-negative integer. *)
Definition numToString (n : nat) : string :=
  NilEmpty.string_of_uint (Nat.to_uint n).

(** [Number(s)] on the strings the program can meet as seat keys: a run of
    decimal digits is its value and the empty string is [0]; everything
    else is [NaN], rendered as [None]. *)
Definition Number (s : string) : option nat :=
  Nat.of_uint <$> NilEmpty.uint_of_string s.

(** [s.split(sep)] for a one-character separator. *)
Fixpoint split (sep : ascii) (s : string) : list string :=
  match s with
  | EmptyString => [EmptyString]
  | String c s' =>
      if Ascii.eqb c sep then EmptyString :: split sep s'
      else match split sep s' with
           | hd :: tl => String c hd :: tl
           | [] => [String c EmptyString]
           end
  end.

(** The template literal [`${r}-${c}`] that names a chair of a block. *)
Definition blockSeatKey (r c : nat) : string :=
  numToString r +:+ "-" +:+ numToString c.

(** [Math.round]: the nearest integer, halves going up. *)
Definition Math_round (v : Q) : Q := inject_Z (Qfloor (v + (1 # 2))%Q).

(** [a > b] on numbers. *)
Definition Qgtb (a b : Q) : bool := negb (Qle_bool a b).

(** ** Data model ([./models]) *)

Inductive EntityType := ETable | EBlock | EVenue.
Inductive TableType := Round | Rect.
Inductive Orientation := Horizontal | Vertical.
Inductive Spacing := Tight | Normal | Wide.

#[global] Instance EntityType_eq_dec : EqDecision EntityType.
Proof. solve_decision. Defined.
#[global] Instance TableType_eq_dec : EqDecision TableType.
Proof. solve_decision. Defined.

(** [createTable]: [x], [y] is the centre; [seats] is the ring size of a
    round table and the seats per long side of a rectangular one. *)
Record Table := mkTable {
  t_id : nat;
  t_x : Q;
  t_y : Q;
  tableType : TableType;
  seats : nat;
  t_widthFt : Q;
  t_heightFt : Q;
  orientation : Orientation;
  endSeats : nat;
  t_locked : bool;
  t_assignments : gmap string nat
}.

(** [createChairBlock]: [x], [y] is the top-left corner. *)
Record ChairBlock := mkBlock {
  b_id : nat;
  b_x : Q;
  b_y : Q;
  rows : nat;
  cols : nat;
  spacing : Spacing;
  b_locked : bool;
  b_assignments : gmap string nat
}.

(** [createVenueElement]: [x], [y] is the centre; no seats. *)
Record VenueElement := mkVenue {
  v_id : nat;
  v_x : Q;
  v_y : Q;
  v_widthFt : Q;
  v_heightFt : Q;
  v_locked : bool
}.

(** An entity as the canvas hands it around: the object together with its
    [type] tag. *)
Inductive Entity :=
| TableE (t : Table)
| BlockE (b : ChairBlock)
| VenueE (v : VenueElement).

Definition entityType (e : Entity) : EntityType :=
  match e with TableE _ => ETable | BlockE _ => EBlock | VenueE _ => EVenue end.

Definition e_id (e : Entity) : nat :=
  match e with TableE t => t_id t | BlockE b => b_id b | VenueE v => v_id v end.

Definition e_x (e : Entity) : Q :=
  match e with TableE t => t_x t | BlockE b => b_x b | VenueE v => v_x v end.

Definition e_y (e : Entity) : Q :=
  match e with TableE t => t_y t | BlockE b => b_y b | VenueE v => v_y v end.

Definition e_locked (e : Entity) : bool :=
  match e with
  | TableE t => t_locked t | BlockE b => b_locked b | VenueE v => v_locked v
  end.

(** Spread-updates [{ ...t, field: value }]. *)
Definition t_with_assignments (a : gmap string nat) (t : Table) : Table :=
  mkTable (t_id t) (t_x t) (t_y t) (tableType t) (seats t) (t_widthFt t)
          (t_heightFt t) (orientation t) (endSeats t) (t_locked t) a.

Definition t_with_pos (x y : Q) (t : Table) : Table :=
  mkTable (t_id t) x y (tableType t) (seats t) (t_widthFt t)
          (t_heightFt t) (orientation t) (endSeats t) (t_locked t)
          (t_assignments t).

Definition b_with_assignments (a : gmap string nat) (b : ChairBlock) : ChairBlock :=
  mkBlock (b_id b) (b_x b) (b_y b) (rows b) (cols b) (spacing b) (b_locked b) a.

Definition b_with_pos (x y : Q) (b : ChairBlock) : ChairBlock :=
  mkBlock (b_id b) x y (rows b) (cols b) (spacing b) (b_locked b)
          (b_assignments b).

Definition v_with_pos (x y : Q) (v : VenueElement) : VenueElement :=
  mkVenue (v_id v) x y (v_widthFt v) (v_heightFt v) (v_locked v).

(** What the assignment operations need of an entity: an [id] and an
    [assignments] object.  Tables and chair blocks have both. *)
Class Seated (E : Type) := {
  ent_id : E -> nat;
  assignments : E -> gmap string nat;
  with_assignments : gmap string nat -> E -> E
}.

#[global] Instance Table_Seated : Seated Table :=
  {| ent_id := t_id; assignments := t_assignments;
     with_assignments := t_with_assignments |}.

#[global] Instance Block_Seated : Seated ChairBlock :=
  {| ent_id := b_id; assignments := b_assignments;
     with_assignments := b_with_assignments |}.

Definition getTableTotalSeats (t : Table) : nat :=
  match tableType t with
  | Round => seats t
  | Rect => seats t * 2 + endSeats t * 2
  end.

Definition getBlockTotalSeats (b : ChairBlock) : nat := rows b * cols b.

Definition getBlockChairSpacing (b : ChairBlock) : Q :=
  match spacing b with
  | Tight => 3 # 2
  | Normal => 2
  | Wide => 5 # 2
  end%Q.

(** [Object.values(e.assignments)]. *)
Definition values (a : gmap string nat) : list nat := (map_to_list a).*2.

(** [buildAssignedSet]: every attendee index seated anywhere. *)
Definition buildAssignedSet (ts : list Table) (bs : list ChairBlock) : gset nat :=
  let assigned := foldl (fun acc t => foldl (fun acc v => acc ∪ {[v]}) acc
                                            (values (t_assignments t))) ∅ ts in
  foldl (fun acc b => foldl (fun acc v => acc ∪ {[v]}) acc
                            (values (b_assignments b))) assigned bs.

(** ** Application state *)

(** The part of the state that [saveUndo] snapshots. *)
Record Doc := mkDoc {
  tables : list Table;
  chairBlocks : list ChairBlock;
  venueElements : list VenueElement;
  disabledAttendees : gset nat
}.

(** One entry of [dragRef.current.multiDrag]. *)
Record DragItem := mkDragItem {
  di_type : EntityType;
  di_id : nat;
  di_origX : Q;
  di_origY : Q
}.

(** [dragRef.current]. *)
Record DragRef := mkDragRef {
  startX : Q;
  startY : Q;
  dr_entity : option Entity;
  origX : Q;
  origY : Q;
  multiDrag : option (list DragItem);
  hasMoved : bool
}.

Record App := mkApp {
  doc : Doc;
  undoStack : list Doc;
  redoStack : list Doc;
  status : string;
  selectedItem : option Entity;
  selectedItems : list Entity;
  dragging : bool;
  dragRef : DragRef
}.

(** Settings read by the snap engine and the drag handlers. *)
Record Settings := mkSettings {
  roomWidth : Q;
  roomHeight : Q;
  gridSize : Q;
  snapEnabled : bool;
  scale : Q
}.

Definition with_doc (d : Doc) (st : App) : App :=
  mkApp d (undoStack st) (redoStack st) (status st) (selectedItem st)
        (selectedItems st) (dragging st) (dragRef st).

Definition setStatus (s : string) (st : App) : App :=
  mkApp (doc st) (undoStack st) (redoStack st) s (selectedItem st)
        (selectedItems st) (dragging st) (dragRef st).

Definition setSelectedItem (sel : option Entity) (st : App) : App :=
  mkApp (doc st) (undoStack st) (redoStack st) (status st) sel
        (selectedItems st) (dragging st) (dragRef st).

Definition setSelectedItems (sel : list Entity) (st : App) : App :=
  mkApp (doc st) (undoStack st) (redoStack st) (status st) (selectedItem st)
        sel (dragging st) (dragRef st).

Definition setDragging (b : bool) (st : App) : App :=
  mkApp (doc st) (undoStack st) (redoStack st) (status st) (selectedItem st)
        (selectedItems st) b (dragRef st).

Definition setDragRef (r : DragRef) (st : App) : App :=
  mkApp (doc st) (undoStack st) (redoStack st) (status st) (selectedItem st)
        (selectedItems st) (dragging st) r.

(** The React setters, called with an updater function. *)
Definition setTables (f : list Table -> list Table) (st : App) : App :=
  let d := doc st in
  with_doc (mkDoc (f (tables d)) (chairBlocks d) (venueElements d)
                  (disabledAttendees d)) st.

Definition setChairBlocks (f : list ChairBlock -> list ChairBlock) (st : App) : App :=
  let d := doc st in
  with_doc (mkDoc (tables d) (f (chairBlocks d)) (venueElements d)
                  (disabledAttendees d)) st.

Definition setVenueElements (f : list VenueElement -> list VenueElement)
    (st : App) : App :=
  let d := doc st in
  with_doc (mkDoc (tables d) (chairBlocks d) (f (venueElements d))
                  (disabledAttendees d)) st.

(** [saveUndo]: push a snapshot, keep the newest 50, clear the redo stack. *)
Definition pushUndo (d : Doc) (stack : list Doc) : list Doc :=
  let s := stack ++ [d] in
  if (50 <? length s)%nat then tail s else s.

Definition saveUndo (st : App) : App :=
  mkApp (doc st) (pushUndo (doc st) (undoStack st)) [] (status st)
        (selectedItem st) (selectedItems st) (dragging st) (dragRef st).

(** The memo [assigned] of the current render. *)
Definition assigned (st : App) : gset nat :=
  buildAssignedSet (tables (doc st)) (chairBlocks (doc st)).

(** ** Assignment operations ([App.jsx]) *)

(** [prev.map(e => e.id === entityId ? f(e) : e)]. *)
Definition mapById {E} `{Seated E} (entityId : nat) (f : E -> E) (prev : list E) : list E :=
  map (fun e => if decide (ent_id e = entityId) then f e else e) prev.

(** [{ ...e, assignments: { ...e.assignments, [seatKey]: attIdx } }]. *)
Definition putSeat {E} `{Seated E} (seatKey : string) (attIdx : nat) (e : E) : E :=
  with_assignments (<[seatKey := attIdx]> (assignments e)) e.

(** [delete newA[seatKey]] on a copy. *)
Definition dropSeat {E} `{Seated E} (seatKey : string) (e : E) : E :=
  with_assignments (delete seatKey (assignments e)) e.

Definition assignAttendee (entityType : EntityType) (entityId : nat)
    (seatKey : string) (attIdx : nat) (st : App) : App :=
  if decide (attIdx ∈ disabledAttendees (doc st)) then st
  else if decide (attIdx ∈ assigned st) then setStatus "Already assigned" st
  else
    let st := saveUndo st in
    let st :=
      match entityType with
      | ETable => setTables (mapById entityId (putSeat seatKey attIdx)) st
      | _ => setChairBlocks (mapById entityId (putSeat seatKey attIdx)) st
      end in
    setStatus "Assigned" st.

Definition unassignSeat (entityType : EntityType) (entityId : nat)
    (seatKey : string) (st : App) : App :=
  let st := saveUndo st in
  let st :=
    match entityType with
    | ETable => setTables (mapById entityId (dropSeat seatKey)) st
    | _ => setChairBlocks (mapById entityId (dropSeat seatKey)) st
    end in
  setStatus "Unassigned" st.

(** The body of the [updater] of [swapSeats], on one assignments object. *)
Definition swapAssignments (seatKeyA seatKeyB : string) (a : gmap string nat)
    : gmap string nat :=
  match a !! seatKeyA, a !! seatKeyB with
  | Some aVal, Some bVal => <[seatKeyB := aVal]> (<[seatKeyA := bVal]> a)
  | Some aVal, None => delete seatKeyA (<[seatKeyB := aVal]> a)
  | None, Some bVal => delete seatKeyB (<[seatKeyA := bVal]> a)
  | None, None => a
  end.

Definition swapUpdater {E} `{Seated E} (entityId : nat) (seatKeyA seatKeyB : string)
    (prev : list E) : list E :=
  mapById entityId
    (fun e => with_assignments (swapAssignments seatKeyA seatKeyB (assignments e)) e)
    prev.

Definition swapSeats (entityType : EntityType) (entityId : nat)
    (seatKeyA seatKeyB : string) (st : App) : App :=
  if decide (seatKeyA = seatKeyB) then st
  else
    let st := saveUndo st in
    let st :=
      match entityType with
      | ETable => setTables (swapUpdater entityId seatKeyA seatKeyB) st
      | _ => setChairBlocks (swapUpdater entityId seatKeyA seatKeyB) st
      end in
    setStatus "Seats swapped" st.

(** What [srcUpdater] leaves in [attIdx]: the occupant of [srcKey] in the
    last entity with that id, [None] when there is no such entity or the
    seat is empty ([null] and [undefined] are treated alike by the
    source). *)
Definition sourceOccupant {E} `{Seated E} (srcId : nat) (srcKey : string)
    (prev : list E) : option nat :=
  foldl (fun att e => if decide (ent_id e = srcId) then assignments e !! srcKey
                      else att) None prev.

(** [moveSeatToSeat].  The source reads [attIdx] out of the source updater
    right after queuing it.  React runs a queued updater at once when the
    component has no update pending and otherwise at the next render;
    [ranAtOnce] says which of the two happened.  In the second case
    [attIdx] is still [null] when it is tested and the handler returns,
    the queued updater clearing the source seat all the same. *)
Definition moveSeatToSeat (ranAtOnce : bool)
    (srcType : EntityType) (srcId : nat) (srcKey : string)
    (dstType : EntityType) (dstId : nat) (dstKey : string) (st : App) : App :=
  let st := saveUndo st in
  if decide (srcType = dstType /\ srcId = dstId) then
    swapSeats srcType srcId srcKey dstKey st
  else
    let attIdx :=
      if ranAtOnce then
        match srcType with
        | ETable => sourceOccupant srcId srcKey (tables (doc st))
        | _ => sourceOccupant srcId srcKey (chairBlocks (doc st))
        end
      else None in
    let st :=
      match srcType with
      | ETable => setTables (mapById srcId (dropSeat srcKey)) st
      | _ => setChairBlocks (mapById srcId (dropSeat srcKey)) st
      end in
    match attIdx with
    | None => st
    | Some attIdx =>
        let st :=
          match dstType with
          | ETable => setTables (mapById dstId (putSeat dstKey attIdx)) st
          | _ => setChairBlocks (mapById dstId (putSeat dstKey attIdx)) st
          end in
        setStatus "Moved" st
    end.

Definition forceAssignSeat (entityType : EntityType) (entityId : nat)
    (seatKey : string) (attIdx : nat) (st : App) : App :=
  if decide (attIdx ∈ disabledAttendees (doc st)) then st
  else
    let st := saveUndo st in
    let st :=
      match entityType with
      | ETable => setTables (mapById entityId (putSeat seatKey attIdx)) st
      | _ => setChairBlocks (mapById entityId (putSeat seatKey attIdx)) st
      end in
    setStatus "Assigned" st.

(** [assignNextAvailable]: the first seat key, in seat order, that is not
    a property of [entity.assignments]. *)
Definition tableSeatKeys (t : Table) : list string :=
  numToString <$> seq 0 (getTableTotalSeats t).

Definition blockSeatKeys (b : ChairBlock) : list string :=
  r ← seq 0 (rows b); (fun c => blockSeatKey r c) <$> seq 0 (cols b).

Definition openSeat (keys : list string) (a : gmap string nat) : option string :=
  List.find (fun k => bool_decide (a !! k = None)) keys.

Definition assignNextAvailable (entityType : EntityType) (entityId : nat)
    (attIdx : nat) (st : App) : App :=
  if decide (attIdx ∈ disabledAttendees (doc st)) then st
  else if decide (attIdx ∈ assigned st) then st
  else
    let openKey :=
      match entityType with
      | ETable =>
          (fun t => openSeat (tableSeatKeys t) (t_assignments t)) <$>
          List.find (fun t => bool_decide (t_id t = entityId)) (tables (doc st))
      | _ =>
          (fun b => openSeat (blockSeatKeys b) (b_assignments b)) <$>
          List.find (fun b => bool_decide (b_id b = entityId)) (chairBlocks (doc st))
      end in
    match openKey with
    | None => st
    | Some None => setStatus "Table full" st
    | Some (Some openKey) => forceAssignSeat entityType entityId openKey attIdx st
    end.

(** What [seatHitTest] returns: a table or a chair block of the current
    state and one of its seat keys. *)
Inductive SeatInfo :=
| TableSeat (t : Table) (seatKey : string)
| BlockSeat (b : ChairBlock) (seatKey : string).

(** The [dragAttendee] branch of [handleCanvasMouseUp]: an attendee dragged
    from the roster is released over the canvas.  The two hit tests are
    geometry and enter as their results. *)
Definition handleCanvasMouseUp_dragAttendee (seatInfo : option SeatInfo)
    (tableHit : option Entity) (dragAttendee : nat) (st : App) : App :=
  let nextAvailable :=
    match tableHit with
    | Some (TableE t) => assignNextAvailable ETable (t_id t) dragAttendee st
    | Some (BlockE b) => assignNextAvailable EBlock (b_id b) dragAttendee st
    | _ => st
    end in
  let st :=
    match seatInfo with
    | Some (TableSeat t seatKey) =>
        if decide (t_assignments t !! seatKey = None)
        then assignAttendee ETable (t_id t) seatKey dragAttendee st
        else nextAvailable
    | Some (BlockSeat b seatKey) =>
        if decide (b_assignments b !! seatKey = None)
        then assignAttendee EBlock (b_id b) seatKey dragAttendee st
        else nextAvailable
    | None => nextAvailable
    end in
  setDragging false st.

(** Selecting an entity in the list view: the [onSelect] callback handed
    to [ListView], called with the entity as it stands in the plan. *)
Definition onSelect (entity : Entity) (st : App) : App :=
  setSelectedItems [] (setSelectedItem (Some entity) st).

(** ** Rotation ([rotateSelected]) *)

(** A key that JavaScript treats as an integer index: a canonical decimal
    numeral. *)
Definition indexOfKey (k : string) : option nat :=
  i ← Number k; if decide (numToString i = k) then Some i else None.

(** Property order: integer keys ascending, then the other keys. *)
Definition keyBefore (p q : string * nat) : Prop :=
  match indexOfKey p.1, indexOfKey q.1 with
  | Some i, Some j => i <= j
  | Some _, None => True
  | None, Some _ => False
  | None, None => True
  end.

#[global] Instance keyBefore_dec p q : Decision (keyBefore p q).
Proof. unfold keyBefore. destruct (indexOfKey p.1), (indexOfKey q.1); apply _. Defined.

(** [Object.entries(a)].  Integer keys come first in ascending order, as in
    JavaScript; among the other keys JavaScript keeps insertion order, which
    a finite map does not record: the model takes them in the order of
    [map_to_list]. *)
Definition entries (a : gmap string nat) : list (string * nat) :=
  merge_sort keyBefore (map_to_list a).

(** The key [(Number(k) + shift) % total] written by the round-table
    branch; [NaN] prints as ["NaN"]. *)
Definition rotatedSeatKey (shift total : nat) (k : string) : string :=
  match Number k with
  | Some i => numToString ((i + shift) mod total)
  | None => "NaN"
  end.

Definition seatShift (total : nat) : nat :=
  if (4 <=? total)%nat then total / 4 else 1.

Definition rotateSeatsAssign (total : nat) (a : gmap string nat) : gmap string nat :=
  let shift := seatShift total in
  foldl (fun newAssign kv => <[rotatedSeatKey shift total kv.1 := kv.2]> newAssign)
        ∅ (entries a).

(** The chair-block branch: [(r, c)] goes to [(c, oldRows - 1 - r)] when
    that lies in the rotated grid. *)
Definition rotatedBlockKey (oldRows oldCols : nat) (key : string) : option string :=
  match Number <$> split "-" key with
  | Some r :: Some c :: _ =>
      let nr := c in
      let nc := (Z.of_nat oldRows - 1 - Z.of_nat r)%Z in
      if decide ((nr < oldCols)%nat /\ (0 <= nc)%Z /\ (nc < Z.of_nat oldRows)%Z)
      then Some (blockSeatKey nr (Z.to_nat nc))
      else None
  | _ => None
  end.

Definition rotateBlockAssign (oldRows oldCols : nat) (a : gmap string nat)
    : gmap string nat :=
  foldl (fun newAssign kv =>
           match rotatedBlockKey oldRows oldCols kv.1 with
           | Some k => <[k := kv.2]> newAssign
           | None => newAssign
           end)
        ∅ (entries a).

Definition flipOrientation (o : Orientation) : Orientation :=
  match o with Horizontal => Vertical | Vertical => Horizontal end.

(** [rotateSelected].  Every branch computes from [item], the entity object
    held in [selectedItem], and writes to the entity of the same id in the
    current state. *)
Definition rotateSelected (st : App) : App :=
  match selectedItem st with
  | None => st
  | Some sel =>
      let st := saveUndo st in
      match sel with
      | TableE item =>
          match tableType item with
          | Rect =>
              let st := setTables (map (fun t =>
                if decide (t_id t = t_id item)
                then mkTable (t_id t) (t_x t) (t_y t) (tableType t) (seats t)
                       (t_heightFt t) (t_widthFt t)
                       (flipOrientation (orientation t)) (endSeats t)
                       (t_locked t) (t_assignments t)
                else t)) st in
              setStatus "Table rotated" st
          | Round =>
              let total := seats item in
              let st :=
                if (0 <? total)%nat && (0 <? size (t_assignments item))%nat then
                  let newAssign := rotateSeatsAssign total (t_assignments item) in
                  setTables (mapById (t_id item) (t_with_assignments newAssign)) st
                else st in
              setStatus "Seats rotated" st
          end
      | BlockE item =>
          let oldRows := rows item in
          let oldCols := cols item in
          let newAssign := rotateBlockAssign oldRows oldCols (b_assignments item) in
          let st := setChairBlocks (map (fun b =>
            if decide (b_id b = b_id item)
            then mkBlock (b_id b) (b_x b) (b_y b) oldCols oldRows (spacing b)
                   (b_locked b) newAssign
            else b)) st in
          setStatus "Block rotated" st
      | VenueE item =>
          let st := setVenueElements (map (fun e =>
            if decide (v_id e = v_id item)
            then mkVenue (v_id e) (v_x e) (v_y e) (v_heightFt e) (v_widthFt e)
                   (v_locked e)
            else e)) st in
          setStatus "Element rotated" st
      end
  end.

(** ** Snap engine *)

(** [snap]: the nearest multiple of [gridSize]. *)
Definition snap (cfg : Settings) (v : Q) : Q :=
  if snapEnabled cfg && Qgtb (gridSize cfg) 0
  then (Math_round (v / gridSize cfg) * gridSize cfg)%Q
  else v.

(** [snapEntityPos].  The source takes the entity and its kind tag side by
    side; every caller passes the tag of that entity, so the model reads
    the tag off the entity. *)
Definition snapEntityPos (cfg : Settings) (rawX rawY : Q) (entity : Entity) : Q * Q :=
  if negb (snapEnabled cfg) || Qle_bool (gridSize cfg) 0 then (rawX, rawY)
  else
    let isRound :=
      match entity with
      | TableE t => bool_decide (tableType t = Round)
      | _ => false
      end in
    if isRound then (snap cfg rawX, snap cfg rawY)
    else
      let corner (w h : Q) :=
        let tlx := snap cfg (rawX - w / 2) in
        let tly := snap cfg (rawY - h / 2) in
        (tlx + w / 2, tly + h / 2)%Q in
      match entity with
      | BlockE _ => (snap cfg rawX, snap cfg rawY)
      | TableE t => corner (t_widthFt t) (t_heightFt t)
      | VenueE v => corner (v_widthFt v) (v_heightFt v)
      end.

Definition pxToFt (cfg : Settings) (px : Q) : Q := (px / scale cfg)%Q.

(** ** Drag gestures *)

Definition sameEntity (a b : Entity) : bool :=
  bool_decide (entityType a = entityType b) && bool_decide (e_id a = e_id b).

(** [tables.find(e => e.id === i.id) || i], per kind. *)
Definition latestOf (d : Doc) (i : Entity) : Entity :=
  match i with
  | TableE t =>
      from_option TableE i
        (List.find (fun e => bool_decide (t_id e = t_id t)) (tables d))
  | BlockE b =>
      from_option BlockE i
        (List.find (fun e => bool_decide (b_id e = b_id b)) (chairBlocks d))
  | VenueE v =>
      from_option VenueE i
        (List.find (fun e => bool_decide (v_id e = v_id v)) (venueElements d))
  end.

(** [handleCanvasMouseDown] when [hitTest] returns [hit] (no ghost, no
    attendee drag, no resize handle under the pointer).  In a multi-drag
    [dragRef.current] has no [origX]/[origY]; the model stores [0] there,
    which the multi-drag branch never reads. *)
Definition handleCanvasMouseDown_hit (x y : Q) (hit : Entity) (ctrlHeld : bool)
    (st : App) : App :=
  let isInMulti :=
    (1 <? length (selectedItems st))%nat && existsb (sameEntity hit) (selectedItems st) in
  if ctrlHeld then
    setSelectedItems
      (if existsb (sameEntity hit) (selectedItems st)
       then List.filter (fun i => negb (sameEntity hit i)) (selectedItems st)
       else selectedItems st ++ [hit]) st
  else if isInMulti then
    let origPositions :=
      map (fun i => let latest := latestOf (doc st) i in
                    mkDragItem (entityType i) (e_id i) (e_x latest) (e_y latest))
          (selectedItems st) in
    setDragging true
      (setDragRef (mkDragRef x y None 0 0 (Some origPositions) false) st)
  else
    setDragging true
      (setDragRef (mkDragRef x y (Some hit) (e_x hit) (e_y hit) None false)
         (setSelectedItems [] (setSelectedItem (Some hit) st))).

(** [Math.max(0, Math.min(room, v))]. *)
Definition clampTo (room v : Q) : Q := Qmax 0 (Qmin room v).

(** [Math.abs(dx) > 0.5 || Math.abs(dy) > 0.5]. *)
Definition exceedsThreshold (dx dy : Q) : bool :=
  Qgtb (Qabs dx) (1 # 2) || Qgtb (Qabs dy) (1 # 2).

Definition markMoved (r : DragRef) : DragRef :=
  mkDragRef (startX r) (startY r) (dr_entity r) (origX r) (origY r)
            (multiDrag r) true.

(** The threshold test shared by both drag branches: on the first move
    beyond the threshold set [hasMoved] and call [saveUndo]. *)
Definition crossThreshold (dx dy : Q) (st : App) : App :=
  if negb (hasMoved (dragRef st)) && exceedsThreshold dx dy
  then saveUndo (setDragRef (markMoved (dragRef st)) st)
  else st.

(** The three [Map]s of position updates built by the multi-drag branch. *)
Definition multiDragUpdates (cfg : Settings) (dx dy : Q) (items : list DragItem)
    : gmap nat (Q * Q) * gmap nat (Q * Q) * gmap nat (Q * Q) :=
  foldl (fun '(tableUpdates, blockUpdates, venueUpdates) item =>
           let newX := clampTo (roomWidth cfg) (di_origX item + dx) in
           let newY := clampTo (roomHeight cfg) (di_origY item + dy) in
           match di_type item with
           | ETable => (<[di_id item := (newX, newY)]> tableUpdates, blockUpdates, venueUpdates)
           | EBlock => (tableUpdates, <[di_id item := (newX, newY)]> blockUpdates, venueUpdates)
           | EVenue => (tableUpdates, blockUpdates, <[di_id item := (newX, newY)]> venueUpdates)
           end)
        (∅, ∅, ∅) items.

(** [prev.map(e => updates.has(e.id) ? { ...e, ...updates.get(e.id) } : e)]. *)
Definition applyUpdates {E} (id : E -> nat) (with_pos : Q -> Q -> E -> E)
    (updates : gmap nat (Q * Q)) (prev : list E) : list E :=
  map (fun e => match updates !! id e with
                | Some (x, y) => with_pos x y e
                | None => e
                end) prev.

(** The multi-drag branch of [handleCanvasMouseMove]. *)
Definition multiDragMove (cfg : Settings) (x y : Q) (items : list DragItem)
    (st : App) : App :=
  let dx := pxToFt cfg (x - startX (dragRef st)) in
  let dy := pxToFt cfg (y - startY (dragRef st)) in
  let st := crossThreshold dx dy st in
  if hasMoved (dragRef st) then
    let '(tableUpdates, blockUpdates, venueUpdates) := multiDragUpdates cfg dx dy items in
    let st := if (0 <? size tableUpdates)%nat
              then setTables (applyUpdates t_id t_with_pos tableUpdates) st else st in
    let st := if (0 <? size blockUpdates)%nat
              then setChairBlocks (applyUpdates b_id b_with_pos blockUpdates) st else st in
    if (0 <? size venueUpdates)%nat
    then setVenueElements (applyUpdates v_id v_with_pos venueUpdates) st else st
  else st.

(** The single-entity branch of [handleCanvasMouseMove].  The array to
    update is chosen by the tag of [selectedItem], which pointer-down wrote
    together with [dragRef.current.entity]. *)
Definition singleDragMove (cfg : Settings) (x y : Q) (item sel : Entity)
    (st : App) : App :=
  if e_locked item then st
  else
    let dx := pxToFt cfg (x - startX (dragRef st)) in
    let dy := pxToFt cfg (y - startY (dragRef st)) in
    let st := crossThreshold dx dy st in
    if hasMoved (dragRef st) then
      let rawX := clampTo (roomWidth cfg) (origX (dragRef st) + dx) in
      let rawY := clampTo (roomHeight cfg) (origY (dragRef st) + dy) in
      let snapped := snapEntityPos cfg rawX rawY item in
      let move {E} (id : E -> nat) (with_pos : Q -> Q -> E -> E) :=
        map (fun e => if decide (id e = e_id item)
                      then with_pos snapped.1 snapped.2 e else e) in
      match entityType sel with
      | ETable => setTables (move t_id t_with_pos) st
      | EBlock => setChairBlocks (move b_id b_with_pos) st
      | EVenue => setVenueElements (move v_id v_with_pos) st
      end
    else st.

(** The drag branches of [handleCanvasMouseMove], in the order of the
    source: multi-drag first, then single drag.  (The ghost, pan and resize
    branches that precede them and the smart-guide overlay are modelled on
    their own further down.) *)
Definition handleCanvasMouseMove (cfg : Settings) (x y : Q) (st : App) : App :=
  match dragging st, multiDrag (dragRef st) with
  | true, Some items => multiDragMove cfg x y items st
  | true, None =>
      match dr_entity (dragRef st), selectedItem st with
      | Some item, Some sel => singleDragMove cfg x y item sel st
      | _, _ => st
      end
  | false, _ => st
  end.

(** The end of [handleCanvasMouseUp]: the gesture is released. *)
Definition handleCanvasMouseUp_release (st : App) : App :=
  setDragRef (mkDragRef 0 0 None 0 0 None false) (setDragging false st).

(** ** Seat ring of a round table ([drawTable], [seatHitTest]) *)

Local Open Scope R_scope.

(** [a = 2 * Math.PI * i / t.seats - Math.PI / 2]. *)
Definition seatAngle (n i : nat) : R := 2 * PI * INR i / INR n - PI / 2.

(** Canvas centre of a table: [offset + t.x * scale]. *)
Definition tableCentre (t : Table) (scale offsetX offsetY : Q) : R * R :=
  (Q2R (offsetX + t_x t * scale), Q2R (offsetY + t_y t * scale)).

(** [d = r + sr + seatGap] with [r = t.widthFt * scale / 2],
    [sr = 0.75 * scale] and [seatGap = Math.max(3, scale * 0.2)]. *)
Definition ringRadius (t : Table) (scale : Q) : R :=
  Q2R (t_widthFt t * scale / 2 + (3 # 4) * scale + Qmax 3 (scale * (1 # 5))).

(** The seat centres computed by the loops [for (i = 0; i < t.seats; i++)]. *)
Definition roundSeatPositions (t : Table) (scale offsetX offsetY : Q) : list (R * R) :=
  let '(cx, cy) := tableCentre t scale offsetX offsetY in
  let d := ringRadius t scale in
  map (fun i => let a := seatAngle (seats t) i in
                (cx + d * cos a, cy + d * sin a))
      (seq 0 (seats t)).

Local Close Scope R_scope.

(** ** Undo and redo *)

(** [stack.pop()]: the rest of the stack and its newest snapshot. *)
Fixpoint pop (stack : list Doc) : option (list Doc * Doc) :=
  match stack with
  | [] => None
  | d :: rest =>
      match pop rest with
      | None => Some ([], d)
      | Some (rest', top) => Some (d :: rest', top)
      end
  end.

(** [undo]: the current plan goes on the redo stack (newest 50 kept), the
    newest checkpoint becomes the plan.  The id counters and the selection
    are not part of a snapshot. *)
Definition undo (st : App) : App :=
  match pop (undoStack st) with
  | None => st
  | Some (rest, prev) =>
      mkApp prev rest (pushUndo (doc st) (redoStack st)) "Undone"
            (selectedItem st) (selectedItems st) (dragging st) (dragRef st)
  end.

(** [redo], the mirror image. *)
Definition redo (st : App) : App :=
  match pop (redoStack st) with
  | None => st
  | Some (rest, next) =>
      mkApp next (pushUndo (doc st) (undoStack st)) rest "Redone"
            (selectedItem st) (selectedItems st) (dragging st) (dragRef st)
  end.

(** ** Deleting and clearing *)

(** [performDelete].  The array is chosen by [type]; the selection is
    dropped when the selected object has the deleted id, whatever its
    kind. *)
Definition performDelete (type : EntityType) (id : nat) (st : App) : App :=
  let sel := selectedItem st in
  let st := saveUndo st in
  let st :=
    match type with
    | ETable => setTables (filter (fun t => t_id t <> id)) st
    | EBlock => setChairBlocks (filter (fun b => b_id b <> id)) st
    | EVenue => setVenueElements (filter (fun e => v_id e <> id)) st
    end in
  let st :=
    match sel with
    | Some item =>
        if decide (e_id item = id)
        then setSelectedItems [] (setSelectedItem None st)
        else st
    | None => st
    end in
  setStatus "Deleted" st.

Definition clearAllAssignments (st : App) : App :=
  let st := saveUndo st in
  let st := setTables (map (t_with_assignments ∅)) st in
  let st := setChairBlocks (map (b_with_assignments ∅)) st in
  setStatus "All assignments cleared" st.

(** ** Disabling and recalling an attendee *)

Definition setDisabledAttendees (s : gset nat) (st : App) : App :=
  let d := doc st in
  with_doc (mkDoc (tables d) (chairBlocks d) (venueElements d) s) st.

(** The loop
    [Object.entries(newA).forEach(([k, v]) => { if (v === attIdx) delete newA[k]; })]
    on a copy [newA] of the assignments. *)
Definition withoutAttendee (attIdx : nat) (a : gmap string nat) : gmap string nat :=
  foldl (fun newA kv => if decide (kv.2 = attIdx) then delete kv.1 newA else newA)
        a (entries a).

(** The updater that runs this loop on every entity. *)
Definition unseat {E} `{Seated E} (attIdx : nat) (prev : list E) : list E :=
  map (fun e => with_assignments (withoutAttendee attIdx (assignments e)) e) prev.

(** [dn]: the display name of a roster entry [[last, first]]. *)
Definition dn (nameOrder : string) (att : string * string) : string :=
  if decide (nameOrder = "firstLast") then att.2 +:+ ", " +:+ att.1
  else att.1 +:+ ", " +:+ att.2.

(** How a call of a handler ends: it returns, or it throws.  Either way
    the state is what the setters called until then have made of it. *)
Inductive Outcome :=
| Returned (st : App)
| Threw (st : App).

Definition stateOf (o : Outcome) : App :=
  match o with Returned st | Threw st => st end.

(** [toggleDisable].  The status text is built from [attendees[attIdx]];
    for an index outside the roster that is [undefined] and [dn] throws a
    TypeError: the setters called before stand, [setStatus] and
    [setDisabledAttendees] are not reached.  No undo checkpoint is taken. *)
Definition toggleDisable (nameOrder : string) (attendees : list (string * string))
    (attIdx : nat) (st : App) : Outcome :=
  let newDisabled := disabledAttendees (doc st) in
  if decide (attIdx ∈ newDisabled) then
    match attendees !! attIdx with
    | Some att =>
        Returned (setDisabledAttendees (newDisabled ∖ {[attIdx]})
                    (setStatus ("Enabled: " +:+ dn nameOrder att) st))
    | None => Threw st
    end
  else
    let st := setTables (unseat attIdx) st in
    let st := setChairBlocks (unseat attIdx) st in
    match attendees !! attIdx with
    | Some att =>
        Returned (setDisabledAttendees (newDisabled ∪ {[attIdx]})
                    (setStatus ("Disabled: " +:+ dn nameOrder att) st))
    | None => Threw st
    end.

(** What an [unseat] updater leaves in the flag [found] once it has run. *)
Definition seatedIn {E} `{Seated E} (attIdx : nat) (prev : list E) : bool :=
  existsb (fun e => bool_decide (attIdx ∈ values (assignments e))) prev.

(** [recallAttendee].  The flag [found] is written inside the updaters and
    read right after they are queued; [tablesRanAtOnce] and
    [blocksRanAtOnce] say whether React had run the respective updater by
    then (cf. [moveSeatToSeat]).  [name] stands for [dn(attendees[attIdx])],
    which is evaluated last, after every setter of the plan has been
    called, and only when [found] is set. *)
Definition recallAttendee (tablesRanAtOnce blocksRanAtOnce : bool)
    (name : string) (attIdx : nat) (st : App) : App :=
  let st := saveUndo st in
  let found := tablesRanAtOnce && seatedIn attIdx (tables (doc st)) in
  let st := setTables (unseat attIdx) st in
  if found then setStatus ("Recalled: " +:+ name) st
  else
    let found := blocksRanAtOnce && seatedIn attIdx (chairBlocks (doc st)) in
    let st := setChairBlocks (unseat attIdx) st in
    setStatus (if found then "Recalled: " +:+ name else "Not seated") st.

(** ** Automatic assignment *)

(** One entry of [emptySeats]. *)
Record OpenSeat := mkOpenSeat {
  os_type : EntityType;
  os_id : nat;
  os_key : string
}.

(** The free seats of the plan: tables first, then chair blocks, each in
    seat order. *)
Definition emptySeats (d : Doc) : list OpenSeat :=
  (t ← tables d;
   (fun i => mkOpenSeat ETable (t_id t) (numToString i)) <$>
   filter (fun i => t_assignments t !! numToString i = None)
          (seq 0 (getTableTotalSeats t)))
  ++
  (b ← chairBlocks d;
   (fun key => mkOpenSeat EBlock (b_id b) key) <$>
   filter (fun key => b_assignments b !! key = None) (blockSeatKeys b)).

(** [tAssign] and [bAssign]: a copy of every assignments object, keyed by
    entity id. *)
Definition assignmentsById {E} `{Seated E} (l : list E) : gmap nat (gmap string nat) :=
  foldl (fun m e => <[ent_id e := assignments e]> m) ∅ l.

(** One round of the filling loop: [attIdx] takes the seat shifted off
    [emptySeats].  Every seat of [emptySeats] belongs to an entity of the
    plan, so [tAssign[seat.id]] exists. *)
Definition fillSeat
    (acc : gmap nat (gmap string nat) * gmap nat (gmap string nat) * nat)
    (p : nat * OpenSeat)
    : gmap nat (gmap string nat) * gmap nat (gmap string nat) * nat :=
  let '(tAssign, bAssign, count) := acc in
  match os_type p.2 with
  | ETable => (alter (<[os_key p.2 := p.1]>) (os_id p.2) tAssign, bAssign, S count)
  | _ => (tAssign, alter (<[os_key p.2 := p.1]>) (os_id p.2) bAssign, S count)
  end.

(** The roster indices that are neither seated nor disabled. *)
Definition unassignedOf (rosterSize : nat) (st : App) : list nat :=
  filter (fun i => (i ∉ assigned st) /\ (i ∉ disabledAttendees (doc st)))
         (seq 0 rosterSize).

(** [tAssign[e.id] || e.assignments]. *)
Definition takeAssignments {E} `{Seated E} (byId : gmap nat (gmap string nat))
    (prev : list E) : list E :=
  map (fun e => with_assignments (default (assignments e) (byId !! ent_id e)) e) prev.

(** [autoAssign].  [rosterSize] is [attendees.length]; [order] is what the
    chosen mode does to the list of unassigned attendees: nothing
    (['fill']), a sort by name (['alpha']) or a sort with a random
    comparator (['random']). *)
Definition autoAssign (order : list nat -> list nat) (rosterSize : nat)
    (st : App) : App :=
  let d := doc st in
  let unassigned := unassignedOf rosterSize st in
  let st := saveUndo st in
  if decide (unassigned = []) then setStatus "No unassigned attendees" st
  else
    let unassigned := order unassigned in
    let '(tAssign, bAssign, count) :=
      foldl fillSeat
            (assignmentsById (tables d), assignmentsById (chairBlocks d), 0%nat)
            (zip unassigned (emptySeats d)) in
    let st := setTables (takeAssignments tAssign) st in
    let st := setChairBlocks (takeAssignments bAssign) st in
    setStatus ("Auto-assigned " +:+ numToString count +:+ " attendees") st.

(** ** Locking *)

Definition t_with_locked (l : bool) (t : Table) : Table :=
  mkTable (t_id t) (t_x t) (t_y t) (tableType t) (seats t) (t_widthFt t)
          (t_heightFt t) (orientation t) (endSeats t) l (t_assignments t).

Definition b_with_locked (l : bool) (b : ChairBlock) : ChairBlock :=
  mkBlock (b_id b) (b_x b) (b_y b) (rows b) (cols b) (spacing b) l
          (b_assignments b).

Definition v_with_locked (l : bool) (v : VenueElement) : VenueElement :=
  mkVenue (v_id v) (v_x v) (v_y v) (v_widthFt v) (v_heightFt v) l.

(** [toggleLock]: the new flag is computed from the selected object, written
    to the entity of that id and to the selection. *)
Definition toggleLock (st : App) : App :=
  match selectedItem st with
  | None => st
  | Some sel =>
      let st := saveUndo st in
      let newLocked := negb (e_locked sel) in
      let st :=
        match sel with
        | TableE item =>
            setSelectedItem (Some (TableE (t_with_locked newLocked item)))
              (setTables (map (fun t => if decide (t_id t = t_id item)
                                        then t_with_locked newLocked t else t)) st)
        | BlockE item =>
            setSelectedItem (Some (BlockE (b_with_locked newLocked item)))
              (setChairBlocks (map (fun b => if decide (b_id b = b_id item)
                                             then b_with_locked newLocked b else b)) st)
        | VenueE item =>
            setSelectedItem (Some (VenueE (v_with_locked newLocked item)))
              (setVenueElements (map (fun e => if decide (v_id e = v_id item)
                                               then v_with_locked newLocked e else e)) st)
        end in
      setStatus (if newLocked then "Locked" else "Unlocked") st
  end.

(** ** Adding and copying entities *)

(** The state around [App]: the id counters and the entity waiting to be
    placed ([ghostEntity]; [ghostType] is its kind tag). *)
Record Editor := mkEditor {
  appState : App;
  nextTableId : nat;
  nextBlockId : nat;
  nextElementId : nat;
  ghostEntity : option Entity
}.

Definition with_app (st : App) (ed : Editor) : Editor :=
  mkEditor st (nextTableId ed) (nextBlockId ed) (nextElementId ed) (ghostEntity ed).

(** [opts.field || fallback] on numbers: [0] and [NaN] (here [None]) give
    the fallback. *)
Definition orNat (v : option nat) (fallback : nat) : nat :=
  match v with
  | Some (S n) => S n
  | _ => fallback
  end.

Definition orQ (v : option Q) (fallback : Q) : Q :=
  match v with
  | Some q => if Qeq_bool q 0 then fallback else q
  | None => fallback
  end.

Definition createTable (id : nat) (x y : Q) (kind : TableType)
    (nSeats : option nat) (widthFt heightFt : option Q) (orient : Orientation)
    (nEnd : option nat) : Table :=
  mkTable id x y kind (orNat nSeats 8) (orQ widthFt 5) (orQ heightFt 5) orient
          (orNat nEnd 0) false ∅.

Definition createChairBlock (id : nat) (x y : Q) (nRows nCols : option nat)
    (sp : Spacing) : ChairBlock :=
  mkBlock id x y (orNat nRows 3) (orNat nCols 4) sp false ∅.

Definition createVenueElement (id : nat) (x y : Q) (widthFt heightFt : option Q)
    : VenueElement :=
  mkVenue id x y (orQ widthFt 10) (orQ heightFt 10) false.

(** The form handed to [confirmAdd], after [Number(...)] of its fields. *)
Inductive AddForm :=
| RoundTableForm (nSeats : option nat) (diameter : option Q)
| RectTableForm (nSeats : option nat) (length width : option Q)
    (orient : Orientation) (nEnd : option nat)
| ChairBlockForm (nRows nCols : option nat) (sp : Spacing)
| VenueForm (widthFt heightFt : option Q).

(** [confirmAdd]: the new entity, carrying the current value of its kind's
    counter as id, becomes the ghost at the centre of the room. *)
Definition confirmAdd (cfg : Settings) (form : AddForm) (ed : Editor) : Editor :=
  let x := (roomWidth cfg / 2)%Q in
  let y := (roomHeight cfg / 2)%Q in
  let entity :=
    match form with
    | RoundTableForm nSeats diameter =>
        TableE (createTable (nextTableId ed) x y Round nSeats diameter diameter
                            Horizontal None)
    | RectTableForm nSeats len wid orient nEnd =>
        TableE (createTable (nextTableId ed) x y Rect nSeats
                  (match orient with Horizontal => len | Vertical => wid end)
                  (match orient with Horizontal => wid | Vertical => len end)
                  orient nEnd)
    | ChairBlockForm nRows nCols sp =>
        BlockE (createChairBlock (nextBlockId ed) x y nRows nCols sp)
    | VenueForm widthFt heightFt =>
        VenueE (createVenueElement (nextElementId ed) x y widthFt heightFt)
    end in
  mkEditor (setStatus "Click canvas to place" (appState ed))
           (nextTableId ed) (nextBlockId ed) (nextElementId ed) (Some entity).

(** The ghost branch of [handleCanvasMouseDown]: the ghost is placed where
    the pointer is, snapped, and its kind's counter moves on.  Without a
    ghost the other branches of the handler apply. *)
Definition handleCanvasMouseDown_ghost (cfg : Settings) (offsetX offsetY x y : Q)
    (ed : Editor) : Editor :=
  match ghostEntity ed with
  | None => ed
  | Some ghost =>
      let snapped := snapEntityPos cfg (pxToFt cfg (x - offsetX))
                                   (pxToFt cfg (y - offsetY)) ghost in
      let st := saveUndo (appState ed) in
      match ghost with
      | TableE g =>
          let placed := t_with_pos snapped.1 snapped.2 g in
          mkEditor (setStatus "Placed" (setTables (fun prev => prev ++ [placed]) st))
                   (S (nextTableId ed)) (nextBlockId ed) (nextElementId ed) None
      | BlockE g =>
          let placed := b_with_pos snapped.1 snapped.2 g in
          mkEditor (setStatus "Placed" (setChairBlocks (fun prev => prev ++ [placed]) st))
                   (nextTableId ed) (S (nextBlockId ed)) (nextElementId ed) None
      | VenueE g =>
          let placed := v_with_pos snapped.1 snapped.2 g in
          mkEditor (setStatus "Placed" (setVenueElements (fun prev => prev ++ [placed]) st))
                   (nextTableId ed) (nextBlockId ed) (S (nextElementId ed)) None
      end
  end.

(** The ghost branch of [handleCanvasMouseMove]: the ghost follows the
    pointer, snapped. *)
Definition e_with_pos (x y : Q) (e : Entity) : Entity :=
  match e with
  | TableE t => TableE (t_with_pos x y t)
  | BlockE b => BlockE (b_with_pos x y b)
  | VenueE v => VenueE (v_with_pos x y v)
  end.

Definition handleCanvasMouseMove_ghost (cfg : Settings) (offsetX offsetY x y : Q)
    (ed : Editor) : Editor :=
  match ghostEntity ed with
  | None => ed
  | Some ghost =>
      let snapped := snapEntityPos cfg (pxToFt cfg (x - offsetX))
                                   (pxToFt cfg (y - offsetY)) ghost in
      mkEditor (appState ed) (nextTableId ed) (nextBlockId ed) (nextElementId ed)
               (Some (e_with_pos snapped.1 snapped.2 ghost))
  end.

(** [cancelGhost]: drop the ghost, or the selection when there is none. *)
Definition cancelGhost (ed : Editor) : Editor :=
  match ghostEntity ed with
  | Some _ =>
      mkEditor (setStatus "Cancelled placement" (appState ed))
               (nextTableId ed) (nextBlockId ed) (nextElementId ed) None
  | None =>
      with_app (setSelectedItems [] (setSelectedItem None (appState ed))) ed
  end.

(** [copySelected]: a copy of the selected object, 3 ft down and right,
    with a fresh id and no assignments, is appended and selected. *)
Definition copySelected (ed : Editor) : Editor :=
  match selectedItem (appState ed) with
  | None => ed
  | Some sel =>
      let st := saveUndo (appState ed) in
      match sel with
      | TableE item =>
          let newT := mkTable (nextTableId ed) (t_x item + 3) (t_y item + 3)
                        (tableType item) (seats item) (t_widthFt item)
                        (t_heightFt item) (orientation item) (endSeats item)
                        (t_locked item) ∅ in
          mkEditor (setStatus "Copied"
                      (setSelectedItem (Some (TableE newT))
                         (setTables (fun prev => prev ++ [newT]) st)))
                   (S (nextTableId ed)) (nextBlockId ed) (nextElementId ed)
                   (ghostEntity ed)
      | BlockE item =>
          let newB := mkBlock (nextBlockId ed) (b_x item + 3) (b_y item + 3)
                        (rows item) (cols item) (spacing item) (b_locked item) ∅ in
          mkEditor (setStatus "Copied"
                      (setSelectedItem (Some (BlockE newB))
                         (setChairBlocks (fun prev => prev ++ [newB]) st)))
                   (nextTableId ed) (S (nextBlockId ed)) (nextElementId ed)
                   (ghostEntity ed)
      | VenueE item =>
          let newE := mkVenue (nextElementId ed) (v_x item + 3) (v_y item + 3)
                        (v_widthFt item) (v_heightFt item) (v_locked item) in
          mkEditor (setStatus "Copied"
                      (setSelectedItem (Some (VenueE newE))
                         (setVenueElements (fun prev => prev ++ [newE]) st)))
                   (nextTableId ed) (nextBlockId ed) (S (nextElementId ed))
                   (ghostEntity ed)
      end
  end.


(** ** The view: scale, offsets and zoom *)

(** [a < b] on numbers. *)
Definition Qltb (a b : Q) : bool := negb (Qle_bool b a).

(** The canvas size, the zoom level in percent and the pan offset. *)
Record View := mkView {
  canvasW : Q;
  canvasH : Q;
  zoomLevel : Z;
  panX : Q;
  panY : Q
}.

(** [Math.max(2, Math.min((cw - 80) / roomWidth, (ch - 80) / roomHeight))].
    The room is [rw] x [rh] ft; a room side of [0] gives [Infinity] in the
    source and is outside the model. *)
Definition baseScale (rw rh : Q) (v : View) : Q :=
  Qmax 2 (Qmin ((canvasW v - 80) / rw) ((canvasH v - 80) / rh))%Q.

(** [zoom === 100 ? base : base * zoom / 100]. *)
Definition zoomed (base : Q) (zoom : Z) : Q :=
  if (zoom =? 100)%Z then base else (base * inject_Z zoom / 100)%Q.

(** The memo [scale]: pixels per foot. *)
Definition viewScale (rw rh : Q) (v : View) : Q :=
  if Qltb (canvasW v) 10 || Qltb (canvasH v) 10 then 10
  else zoomed (baseScale rw rh v) (zoomLevel v).

(** The memos [offsetX] and [offsetY]: the canvas position of the room's
    top-left corner. *)
Definition viewOffsetX (rw rh : Q) (v : View) : Q :=
  ((canvasW v - rw * viewScale rw rh v) / 2 + panX v)%Q.

Definition viewOffsetY (rw rh : Q) (v : View) : Q :=
  ((canvasH v - rh * viewScale rw rh v) / 2 + panY v)%Q.

(** The zoom steps of the wheel handler and of the [+] and [-] buttons. *)
Definition zoomIn (zoom : Z) : Z :=
  Z.min 400 (if (zoom =? 100)%Z then 125 else zoom + 25)%Z.

Definition zoomOut (zoom : Z) : Z :=
  Z.max 25 (if (100 <? zoom)%Z then zoom - 25
            else if (zoom =? 100)%Z then 75 else zoom - 25)%Z.

(** The wheel handler with Ctrl or Meta held: zoom one step in
    ([deltaY < 0]) or out, and pan so that the point under the cursor
    [(mx, my)] stays put. *)
Definition handleWheel (rw rh : Q) (mx my deltaY : Q) (v : View) : View :=
  let curScale := viewScale rw rh v in
  let curOffX := ((canvasW v - rw * curScale) / 2 + panX v)%Q in
  let curOffY := ((canvasH v - rh * curScale) / 2 + panY v)%Q in
  let worldX := ((mx - curOffX) / curScale)%Q in
  let worldY := ((my - curOffY) / curScale)%Q in
  let newZoom := if Qltb deltaY 0 then zoomIn (zoomLevel v)
                 else zoomOut (zoomLevel v) in
  let base := baseScale rw rh v in
  let newScale := zoomed base newZoom in
  let newBaseOffX := ((canvasW v - rw * newScale) / 2)%Q in
  let newBaseOffY := ((canvasH v - rh * newScale) / 2)%Q in
  let newPanX := (mx - worldX * newScale - newBaseOffX)%Q in
  let newPanY := (my - worldY * newScale - newBaseOffY)%Q in
  mkView (canvasW v) (canvasH v) newZoom newPanX newPanY.

(** ** Seats of a rectangular table ([getRectSeatPositions]) *)

(** [spread(n, halfLen)]: [n] seats edge to edge along a side of
    half-length [halfLen]; [sr] and [gap] are the seat radius and the seat
    gap of the enclosing function. *)
Definition spread (sr gap : Q) (n : nat) (halfLen : Q) : list Q :=
  match n with
  | O => []
  | S O => [0%Q]
  | _ =>
      let pad := Qmin (sr + gap * (7 # 10)) (halfLen * (1 # 4))%Q in
      let span := (2 * halfLen - 2 * pad)%Q in
      map (fun i => (- halfLen + pad +
                     inject_Z (Z.of_nat i) * span / inject_Z (Z.of_nat (n - 1)))%Q)
          (seq 0 n)
  end.

(** Seat centres relative to the table centre, in pixels: the seats of
    the two long sides in facing pairs, then the end seats. *)
Definition getRectSeatPositions (t : Table) (scale : Q) : list (Q * Q) :=
  let hw := (t_widthFt t * scale / 2)%Q in
  let hh := (t_heightFt t * scale / 2)%Q in
  let sr := ((3 # 4) * scale)%Q in
  let gap := Qmax 3 (scale * (1 # 5))%Q in
  let alongX (xs : list Q) :=
    xs ≫= (fun dx => [(dx, - hh - sr - gap); (dx, hh + sr + gap)]%Q) in
  let alongY (ys : list Q) :=
    ys ≫= (fun dy => [(- hw - sr - gap, dy); (hw + sr + gap, dy)]%Q) in
  match orientation t with
  | Horizontal =>
      alongX (spread sr gap (seats t) hw) ++ alongY (spread sr gap (endSeats t) hh)
  | Vertical =>
      alongY (spread sr gap (seats t) hh) ++ alongX (spread sr gap (endSeats t) hw)
  end.

(** ** Hit tests ([canvasRenderer.js]) *)

(** [getBlockDimensions]. *)
Definition getBlockDimensions (b : ChairBlock) : Q * Q :=
  (inject_Z (Z.of_nat (cols b)) * getBlockChairSpacing b,
   inject_Z (Z.of_nat (rows b)) * getBlockChairSpacing b)%Q.

(** What the hit tests read of the canvas state. *)
Record Canvas := mkCanvas {
  c_scale : Q;
  c_offsetX : Q;
  c_offsetY : Q
}.

(** [Math.hypot(dx, dy) < r] without the square root. *)
Definition hypotLt (dx dy r : Q) : bool :=
  Qltb 0 r && Qltb (dx * dx + dy * dy) (r * r).

(** [x >= l && x <= r && y >= t && y <= b]. *)
Definition inRect (x y l r t b : Q) : bool :=
  Qle_bool l x && Qle_bool x r && Qle_bool t y && Qle_bool y b.

Definition tableHit (c : Canvas) (x y : Q) (t : Table) : bool :=
  let cx := (c_offsetX c + t_x t * c_scale c)%Q in
  let cy := (c_offsetY c + t_y t * c_scale c)%Q in
  match tableType t with
  | Round =>
      let r := (t_widthFt t * c_scale c / 2 + (3 # 4) * c_scale c + 5)%Q in
      hypotLt (x - cx) (y - cy) r
  | Rect =>
      let hw := (t_widthFt t * c_scale c / 2 + (3 # 4) * c_scale c + 5)%Q in
      let hh := (t_heightFt t * c_scale c / 2 + (3 # 4) * c_scale c + 5)%Q in
      inRect x y (cx - hw) (cx + hw) (cy - hh) (cy + hh)
  end.

Definition blockHit (c : Canvas) (x y : Q) (b : ChairBlock) : bool :=
  let dims := getBlockDimensions b in
  let bx := (c_offsetX c + b_x b * c_scale c)%Q in
  let by_ := (c_offsetY c + b_y b * c_scale c)%Q in
  let bw := (dims.1 * c_scale c)%Q in
  let bh := (dims.2 * c_scale c)%Q in
  inRect x y (bx - 5) (bx + bw + 5) (by_ - 15) (by_ + bh + 5).

Definition venueHit (c : Canvas) (x y : Q) (e : VenueElement) : bool :=
  let ex := (c_offsetX c + v_x e * c_scale c)%Q in
  let ey := (c_offsetY c + v_y e * c_scale c)%Q in
  let hw := (v_widthFt e * c_scale c / 2)%Q in
  let hh := (v_heightFt e * c_scale c / 2)%Q in
  inRect x y (ex - hw) (ex + hw) (ey - hh) (ey + hh).

(** The loops [for (i = l.length - 1; i >= 0; i--)]: the last element of
    the list that passes the test. *)
Definition findLast {A} (p : A -> bool) (l : list A) : option A :=
  List.find p (rev l).

(** [hitTest]: tables first, then chair blocks, then venue elements. *)
Definition hitTest (c : Canvas) (x y : Q) (d : Doc) : option Entity :=
  match findLast (tableHit c x y) (tables d) with
  | Some t => Some (TableE t)
  | None =>
      match findLast (blockHit c x y) (chairBlocks d) with
      | Some b => Some (BlockE b)
      | None => VenueE <$> findLast (venueHit c x y) (venueElements d)
      end
  end.

(** [isSelected]: the multi-selection decides when it is not empty. *)
Definition isSelected (entity : Entity) (st : App) : bool :=
  match selectedItems st with
  | _ :: _ => existsb (fun i => sameEntity i entity) (selectedItems st)
  | [] =>
      match selectedItem st with
      | Some i => sameEntity i entity
      | None => false
      end
  end.

(** The four corners of a venue element on the canvas, in the order
    top-left, top-right, bottom-left, bottom-right. *)
Definition corners (c : Canvas) (e : VenueElement) : list (Q * Q) :=
  let cx := (c_offsetX c + v_x e * c_scale c)%Q in
  let cy := (c_offsetY c + v_y e * c_scale c)%Q in
  let hw := (v_widthFt e * c_scale c / 2)%Q in
  let hh := (v_heightFt e * c_scale c / 2)%Q in
  [(cx - hw, cy - hh); (cx + hw, cy - hh); (cx - hw, cy + hh); (cx + hw, cy + hh)]%Q.

(** The first index of [l] whose element passes the test. *)
Fixpoint findIndex {A} (p : A -> bool) (l : list A) : option nat :=
  match l with
  | [] => None
  | a :: l' => if p a then Some 0 else S <$> findIndex p l'
  end.

(** The first element of [l] on which [f] answers. *)
Fixpoint firstSome {A B} (f : A -> option B) (l : list A) : option B :=
  match l with
  | [] => None
  | a :: l' => match f a with Some b => Some b | None => firstSome f l' end
  end.

(** [resizeHandleHitTest]: a corner handle of a selected, unlocked venue
    element under the pointer. *)
Definition resizeHandleHitTest (c : Canvas) (x y : Q) (st : App)
    : option (VenueElement * nat) :=
  let hs := Qmax 6 (c_scale c * (35 # 100))%Q in
  let hitR := (hs / 2 + 4)%Q in
  firstSome
    (fun e =>
       if v_locked e then None
       else if negb (isSelected (VenueE e) st) then None
       else (fun corner => (e, corner)) <$>
            findIndex (fun h => inRect x y (h.1 - hitR) (h.1 + hitR)
                                       (h.2 - hitR) (h.2 + hitR))
                      (corners c e))
    (rev (venueElements (doc st))).

(** ** Resizing a venue element *)

(** [resizeRef.current]. *)
Record ResizeRef := mkResizeRef {
  rz_entityId : nat;
  rz_corner : nat;
  anchorX : Q;
  anchorY : Q;
  origW : Q;
  origH : Q
}.

(** [anchorMap[corner]]: the corner opposite to the grabbed one, in feet
    (corners are numbered 0 to 3). *)
Definition resizeAnchor (ve : VenueElement) (corner : nat) : Q * Q :=
  let hw := (v_widthFt ve / 2)%Q in
  let hh := (v_heightFt ve / 2)%Q in
  match corner with
  | 0%nat => (v_x ve + hw, v_y ve + hh)%Q
  | 1%nat => (v_x ve - hw, v_y ve + hh)%Q
  | 2%nat => (v_x ve + hw, v_y ve - hh)%Q
  | _ => (v_x ve - hw, v_y ve - hh)%Q
  end.

(** The resize branch of [handleCanvasMouseDown]: a checkpoint is taken
    and the anchor stored. *)
Definition handleCanvasMouseDown_resize (ve : VenueElement) (corner : nat)
    (st : App) : ResizeRef * App :=
  let anchor := resizeAnchor ve corner in
  (mkResizeRef (v_id ve) corner anchor.1 anchor.2 (v_widthFt ve) (v_heightFt ve),
   setDragging true (saveUndo st)).

(** The size along one axis: at least [MIN_SIZE = 2] ft, rounded to the
    grid when snapping is on. *)
Definition resizedLength (cfg : Settings) (world anchor : Q) : Q :=
  let newW := Qmax 2 (Qabs (world - anchor)) in
  if snapEnabled cfg && Qgtb (gridSize cfg) 0
  then Qmax 2 (Math_round (newW / gridSize cfg) * gridSize cfg)%Q
  else newW.

(** The centre along one axis: half the size away from the anchor, on the
    pointer's side. *)
Definition resizedCentre (world anchor newW : Q) : Q :=
  (anchor + (if Qle_bool anchor world then newW / 2 else - newW / 2))%Q.

(** The resize branch of [handleCanvasMouseMove]. *)
Definition handleCanvasMouseMove_resize (cfg : Settings) (c : Canvas) (x y : Q)
    (rz : ResizeRef) (st : App) : App :=
  let worldX := pxToFt cfg (x - c_offsetX c) in
  let worldY := pxToFt cfg (y - c_offsetY c) in
  let newW := resizedLength cfg worldX (anchorX rz) in
  let newH := resizedLength cfg worldY (anchorY rz) in
  let newCx := resizedCentre worldX (anchorX rz) newW in
  let newCy := resizedCentre worldY (anchorY rz) newH in
  setVenueElements
    (map (fun v => if decide (v_id v = rz_entityId rz)
                   then mkVenue (v_id v) newCx newCy newW newH (v_locked v)
                   else v)) st.


(** ** Editing an entity ([confirmEdit]) *)

(** The form handed to [confirmEdit], after [Number(...)] of its fields;
    the number inputs of the dialog give numbers.  Name and colour are not
    part of the model. *)
Inductive EditForm :=
| EditRoundTable (nSeats : nat) (diameter : Q)
| EditRectTable (nSeats : nat) (length width : Q) (orient : option Orientation)
    (nEnd : nat)
| EditChairBlock (nRows nCols : nat) (sp : Spacing)
| EditVenue (widthFt heightFt : Q).

(** [entity.orientation].  An entity without the field gives [undefined];
    every reader of [orientation] compares it with ['horizontal'], so that
    [undefined] reads as [Vertical]. *)
Definition entityOrientation (entity : Entity) : Orientation :=
  match entity with
  | TableE t => orientation t
  | _ => Vertical
  end.

(** [confirmEdit]: the branch is chosen by the kind of form, the records to
    update by [entity.id]; [entity] is the snapshot held by the dialog. *)
Definition confirmEdit (form : EditForm) (entity : Entity) (st : App) : App :=
  let st := saveUndo st in
  let st :=
    match form with
    | EditRoundTable nSeats diameter =>
        setTables (map (fun t =>
          if decide (t_id t = e_id entity)
          then mkTable (t_id t) (t_x t) (t_y t) (tableType t) nSeats diameter diameter
                       (orientation t) (endSeats t) (t_locked t) (t_assignments t)
          else t)) st
    | EditRectTable nSeats len wid orient nEnd =>
        let orient := default (entityOrientation entity) orient in
        setTables (map (fun t =>
          if decide (t_id t = e_id entity)
          then mkTable (t_id t) (t_x t) (t_y t) (tableType t) nSeats
                       (match orient with Horizontal => len | Vertical => wid end)
                       (match orient with Horizontal => wid | Vertical => len end)
                       orient nEnd (t_locked t) (t_assignments t)
          else t)) st
    | EditChairBlock nRows nCols sp =>
        setChairBlocks (map (fun b =>
          if decide (b_id b = e_id entity)
          then mkBlock (b_id b) (b_x b) (b_y b) nRows nCols sp (b_locked b)
                       (b_assignments b)
          else b)) st
    | EditVenue widthFt heightFt =>
        setVenueElements (map (fun e =>
          if decide (v_id e = e_id entity)
          then mkVenue (v_id e) (v_x e) (v_y e) widthFt heightFt (v_locked e)
          else e)) st
    end in
  setStatus "Updated" (setSelectedItem None st).

(** ** Panning the view *)

(** [panRef.current]. *)
Record PanRef := mkPanRef {
  pan_active : bool;
  pan_startX : Q;
  pan_startY : Q;
  origPanX : Q;
  origPanY : Q;
  pan_hasMoved : bool
}.

(** The state around [App] that a pan gesture reads and writes. *)
Record Viewport := mkViewport {
  vp_app : App;
  view : View;
  panRef : PanRef
}.

(** The last branch of [handleCanvasMouseDown]: the pointer is down on
    empty canvas, at client position [(clientX, clientY)]. *)
Definition handleCanvasMouseDown_pan (clientX clientY : Q) (vp : Viewport) : Viewport :=
  mkViewport (setDragging true (vp_app vp)) (view vp)
             (mkPanRef true clientX clientY (panX (view vp)) (panY (view vp)) false).

(** The pan branch of [handleCanvasMouseMove].  Without an active pan the
    later branches of the handler apply. *)
Definition handleCanvasMouseMove_pan (clientX clientY : Q) (vp : Viewport) : Viewport :=
  let r := panRef vp in
  if pan_active r then
    let dx := (clientX - pan_startX r)%Q in
    let dy := (clientY - pan_startY r)%Q in
    let moved := pan_hasMoved r || (Qgtb (Qabs dx) 3 || Qgtb (Qabs dy) 3) in
    let r := mkPanRef (pan_active r) (pan_startX r) (pan_startY r)
                      (origPanX r) (origPanY r) moved in
    if moved
    then mkViewport (vp_app vp)
                    (mkView (canvasW (view vp)) (canvasH (view vp)) (zoomLevel (view vp))
                            (origPanX r + dx) (origPanY r + dy))
                    r
    else mkViewport (vp_app vp) (view vp) r
  else vp.

(** The pan branch of [handleCanvasMouseUp]: a press on empty canvas that
    did not pan clears the selection. *)
Definition handleCanvasMouseUp_pan (vp : Viewport) : Viewport :=
  let r := panRef vp in
  if pan_active r then
    let didPan := pan_hasMoved r in
    let st := setDragging false (vp_app vp) in
    let st := if didPan then st else setSelectedItems [] (setSelectedItem None st) in
    mkViewport st (view vp) (mkPanRef false 0 0 0 0 false)
  else vp.

(** ** CSV export ([exportCSV]) *)

Inductive ExportFormat := Flat | Checkin | ByTable.

(** [name || fallback]: an entity's own name unless it is empty.  The
    records of the model leave [name] out; the export takes each table and
    chair block together with its name. *)
Definition orName (name fallback : string) : string :=
  if decide (name = "") then fallback else name.

Definition tableName (e : string * Table) : string :=
  orName e.1 ("Table " +:+ numToString (t_id e.2)).

Definition blockName (e : string * ChairBlock) : string :=
  orName e.1 ("Section " +:+ numToString (b_id e.2)).

(** A number plus one as the template literal of the last line prints it;
    [NaN] stays [NaN]. *)
Definition plusOne (v : option nat) : string :=
  match v with
  | Some n => numToString (n + 1)
  | None => "NaN"
  end.

(** The seat cell of a table row: [Number(seat) + 1]. *)
Definition tableSeatCell (seat : string) : string := plusOne (Number seat).

(** The seat cell of a chair-block row: [`R${Number(r)+1}C${Number(c)+1}`]
    for [[r, c] = key.split('-')]; a missing [c] is [undefined], whose
    [Number] is [NaN]. *)
Definition blockSeatCell (key : string) : string :=
  match split "-" key with
  | r :: c :: _ => "R" +:+ plusOne (Number r) +:+ "C" +:+ plusOne (Number c)
  | [r] => "R" +:+ plusOne (Number r) +:+ "C" +:+ plusOne None
  | [] => "R" +:+ plusOne None +:+ "C" +:+ plusOne None
  end.

(** One [forEach] over the entries of an [assignments] object, writing
    [assignedMap[idx] = [name, cell]]. *)
Definition recordSeats (name : string) (cell : string -> string)
    (a : gmap string nat) (assignedMap : gmap nat (string * string))
    : gmap nat (string * string) :=
  foldl (fun m kv => <[kv.2 := (name, cell kv.1)]> m) assignedMap (entries a).

(** [assignedMap]: for each seated attendee index the name of the entity
    and the seat cell; a later entry overwrites an earlier one. *)
Definition assignedMap (tables : list (string * Table))
    (blocks : list (string * ChairBlock)) : gmap nat (string * string) :=
  let m := foldl (fun m e => recordSeats (tableName e) tableSeatCell
                               (t_assignments e.2) m) ∅ tables in
  foldl (fun m e => recordSeats (blockName e) blockSeatCell
                      (b_assignments e.2) m) m blocks.

(** [Object.entries] of an object whose keys are all integer indices: in
    ascending order of the index. *)
Definition indexBefore {V} (p q : nat * V) : Prop := (p.1 <= q.1)%nat.

#[global] Instance indexBefore_dec {V} (p q : nat * V) : Decision (indexBefore p q).
Proof. unfold indexBefore. apply _. Defined.

Definition entriesByIndex {V} (m : gmap nat V) : list (nat * V) :=
  merge_sort indexBefore (map_to_list m).

(** The array [rows] of [exportCSV]; a cell that holds a number is given as
    the last line prints it.  An attendee is [[last, first]].  [sortRows]
    is the [sort] of the check-in format by lower-cased last name, whose
    [localeCompare] is outside the model. *)
Definition exportRows (sortRows : list (list string) -> list (list string))
    (format : ExportFormat) (tables : list (string * Table))
    (blocks : list (string * ChairBlock)) (attendees : list (string * string))
    : list (list string) :=
  let assignedMap := assignedMap tables blocks in
  match format with
  | Flat | Checkin =>
      let header := ["Last Name"; "First Name"; "Table/Block"; "Seat"] in
      let seated :=
        omap (fun e : nat * (string * string) =>
                (fun att : string * string => [att.1; att.2; e.2.1; e.2.2])
                  <$> attendees !! e.1)
             (entriesByIndex assignedMap) in
      let unseated :=
        omap (fun e : nat * (string * string) =>
                if decide (assignedMap !! e.1 = None)
                then Some [e.2.1; e.2.2; ""; ""] else None)
             (imap pair attendees) in
      let body := seated ++ unseated in
      match format with
      | Checkin => header :: sortRows body
      | _ => header :: body
      end
  | ByTable =>
      ["Table/Block"; "Seat"; "Last Name"; "First Name"] ::
      (tables ≫= fun e =>
         map (fun i =>
                match t_assignments e.2 !! numToString i ≫= (attendees !!.) with
                | Some att => [tableName e; plusOne (Some i); att.1; att.2]
                | None => [tableName e; plusOne (Some i); "(empty)"; ""]
                end)
             (seq 0 (getTableTotalSeats e.2)))
  end.

(** The double quote. *)
Definition dquote : string := String (ascii_of_nat 34) EmptyString.

(** [exportCSV]: every cell in double quotes, cells joined by commas, rows
    by line feeds. *)
Definition exportCSV (sortRows : list (list string) -> list (list string))
    (format : ExportFormat) (tables : list (string * Table))
    (blocks : list (string * ChairBlock)) (attendees : list (string * string))
    : string :=
  String.concat (String (ascii_of_nat 10) EmptyString)
    (map (fun r => String.concat "," (map (fun c => dquote +:+ c +:+ dquote) r))
         (exportRows sortRows format tables blocks attendees)).

(** ** Dropping a seat dragged out of the seat popup *)

(** The [popupDragSeat] branch of [handleCanvasMouseUp]: the seat
    [(srcType, srcId, srcKey)] dragged out of the popup is released over
    the canvas, where [seatHitTest] finds [seatInfo]. *)
Definition handleCanvasMouseUp_popupDragSeat (ranAtOnce : bool)
    (seatInfo : option SeatInfo) (srcType : EntityType) (srcId : nat)
    (srcKey : string) (st : App) : App :=
  let st :=
    match seatInfo with
    | Some (TableSeat t seatKey) =>
        if decide (t_assignments t !! seatKey = None)
        then moveSeatToSeat ranAtOnce srcType srcId srcKey ETable (t_id t) seatKey st
        else st
    | Some (BlockSeat b seatKey) =>
        if decide (b_assignments b !! seatKey = None)
        then moveSeatToSeat ranAtOnce srcType srcId srcKey EBlock (b_id b) seatKey st
        else st
    | None => st
    end in
  setDragging false st.

(** ** Smart guides ([getEntityBounds], [computeSmartGuides]) *)

(** The centre and the four edges of an entity, in feet ([left], [right],
    [top] and [bottom] in the source). *)
Record Bounds := mkBounds {
  cx : Q;
  cy : Q;
  leftEdge : Q;
  rightEdge : Q;
  topEdge : Q;
  bottomEdge : Q
}.

Definition getEntityBounds (entity : Entity) : Bounds :=
  match entity with
  | TableE t =>
      let w := t_widthFt t in
      let h := t_heightFt t in
      mkBounds (t_x t) (t_y t) (t_x t - w / 2) (t_x t + w / 2)
               (t_y t - h / 2) (t_y t + h / 2)
  | BlockE b =>
      let dims := getBlockDimensions b in
      mkBounds (b_x b + dims.1 / 2) (b_y b + dims.2 / 2) (b_x b) (b_x b + dims.1)
               (b_y b) (b_y b + dims.2)
  | VenueE v =>
      mkBounds (v_x v) (v_y v) (v_x v - v_widthFt v / 2) (v_x v + v_widthFt v / 2)
               (v_y v - v_heightFt v / 2) (v_y v + v_heightFt v / 2)
  end.

Inductive Axis := VerticalLine | HorizontalLine.

#[global] Instance Axis_eq_dec : EqDecision Axis.
Proof. solve_decision. Defined.

(** [v.toFixed(2)] for a number below [1e21]: the sign, then the absolute
    value rounded to hundredths, halves going up, with two decimals. *)
Definition toFixed2 (v : Q) : string :=
  let n := Z.to_nat (Qfloor (Qabs v * 100 + (1 # 2))) in
  let cents := n mod 100 in
  (if Qltb v 0 then "-" else "") +:+ numToString (n / 100) +:+ "." +:+
  (if (cents <? 10)%nat then "0" else "") +:+ numToString cents.

(** The key under which a guide is remembered in [seen]. *)
Definition guideKey (axis : Axis) (pos : Q) : string :=
  (match axis with VerticalLine => "v" | HorizontalLine => "h" end) +:+ "-" +:+
  toFixed2 pos.

(** One alignment test of the inner loop: when the line [dv] of a dragged
    entity is less than 0.5 ft from the line [ov] of another entity, a
    guide at [ov] is added unless its key has been seen. *)
Definition offerGuide (c : Q * Q * Axis) (acc : list (Axis * Q) * gset string)
    : list (Axis * Q) * gset string :=
  let '(dv, ov, axis) := c in
  if Qltb (Qabs (dv - ov)) (1 # 2) then
    let key := guideKey axis ov in
    if decide (key ∈ acc.2) then acc
    else (acc.1 ++ [(axis, ov)], acc.2 ∪ {[key]})
  else acc.

Definition edgePairs (db ob : Bounds) : list (Q * Q * Axis) :=
  [ (leftEdge db, leftEdge ob, VerticalLine);
    (rightEdge db, rightEdge ob, VerticalLine);
    (leftEdge db, rightEdge ob, VerticalLine);
    (rightEdge db, leftEdge ob, VerticalLine);
    (topEdge db, topEdge ob, HorizontalLine);
    (bottomEdge db, bottomEdge ob, HorizontalLine);
    (topEdge db, bottomEdge ob, HorizontalLine);
    (bottomEdge db, topEdge ob, HorizontalLine) ].

(** [computeSmartGuides(draggedIds)] over the plan of the current render.
    [idSet] holds the strings [`${type}-${id}`], which name kind and id. *)
Definition computeSmartGuides (draggedIds : list (EntityType * nat)) (d : Doc)
    : list (Axis * Q) :=
  let idSet (e : Entity) := bool_decide ((entityType e, e_id e) ∈ draggedIds) in
  let all := (TableE <$> tables d) ++ (BlockE <$> chairBlocks d) ++
             (VenueE <$> venueElements d) in
  let dragged := getEntityBounds <$> List.filter idSet all in
  let others := getEntityBounds <$> List.filter (fun e => negb (idSet e)) all in
  (foldl (fun acc db =>
            foldl (fun acc ob =>
                     let acc := offerGuide (cx db, cx ob, VerticalLine) acc in
                     let acc := offerGuide (cy db, cy ob, HorizontalLine) acc in
                     foldl (fun acc c => offerGuide c acc) acc (edgePairs db ob))
                  acc others)
         ([], ∅) dragged).1.

(** ** Drops in the list view *)

(** A handler is a closure of the render that created it: it reads
    [disabledAttendees], [assigned], [tables] and [chairBlocks] of that
    render, and [saveUndo] snapshots that render's plan; the updaters it
    queues and the history refs act on the state that the calls made
    earlier in the same event have left.  [render] is the former, [st]
    the latter.  An event that calls one handler has [st = render], which
    gives the handlers as defined above. *)
Definition saveUndo_in (render st : App) : App :=
  mkApp (doc st) (pushUndo (doc render) (undoStack st)) [] (status st)
        (selectedItem st) (selectedItems st) (dragging st) (dragRef st).

Definition assignAttendee_in (render : App) (entityType : EntityType)
    (entityId : nat) (seatKey : string) (attIdx : nat) (st : App) : App :=
  if decide (attIdx ∈ disabledAttendees (doc render)) then st
  else if decide (attIdx ∈ assigned render) then setStatus "Already assigned" st
  else
    let st := saveUndo_in render st in
    let st :=
      match entityType with
      | ETable => setTables (mapById entityId (putSeat seatKey attIdx)) st
      | _ => setChairBlocks (mapById entityId (putSeat seatKey attIdx)) st
      end in
    setStatus "Assigned" st.

Definition forceAssignSeat_in (render : App) (entityType : EntityType)
    (entityId : nat) (seatKey : string) (attIdx : nat) (st : App) : App :=
  if decide (attIdx ∈ disabledAttendees (doc render)) then st
  else
    let st := saveUndo_in render st in
    let st :=
      match entityType with
      | ETable => setTables (mapById entityId (putSeat seatKey attIdx)) st
      | _ => setChairBlocks (mapById entityId (putSeat seatKey attIdx)) st
      end in
    setStatus "Assigned" st.

Definition assignNextAvailable_in (render : App) (entityType : EntityType)
    (entityId : nat) (attIdx : nat) (st : App) : App :=
  if decide (attIdx ∈ disabledAttendees (doc render)) then st
  else if decide (attIdx ∈ assigned render) then st
  else
    let openKey :=
      match entityType with
      | ETable =>
          (fun t => openSeat (tableSeatKeys t) (t_assignments t)) <$>
          List.find (fun t => bool_decide (t_id t = entityId)) (tables (doc render))
      | _ =>
          (fun b => openSeat (blockSeatKeys b) (b_assignments b)) <$>
          List.find (fun b => bool_decide (b_id b = entityId))
                    (chairBlocks (doc render))
      end in
    match openKey with
    | None => st
    | Some None => setStatus "Table full" st
    | Some (Some openKey) =>
        forceAssignSeat_in render entityType entityId openKey attIdx st
    end.

(** The table or chair block a seat row belongs to.  A row of the list
    view is given, like a seat hit on the canvas, by its entity and its
    seat key. *)
Definition rowEntity (row : SeatInfo) : Entity :=
  match row with TableSeat t _ => TableE t | BlockSeat b _ => BlockE b end.

(** [onMouseUp] of [SeatRow]: an attendee dragged from the roster is
    released over the row; [occ] is read from the row's entity. *)
Definition SeatRow_onMouseUp (row : SeatInfo) (dragAttendee : option nat)
    (isDragOver : bool) (render st : App) : App :=
  match dragAttendee with
  | Some attIdx =>
      match row with
      | TableSeat t seatKey =>
          if isDragOver && bool_decide (t_assignments t !! seatKey = None)
          then assignAttendee_in render ETable (t_id t) seatKey attIdx st
          else st
      | BlockSeat b seatKey =>
          if isDragOver && bool_decide (b_assignments b !! seatKey = None)
          then assignAttendee_in render EBlock (b_id b) seatKey attIdx st
          else st
      end
  | None => st
  end.

(** [onMouseUp] of the root of [EntityCard], with the [onDropNextAvailable]
    that [App] hands to the list view. *)
Definition EntityCard_onMouseUp (entity : Entity) (dragAttendee : option nat)
    (isDragOver : bool) (render st : App) : App :=
  match dragAttendee with
  | Some attIdx =>
      if isDragOver
      then assignNextAvailable_in render (entityType entity) (e_id entity) attIdx st
      else st
  | None => st
  end.

(** A mouse-up on a seat row of a card.  The row's handler runs, then, as
    the event bubbles, the handler of the card around it; both are
    closures of the render the list is showing. *)
Definition mouseUp_on_SeatRow (row : SeatInfo) (dragAttendee : option nat)
    (rowDragOver cardDragOver : bool) (render : App) : App :=
  let st := SeatRow_onMouseUp row dragAttendee rowDragOver render render in
  EntityCard_onMouseUp (rowEntity row) dragAttendee cardDragOver render st.

(** * Vocabulary of the properties *)

(** ** Seats and exclusivity *)

(** A seat of the plan: the [n]-th table or chair block and one of its
    seat keys. *)
Inductive SeatRef :=
| InTable (n : nat) (seatKey : string)
| InBlock (n : nat) (seatKey : string).

Definition keyOf (r : SeatRef) : string :=
  match r with InTable _ k => k | InBlock _ k => k end.

(** Attendee [i] sits on seat [k] of the [n]-th entity of [l]. *)
Definition occ {E} `{Seated E} (l : list E) (n : nat) (k : string) (i : nat) : Prop :=
  exists e, l !! n = Some e /\ assignments e !! k = Some i.

Definition occupies (d : Doc) (r : SeatRef) (i : nat) : Prop :=
  match r with
  | InTable n k => occ (tables d) n k i
  | InBlock n k => occ (chairBlocks d) n k i
  end.

(** Global seat exclusivity: an attendee index is the value of at most one
    (entity, seat key) pair over all tables and chair blocks. *)
Definition Exclusive (d : Doc) : Prop :=
  forall i r1 r2, occupies d r1 i -> occupies d r2 i -> r1 = r2.

(** Ids are unique per kind.  The per-kind counters give a fresh id to
    every entity, save to a copy made while a new entity waits to be
    placed. *)
Definition UniqueIds (d : Doc) : Prop :=
  NoDup (t_id <$> tables d) /\ NoDup (b_id <$> chairBlocks d).

(** A checkable form of exclusivity: the list of all seated attendee
    indices, entity by entity, has no duplicates. *)
Definition seated (d : Doc) : list nat :=
  (tables d ≫= (fun t => values (t_assignments t))) ++
  (chairBlocks d ≫= (fun b => values (b_assignments b))).

(** The three operations of the exclusivity property, as data. *)
Inductive Op :=
| OpAssign (entityType : EntityType) (entityId : nat) (seatKey : string) (attIdx : nat)
| OpSwap (entityType : EntityType) (entityId : nat) (seatKeyA seatKeyB : string)
| OpMove (ranAtOnce : bool) (srcType : EntityType) (srcId : nat) (srcKey : string)
         (dstType : EntityType) (dstId : nat) (dstKey : string).

Definition runOp (st : App) (op : Op) : App :=
  match op with
  | OpAssign ty id k att => assignAttendee ty id k att st
  | OpSwap ty id a b => swapSeats ty id a b st
  | OpMove now sty sid sk dty did dk =>
      moveSeatToSeat now sty sid sk dty did dk st
  end.

Definition runOps (st : App) (ops : list Op) : App := foldl runOp st ops.

(** The seat found occupied by [seatHitTest]. *)
Definition seatTaken (s : SeatInfo) : Prop :=
  match s with
  | TableSeat t k => is_Some (t_assignments t !! k)
  | BlockSeat b k => is_Some (b_assignments b !! k)
  end.

(** ** Documents after a seat update *)

(** The record laws behind [{ ...e, assignments: a }]. *)
Class SeatedLaws (E : Type) `{Seated E} := {
  ent_id_with a e : ent_id (with_assignments a e) = ent_id e;
  assignments_with a e : assignments (with_assignments a e) = a;
  with_with a a' e : with_assignments a (with_assignments a' e) = with_assignments a e;
  with_same e : with_assignments (assignments e) e = e
}.

(** The document after [setTables]/[setChairBlocks] with one of the three
    seat updaters; any kind tag other than ['table'] selects the chair
    blocks, as in the source. *)
Definition putAt (ty : EntityType) (id : nat) (k : string) (v : nat) (d : Doc) : Doc :=
  match ty with
  | ETable => mkDoc (mapById id (putSeat k v) (tables d)) (chairBlocks d)
                    (venueElements d) (disabledAttendees d)
  | _ => mkDoc (tables d) (mapById id (putSeat k v) (chairBlocks d))
               (venueElements d) (disabledAttendees d)
  end.

Definition dropAt (ty : EntityType) (id : nat) (k : string) (d : Doc) : Doc :=
  match ty with
  | ETable => mkDoc (mapById id (dropSeat k) (tables d)) (chairBlocks d)
                    (venueElements d) (disabledAttendees d)
  | _ => mkDoc (tables d) (mapById id (dropSeat k) (chairBlocks d))
               (venueElements d) (disabledAttendees d)
  end.

Definition swapAt (ty : EntityType) (id : nat) (A B : string) (d : Doc) : Doc :=
  match ty with
  | ETable => mkDoc (swapUpdater id A B (tables d)) (chairBlocks d)
                    (venueElements d) (disabledAttendees d)
  | _ => mkDoc (tables d) (swapUpdater id A B (chairBlocks d))
               (venueElements d) (disabledAttendees d)
  end.

Definition sourceOccupantAt (ty : EntityType) (id : nat) (k : string) (d : Doc)
    : option nat :=
  match ty with
  | ETable => sourceOccupant id k (tables d)
  | _ => sourceOccupant id k (chairBlocks d)
  end.

(** Seat [r] belongs to an entity that an update addressed to [(ty, id)]
    rewrites. *)
Definition isTarget (d : Doc) (ty : EntityType) (id : nat) (r : SeatRef) : Prop :=
  match ty, r with
  | ETable, InTable n _ => exists e, tables d !! n = Some e /\ t_id e = id
  | ETable, InBlock _ _ => False
  | _, InBlock n _ => exists e, chairBlocks d !! n = Some e /\ b_id e = id
  | _, InTable _ _ => False
  end.

(** A swap, in each of its four cases, reads the map through the
    transposition of the two keys. *)
Definition transpose (A B k : string) : string :=
  if decide (k = A) then B else if decide (k = B) then A else k.

(** After a swap addressed to [(ty, id)], seat [r] holds what the seat
    [swapRef r] held before. *)
Definition swapRef (d : Doc) (ty : EntityType) (id : nat) (A B : string)
    (r : SeatRef) : SeatRef :=
  match r, ty with
  | InTable n k, ETable =>
      match tables d !! n with
      | Some e => if decide (t_id e = id) then InTable n (transpose A B k) else r
      | None => r
      end
  | InTable _ _, _ => r
  | InBlock _ _, ETable => r
  | InBlock n k, _ =>
      match chairBlocks d !! n with
      | Some e => if decide (b_id e = id) then InBlock n (transpose A B k) else r
      | None => r
      end
  end.

(** ** Seat keys and rebuilt assignment maps *)

(** No dash occurs in a string. *)
Fixpoint dashFree (s : string) : Prop :=
  match s with
  | EmptyString => True
  | String c s' => Ascii.eqb c "-" = false /\ dashFree s'
  end.

(** The loop [Object.entries(a).forEach(([k, v]) => { newAssign[g(k)] = v })],
    where [g] may decline a key. *)
Definition rebuild (g : string -> option string) (l : list (string * nat))
    : gmap string nat :=
  foldl (fun newAssign kv =>
           match g kv.1 with
           | Some k => <[k := kv.2]> newAssign
           | None => newAssign
           end) ∅ l.

(** Every occupied key of [a] is a seat index of a table with [n] seats. *)
Definition ValidSeats (n : nat) (a : gmap string nat) : Prop :=
  forall k v, a !! k = Some v -> exists i, k = numToString i /\ (i < n)%nat.

(** Every occupied key of [a] names a chair of a [R] x [C] grid. *)
Definition InGrid (R C : nat) (a : gmap string nat) : Prop :=
  forall k v, a !! k = Some v ->
              exists r c, k = blockSeatKey r c /\ (r < R)%nat /\ (c < C)%nat.

(** Select the [m]-th chair block as it currently is, then rotate. *)
Definition selectAndRotate (m : nat) (st : App) : App :=
  match chairBlocks (doc st) !! m with
  | Some cur => rotateSelected (onSelect (BlockE cur) st)
  | None => st
  end.

(** ** Gestures *)

(** The pointer positions of one gesture, fed to the move handler in order. *)
Definition moves (cfg : Settings) (ps : list (Q * Q)) (st : App) : App :=
  foldl (fun s p => handleCanvasMouseMove cfg p.1 p.2 s) st ps.

(** Displacement of pointer position [p] from the drag start, in feet. *)
Definition displacement (cfg : Settings) (st : App) (p : Q * Q) : Q * Q :=
  (pxToFt cfg (p.1 - startX (dragRef st)), pxToFt cfg (p.2 - startY (dragRef st))).

(** At or below 0.5 ft on both axes. *)
Definition withinThreshold (cfg : Settings) (st : App) (p : Q * Q) : Prop :=
  (Qabs (displacement cfg st p).1 <= 1 # 2)%Q /\
  (Qabs (displacement cfg st p).2 <= 1 # 2)%Q.

(** A drag that can move something: a multi-drag, or a single drag of an
    unlocked entity. *)
Definition MovingDrag (st : App) : Prop :=
  dragging st = true /\
  (is_Some (multiDrag (dragRef st)) \/
   exists item sel, dr_entity (dragRef st) = Some item /\
                    selectedItem st = Some sel /\ e_locked item = false).

(** A single drag of a locked entity. *)
Definition LockedDrag (st : App) : Prop :=
  dragging st = true /\ multiDrag (dragRef st) = None /\
  exists item, dr_entity (dragRef st) = Some item /\ e_locked item = true.

(** ** Sample plans *)

(** A 60 ft x 40 ft room on a 1 ft grid, snapping on, 10 pixels to the
    foot. *)
Definition grid1 : Settings := mkSettings 60 40 1 true 10.

(** A 15 ft x 15 ft dance floor. *)
Definition danceFloor : VenueElement := mkVenue 1 30 20 15 15 false.

Definition idle (d : Doc) : App :=
  mkApp d [] [] "Ready" None [] false (mkDragRef 0 0 None 0 0 None false).

(** Two round tables and a chair block, attendee 3 at the head of table 1
    and attendee 4 in the block. *)
Definition hall : Doc :=
  mkDoc [mkTable 1 10 10 Round 8 5 5 Horizontal 0 false {[ "0" := 3%nat ]};
         mkTable 2 30 10 Round 8 5 5 Horizontal 0 false ∅]
        [mkBlock 1 5 25 2 3 Normal false {[ "0-1" := 4%nat ]}]
        [] ∅.

Definition evening : list Op :=
  [ OpAssign ETable 2 "0" 5; OpAssign ETable 1 "4" 5; OpSwap ETable 1 "0" "1";
    OpMove true ETable 1 "1" EBlock 1 "0-0"; OpAssign EBlock 1 "0-1" 6;
    OpMove false ETable 2 "0" ETable 1 "7" ].

(** A round table of eight with attendee 3 on seat 0, and the state in
    which it is selected. *)
Definition octet : Table :=
  mkTable 1 10 10 Round 8 5 5 Horizontal 0 false {[ "0" := 3%nat ]}.

Definition octetSelected : App :=
  mkApp (mkDoc [octet] [] [] ∅) [] [] "Ready" (Some (TableE octet)) [] false
        (mkDragRef 0 0 None 0 0 None false).

(** A 1 x 2 chair block with attendee 7 on chair (0, 0). *)
Definition pews : ChairBlock :=
  mkBlock 1 5 25 1 2 Normal false {[ "0-0" := 7%nat ]}.

(** A one-chair block that still carries an assignment for chair (0, 5),
    as a block narrowed in the edit dialog does. *)
Definition narrowed : ChairBlock :=
  mkBlock 1 5 25 1 1 Normal false {[ "0-5" := 7%nat ]}.

(** Two round tables, the first one locked. *)
Definition lockedTable : Table := mkTable 1 10 10 Round 8 5 5 Horizontal 0 true ∅.

Definition freeTable : Table := mkTable 2 20 10 Round 8 5 5 Horizontal 0 false ∅.

Definition floorPlan : Doc := mkDoc [lockedTable; freeTable] [] [] ∅.

(** Pointer-down on the unlocked table at pixel (200, 100). *)
Definition grabFree : App :=
  handleCanvasMouseDown_hit 200 100 (TableE freeTable) false (idle floorPlan).

(** Pointer-down on the locked table at pixel (100, 100). *)
Definition grabLocked : App :=
  handleCanvasMouseDown_hit 100 100 (TableE lockedTable) false (idle floorPlan).

(** Pointer-down on the unlocked table while both tables are selected. *)
Definition grabBoth : App :=
  handleCanvasMouseDown_hit 200 100 (TableE freeTable) false
    (setSelectedItems [TableE lockedTable; TableE freeTable] (idle floorPlan)).

(** ** Plans and their history *)

(** Entity [e] is one of the entities of the plan. *)
Definition inPlan (d : Doc) (e : Entity) : Prop :=
  match e with
  | TableE t => t ∈ tables d
  | BlockE b => b ∈ chairBlocks d
  | VenueE v => v ∈ venueElements d
  end.


(** No disabled attendee holds a seat. *)
Definition NoDisabledSeated (d : Doc) : Prop :=
  forall i r, i ∈ disabledAttendees d -> ~ occupies d r i.

(** A sound plan: ids unique per kind, nobody seated twice, nobody disabled
    seated. *)
Definition Sound (d : Doc) : Prop :=
  UniqueIds d /\ Exclusive d /\ NoDisabledSeated d.

(** Both history stacks hold at most 50 snapshots. *)
Definition HistoryBounded (st : App) : Prop :=
  (length (undoStack st) <= 50)%nat /\ (length (redoStack st) <= 50)%nat.

(** The plan and every snapshot of its history are sound. *)
Definition SoundHistory (st : App) : Prop :=
  Sound (doc st) /\ Forall Sound (undoStack st) /\ Forall Sound (redoStack st).

(** The plan after every assignment of attendee [i] is removed. *)
Definition unseatAll (i : nat) (d : Doc) : Doc :=
  mkDoc (unseat i (tables d)) (unseat i (chairBlocks d)) (venueElements d)
        (disabledAttendees d).

(** The plan with another set of disabled attendees. *)
Definition withDisabled (s : gset nat) (d : Doc) : Doc :=
  mkDoc (tables d) (chairBlocks d) (venueElements d) s.

(** ** Automatic assignment *)

(** A seat of [emptySeats] goes to [tAssign] when its kind tag is
    ['table'] and to [bAssign] otherwise. *)
Definition forTables (s : OpenSeat) : bool :=
  match os_type s with ETable => true | _ => false end.

(** What the filling loop writes into the assignments copy of the entity
    [id] of one kind. *)
Definition fillsFor (tbl : bool) (id : nat) (ps : list (nat * OpenSeat))
    (a : gmap string nat) : gmap string nat :=
  foldl (fun a p => if decide (forTables p.2 = tbl /\ os_id p.2 = id)
                    then <[os_key p.2 := p.1]> a else a) a ps.

(** The kind side, id and key of a free seat. *)
Definition seatName (s : OpenSeat) : bool * nat * string :=
  (forTables s, os_id s, os_key s).

(** The entry of [emptySeats] that names seat [r]. *)
Definition seatOf (d : Doc) (r : SeatRef) : option OpenSeat :=
  match r with
  | InTable n k => (fun t => mkOpenSeat ETable (t_id t) k) <$> tables d !! n
  | InBlock n k => (fun b => mkOpenSeat EBlock (b_id b) k) <$> chairBlocks d !! n
  end.

(** Seat [r] is a seat the entity really has: an index below the seat total
    of a table, a chair of the grid of a block. *)
Definition RealSeat (d : Doc) (r : SeatRef) : Prop :=
  match r with
  | InTable n k =>
      exists t i, tables d !! n = Some t /\ k = numToString i /\
                  (i < getTableTotalSeats t)%nat
  | InBlock n k =>
      exists b r c, chairBlocks d !! n = Some b /\ k = blockSeatKey r c /\
                    (r < rows b)%nat /\ (c < cols b)%nat
  end.

(** The pairs of the filling loop: the [j]-th unassigned attendee, in the
    order of the chosen mode, with the [j]-th free seat. *)
Definition pairing (order : list nat -> list nat) (rosterSize : nat) (st : App)
    : list (nat * OpenSeat) :=
  zip (order (unassignedOf rosterSize st)) (emptySeats (doc st)).

(** [k] is the first key of [keys], in their order, that [a] does not
    hold. *)
Definition FirstOpen (keys : list string) (a : gmap string nat) (k : string) : Prop :=
  exists before after,
    keys = before ++ k :: after /\ a !! k = None /\
    forall k', k' ∈ before -> is_Some (a !! k').

(** The editing operations on seats and entities, as data: one constructor
    for one call of a handler. *)
Inductive Edit :=
| EAssign (entityType : EntityType) (entityId : nat) (seatKey : string) (attIdx : nat)
| ENext (entityType : EntityType) (entityId : nat) (attIdx : nat)
| EUnassign (entityType : EntityType) (entityId : nat) (seatKey : string)
| ESwap (entityType : EntityType) (entityId : nat) (seatKeyA seatKeyB : string)
| EMove (ranAtOnce : bool) (srcType : EntityType) (srcId : nat) (srcKey : string)
        (dstType : EntityType) (dstId : nat) (dstKey : string)
| EToggleDisable (nameOrder : string) (attendees : list (string * string))
                 (attIdx : nat)
| ERecall (tablesRanAtOnce blocksRanAtOnce : bool) (name : string) (attIdx : nat)
| EAutoAssign (order : list nat -> list nat) (rosterSize : nat)
| EClearAll
| EDelete (type : EntityType) (id : nat)
| EToggleLock
| EUndo
| ERedo.

Definition runEdit (st : App) (e : Edit) : App :=
  match e with
  | EAssign ty id k att => assignAttendee ty id k att st
  | ENext ty id att => assignNextAvailable ty id att st
  | EUnassign ty id k => unassignSeat ty id k st
  | ESwap ty id a b => swapSeats ty id a b st
  | EMove now sty sid sk dty did dk => moveSeatToSeat now sty sid sk dty did dk st
  | EToggleDisable nameOrder attendees att =>
      stateOf (toggleDisable nameOrder attendees att st)
  | ERecall now now' name att => recallAttendee now now' name att st
  | EAutoAssign order n => autoAssign order n st
  | EClearAll => clearAllAssignments st
  | EDelete ty id => performDelete ty id st
  | EToggleLock => toggleLock st
  | EUndo => undo st
  | ERedo => redo st
  end.

(** A sequence of handler calls, each made on the state the call before
    has left: every call is an event of its own, so that the handler is a
    closure of the render it acts on.  (An event that calls two handlers
    of the same render, [mouseUp_on_SeatRow], is modelled on its own.) *)
Definition runEdits (st : App) (es : list Edit) : App := foldl runEdit st es.

(** The edits that take an undo checkpoint when they change the plan:
    all but [toggleDisable] and the history steps themselves. *)
Definition checkpointing (e : Edit) : bool :=
  match e with
  | EToggleDisable _ _ _ | EUndo | ERedo => false
  | _ => true
  end.

(** The mode of an automatic assignment only reorders the attendees. *)
Definition Reorders (e : Edit) : Prop :=
  match e with
  | EAutoAssign order _ => forall l, order l ≡ₚ l
  | _ => True
  end.

(** The roster of the sample plan, as [[last, first]] entries. *)
Definition guests : list (string * string) :=
  [("Adams", "Ann"); ("Brown", "Bob"); ("Clark", "Cy"); ("Dean", "Di");
   ("Evans", "Eve"); ("Ford", "Al"); ("Gray", "Jo")].

(** A day of edits on the sample plan. *)
Definition rehearsal : list Edit :=
  [ EAutoAssign (fun l => l) 7; EToggleDisable "lastFirst" guests 3; EDelete ETable 2;
    EUndo; EMove true ETable 1 "1" EBlock 1 "1-1"; ERecall true false "Bo" 4;
    EUnassign EBlock 1 "1-1"; EUndo; EUndo; ERedo; ENext ETable 2 3;
    EToggleLock; EClearAll ].

(** ** Id counters *)

(** Every id in use lies below the counter of its kind. *)
Definition FreshCounters (ed : Editor) : Prop :=
  let d := doc (appState ed) in
  Forall (fun t => t_id t < nextTableId ed) (tables d) /\
  Forall (fun b => b_id b < nextBlockId ed) (chairBlocks d) /\
  Forall (fun v => v_id v < nextElementId ed) (venueElements d).

(** The entity waiting to be placed carries the current value of the
    counter of its kind, as [confirmAdd] gives it. *)
Definition GhostCurrent (ed : Editor) : Prop :=
  match ghostEntity ed with
  | Some (TableE g) => t_id g = nextTableId ed
  | Some (BlockE g) => b_id g = nextBlockId ed
  | Some (VenueE g) => v_id g = nextElementId ed
  | None => True
  end.

(** Ids are unique per kind, venue elements included. *)
Definition AllIdsUnique (d : Doc) : Prop :=
  UniqueIds d /\ NoDup (v_id <$> venueElements d).

(** Pointer positions over which the ghost hovers before the click. *)
Definition hover (cfg : Settings) (offsetX offsetY : Q) (ps : list (Q * Q))
    (ed : Editor) : Editor :=
  foldl (fun e p => handleCanvasMouseMove_ghost cfg offsetX offsetY p.1 p.2 e) ed ps.

(** The plan with one more entity, appended to the list of its kind. *)
Definition addEntity (e : Entity) (d : Doc) : Doc :=
  match e with
  | TableE t => mkDoc (tables d ++ [t]) (chairBlocks d) (venueElements d)
                      (disabledAttendees d)
  | BlockE b => mkDoc (tables d) (chairBlocks d ++ [b]) (venueElements d)
                      (disabledAttendees d)
  | VenueE v => mkDoc (tables d) (chairBlocks d) (venueElements d ++ [v])
                      (disabledAttendees d)
  end.

Definition emptyEditor : Editor := mkEditor (idle (mkDoc [] [] [] ∅)) 1 1 1 None.

(** ** Hit tests *)

(** The pointer is over the hit region of entity [e]. *)
Definition hits (c : Canvas) (x y : Q) (e : Entity) : bool :=
  match e with
  | TableE t => tableHit c x y t
  | BlockE b => blockHit c x y b
  | VenueE v => venueHit c x y v
  end.

(** [x] is the last element of [l] that passes [p]. *)
Definition LastHit {A} (p : A -> bool) (l : list A) (x : A) : Prop :=
  exists n, l !! n = Some x /\ p x = true /\
            forall m y, n < m -> l !! m = Some y -> p y = false.

(** Nothing in [l] passes [p]. *)
Definition NoHit {A} (p : A -> bool) (l : list A) : Prop :=
  forall x, x ∈ l -> p x = false.

(** A 15 ft x 15 ft dance floor, selected, on a canvas at 10 pixels to the
    foot. *)
Definition ballroom : App :=
  onSelect (VenueE danceFloor) (idle (mkDoc [] [] [danceFloor] ∅)).

Definition canvas10 : Canvas := mkCanvas 10 0 0.

(** A 6 ft x 3 ft table with three seats per long side and one at each
    end. *)
Definition banquet : Table := mkTable 3 30 30 Rect 3 6 3 Horizontal 1 false ∅.

(** What an edit does to the history: nothing, one checkpoint of the plan
    it started from, or two of them. *)
Inductive HistoryStep (quiet : Prop) (st st' : App) : Prop :=
| NoCheckpoint :
    undoStack st' = undoStack st -> redoStack st' = redoStack st -> quiet ->
    HistoryStep quiet st st'
| OneCheckpoint :
    undoStack st' = pushUndo (doc st) (undoStack st) -> redoStack st' = [] ->
    HistoryStep quiet st st'
| TwoCheckpoints :
    undoStack st' = pushUndo (doc st) (pushUndo (doc st) (undoStack st)) ->
    redoStack st' = [] ->
    HistoryStep quiet st st'.


(** ** Drags that follow the pointer *)

(** Every entity of the plan with its kind tag: tables, chair blocks, venue
    elements. *)
Definition entitiesOf (d : Doc) : list Entity :=
  (TableE <$> tables d) ++ (BlockE <$> chairBlocks d) ++ (VenueE <$> venueElements d).

(** A state of the gesture that began with [down]: everything the move
    handler reads is as pointer-down left it, but for the plan, the history
    and the flag [hasMoved]. *)
Definition InGesture (down s : App) : Prop :=
  dragging s = dragging down /\ selectedItem s = selectedItem down /\
  startX (dragRef s) = startX (dragRef down) /\
  startY (dragRef s) = startY (dragRef down) /\
  dr_entity (dragRef s) = dr_entity (dragRef down) /\
  origX (dragRef s) = origX (dragRef down) /\
  origY (dragRef s) = origY (dragRef down) /\
  multiDrag (dragRef s) = multiDrag (dragRef down).

(** The pointer position that the state reflects after a series of moves:
    the last one, once a position has passed the test [moved]. *)
Definition follow (moved : Q * Q -> bool) (o : option (Q * Q)) (p : Q * Q)
    : option (Q * Q) :=
  match o with
  | Some _ => Some p
  | None => if moved p then Some p else None
  end.

Definition followed (moved : Q * Q -> bool) (ps : list (Q * Q)) : option (Q * Q) :=
  foldl (follow moved) None ps.

(** The pointer is more than 0.5 ft from the start of the drag. *)
Definition beyondThreshold (cfg : Settings) (down : App) (p : Q * Q) : bool :=
  exceedsThreshold (displacement cfg down p).1 (displacement cfg down p).2.

(** State [s] of the gesture reflects pointer position [o], where [F] is
    what a move does to the plan. *)
Definition Tracks (down : App) (F : Q * Q -> Doc -> Doc) (s : App)
    (o : option (Q * Q)) : Prop :=
  InGesture down s /\
  match o with
  | None => hasMoved (dragRef s) = false /\ doc s = doc down
  | Some q => hasMoved (dragRef s) = true /\ doc s = F q (doc down)
  end.

(** The three update maps of a multi-drag, by kind. *)
Definition updatesOf (ty : EntityType)
    (u : gmap nat (Q * Q) * gmap nat (Q * Q) * gmap nat (Q * Q)) : gmap nat (Q * Q) :=
  match ty with ETable => u.1.1 | EBlock => u.1.2 | EVenue => u.2 end.

(** The plan with the three update maps applied. *)
Definition applyAll (u : gmap nat (Q * Q) * gmap nat (Q * Q) * gmap nat (Q * Q))
    (d : Doc) : Doc :=
  mkDoc (applyUpdates t_id t_with_pos u.1.1 (tables d))
        (applyUpdates b_id b_with_pos u.1.2 (chairBlocks d))
        (applyUpdates v_id v_with_pos u.2 (venueElements d))
        (disabledAttendees d).

(** The plan with every entity of kind [ty] and id [id] put at [pos]. *)
Definition placeAt (ty : EntityType) (id : nat) (pos : Q * Q) (d : Doc) : Doc :=
  match ty with
  | ETable =>
      mkDoc (map (fun e => if decide (t_id e = id) then t_with_pos pos.1 pos.2 e else e)
                 (tables d))
            (chairBlocks d) (venueElements d) (disabledAttendees d)
  | EBlock =>
      mkDoc (tables d)
            (map (fun e => if decide (b_id e = id) then b_with_pos pos.1 pos.2 e else e)
                 (chairBlocks d))
            (venueElements d) (disabledAttendees d)
  | EVenue =>
      mkDoc (tables d) (chairBlocks d)
            (map (fun e => if decide (v_id e = id) then v_with_pos pos.1 pos.2 e else e)
                 (venueElements d))
            (disabledAttendees d)
  end.

(** Three tables selected together: two of them are in the plan, the third
    selection is stale. *)
Definition trio : App :=
  mkApp floorPlan [] [] "Ready" (Some (TableE freeTable))
        [TableE lockedTable; TableE freeTable;
         TableE (mkTable 9 0 0 Round 8 5 5 Horizontal 0 false ∅)]
        false (mkDragRef 0 0 None 0 0 None false).

(** ** Editing an entity *)

(** What an edit in the dialog leaves alone: kind, id, position and lock. *)
Definition placement (e : Entity) : EntityType * nat * Q * Q * bool :=
  (entityType e, e_id e, e_x e, e_y e, e_locked e).

(** A round table of eight with attendee 3 on its last seat. *)
Definition lastSeat : Table :=
  mkTable 1 10 10 Round 8 5 5 Horizontal 0 false {[ "7" := 3%nat ]}.

(** ** Panning *)

(** The pointer positions (client coordinates) of one press on empty
    canvas, fed to the pan branch of the move handler in order. *)
Definition pans (ps : list (Q * Q)) (vp : Viewport) : Viewport :=
  foldl (fun s p => handleCanvasMouseMove_pan p.1 p.2 s) vp ps.

(** The pointer is more than 3 pixels from [(x0, y0)] on some axis. *)
Definition beyondSlack (x0 y0 : Q) (p : Q * Q) : bool :=
  Qgtb (Qabs (p.1 - x0)) 3 || Qgtb (Qabs (p.2 - y0)) 3.

(** The view panned by the way from [(x0, y0)] to [p]. *)
Definition pannedBy (x0 y0 : Q) (p : Q * Q) (v : View) : View :=
  mkView (canvasW v) (canvasH v) (zoomLevel v)
         (panX v + (p.1 - x0)) (panY v + (p.2 - y0)).

(** State [s] of a press that began at [(x0, y0)] in [vp] reflects pointer
    position [o]. *)
Definition PanTracks (x0 y0 : Q) (vp s : Viewport) (o : option (Q * Q)) : Prop :=
  vp_app s = setDragging true (vp_app vp) /\
  panRef s = mkPanRef true x0 y0 (panX (view vp)) (panY (view vp))
                      (bool_decide (is_Some o)) /\
  view s = match o with
           | Some q => pannedBy x0 y0 q (view vp)
           | None => view vp
           end.

(** A view of an 800 x 600 canvas at 100 %, with the dance floor
    selected. *)
Definition atRest : Viewport :=
  mkViewport ballroom (mkView 800 600 100 0 0) (mkPanRef false 0 0 0 0 false).

(** ** CSV export *)

(** The plan of the named tables and chair blocks. *)
Definition planOf (tables : list (string * Table))
    (blocks : list (string * ChairBlock)) : Doc :=
  mkDoc tables.*2 blocks.*2 [] ∅.

(** The entity name and the seat cell that the export prints for a seat. *)
Definition seatCells (tables : list (string * Table))
    (blocks : list (string * ChairBlock)) (r : SeatRef) : option (string * string) :=
  match r with
  | InTable n k => (fun e => (tableName e, tableSeatCell k)) <$> tables !! n
  | InBlock n k => (fun e => (blockName e, blockSeatCell k)) <$> blocks !! n
  end.

(** The row of roster member [i] when [cells] holds a seat for them, and
    the row when it does not. *)
Definition seatedRow (attendees : list (string * string))
    (cells : gmap nat (string * string)) (i : nat) : option (list string) :=
  c ← cells !! i; att ← attendees !! i; Some [att.1; att.2; c.1; c.2].

Definition unseatedRow (attendees : list (string * string))
    (cells : gmap nat (string * string)) (i : nat) : option (list string) :=
  match cells !! i with
  | Some _ => None
  | None => (fun att : string * string => [att.1; att.2; ""; ""]) <$> attendees !! i
  end.

(** The hall with its two tables and its chair block unnamed. *)
Definition hallTables : list (string * Table) := (fun t => ("", t)) <$> tables hall.

Definition hallBlocks : list (string * ChairBlock) :=
  (fun b => ("", b)) <$> chairBlocks hall.

(** ** Dropping a seat dragged out of the seat popup *)

(** Seat [r] is the seat with key [k] of an entity addressed by
    [(ty, id)]. *)
Definition atSeat (d : Doc) (ty : EntityType) (id : nat) (k : string)
    (r : SeatRef) : Prop :=
  isTarget d ty id r /\ keyOf r = k.

(** Kind, id and key of the seat found by [seatHitTest]. *)
Definition seatAddress (s : SeatInfo) : EntityType * nat * string :=
  match s with
  | TableSeat t k => (ETable, t_id t, k)
  | BlockSeat b k => (EBlock, b_id b, k)
  end.

(** The entity found by [seatHitTest] is one of the plan. *)
Definition currentSeat (d : Doc) (s : SeatInfo) : Prop :=
  match s with
  | TableSeat t _ => t ∈ tables d
  | BlockSeat b _ => b ∈ chairBlocks d
  end.

(** ** Smart guides *)

(** The entity is one of those being dragged. *)
Definition isDragged (draggedIds : list (EntityType * nat)) (e : Entity) : bool :=
  bool_decide ((entityType e, e_id e) ∈ draggedIds).

(** Two lines less than 0.5 ft apart. *)
Definition near (dv ov : Q) : Prop := (Qabs (dv - ov) < 1 # 2)%Q.

(** The alignment tests of a dragged entity against another one, in the
    order of the source: centres, then edges. *)
Definition alignments (db ob : Bounds) : list (Q * Q * Axis) :=
  (cx db, cx ob, VerticalLine) :: (cy db, cy ob, HorizontalLine) :: edgePairs db ob.

(** The alignment tests of a whole call, in the order of the loops. *)
Definition allAlignments (draggedIds : list (EntityType * nat)) (d : Doc)
    : list (Q * Q * Axis) :=
  (getEntityBounds <$> List.filter (isDragged draggedIds) (entitiesOf d)) ≫= fun db =>
  (getEntityBounds <$>
     List.filter (fun e => negb (isDragged draggedIds e)) (entitiesOf d)) ≫= fun ob =>
  alignments db ob.

(** ** Drops and selections *)

(** The seating [d'] is the seating [d] with attendee [att] added on seat
    [r]: nobody has moved, nobody has left. *)
Definition seatedAt (d d' : Doc) (r : SeatRef) (att : nat) : Prop :=
  forall r' i, occupies d' r' i <-> occupies d r' i \/ (r' = r /\ i = att).

(** Select the [n]-th table as it stands in the plan. *)
Definition selectTable (n : nat) (st : App) : App :=
  match tables (doc st) !! n with
  | Some t => onSelect (TableE t) st
  | None => st
  end.

(** A round table of eight with attendees 3 and 4 opposite each other. *)
Definition facing : Table :=
  mkTable 1 10 10 Round 8 5 5 Horizontal 0 false {[ "1" := 3%nat; "5" := 4%nat ]}.

(** * Properties *)

(** ** Grid snap *)

Section GridSnap.

Variable cfg : Settings.

Lemma snap_off (v : Q) :
  snapEnabled cfg = false \/ (gridSize cfg <= 0)%Q -> snap cfg v = v.
Proof.
  intros H. unfold snap, Qgtb.
  destruct H as [-> | H]; [reflexivity |].
  apply Qle_bool_iff in H. rewrite H. now rewrite andb_false_r.
Qed.

Lemma snap_on (v : Q) :
  snapEnabled cfg = true -> (0 < gridSize cfg)%Q ->
  snap cfg v = (Math_round (v / gridSize cfg) * gridSize cfg)%Q.
Proof.
  intros He Hg. unfold snap, Qgtb. rewrite He. simpl.
  destruct (Qle_bool (gridSize cfg) 0) eqn:E; [| reflexivity].
  apply Qle_bool_iff in E. exfalso. eapply Qlt_not_le; eauto.
Qed.

(** [Math.round] is within one half of its argument. *)
Lemma Math_round_near (q : Q) :
  (Math_round q - (1 # 2) <= q)%Q /\ (q < Math_round q + (1 # 2))%Q.
Proof.
  unfold Math_round.
  pose proof (Qfloor_le (q + (1 # 2))) as Hlo.
  pose proof (Qlt_floor (q + (1 # 2))) as Hhi.
  rewrite inject_Z_plus in Hhi. change (inject_Z 1) with 1%Q in Hhi.
  generalize dependent (inject_Z (Qfloor (q + (1 # 2)))). intros m Hlo Hhi.
  split; lra.
Qed.

(** The snapped value is a multiple of the grid size, at most half a cell
    away from the raw value. *)
Lemma snap_nearest_multiple (v : Q) :
  snapEnabled cfg = true -> (0 < gridSize cfg)%Q ->
  exists k : Z,
    (snap cfg v == inject_Z k * gridSize cfg)%Q /\
    (Qabs (snap cfg v - v) <= gridSize cfg / 2)%Q.
Proof.
  intros He Hg. rewrite snap_on by assumption.
  exists (Qfloor (v / gridSize cfg + (1 # 2))). split; [reflexivity |].
  destruct (Math_round_near (v / gridSize cfg)) as [Hlo Hhi].
  set (m := Math_round (v / gridSize cfg)) in *.
  set (g := gridSize cfg) in *.
  assert (Hv : (v == (v / g) * g)%Q) by (field; lra).
  set (q := (v / g)%Q) in *.
  clearbody q m g. clear He.
  assert (Hd : (g / 2 == (1 # 2) * g)%Q) by field.
  apply Qabs_Qle_condition. rewrite Hd, Hv. split; nra.
Qed.

End GridSnap.

Example Math_round_halves_up :
  (Math_round (5 # 2) == 3)%Q /\ (Math_round (-5 # 2) == -2)%Q /\
  (Math_round (27 # 10) == 3)%Q.
Proof. repeat split. Qed.

Example snap_on_one_foot_grid :
  (snap grid1 (27 # 10) == 3)%Q /\ (snap grid1 (-1 # 4) == 0)%Q.
Proof. split; vm_compute; reflexivity. Qed.

(** C10.  With snapping switched off, or with a grid size that is not
    positive, [snapEntityPos] returns the raw coordinates unchanged for
    every kind of entity, and so does [snap]. *)
Theorem snapEntityPos_identity_when_disabled
    (cfg : Settings) (rawX rawY : Q) (entity : Entity) :
  snapEnabled cfg = false \/ (gridSize cfg <= 0)%Q ->
  snapEntityPos cfg rawX rawY entity = (rawX, rawY) /\
  snap cfg rawX = rawX /\ snap cfg rawY = rawY.
Proof.
  intros H. split; [| split; apply snap_off; assumption].
  unfold snapEntityPos. destruct H as [-> | H]; [reflexivity |].
  apply Qle_bool_iff in H. rewrite H. now rewrite orb_true_r.
Qed.

Lemma snapEntityPos_identity_when_disabled_witness :
  let off := mkSettings 60 40 1 false 10 in
  let nogrid := mkSettings 60 40 0 true 10 in
  (snapEnabled off = false \/ (gridSize off <= 0)%Q) /\
  (snapEnabled nogrid = false \/ (gridSize nogrid <= 0)%Q) /\
  snapEntityPos off (51 # 5) (37 # 10) (VenueE danceFloor) = (51 # 5, 37 # 10)%Q /\
  snapEntityPos nogrid (51 # 5) (37 # 10) (TableE octet) = (51 # 5, 37 # 10)%Q.
Proof.
  intros off nogrid.
  assert (H1 : snapEnabled off = false \/ (gridSize off <= 0)%Q)
    by (left; reflexivity).
  assert (H2 : snapEnabled nogrid = false \/ (gridSize nogrid <= 0)%Q)
    by (right; apply Qle_bool_iff; reflexivity).
  split; [exact H1 |]. split; [exact H2 |]. split.
  - exact (proj1 (snapEntityPos_identity_when_disabled off (51 # 5) (37 # 10)
                    (VenueE danceFloor) H1)).
  - exact (proj1 (snapEntityPos_identity_when_disabled nogrid (51 # 5) (37 # 10)
                    (TableE octet) H2)).
Defined.

(** C5 (as amended).  With snapping on and a positive grid size: a round
    table snaps its centre; a chair block snaps its stored top-left corner;
    a rectangular table and a venue element alike convert the centre to the
    top-left corner, snap the corner and convert back.  [snap] itself returns
    a multiple of the grid size at most half a cell from its argument. *)
Theorem snapEntityPos_anchor_by_kind (cfg : Settings) (rawX rawY : Q) :
  snapEnabled cfg = true -> (0 < gridSize cfg)%Q ->
  (forall t, tableType t = Round ->
     snapEntityPos cfg rawX rawY (TableE t) = (snap cfg rawX, snap cfg rawY)) /\
  (forall b,
     snapEntityPos cfg rawX rawY (BlockE b) = (snap cfg rawX, snap cfg rawY)) /\
  (forall t, tableType t = Rect ->
     snapEntityPos cfg rawX rawY (TableE t) =
       (snap cfg (rawX - t_widthFt t / 2) + t_widthFt t / 2,
        snap cfg (rawY - t_heightFt t / 2) + t_heightFt t / 2)%Q) /\
  (forall v,
     snapEntityPos cfg rawX rawY (VenueE v) =
       (snap cfg (rawX - v_widthFt v / 2) + v_widthFt v / 2,
        snap cfg (rawY - v_heightFt v / 2) + v_heightFt v / 2)%Q) /\
  (forall v, exists k : Z,
     (snap cfg v == inject_Z k * gridSize cfg)%Q /\
     (Qabs (snap cfg v - v) <= gridSize cfg / 2)%Q).
Proof.
  intros He Hg.
  assert (Hoff : negb (snapEnabled cfg) || Qle_bool (gridSize cfg) 0 = false).
  { rewrite He. simpl. destruct (Qle_bool (gridSize cfg) 0) eqn:E; [| reflexivity].
    apply Qle_bool_iff in E. exfalso. eapply Qlt_not_le; eauto. }
  repeat split.
  - intros t Ht. unfold snapEntityPos. rewrite Hoff, Ht. reflexivity.
  - intros b. unfold snapEntityPos. rewrite Hoff. reflexivity.
  - intros t Ht. unfold snapEntityPos. rewrite Hoff, Ht. reflexivity.
  - intros v. unfold snapEntityPos. rewrite Hoff. reflexivity.
  - intros v. apply snap_nearest_multiple; assumption.
Qed.

Lemma snapEntityPos_anchor_by_kind_witness :
  snapEnabled grid1 = true /\ (0 < gridSize grid1)%Q /\
  snapEntityPos grid1 (51 # 5) (51 # 5) (VenueE danceFloor) =
    (snap grid1 ((51 # 5) - v_widthFt danceFloor / 2) + v_widthFt danceFloor / 2,
     snap grid1 ((51 # 5) - v_heightFt danceFloor / 2) + v_heightFt danceFloor / 2)%Q.
Proof.
  split; [reflexivity |]. split; [reflexivity |].
  apply (snapEntityPos_anchor_by_kind grid1 (51 # 5) (51 # 5));
    reflexivity.
Defined.

(** C5, counterexample.  On a 1 ft grid a 15 ft venue element dragged to
    x = y = 10.2 lands with its centre at 10.5: its corner, not its centre,
    is on the grid.  Snapping the centre would give 10. *)
Lemma venue_snap_is_not_centre_snap :
  let p := snapEntityPos grid1 (51 # 5) (51 # 5) (VenueE danceFloor) in
  (p.1 == 21 # 2)%Q /\ (p.2 == 21 # 2)%Q /\
  (snap grid1 (51 # 5) == 10)%Q /\
  ~ (p.1 == snap grid1 (51 # 5))%Q /\
  ~ (exists k : Z, p.1 == inject_Z k * gridSize grid1)%Q.
Proof.
  intros p.
  repeat split; try (vm_compute; reflexivity).
  - intros H. vm_compute in H. discriminate.
  - intros [k H].
    assert (E : (p.1 == 21 # 2)%Q) by (vm_compute; reflexivity).
    rewrite E in H. unfold Qeq in H. simpl in H. lia.
Qed.

(** ** Swapping two seats *)

#[global] Instance Table_SeatedLaws : SeatedLaws Table.
Proof. split; try reflexivity. intros []; reflexivity. Qed.

#[global] Instance Block_SeatedLaws : SeatedLaws ChairBlock.
Proof. split; try reflexivity. intros []; reflexivity. Qed.

Lemma swapAssignments_involutive (A B : string) (a : gmap string nat) :
  A <> B -> swapAssignments A B (swapAssignments A B a) = a.
Proof.
  intros Hne. unfold swapAssignments at 2.
  destruct (a !! A) as [x |] eqn:HA, (a !! B) as [y |] eqn:HB;
    unfold swapAssignments; simplify_map_eq; try reflexivity;
    apply map_eq; intros k;
    destruct (decide (k = A)), (decide (k = B)); subst;
    simplify_map_eq; congruence.
Qed.

Lemma swapUpdater_involutive {E} `{SeatedLaws E} (entityId : nat) (A B : string)
    (prev : list E) :
  A <> B -> swapUpdater entityId A B (swapUpdater entityId A B prev) = prev.
Proof.
  intros Hne. unfold swapUpdater, mapById. rewrite map_map.
  rewrite <- (map_id prev) at 2. apply map_ext. intros e.
  destruct (decide (ent_id e = entityId)) as [Heq | Hneq].
  - rewrite ent_id_with, decide_True by assumption.
    rewrite assignments_with, with_with, swapAssignments_involutive by assumption.
    apply with_same.
  - rewrite decide_False by assumption. reflexivity.
Qed.

(** C9.  Swapping two seats of an entity twice gives back the tables and
    chair blocks, with every assignment map, exactly as they were: whether
    both seats are occupied, one of them, or none, and when the two keys are
    the same. *)
Theorem swapSeats_twice_restores (entityType : EntityType) (entityId : nat)
    (seatKeyA seatKeyB : string) (st : App) :
  doc (swapSeats entityType entityId seatKeyA seatKeyB
         (swapSeats entityType entityId seatKeyA seatKeyB st)) = doc st.
Proof.
  unfold swapSeats.
  destruct (decide (seatKeyA = seatKeyB)) as [| Hne]; [reflexivity |].
  destruct st as [[ts bs vs dis] us rs s sel sels dr r].
  destruct entityType; cbn; f_equal;
    first [ exact (swapUpdater_involutive (E:=Table) entityId _ _ ts Hne)
          | exact (swapUpdater_involutive (E:=ChairBlock) entityId _ _ bs Hne) ].
Qed.

(** ** Seat exclusivity *)

Section Occupancy.

Context {E : Type} `{SeatedLaws E}.

Lemma lookup_mapById (entityId : nat) (f : E -> E) (l : list E) (n : nat) :
  mapById entityId f l !! n =
  (fun e => if decide (ent_id e = entityId) then f e else e) <$> l !! n.
Proof. unfold mapById. apply list_lookup_fmap. Qed.

Lemma ids_mapById (entityId : nat) (f : E -> E) (l : list E) :
  (forall e, ent_id (f e) = ent_id e) ->
  ent_id <$> mapById entityId f l = ent_id <$> l.
Proof.
  intros Hf. unfold mapById. rewrite <- list_fmap_compose.
  apply list_fmap_ext. intros _ e _. simpl.
  destruct (decide (ent_id e = entityId)); [apply Hf | reflexivity].
Qed.

Lemma occ_put (entityId : nat) (k : string) (v : nat) (l : list E)
    (n : nat) (k' : string) (i : nat) :
  occ (mapById entityId (putSeat k v) l) n k' i ->
  (exists e, l !! n = Some e /\ ent_id e = entityId /\ k' = k /\ i = v) \/
  occ l n k' i.
Proof.
  intros (e' & Hl & Ha). rewrite lookup_mapById in Hl.
  destruct (l !! n) as [e |] eqn:Hn; [| discriminate].
  simpl in Hl. injection Hl as <-.
  destruct (decide (ent_id e = entityId)) as [Hid | Hid].
  - unfold putSeat in Ha. rewrite assignments_with in Ha.
    destruct (decide (k = k')) as [<- | Hk].
    + rewrite lookup_insert_eq in Ha. injection Ha as <-. left. eauto.
    + rewrite lookup_insert_ne in Ha by assumption. right. exists e. auto.
  - right. exists e. auto.
Qed.

Lemma occ_drop (entityId : nat) (k : string) (l : list E)
    (n : nat) (k' : string) (i : nat) :
  occ (mapById entityId (dropSeat k) l) n k' i ->
  occ l n k' i /\
  ~ (exists e, l !! n = Some e /\ ent_id e = entityId /\ k' = k).
Proof.
  intros (e' & Hl & Ha). rewrite lookup_mapById in Hl.
  destruct (l !! n) as [e |] eqn:Hn; [| discriminate].
  simpl in Hl. injection Hl as <-.
  destruct (decide (ent_id e = entityId)) as [Hid | Hid].
  - unfold dropSeat in Ha. rewrite assignments_with in Ha.
    destruct (decide (k = k')) as [<- | Hk].
    + rewrite lookup_delete_eq in Ha. discriminate.
    + rewrite lookup_delete_ne in Ha by assumption. split.
      * exists e. auto.
      * intros (e2 & He2 & _ & Hk'). congruence.
  - split.
    + exists e. auto.
    + intros (e2 & He2 & Hid2 & _). congruence.
Qed.

Lemma transpose_inj (A B k1 k2 : string) :
  transpose A B k1 = transpose A B k2 -> k1 = k2.
Proof. unfold transpose. repeat case_decide; congruence. Qed.

Lemma lookup_swapAssignments (A B k : string) (a : gmap string nat) :
  swapAssignments A B a !! k = a !! transpose A B k.
Proof.
  unfold swapAssignments, transpose.
  destruct (decide (A = B)) as [Heq | Hne];
    destruct (a !! A) as [x |] eqn:HA, (a !! B) as [y |] eqn:HB;
    repeat case_decide; subst; simplify_map_eq; congruence.
Qed.

Lemma occ_swap (entityId : nat) (A B : string) (l : list E)
    (n : nat) (k : string) (i : nat) :
  occ (swapUpdater entityId A B l) n k i ->
  exists e, l !! n = Some e /\
    assignments e !! (if decide (ent_id e = entityId) then transpose A B k else k)
      = Some i.
Proof.
  intros (e' & Hl & Ha). unfold swapUpdater in Hl. rewrite lookup_mapById in Hl.
  destruct (l !! n) as [e |] eqn:Hn; [| discriminate].
  simpl in Hl. injection Hl as <-. exists e. split; [reflexivity |].
  destruct (decide (ent_id e = entityId)); [| assumption].
  rewrite assignments_with, lookup_swapAssignments in Ha. assumption.
Qed.

Lemma unique_position (l : list E) (n1 n2 : nat) (e1 e2 : E) :
  NoDup (ent_id <$> l) -> l !! n1 = Some e1 -> l !! n2 = Some e2 ->
  ent_id e1 = ent_id e2 -> n1 = n2.
Proof.
  intros Hnd H1 H2 Hid.
  eapply NoDup_lookup; [exact Hnd | |].
  - rewrite list_lookup_fmap, H1. reflexivity.
  - rewrite list_lookup_fmap, H2. simpl. congruence.
Qed.

Lemma sourceOccupant_Some (srcId : nat) (srcKey : string) (l : list E) (att : nat) :
  sourceOccupant srcId srcKey l = Some att ->
  exists n e, l !! n = Some e /\ ent_id e = srcId /\ assignments e !! srcKey = Some att.
Proof.
  unfold sourceOccupant. induction l as [| e l IH] using rev_ind; [discriminate |].
  rewrite foldl_app. simpl.
  destruct (decide (ent_id e = srcId)) as [Hid | Hid].
  - intros Ha. exists (length l), e. split; [| auto].
    rewrite lookup_app_r by lia. now rewrite Nat.sub_diag.
  - intros Ha. destruct (IH Ha) as (n & e' & Hl & Hr).
    exists n, e'. split; [| exact Hr].
    rewrite lookup_app_l; [assumption |]. eapply lookup_lt_Some; eauto.
Qed.

(** Membership in the set built by the inner and outer loops of
    [buildAssignedSet]. *)
Lemma elem_of_add_values (x : nat) (vs : list nat) (acc : gset nat) :
  x ∈ foldl (fun acc v => acc ∪ {[v]}) acc vs <-> x ∈ acc \/ x ∈ vs.
Proof.
  revert acc. induction vs as [| v vs IH]; intros acc; simpl.
  - rewrite elem_of_nil. tauto.
  - rewrite IH, elem_of_cons, elem_of_union, elem_of_singleton. tauto.
Qed.

Lemma elem_of_values (x : nat) (a : gmap string nat) :
  x ∈ values a <-> exists k, a !! k = Some x.
Proof.
  unfold values. rewrite list_elem_of_fmap. split.
  - intros ([k v] & -> & Hin). exists k. now apply elem_of_map_to_list.
  - intros (k & Hk). exists (k, x). split; [reflexivity |].
    now apply elem_of_map_to_list.
Qed.

Lemma elem_of_add_entities (x : nat) (l : list E) (acc : gset nat) :
  x ∈ foldl (fun acc e => foldl (fun acc v => acc ∪ {[v]}) acc
                                (values (assignments e))) acc l
  <-> x ∈ acc \/ exists n k, occ l n k x.
Proof.
  revert acc. induction l as [| e l IH]; intros acc; simpl.
  - split; [auto |]. intros [? | (n & k & e & Hl & _)]; [assumption |].
    rewrite lookup_nil in Hl. discriminate.
  - rewrite IH, elem_of_add_values, elem_of_values. split.
    + intros [[? | (k & Hk)] | (n & k & e' & Hl & Ha)].
      * auto.
      * right. exists 0%nat, k, e. auto.
      * right. exists (S n), k, e'. auto.
    + intros [? | (n & k & e' & Hl & Ha)]; [auto |].
      destruct n as [| n]; simpl in Hl.
      * injection Hl as ->. left. right. eauto.
      * right. exists n, k, e'. auto.
Qed.

End Occupancy.

Lemma isTarget_unique d ty id r1 r2 :
  UniqueIds d -> isTarget d ty id r1 -> isTarget d ty id r2 ->
  keyOf r1 = keyOf r2 -> r1 = r2.
Proof.
  intros [Ht Hb] H1 H2 Hk.
  destruct ty, r1 as [n1 k1 | n1 k1], r2 as [n2 k2 | n2 k2];
    simpl in *; try contradiction;
    destruct H1 as (e1 & Hl1 & Hi1), H2 as (e2 & Hl2 & Hi2); subst k2; f_equal.
  - eapply (unique_position (E:=Table)); eauto. simpl. congruence.
  - eapply (unique_position (E:=ChairBlock)); eauto. simpl. congruence.
  - eapply (unique_position (E:=ChairBlock)); eauto. simpl. congruence.
Qed.

Lemma occupies_putAt d ty id k v r i :
  occupies (putAt ty id k v d) r i ->
  (isTarget d ty id r /\ keyOf r = k /\ i = v) \/ occupies d r i.
Proof.
  destruct ty, r as [n k' | n k']; simpl; auto;
    intros Ho; apply occ_put in Ho as [(e & Hl & Hid & Hk & Hv) | Ho]; eauto 10.
Qed.

Lemma occupies_dropAt d ty id k r i :
  occupies (dropAt ty id k d) r i ->
  occupies d r i /\ ~ (isTarget d ty id r /\ keyOf r = k).
Proof.
  destruct ty, r as [n k' | n k']; simpl; try tauto;
    intros Ho; apply occ_drop in Ho as [Ho Hn]; (split; [assumption |]);
    intros [(e & Hl & Hid) Hk]; apply Hn; eauto.
Qed.

Lemma t_ids_mapById id (f : Table -> Table) l :
  (forall e, t_id (f e) = t_id e) -> t_id <$> mapById id f l = t_id <$> l.
Proof. exact (ids_mapById (E:=Table) id f l). Qed.

Lemma b_ids_mapById id (f : ChairBlock -> ChairBlock) l :
  (forall e, b_id (f e) = b_id e) -> b_id <$> mapById id f l = b_id <$> l.
Proof. exact (ids_mapById (E:=ChairBlock) id f l). Qed.

Ltac ids_kept :=
  match goal with
  | |- UniqueIds _ -> UniqueIds _ =>
      let Ht := fresh in let Hb := fresh in
      intros [Ht Hb]; split; cbn [tables chairBlocks]; try assumption;
      first [ rewrite t_ids_mapById by reflexivity
            | rewrite b_ids_mapById by reflexivity ]; assumption
  end.

Lemma UniqueIds_putAt d ty id k v : UniqueIds d -> UniqueIds (putAt ty id k v d).
Proof. destruct ty; unfold putAt; ids_kept. Qed.

Lemma UniqueIds_dropAt d ty id k : UniqueIds d -> UniqueIds (dropAt ty id k d).
Proof. destruct ty; unfold dropAt; ids_kept. Qed.

Lemma UniqueIds_swapAt d ty id A B : UniqueIds d -> UniqueIds (swapAt ty id A B d).
Proof. destruct ty; unfold swapAt, swapUpdater; ids_kept. Qed.

(** Seating an attendee who sits nowhere keeps the seating exclusive, also
    when the seat was occupied: the former occupant just loses the seat. *)
Lemma Exclusive_putAt d ty id k v :
  UniqueIds d -> Exclusive d -> (forall r, ~ occupies d r v) ->
  Exclusive (putAt ty id k v d).
Proof.
  intros Hu Hex Hfree i r1 r2 H1 H2.
  apply occupies_putAt in H1 as [(Ht1 & Hk1 & ->) | H1];
    apply occupies_putAt in H2 as [(Ht2 & Hk2 & Hv2) | H2].
  - eapply isTarget_unique; eauto. congruence.
  - exfalso. eapply Hfree; eauto.
  - subst i. exfalso. eapply Hfree; eauto.
  - eapply Hex; eauto.
Qed.

Lemma Exclusive_dropAt d ty id k : Exclusive d -> Exclusive (dropAt ty id k d).
Proof.
  intros Hex i r1 r2 H1 H2.
  apply occupies_dropAt in H1 as [H1 _]. apply occupies_dropAt in H2 as [H2 _].
  eapply Hex; eauto.
Qed.

Lemma swapRef_inj d ty id A B r1 r2 :
  swapRef d ty id A B r1 = swapRef d ty id A B r2 -> r1 = r2.
Proof.
  destruct ty, r1 as [n1 k1 | n1 k1], r2 as [n2 k2 | n2 k2]; simpl;
    try (intros [=]; subst; reflexivity).
  all: repeat match goal with
       | |- context [?l !! ?n] => let E := fresh "E" in destruct (l !! n) eqn:E
       end;
    repeat case_decide; intros [=]; simplify_eq;
    try reflexivity; try congruence; f_equal; eauto using transpose_inj.
Qed.

Lemma occupies_swapAt d ty id A B r i :
  occupies (swapAt ty id A B d) r i -> occupies d (swapRef d ty id A B r) i.
Proof.
  destruct ty, r as [n k | n k]; simpl; auto;
    intros Ho; apply occ_swap in Ho as (e & Hl & Ha);
    rewrite Hl; simpl in Ha; case_decide; simpl; exists e; auto.
Qed.

Lemma Exclusive_swapAt d ty id A B : Exclusive d -> Exclusive (swapAt ty id A B d).
Proof.
  intros Hex i r1 r2 H1 H2.
  apply occupies_swapAt in H1, H2.
  eapply swapRef_inj, Hex; eassumption.
Qed.

Lemma values_inj (a : gmap string nat) (k1 k2 : string) (i : nat) :
  NoDup (values a) -> a !! k1 = Some i -> a !! k2 = Some i -> k1 = k2.
Proof.
  intros Hnd H1 H2. unfold values in Hnd.
  apply elem_of_map_to_list, list_elem_of_lookup in H1 as [j1 Hj1].
  apply elem_of_map_to_list, list_elem_of_lookup in H2 as [j2 Hj2].
  assert (j1 = j2) as ->.
  { eapply NoDup_lookup; [exact Hnd | |]; rewrite list_lookup_fmap.
    - rewrite Hj1. reflexivity.
    - rewrite Hj2. reflexivity. }
  congruence.
Qed.

Lemma occ_elem_of_bind {E} {SE : Seated E} (l : list E) n k i :
  occ l n k i -> i ∈ l ≫= (fun e => values (assignments e)).
Proof.
  intros (e & Hl & Ha). apply list_elem_of_bind. exists e. split.
  - apply elem_of_values. eauto.
  - eapply list_elem_of_lookup_2; eauto.
Qed.

Lemma NoDup_bind_occ {E} {SE : Seated E} (l : list E) :
  NoDup (l ≫= (fun e => values (assignments e))) ->
  forall i n1 k1 n2 k2, occ l n1 k1 i -> occ l n2 k2 i -> n1 = n2 /\ k1 = k2.
Proof.
  induction l as [| e l IH]; intros Hnd i n1 k1 n2 k2 H1 H2.
  - destruct H1 as (? & Hl & _). rewrite lookup_nil in Hl. discriminate.
  - simpl in Hnd. apply NoDup_app in Hnd as (Hhd & Hdis & Htl).
    destruct n1 as [| n1], n2 as [| n2].
    + destruct H1 as (e1 & [= <-] & Ha1), H2 as (e2 & [= <-] & Ha2).
      split; [reflexivity |]. eapply values_inj; eauto.
    + exfalso. destruct H1 as (e1 & [= <-] & Ha1).
      eapply Hdis; [apply elem_of_values; eauto |].
      eapply (occ_elem_of_bind l n2 k2). exact H2.
    + exfalso. destruct H2 as (e2 & [= <-] & Ha2).
      eapply Hdis; [apply elem_of_values; eauto |].
      eapply (occ_elem_of_bind l n1 k1). exact H1.
    + destruct (IH Htl i n1 k1 n2 k2 H1 H2) as [-> ->]. auto.
Qed.

Lemma Exclusive_of_NoDup (d : Doc) : NoDup (seated d) -> Exclusive d.
Proof.
  unfold seated. intros Hnd. apply NoDup_app in Hnd as (Ht & Hdis & Hb).
  intros i [n1 k1 | n1 k1] [n2 k2 | n2 k2] H1 H2; simpl in H1, H2.
  - destruct (NoDup_bind_occ (SE:=Table_Seated) (tables d) Ht i n1 k1 n2 k2 H1 H2).
    congruence.
  - exfalso. eapply Hdis.
    + exact (occ_elem_of_bind (SE:=Table_Seated) (tables d) _ _ _ H1).
    + exact (occ_elem_of_bind (SE:=Block_Seated) (chairBlocks d) _ _ _ H2).
  - exfalso. eapply Hdis.
    + exact (occ_elem_of_bind (SE:=Table_Seated) (tables d) _ _ _ H2).
    + exact (occ_elem_of_bind (SE:=Block_Seated) (chairBlocks d) _ _ _ H1).
  - destruct (NoDup_bind_occ (SE:=Block_Seated) (chairBlocks d) Hb i n1 k1 n2 k2 H1 H2).
    congruence.
Qed.

(** [assigned] is exactly the set of attendees that occupy some seat. *)
Lemma elem_of_assigned (st : App) (i : nat) :
  i ∈ assigned st <-> exists r, occupies (doc st) r i.
Proof.
  unfold assigned, buildAssignedSet.
  etrans; [exact (elem_of_add_entities (E:=ChairBlock) i _ _) |].
  etrans; [apply or_iff_compat_r;
           exact (elem_of_add_entities (E:=Table) i _ _) |].
  rewrite elem_of_empty. split.
  - intros [[[] | (n & k & Ho)] | (n & k & Ho)].
    + exists (InTable n k). exact Ho.
    + exists (InBlock n k). exact Ho.
  - intros [[n k | n k] Ho]; [left; right | right]; eauto.
Qed.

(** The documents produced by the three operations. *)
Lemma doc_assignAttendee ty id k att st :
  doc (assignAttendee ty id k att st) =
  if decide (att ∈ disabledAttendees (doc st) \/ att ∈ assigned st)
  then doc st else putAt ty id k att (doc st).
Proof.
  unfold assignAttendee.
  destruct (decide (att ∈ disabledAttendees (doc st))) as [Hd | Hd].
  { rewrite decide_True by auto. reflexivity. }
  destruct (decide (att ∈ assigned st)) as [Ha | Ha].
  { rewrite decide_True by auto. reflexivity. }
  rewrite decide_False by tauto. destruct ty; reflexivity.
Qed.

Lemma doc_swapSeats ty id A B st :
  doc (swapSeats ty id A B st) =
  if decide (A = B) then doc st else swapAt ty id A B (doc st).
Proof. unfold swapSeats. case_decide; [reflexivity |]. destruct ty; reflexivity. Qed.

Lemma doc_moveSeatToSeat now sty sid sk dty did dk st :
  doc (moveSeatToSeat now sty sid sk dty did dk st) =
  if decide (sty = dty /\ sid = did) then
    if decide (sk = dk) then doc st else swapAt sty sid sk dk (doc st)
  else
    match (if now then sourceOccupantAt sty sid sk (doc st) else None) with
    | None => dropAt sty sid sk (doc st)
    | Some att => putAt dty did dk att (dropAt sty sid sk (doc st))
    end.
Proof.
  unfold moveSeatToSeat. case_decide.
  - rewrite doc_swapSeats. reflexivity.
  - unfold sourceOccupantAt. destruct now; [| destruct sty; reflexivity].
    destruct sty; simpl;
      match goal with
      | |- context [sourceOccupant ?i ?k ?l] => destruct (sourceOccupant i k l)
      end; destruct dty; reflexivity.
Qed.

Lemma sourceOccupantAt_Some ty id k d att :
  sourceOccupantAt ty id k d = Some att ->
  exists r, isTarget d ty id r /\ keyOf r = k /\ occupies d r att.
Proof.
  destruct ty; simpl; intros Hs.
  - apply (sourceOccupant_Some (E:=Table)) in Hs as (n & e & Hl & Hid & Ha).
    exists (InTable n k). simpl. unfold occ. eauto 10.
  - apply (sourceOccupant_Some (E:=ChairBlock)) in Hs as (n & e & Hl & Hid & Ha).
    exists (InBlock n k). simpl. unfold occ. eauto 10.
  - apply (sourceOccupant_Some (E:=ChairBlock)) in Hs as (n & e & Hl & Hid & Ha).
    exists (InBlock n k). simpl. unfold occ. eauto 10.
Qed.

Lemma runOp_invariant (st : App) (op : Op) :
  UniqueIds (doc st) -> Exclusive (doc st) ->
  UniqueIds (doc (runOp st op)) /\ Exclusive (doc (runOp st op)).
Proof.
  intros Hu Hex.
  destruct op as [ty id k att | ty id A B | now sty sid sk dty did dk]; simpl.
  - rewrite doc_assignAttendee. case_decide as Hg; [auto |]. split.
    + now apply UniqueIds_putAt.
    + apply Exclusive_putAt; try assumption.
      intros r Ho. apply Hg. right. apply elem_of_assigned. eauto.
  - rewrite doc_swapSeats. case_decide; [auto |]. split.
    + now apply UniqueIds_swapAt.
    + now apply Exclusive_swapAt.
  - rewrite doc_moveSeatToSeat. repeat case_decide; [auto | |].
    + split; [now apply UniqueIds_swapAt | now apply Exclusive_swapAt].
    + destruct (if now then sourceOccupantAt sty sid sk (doc st) else None)
        as [att |] eqn:Hs.
      * destruct now; [| discriminate].
        split; [now apply UniqueIds_putAt, UniqueIds_dropAt |].
        apply Exclusive_putAt;
          [now apply UniqueIds_dropAt | now apply Exclusive_dropAt |].
        intros r Ho. apply occupies_dropAt in Ho as [Ho Hn].
        apply sourceOccupantAt_Some in Hs as (r0 & Ht & Hk & Ho0).
        apply Hn. rewrite (Hex att r r0 Ho Ho0). auto.
      * split; [now apply UniqueIds_dropAt | now apply Exclusive_dropAt].
Qed.

(** Seat exclusivity where ids are unique.  From a state in which ids are
    unique per kind and no attendee holds two seats, any sequence of
    [assignAttendee], [swapSeats] and [moveSeatToSeat] calls leads to a
    state in which every attendee index is the value of at most one
    (entity, seat key) pair over all tables and chair blocks; this does not
    depend on when React runs the updater of [moveSeatToSeat]. *)
Lemma exclusivity_under_unique_ids (st : App) (ops : list Op) :
  UniqueIds (doc st) -> Exclusive (doc st) ->
  forall i r1 r2,
    occupies (doc (runOps st ops)) r1 i ->
    occupies (doc (runOps st ops)) r2 i -> r1 = r2.
Proof.
  intros Hu Hex. change (Exclusive (doc (runOps st ops))).
  revert st Hu Hex. unfold runOps.
  induction ops as [| op ops IH]; intros st Hu Hex; simpl; [assumption |].
  destruct (runOp_invariant st op Hu Hex) as [Hu' Hex']. now apply IH.
Qed.

Lemma hall_UniqueIds : UniqueIds hall.
Proof. split; refine (bool_decide_unpack _ _); vm_compute; exact I. Qed.

Lemma hall_Exclusive : Exclusive hall.
Proof.
  apply Exclusive_of_NoDup. refine (bool_decide_unpack _ _). vm_compute. exact I.
Qed.

Example evening_keeps_exclusivity :
  forall i r1 r2,
    occupies (doc (runOps (idle hall) evening)) r1 i ->
    occupies (doc (runOps (idle hall) evening)) r2 i -> r1 = r2.
Proof.
  exact (exclusivity_under_unique_ids (idle hall) evening hall_UniqueIds hall_Exclusive).
Qed.

(** Why ids must be unique: the updaters address entities by id, so with
    two tables of id 1 a single [assignAttendee] seats attendee 5 at both. *)
Lemma assign_under_duplicate_ids_seats_twice :
  let twin := mkTable 1 10 10 Round 8 5 5 Horizontal 0 false ∅ in
  let st := assignAttendee ETable 1 "0" 5 (idle (mkDoc [twin; twin] [] [] ∅)) in
  occupies (doc st) (InTable 0 "0") 5 /\ occupies (doc st) (InTable 1 "0") 5.
Proof. split; eexists; split; reflexivity. Qed.

(** ** Assigning to an occupied seat *)

Example assigned_in_hall : assigned (idle hall) = {[ 3%nat; 4%nat ]}.
Proof. vm_compute. reflexivity. Qed.

(** [assignAttendee] makes no occupancy check of its own; its callers make
    it ([handleCanvasMouseUp] and the seat rows of the list view call it on
    empty seats only).  Were it called on seat 0 of table 1, which holds
    attendee 3, with attendee 5 (enabled, seated nowhere), attendee 5 would
    hold the seat and attendee 3 would have lost it. *)
Lemma assignAttendee_makes_no_occupancy_check :
  let st := idle hall in
  let st' := assignAttendee ETable 1 "0" 5 st in
  occ (tables (doc st)) 0 "0" 3 /\
  (5 ∉ disabledAttendees (doc st)) /\ (5 ∉ assigned st) /\
  occ (tables (doc st')) 0 "0" 5 /\
  ~ occ (tables (doc st')) 0 "0" 3 /\
  doc st' <> doc st /\
  status st' = "Assigned".
Proof.
  simpl. repeat split.
  - eexists. split; reflexivity.
  - refine (bool_decide_unpack _ _). vm_compute. exact I.
  - refine (bool_decide_unpack _ _). vm_compute. exact I.
  - eexists. split; reflexivity.
  - intros (e & Hl & Ha). vm_compute in Hl. injection Hl as <-.
    vm_compute in Ha. discriminate.
  - intros H. apply (f_equal (fun d => (fun t => t_assignments t !! "0") <$> tables d !! 0%nat)) in H.
    vm_compute in H. discriminate.
Qed.

Lemma find_by_id {E} (id : E -> nat) (entityId : nat) (l : list E) (e : E) :
  List.find (fun x => bool_decide (id x = entityId)) l = Some e ->
  id e = entityId /\ exists m, l !! m = Some e.
Proof.
  intros Hf. apply find_some in Hf as [Hin Hb].
  apply bool_decide_eq_true in Hb. split; [assumption |].
  apply list_elem_of_In, list_elem_of_lookup in Hin. exact Hin.
Qed.

Lemma openSeat_free (keys : list string) (a : gmap string nat) (k : string) :
  openSeat keys a = Some k -> a !! k = None.
Proof.
  unfold openSeat. intros Hf. apply find_some in Hf as [_ Hb].
  now apply bool_decide_eq_true in Hb.
Qed.

(** Filling a free seat of the one entity that carries [entityId] leaves
    every occupant where he was. *)
Lemma occ_put_free {E} `{SeatedLaws E} (l : list E) (entityId : nat)
    (k : string) (v : nat) (e0 : E) (m : nat) :
  NoDup (ent_id <$> l) -> l !! m = Some e0 -> ent_id e0 = entityId ->
  assignments e0 !! k = None ->
  forall n k' i, occ l n k' i -> occ (mapById entityId (putSeat k v) l) n k' i.
Proof.
  intros Hnd Hm Hid Hfree n k' i (e & Hl & Ha).
  unfold occ. rewrite lookup_mapById, Hl. simpl.
  destruct (decide (ent_id e = entityId)) as [He | He].
  - assert (n = m) as -> by (eapply unique_position; eauto; congruence).
    assert (e = e0) as -> by congruence.
    eexists. split; [reflexivity |]. unfold putSeat.
    rewrite assignments_with, lookup_insert_ne; [assumption | congruence].
  - eauto.
Qed.

Lemma doc_forceAssignSeat ty id k att st :
  doc (forceAssignSeat ty id k att st) =
  if decide (att ∈ disabledAttendees (doc st)) then doc st
  else putAt ty id k att (doc st).
Proof. unfold forceAssignSeat. case_decide; [reflexivity |]. destruct ty; reflexivity. Qed.

Lemma status_forceAssignSeat ty id k att st :
  status (forceAssignSeat ty id k att st) = status st \/
  status (forceAssignSeat ty id k att st) = "Assigned".
Proof. unfold forceAssignSeat. case_decide; [left | right]; reflexivity. Qed.

(** [assignNextAvailable] only ever fills a free seat. *)
Lemma assignNextAvailable_keeps (ty : EntityType) (id att : nat) (st : App) :
  UniqueIds (doc st) ->
  forall r i, occupies (doc st) r i ->
              occupies (doc (assignNextAvailable ty id att st)) r i.
Proof.
  intros [Ht Hb] r i Ho. unfold assignNextAvailable.
  repeat case_decide; try assumption.
  destruct ty.
  - destruct (List.find _ (tables (doc st))) as [e0 |] eqn:Hf; simpl; [| assumption].
    destruct (openSeat (tableSeatKeys e0) (t_assignments e0)) as [k |] eqn:Hk;
      [| assumption].
    rewrite doc_forceAssignSeat. case_decide; [assumption |].
    apply find_by_id in Hf as (Hid & m & Hm). apply openSeat_free in Hk.
    destruct r as [n k' | n k']; simpl in *; [| assumption].
    eapply (occ_put_free (E:=Table)); eauto.
  - destruct (List.find _ (chairBlocks (doc st))) as [e0 |] eqn:Hf; simpl;
      [| assumption].
    destruct (openSeat (blockSeatKeys e0) (b_assignments e0)) as [k |] eqn:Hk;
      [| assumption].
    rewrite doc_forceAssignSeat. case_decide; [assumption |].
    apply find_by_id in Hf as (Hid & m & Hm). apply openSeat_free in Hk.
    destruct r as [n k' | n k']; simpl in *; [assumption |].
    eapply (occ_put_free (E:=ChairBlock)); eauto.
  - destruct (List.find _ (chairBlocks (doc st))) as [e0 |] eqn:Hf; simpl;
      [| assumption].
    destruct (openSeat (blockSeatKeys e0) (b_assignments e0)) as [k |] eqn:Hk;
      [| assumption].
    rewrite doc_forceAssignSeat. case_decide; [assumption |].
    apply find_by_id in Hf as (Hid & m & Hm). apply openSeat_free in Hk.
    destruct r as [n k' | n k']; simpl in *; [assumption |].
    eapply (occ_put_free (E:=ChairBlock)); eauto.
Qed.

Lemma assignNextAvailable_status (ty : EntityType) (id att : nat) (st : App) :
  let st' := assignNextAvailable ty id att st in
  status st' = status st \/ status st' = "Assigned" \/ status st' = "Table full".
Proof.
  simpl. unfold assignNextAvailable. repeat case_decide; auto.
  destruct ty; simpl;
    match goal with
    | |- context [List.find ?f ?l] => destruct (List.find f l) as [e0 |]
    end; simpl; auto;
    match goal with
    | |- context [openSeat ?ks ?a] => destruct (openSeat ks a) as [k |]
    end; auto;
    match goal with
    | |- context [forceAssignSeat ?a ?b ?c ?d ?e] =>
        destruct (status_forceAssignSeat a b c d e) as [-> | ->]; auto
    end.
Qed.

(** ** Seat keys *)

Lemma Number_numToString (n : nat) : Number (numToString n) = Some n.
Proof.
  unfold Number, numToString. rewrite NilEmpty.usu. simpl.
  now rewrite DecimalNat.Unsigned.of_to.
Qed.

Lemma numToString_inj (n m : nat) : numToString n = numToString m -> n = m.
Proof.
  intros Heq. apply (f_equal Number) in Heq.
  rewrite !Number_numToString in Heq. congruence.
Qed.

Lemma indexOfKey_numToString (n : nat) : indexOfKey (numToString n) = Some n.
Proof.
  unfold indexOfKey. rewrite Number_numToString. simpl.
  now rewrite decide_True.
Qed.

Lemma dashFree_string_of_uint (d : Decimal.uint) :
  dashFree (NilEmpty.string_of_uint d).
Proof. induction d; simpl; auto. Qed.

Lemma split_dashFree (s : string) : dashFree s -> split "-" s = [s].
Proof.
  induction s as [| c s IH]; simpl; [reflexivity |].
  intros [Hc Hs]. rewrite Hc, IH by assumption. reflexivity.
Qed.

Lemma split_append_dash (s t : string) :
  dashFree s -> split "-" (s +:+ String "-" t) = s :: split "-" t.
Proof.
  induction s as [| c s IH]; simpl; [reflexivity |].
  intros [Hc Hs]. rewrite Hc, IH by assumption. reflexivity.
Qed.

Lemma split_blockSeatKey (r c : nat) :
  split "-" (blockSeatKey r c) = [numToString r; numToString c].
Proof.
  unfold blockSeatKey, numToString.
  change ("-" +:+ ?t) with (String "-" t).
  rewrite split_append_dash by apply dashFree_string_of_uint.
  rewrite split_dashFree by apply dashFree_string_of_uint. reflexivity.
Qed.

Lemma blockSeatKey_inj (r c r' c' : nat) :
  blockSeatKey r c = blockSeatKey r' c' -> r = r' /\ c = c'.
Proof.
  intros Heq. apply (f_equal (split "-")) in Heq.
  rewrite !split_blockSeatKey in Heq. injection Heq as Hr Hc.
  split; now apply numToString_inj.
Qed.

Example seat_keys_sample :
  numToString 12 = "12" /\ Number "012" = Some 12%nat /\ Number "" = Some 0%nat /\
  Number "1-2" = None /\ split "-" "1-2" = ["1"; "2"] /\ split "-" "7" = ["7"] /\
  blockSeatKey 3 10 = "3-10".
Proof. repeat split. Qed.

(** On a chair inside the [oldRows] x [oldCols] grid, the rotation sends
    [(r, c)] to [(c, oldRows - 1 - r)]. *)
Lemma rotatedBlockKey_in_grid (oldRows oldCols r c : nat) :
  (r < oldRows)%nat -> (c < oldCols)%nat ->
  rotatedBlockKey oldRows oldCols (blockSeatKey r c) =
  Some (blockSeatKey c (oldRows - 1 - r)).
Proof.
  intros Hr Hc. unfold rotatedBlockKey.
  rewrite split_blockSeatKey. simpl. rewrite !Number_numToString.
  rewrite decide_True by lia. do 2 f_equal. lia.
Qed.

(** ** Rebuilding an assignments object key by key *)

Lemma rebuild_snoc g l kv :
  rebuild g (l ++ [kv]) =
  match g kv.1 with Some k => <[k := kv.2]> (rebuild g l) | None => rebuild g l end.
Proof. unfold rebuild. now rewrite foldl_app. Qed.

Lemma rebuild_lookup (g : string -> option string) (l : list (string * nat)) :
  (forall k1 v1 k2 v2 k',
      (k1, v1) ∈ l -> (k2, v2) ∈ l -> g k1 = Some k' -> g k2 = Some k' ->
      (k1, v1) = (k2, v2)) ->
  forall k' v,
    rebuild g l !! k' = Some v <-> exists k, (k, v) ∈ l /\ g k = Some k'.
Proof.
  induction l as [| [k0 v0] l IH] using rev_ind; intros Hinj k' v.
  - unfold rebuild. simpl. rewrite lookup_empty. split; [discriminate |].
    intros (k & Hin & _). now apply elem_of_nil in Hin.
  - assert (IH' := IH (fun k1 v1 k2 v2 k'' H1 H2 =>
        Hinj k1 v1 k2 v2 k'' (proj2 (elem_of_app _ _ _) (or_introl H1))
                             (proj2 (elem_of_app _ _ _) (or_introl H2)))).
    rewrite rebuild_snoc. simpl.
    assert (Hlast : (k0, v0) ∈ l ++ [(k0, v0)]).
    { apply elem_of_app. right. apply list_elem_of_singleton. reflexivity. }
    destruct (g k0) as [k0' |] eqn:Hg0.
    + destruct (decide (k0' = k')) as [-> | Hne].
      * rewrite lookup_insert_eq. split.
        -- intros [= ->]. exists k0. auto.
        -- intros (k & Hin & Hg). f_equal.
           specialize (Hinj k0 v0 k v k' Hlast Hin Hg0 Hg). congruence.
      * rewrite lookup_insert_ne by assumption. rewrite IH'. split.
        -- intros (k & Hin & Hg). exists k. split; [| assumption].
           apply elem_of_app. auto.
        -- intros (k & Hin & Hg). exists k. split; [| assumption].
           apply elem_of_app in Hin as [Hin | Hin]; [assumption |].
           apply list_elem_of_singleton in Hin. congruence.
    + rewrite IH'. split.
      * intros (k & Hin & Hg). exists k. split; [| assumption].
        apply elem_of_app. auto.
      * intros (k & Hin & Hg). exists k. split; [| assumption].
        apply elem_of_app in Hin as [Hin | Hin]; [assumption |].
        apply list_elem_of_singleton in Hin. congruence.
Qed.

Lemma elem_of_entries (a : gmap string nat) (k : string) (v : nat) :
  (k, v) ∈ entries a <-> a !! k = Some v.
Proof.
  unfold entries. rewrite merge_sort_Permutation. apply elem_of_map_to_list.
Qed.

(** The characterisation used by both rotations: when [g] sends no two
    occupied seats to the same key, the rebuilt object holds [v] at [k']
    exactly when some seat holding [v] is sent to [k']. *)
Lemma rebuild_entries (g : string -> option string) (a : gmap string nat) :
  (forall k1 v1 k2 v2 k',
      a !! k1 = Some v1 -> a !! k2 = Some v2 ->
      g k1 = Some k' -> g k2 = Some k' -> k1 = k2) ->
  forall k' v,
    rebuild g (entries a) !! k' = Some v <->
    exists k, a !! k = Some v /\ g k = Some k'.
Proof.
  intros Hinj k' v. rewrite rebuild_lookup.
  - split; intros (k & Hin & Hg); exists k; split; try assumption;
      now apply elem_of_entries.
  - intros k1 v1 k2 v2 k'' H1 H2 Hg1 Hg2.
    apply elem_of_entries in H1, H2.
    assert (k1 = k2) as -> by eauto. congruence.
Qed.

(** ** Rotating the seats of a round table *)

Lemma rotateSeatsAssign_rebuild (n : nat) (a : gmap string nat) :
  rotateSeatsAssign n a =
  rebuild (fun k => Some (rotatedSeatKey (seatShift n) n k)) (entries a).
Proof. reflexivity. Qed.

Lemma rotatedSeatKey_numToString (s n i : nat) :
  rotatedSeatKey s n (numToString i) = numToString ((i + s) mod n).
Proof. unfold rotatedSeatKey. now rewrite Number_numToString. Qed.

Lemma shift_mod_inj (s n i j : nat) :
  (i < n)%nat -> (j < n)%nat -> (i + s) mod n = (j + s) mod n -> i = j.
Proof.
  intros Hi Hj Heq.
  assert (Hn : n <> 0%nat) by lia.
  pose proof (Nat.div_mod (i + s) n Hn) as Di.
  pose proof (Nat.div_mod (j + s) n Hn) as Dj.
  pose proof (Nat.mod_upper_bound (i + s) n Hn) as Bi.
  rewrite Heq in Di.
  set (qi := ((i + s) / n)%nat) in *. set (qj := ((j + s) / n)%nat) in *.
  assert (qi = qj) by nia. nia.
Qed.

Lemma rotateSeatsAssign_lookup (n : nat) (a : gmap string nat) :
  ValidSeats n a ->
  forall k' v,
    rotateSeatsAssign n a !! k' = Some v <->
    exists i, (i < n)%nat /\ a !! numToString i = Some v /\
              k' = numToString ((i + seatShift n) mod n).
Proof.
  intros Hvalid k' v. rewrite rotateSeatsAssign_rebuild, rebuild_entries.
  - split.
    + intros (k & Ha & Hg). destruct (Hvalid k v Ha) as (i & -> & Hi).
      rewrite rotatedSeatKey_numToString in Hg. exists i. split; [assumption |].
      split; [assumption | congruence].
    + intros (i & Hi & Ha & ->). exists (numToString i). split; [assumption |].
      now rewrite rotatedSeatKey_numToString.
  - intros k1 v1 k2 v2 k'' H1 H2 Hg1 Hg2.
    destruct (Hvalid k1 v1 H1) as (i & -> & Hi).
    destruct (Hvalid k2 v2 H2) as (j & -> & Hj).
    rewrite rotatedSeatKey_numToString in Hg1, Hg2.
    f_equal. apply (shift_mod_inj (seatShift n) n); [assumption | assumption |].
    apply numToString_inj. congruence.
Qed.

Example entries_in_property_order :
  entries {[ "10" := 1%nat; "9" := 2%nat; "0" := 4%nat ]} =
  [("0", 4%nat); ("9", 2%nat); ("10", 1%nat)].
Proof. vm_compute. reflexivity. Qed.

Example rotateSeats_of_eight :
  rotateSeatsAssign 8 {[ "0" := 3%nat; "7" := 4%nat ]} =
  {[ "2" := 3%nat; "1" := 4%nat ]}.
Proof. vm_compute. reflexivity. Qed.

Example rotateSeats_of_three :
  rotateSeatsAssign 3 {[ "2" := 5%nat ]} = {[ "0" := 5%nat ]}.
Proof. vm_compute. reflexivity. Qed.


Lemma octet_ValidSeats : ValidSeats (seats octet) (t_assignments octet).
Proof.
  intros k v Hk. unfold octet in Hk. cbn [t_assignments] in Hk.
  apply lookup_singleton_Some in Hk as [<- _].
  exists 0%nat. split; [reflexivity | simpl; lia].
Qed.


(** ** Rotating a chair block *)

Lemma rotateBlockAssign_rebuild (R C : nat) (a : gmap string nat) :
  rotateBlockAssign R C a = rebuild (rotatedBlockKey R C) (entries a).
Proof. reflexivity. Qed.

Lemma rotateBlockAssign_lookup (R C : nat) (a : gmap string nat) :
  InGrid R C a ->
  forall k' v,
    rotateBlockAssign R C a !! k' = Some v <->
    exists r c, (r < R)%nat /\ (c < C)%nat /\
                a !! blockSeatKey r c = Some v /\
                k' = blockSeatKey c (R - 1 - r).
Proof.
  intros Hgrid k' v. rewrite rotateBlockAssign_rebuild, rebuild_entries.
  - split.
    + intros (k & Ha & Hg). destruct (Hgrid k v Ha) as (r & c & -> & Hr & Hc).
      rewrite rotatedBlockKey_in_grid in Hg by assumption.
      exists r, c. repeat split; try assumption. congruence.
    + intros (r & c & Hr & Hc & Ha & ->). exists (blockSeatKey r c).
      split; [assumption |]. now apply rotatedBlockKey_in_grid.
  - intros k1 v1 k2 v2 k'' H1 H2 Hg1 Hg2.
    destruct (Hgrid k1 v1 H1) as (r1 & c1 & -> & Hr1 & Hc1).
    destruct (Hgrid k2 v2 H2) as (r2 & c2 & -> & Hr2 & Hc2).
    rewrite rotatedBlockKey_in_grid in Hg1, Hg2 by assumption.
    assert (Hk : blockSeatKey c1 (R - 1 - r1) = blockSeatKey c2 (R - 1 - r2))
      by congruence.
    apply blockSeatKey_inj in Hk as [-> Hk]. f_equal. lia.
Qed.

Lemma InGrid_rotate (R C : nat) (a : gmap string nat) :
  InGrid R C a -> InGrid C R (rotateBlockAssign R C a).
Proof.
  intros Hgrid k' v Hk. apply rotateBlockAssign_lookup in Hk; [| assumption].
  destruct Hk as (r & c & Hr & Hc & _ & ->).
  exists c, (R - 1 - r)%nat. repeat split; [assumption | lia].
Qed.

Lemma rotateBlockAssign_forward (R C : nat) (a : gmap string nat) r c v :
  InGrid R C a -> (r < R)%nat -> (c < C)%nat ->
  a !! blockSeatKey r c = Some v ->
  rotateBlockAssign R C a !! blockSeatKey c (R - 1 - r) = Some v.
Proof.
  intros Hgrid Hr Hc Ha. apply rotateBlockAssign_lookup; [assumption |].
  exists r, c. auto.
Qed.

Lemma rotateBlockAssign_four (R C : nat) (a : gmap string nat) :
  InGrid R C a ->
  rotateBlockAssign C R (rotateBlockAssign R C
    (rotateBlockAssign C R (rotateBlockAssign R C a))) = a.
Proof.
  intros G0.
  set (a1 := rotateBlockAssign R C a).
  set (a2 := rotateBlockAssign C R a1).
  set (a3 := rotateBlockAssign R C a2).
  assert (G1 : InGrid C R a1) by now apply InGrid_rotate.
  assert (G2 : InGrid R C a2) by now apply InGrid_rotate.
  assert (G3 : InGrid C R a3) by now apply InGrid_rotate.
  apply map_eq. intros k. apply option_eq. intros v. split.
  - intros H4.
    apply rotateBlockAssign_lookup in H4 as (r3 & c3 & Hr3 & Hc3 & H3 & ->);
      [| assumption].
    apply rotateBlockAssign_lookup in H3 as (r2 & c2 & Hr2 & Hc2 & H2 & E3);
      [| assumption].
    apply rotateBlockAssign_lookup in H2 as (r1 & c1 & Hr1 & Hc1 & H1 & E2);
      [| assumption].
    apply rotateBlockAssign_lookup in H1 as (r0 & c0 & Hr0 & Hc0 & H0 & E1);
      [| assumption].
    apply blockSeatKey_inj in E3 as [-> ->], E2 as [-> ->], E1 as [-> ->].
    replace (R - 1 - (R - 1 - r0))%nat with r0 by lia.
    replace (C - 1 - (C - 1 - c0))%nat with c0 by lia. exact H0.
  - intros H0. destruct (G0 k v H0) as (r & c & -> & Hr & Hc).
    pose proof (rotateBlockAssign_forward R C a r c v G0 Hr Hc H0) as H1.
    pose proof (rotateBlockAssign_forward C R a1 c (R - 1 - r) v G1 Hc
                  ltac:(lia) H1) as H2.
    pose proof (rotateBlockAssign_forward R C a2 (R - 1 - r) (C - 1 - c) v G2
                  ltac:(lia) ltac:(lia) H2) as H3.
    pose proof (rotateBlockAssign_forward C R a3 (C - 1 - c) (R - 1 - (R - 1 - r)) v
                  G3 ltac:(lia) ltac:(lia) H3) as H4.
    replace (R - 1 - (R - 1 - r))%nat with r in H4 by lia.
    replace (C - 1 - (C - 1 - c))%nat with c in H4 by lia. exact H4.
Qed.

Lemma selectAndRotate_block (m : nat) (st : App) (b : ChairBlock) :
  chairBlocks (doc st) !! m = Some b ->
  chairBlocks (doc (selectAndRotate m st)) !! m =
  Some (mkBlock (b_id b) (b_x b) (b_y b) (cols b) (rows b) (spacing b)
                (b_locked b)
                (rotateBlockAssign (rows b) (cols b) (b_assignments b))).
Proof.
  intros Hm. unfold selectAndRotate. rewrite Hm.
  unfold rotateSelected, onSelect.
  cbn [selectedItem setSelectedItems setSelectedItem doc setStatus
       setChairBlocks saveUndo with_doc chairBlocks].
  rewrite list_lookup_fmap, Hm. simpl. now rewrite decide_True.
Qed.

Example rotateBlock_two_by_three :
  rotateBlockAssign 2 3 {[ "0-0" := 7%nat; "1-2" := 9%nat ]} =
  {[ "0-1" := 7%nat; "2-0" := 9%nat ]}.
Proof. vm_compute. reflexivity. Qed.

(** C8 (as amended).  For a chair block whose occupied keys all name
    chairs of its [rows] x [cols] grid, four rotations, each applied to the
    block as it then stands in the plan, give back the block with its
    original rows, cols and assignment map. *)
Theorem rotateBlock_four_times_restores (m : nat) (st : App) (b : ChairBlock) :
  chairBlocks (doc st) !! m = Some b ->
  InGrid (rows b) (cols b) (b_assignments b) ->
  chairBlocks (doc (selectAndRotate m (selectAndRotate m
                     (selectAndRotate m (selectAndRotate m st))))) !! m = Some b.
Proof.
  intros Hm Hgrid.
  pose proof (selectAndRotate_block m _ _ Hm) as H1.
  pose proof (selectAndRotate_block m _ _ H1) as H2.
  pose proof (selectAndRotate_block m _ _ H2) as H3.
  pose proof (selectAndRotate_block m _ _ H3) as H4.
  rewrite H4. cbn [b_id b_x b_y rows cols spacing b_locked b_assignments].
  rewrite rotateBlockAssign_four by assumption. now destruct b.
Qed.

Lemma pews_InGrid : InGrid (rows pews) (cols pews) (b_assignments pews).
Proof.
  intros k v Hk. unfold pews in Hk. cbn [b_assignments] in Hk.
  apply lookup_singleton_Some in Hk as [<- _].
  exists 0%nat, 0%nat. split; [reflexivity | simpl; lia].
Qed.

Lemma rotateBlock_four_times_restores_witness :
  let st := idle (mkDoc [] [pews] [] ∅) in
  chairBlocks (doc st) !! 0%nat = Some pews /\
  InGrid (rows pews) (cols pews) (b_assignments pews) /\
  chairBlocks (doc (selectAndRotate 0 (selectAndRotate 0
                     (selectAndRotate 0 (selectAndRotate 0 st))))) !! 0%nat
    = Some pews.
Proof.
  intros st. split; [reflexivity |]. split; [exact pews_InGrid |].
  exact (rotateBlock_four_times_restores 0 st pews eq_refl pews_InGrid).
Defined.

(** C8, counterexample.  The block [narrowed] carries an assignment for a
    chair outside its grid: the first rotation drops that seat, and four
    rotations, with the selection refreshed each time or not, leave the
    block without it. *)
Lemma rotateBlock_four_times_loses_outside_seat :
  let st := idle (mkDoc [] [narrowed] [] ∅) in
  let fresh := selectAndRotate 0 (selectAndRotate 0
                 (selectAndRotate 0 (selectAndRotate 0 st))) in
  let stale := rotateSelected (rotateSelected (rotateSelected
                 (rotateSelected (onSelect (BlockE narrowed) st)))) in
  b_assignments narrowed !! "0-5" = Some 7%nat /\
  (b_assignments <$> chairBlocks (doc fresh) !! 0%nat) = Some ∅ /\
  (b_assignments <$> chairBlocks (doc stale) !! 0%nat) = Some ∅ /\
  chairBlocks (doc fresh) !! 0%nat <> Some narrowed /\
  chairBlocks (doc stale) !! 0%nat <> Some narrowed.
Proof.
  intros st fresh stale.
  assert (Hf : (b_assignments <$> chairBlocks (doc fresh) !! 0%nat) = Some ∅)
    by (vm_compute; reflexivity).
  assert (Hs : (b_assignments <$> chairBlocks (doc stale) !! 0%nat) = Some ∅)
    by (vm_compute; reflexivity).
  split; [vm_compute; reflexivity |].
  split; [exact Hf |]. split; [exact Hs |]. split.
  - intros H. rewrite H in Hf. vm_compute in Hf. discriminate Hf.
  - intros H. rewrite H in Hs. vm_compute in Hs. discriminate Hs.
Qed.

(** Successive calls of [rotateSelected] all read the entity stored in
    [selectedItem], which no branch of it refreshes: without a new
    selection the second and later calls rotate the original snapshot
    again.  A 1 x 2 block is 2 x 1 after one call and still 2 x 1 after
    four. *)
Lemma rotateSelected_reuses_selection :
  let st := onSelect (BlockE pews) (idle (mkDoc [] [pews] [] ∅)) in
  let once := rotateSelected st in
  let four := rotateSelected (rotateSelected (rotateSelected once)) in
  selectedItem four = Some (BlockE pews) /\
  chairBlocks (doc four) = chairBlocks (doc once) /\
  ((fun b => (rows b, cols b)) <$> chairBlocks (doc four) !! 0%nat)
    = Some (2%nat, 1%nat).
Proof. repeat split; vm_compute; reflexivity. Qed.

(** ** Drag gestures *)

Lemma exceedsThreshold_false (dx dy : Q) :
  exceedsThreshold dx dy = false <->
  (Qabs dx <= 1 # 2)%Q /\ (Qabs dy <= 1 # 2)%Q.
Proof.
  unfold exceedsThreshold, Qgtb.
  rewrite orb_false_iff, !negb_false_iff, !Qle_bool_iff. reflexivity.
Qed.

Lemma crossThreshold_within (dx dy : Q) (st : App) :
  exceedsThreshold dx dy = false -> crossThreshold dx dy st = st.
Proof. intros He. unfold crossThreshold. now rewrite He, andb_false_r. Qed.

Lemma crossThreshold_moved (dx dy : Q) (st : App) :
  hasMoved (dragRef st) = true -> crossThreshold dx dy st = st.
Proof. intros Hm. unfold crossThreshold. now rewrite Hm. Qed.

Lemma crossThreshold_crossing (dx dy : Q) (st : App) :
  hasMoved (dragRef st) = false -> exceedsThreshold dx dy = true ->
  crossThreshold dx dy st = saveUndo (setDragRef (markMoved (dragRef st)) st).
Proof. intros Hm He. unfold crossThreshold. now rewrite Hm, He. Qed.

(** Below the threshold, before the drag has started to move, a pointer
    move changes nothing at all. *)
Lemma move_within_threshold (cfg : Settings) (p : Q * Q) (st : App) :
  hasMoved (dragRef st) = false -> withinThreshold cfg st p ->
  handleCanvasMouseMove cfg p.1 p.2 st = st.
Proof.
  intros Hm Hw. apply exceedsThreshold_false in Hw.
  unfold displacement in Hw. simpl in Hw.
  unfold handleCanvasMouseMove.
  destruct (dragging st); [| reflexivity].
  destruct (multiDrag (dragRef st)) as [items |].
  - unfold multiDragMove. rewrite crossThreshold_within by assumption.
    now rewrite Hm.
  - destruct (dr_entity (dragRef st)) as [item |]; [| reflexivity].
    destruct (selectedItem st) as [sel |]; [| reflexivity].
    unfold singleDragMove. destruct (e_locked item); [reflexivity |].
    rewrite crossThreshold_within by assumption. now rewrite Hm.
Qed.

Ltac gesture_kept :=
  repeat match goal with
         | |- context [if ?b then _ else _] => destruct b
         | |- context [match ?e with ETable => _ | EBlock => _ | EVenue => _ end] =>
             destruct e
         | |- context [let '(_, _) := ?e in _] => destruct e as [[? ?] ?]
         end;
  repeat split; reflexivity.

Lemma move_after_moved (cfg : Settings) (x y : Q) (st : App) :
  hasMoved (dragRef st) = true ->
  undoStack (handleCanvasMouseMove cfg x y st) = undoStack st /\
  hasMoved (dragRef (handleCanvasMouseMove cfg x y st)) = true.
Proof.
  intros Hm. unfold handleCanvasMouseMove.
  destruct (dragging st); [| auto].
  destruct (multiDrag (dragRef st)) as [items |].
  - unfold multiDragMove. rewrite crossThreshold_moved by assumption.
    rewrite Hm. destruct (multiDragUpdates _ _ _ _) as [[tu bu] vu].
    rewrite <- Hm. gesture_kept.
  - destruct (dr_entity (dragRef st)) as [item |]; [| auto].
    destruct (selectedItem st) as [sel |]; [| auto].
    unfold singleDragMove. destruct (e_locked item); [auto |].
    rewrite crossThreshold_moved by assumption. rewrite Hm.
    rewrite <- Hm. gesture_kept.
Qed.

Lemma move_crossing (cfg : Settings) (p : Q * Q) (st : App) :
  MovingDrag st -> hasMoved (dragRef st) = false -> ~ withinThreshold cfg st p ->
  undoStack (handleCanvasMouseMove cfg p.1 p.2 st) = pushUndo (doc st) (undoStack st) /\
  hasMoved (dragRef (handleCanvasMouseMove cfg p.1 p.2 st)) = true.
Proof.
  intros [Hd Hkind] Hm Hw.
  assert (He : exceedsThreshold (displacement cfg st p).1 (displacement cfg st p).2 = true).
  { destruct (exceedsThreshold _ _) eqn:E; [reflexivity |].
    exfalso. apply Hw. now apply exceedsThreshold_false. }
  unfold displacement in He. simpl in He.
  unfold handleCanvasMouseMove. rewrite Hd.
  destruct Hkind as [[items Hmd] | (item & sel & Hi & Hs & Hl)].
  - rewrite Hmd. unfold multiDragMove.
    rewrite crossThreshold_crossing by assumption.
    destruct (multiDragUpdates _ _ _ _) as [[tu bu] vu].
    cbn [dragRef saveUndo setDragRef markMoved hasMoved]. gesture_kept.
  - destruct (multiDrag (dragRef st)) as [items |] eqn:Hmd.
    + unfold multiDragMove. rewrite crossThreshold_crossing by assumption.
      destruct (multiDragUpdates _ _ _ _) as [[tu bu] vu].
      cbn [dragRef saveUndo setDragRef markMoved hasMoved]. gesture_kept.
    + rewrite Hi, Hs. unfold singleDragMove. rewrite Hl.
      rewrite crossThreshold_crossing by assumption.
      cbn [dragRef saveUndo setDragRef markMoved hasMoved]. gesture_kept.
Qed.

Lemma moves_within_threshold (cfg : Settings) (ps : list (Q * Q)) (st : App) :
  hasMoved (dragRef st) = false -> Forall (withinThreshold cfg st) ps ->
  moves cfg ps st = st.
Proof.
  intros Hm Hall. unfold moves. induction Hall as [| p ps Hp _ IH]; [reflexivity |].
  simpl. rewrite move_within_threshold by assumption. exact IH.
Qed.

Lemma moves_after_moved (cfg : Settings) (ps : list (Q * Q)) (st : App) :
  hasMoved (dragRef st) = true -> undoStack (moves cfg ps st) = undoStack st.
Proof.
  unfold moves. revert st. induction ps as [| p ps IH]; intros st Hm; [reflexivity |].
  simpl. destruct (move_after_moved cfg p.1 p.2 st Hm) as [Hu Hm'].
  rewrite IH by assumption. exact Hu.
Qed.

Lemma moves_locked_drag (cfg : Settings) (ps : list (Q * Q)) (st : App) :
  LockedDrag st -> moves cfg ps st = st.
Proof.
  intros (Hd & Hmd & item & Hi & Hl). unfold moves.
  induction ps as [| p ps IH]; [reflexivity |]. simpl.
  replace (handleCanvasMouseMove cfg p.1 p.2 st) with st; [exact IH |].
  unfold handleCanvasMouseMove. rewrite Hd, Hmd, Hi.
  destruct (selectedItem st); [| reflexivity].
  unfold singleDragMove. now rewrite Hl.
Qed.

Example single_drag_moves_and_snaps :
  let st := moves grid1 [(203, 100)%Q; (233, 100)%Q] grabFree in
  (t_x <$> tables (doc st)) = [10%Q; 23%Q] /\ undoStack st = [floorPlan].
Proof. vm_compute. split; reflexivity. Qed.


Lemma grabFree_within : Forall (withinThreshold grid1 grabFree) [(203, 100)%Q].
Proof.
  repeat constructor; apply Qle_bool_iff; vm_compute; reflexivity.
Qed.

Lemma grabFree_MovingDrag : MovingDrag grabFree.
Proof.
  split; [reflexivity |]. right.
  exists (TableE freeTable), (TableE freeTable). repeat split; reflexivity.
Qed.

Lemma grabFree_crossing : ~ withinThreshold grid1 grabFree (230, 100)%Q.
Proof. intros [H _]. apply Qle_bool_iff in H. vm_compute in H. discriminate. Qed.



(** ** Locked entities *)

(** Dragged alone, a locked entity stays where it is: every pointer move
    of the gesture leaves the whole state unchanged. *)
Lemma single_drag_of_locked_entity_is_noop
    (cfg : Settings) (ps : list (Q * Q)) (st : App) (item : Entity) :
  dragging st = true -> multiDrag (dragRef st) = None ->
  dr_entity (dragRef st) = Some item -> e_locked item = true ->
  moves cfg ps st = st.
Proof. intros Hd Hmd Hi Hl. apply moves_locked_drag. red. eauto. Qed.

(** C3, at the failing input.  With both tables selected, a drag that
    starts on the unlocked table and goes 3 ft to the right moves the
    locked table from x = 10 to x = 13: the multi-drag branch never looks at
    [locked]. *)
Theorem multi_drag_moves_locked_table :
  let st := handleCanvasMouseMove grid1 230 100 grabBoth in
  t_locked lockedTable = true /\
  is_Some (multiDrag (dragRef grabBoth)) /\
  exists t, tables (doc st) !! 0%nat = Some t /\
            t_id t = t_id lockedTable /\ t_locked t = true /\
            (t_x t == 13)%Q /\ ~ (t_x t == t_x lockedTable)%Q.
Proof.
  intros st. split; [reflexivity |]. split; [eexists; reflexivity |].
  eexists. split; [vm_compute; reflexivity |].
  split; [reflexivity |]. split; [reflexivity |]. split.
  - vm_compute. reflexivity.
  - intros H. vm_compute in H. discriminate.
Qed.

(** ** The seat ring of a round table *)

Section SeatRing.

Local Open Scope R_scope.

Lemma cos_quarter_back (x : R) : cos (x - PI / 2) = sin x.
Proof. rewrite cos_minus, cos_PI2, sin_PI2. ring. Qed.

Lemma sin_quarter_back (x : R) : sin (x - PI / 2) = - cos x.
Proof. rewrite sin_minus, cos_PI2, sin_PI2. ring. Qed.

Lemma roundSeatPositions_lookup (t : Table) (scale offsetX offsetY : Q) (i : nat) :
  (i < seats t)%nat ->
  roundSeatPositions t scale offsetX offsetY !! i =
  Some ((tableCentre t scale offsetX offsetY).1
          + ringRadius t scale * cos (seatAngle (seats t) i),
        (tableCentre t scale offsetX offsetY).2
          + ringRadius t scale * sin (seatAngle (seats t) i)).
Proof.
  intros Hi. unfold roundSeatPositions, tableCentre.
  rewrite list_lookup_fmap, lookup_seq_lt by assumption. reflexivity.
Qed.

(** C6.  A round table with [n > 0] seats has exactly [n] seat positions.
    They lie on the circle around the table centre, the canvas point
    [(offsetX + t.x * scale, offsetY + t.y * scale)], whose radius is table
    radius + seat radius + gap; seat [i] is found by turning clockwise (the
    canvas y axis points down) from due north by [i] times a full turn over
    [n], so seat 0 is straight above the centre and consecutive seats are
    [360 / n] degrees apart. *)
Theorem round_table_seat_ring (t : Table) (scale offsetX offsetY : Q) :
  tableType t = Round -> (0 < seats t)%nat ->
  let n := seats t in
  let cx := Q2R (offsetX + t_x t * scale) in
  let cy := Q2R (offsetY + t_y t * scale) in
  let d := ringRadius t scale in
  let turn (i : nat) := 2 * PI * INR i / INR n in
  length (roundSeatPositions t scale offsetX offsetY) = n /\
  tableCentre t scale offsetX offsetY = (cx, cy) /\
  d = Q2R (t_widthFt t * scale / 2) + Q2R ((3 # 4) * scale)
      + Q2R (Qmax 3 (scale * (1 # 5))) /\
  (forall i, (i < n)%nat ->
     exists sx sy,
       roundSeatPositions t scale offsetX offsetY !! i = Some (sx, sy) /\
       (sx - cx) * (sx - cx) + (sy - cy) * (sy - cy) = d * d /\
       sx = cx + d * sin (turn i) /\ sy = cy - d * cos (turn i)) /\
  roundSeatPositions t scale offsetX offsetY !! 0%nat = Some (cx, cy - d) /\
  seatAngle n 0 = - (PI / 2) /\
  (forall i, seatAngle n (S i) - seatAngle n i = 2 * PI / INR n).
Proof.
  intros _ Hn n cx cy d turn.
  assert (Hn' : INR n <> 0) by (apply not_0_INR; unfold n; lia).
  split; [| split; [| split; [| split; [| split; [| split]]]]].
  - unfold roundSeatPositions, tableCentre. now rewrite length_map, length_seq.
  - reflexivity.
  - unfold d, ringRadius. now rewrite !Q2R_plus.
  - intros i Hi. eexists _, _. split; [now apply roundSeatPositions_lookup |].
    unfold tableCentre. cbn [fst snd]. fold cx cy d n. unfold seatAngle.
    fold (turn i).
    rewrite cos_quarter_back, sin_quarter_back. split; [| split; ring].
    replace (cx + d * sin (turn i) - cx) with (d * sin (turn i)) by ring.
    replace (cy + d * - cos (turn i) - cy) with (- (d * cos (turn i))) by ring.
    pose proof (sin2_cos2 (turn i)) as Hsc. unfold Rsqr in Hsc.
    transitivity (d * d * (sin (turn i) * sin (turn i) + cos (turn i) * cos (turn i)));
      [ring | rewrite Hsc; ring].
  - rewrite roundSeatPositions_lookup by assumption.
    unfold tableCentre. cbn [fst snd]. fold cx cy d n.
    unfold seatAngle. simpl INR.
    replace (2 * PI * 0 / INR n - PI / 2) with (0 - PI / 2) by (field; assumption).
    rewrite cos_quarter_back, sin_quarter_back, sin_0, cos_0.
    f_equal. f_equal; ring.
  - unfold seatAngle. simpl INR. field. assumption.
  - intros i. unfold seatAngle. rewrite S_INR. field. assumption.
Qed.

Lemma round_table_seat_ring_witness :
  tableType octet = Round /\ (0 < seats octet)%nat /\
  length (roundSeatPositions octet 10 0 0) = 8%nat /\
  tableCentre octet 10 0 0 = (Q2R (0 + 10 * 10), Q2R (0 + 10 * 10)) /\
  ringRadius octet 10 =
    Q2R (5 * 10 / 2) + Q2R ((3 # 4) * 10) + Q2R (Qmax 3 (10 * (1 # 5))) /\
  roundSeatPositions octet 10 0 0 !! 0%nat =
    Some (Q2R (0 + 10 * 10), Q2R (0 + 10 * 10) - ringRadius octet 10).
Proof.
  assert (Hn : (0 < seats octet)%nat) by (simpl; lia).
  destruct (round_table_seat_ring octet 10 0 0 eq_refl Hn)
    as (Hlen & Hcentre & Hd & _ & Hnorth & _).
  split; [reflexivity |]. split; [exact Hn |]. split; [exact Hlen |].
  split; [exact Hcentre |]. split; [exact Hd | exact Hnorth].
Defined.

End SeatRing.

(** ** Undo and redo *)

Lemma pop_snoc (s : list Doc) (d : Doc) : pop (s ++ [d]) = Some (s, d).
Proof.
  induction s as [|x s IH]; [reflexivity|].
  change ((x :: s) ++ [d]) with (x :: (s ++ [d])).
  cbn [pop]. rewrite IH. reflexivity.
Qed.

Lemma pop_None (s : list Doc) : pop s = None <-> s = [].
Proof.
  destruct s as [|x s]; [done|]. cbn.
  destruct (pop s) as [[? ?]|]; split; discriminate.
Qed.

Lemma pop_Some (s rest : list Doc) (d : Doc) :
  pop s = Some (rest, d) <-> s = rest ++ [d].
Proof.
  split; [|intros ->; apply pop_snoc].
  revert rest; induction s as [|x s IH]; intros rest; [discriminate|].
  cbn. destruct (pop s) as [[r t]|] eqn:E.
  - intros [= <- <-]. cbn. f_equal. by apply IH.
  - apply pop_None in E as ->. by intros [= <- <-].
Qed.

(** A pushed stack ends in the pushed snapshot; below the cap the rest is
    the old stack, at the cap the oldest snapshot is gone. *)
Lemma pushUndo_snoc (d : Doc) (s : list Doc) :
  exists rest, pushUndo d s = rest ++ [d] /\
               (length s < 50 -> rest = s) /\
               (length s <= 50 -> length rest < 50) /\
               (forall x, x ∈ rest -> x ∈ s).
Proof.
  unfold pushUndo. cbn zeta. rewrite length_app. cbn [length].
  destruct (Nat.ltb_spec 50 (length s + 1)) as [Hlt|Hle].
  - destruct s as [|x s]; [cbn in Hlt; lia|].
    exists s. cbn in *. repeat split; try lia.
    intros y Hy. by right.
  - exists s. repeat split; try done; lia.
Qed.

Lemma pushUndo_bounded (d : Doc) (s : list Doc) :
  length s <= 50 -> length (pushUndo d s) <= 50.
Proof.
  intros Hs. destruct (pushUndo_snoc d s) as (rest & -> & _ & Hb & _).
  rewrite length_app. cbn. specialize (Hb Hs). lia.
Qed.

Lemma undo_pushed (st : App) (d : Doc) (s : list Doc) :
  undoStack st = pushUndo d s -> doc (undo st) = d.
Proof.
  intros Hs. unfold undo. rewrite Hs.
  destruct (pushUndo_snoc d s) as (rest & -> & _). by rewrite pop_snoc.
Qed.

Lemma redo_undo_doc (st : App) :
  undoStack st <> [] -> doc (redo (undo st)) = doc st.
Proof.
  intros Hne. unfold undo.
  destruct (pop (undoStack st)) as [[rest prev]|] eqn:E;
    [|by apply pop_None in E].
  unfold redo. cbn [redoStack doc].
  destruct (pushUndo_snoc (doc st) (redoStack st)) as (r & -> & _).
  by rewrite pop_snoc.
Qed.


Ltac split_edit :=
  repeat match goal with
         | |- context [decide ?P] => destruct (decide P)
         | |- context [match ?x with _ => _ end] =>
             match type of x with
             | EntityType => destruct x
             | Entity => destruct x
             | option _ => destruct x eqn:?
             | bool => destruct x eqn:?
             | TableType => destruct x
             | (_ * _)%type => destruct x eqn:?
             end
         | |- context [if ?b then _ else _] => destruct b eqn:?
         end.

Lemma edit_history (st : App) (e : Edit) :
  e <> EUndo -> e <> ERedo ->
  HistoryStep (checkpointing e = true -> doc (runEdit st e) = doc st)
              st (runEdit st e).
Proof.
  intros Hu Hr. destruct e; try congruence; cbn [runEdit].
  - unfold assignAttendee. split_edit;
      first [ by apply NoCheckpoint | by apply OneCheckpoint ].
  - unfold assignNextAvailable, forceAssignSeat. split_edit;
      first [ by apply NoCheckpoint | by apply OneCheckpoint ].
  - unfold unassignSeat. split_edit; by apply OneCheckpoint.
  - unfold swapSeats. split_edit;
      first [ by apply NoCheckpoint | by apply OneCheckpoint ].
  - unfold moveSeatToSeat, swapSeats. cbn zeta. split_edit;
      first [ by apply OneCheckpoint | by apply TwoCheckpoints ].
  - unfold toggleDisable. split_edit; by apply NoCheckpoint.
  - unfold recallAttendee. cbn zeta. split_edit; by apply OneCheckpoint.
  - unfold autoAssign. cbn zeta. split_edit; by apply OneCheckpoint.
  - by apply OneCheckpoint.
  - unfold performDelete. cbn zeta. split_edit; by apply OneCheckpoint.
  - unfold toggleLock. split_edit;
      first [ by apply NoCheckpoint | by apply OneCheckpoint ].
Qed.

(** X1.  An edit that changes the plan is undone by one [undo], and
    [redo] then brings its result back: for every edit other than
    [toggleDisable] (which takes no checkpoint), if the plan after the edit
    differs from the plan before, then the edit has emptied the redo
    stack, [undo] restores the plan as it was before the edit, and [redo]
    after that [undo] restores the plan as the edit left it. *)
Theorem edit_undone_by_one_undo (st : App) (e : Edit) :
  checkpointing e = true ->
  doc (runEdit st e) <> doc st ->
  redoStack (runEdit st e) = [] /\
  doc (undo (runEdit st e)) = doc st /\
  doc (redo (undo (runEdit st e))) = doc (runEdit st e).
Proof.
  intros Hc Hchg.
  assert (Hu : e <> EUndo) by (intros ->; discriminate).
  assert (Hr : e <> ERedo) by (intros ->; discriminate).
  assert (Hne : forall d s, pushUndo d s <> []).
  { intros d s. destruct (pushUndo_snoc d s) as (rest & -> & _).
    by destruct rest. }
  destruct (edit_history st e Hu Hr) as [_ _ Hq|Hs Hre|Hs Hre].
  - destruct Hchg. by apply Hq.
  - split; [done|]. split; [by eapply undo_pushed|].
    apply redo_undo_doc. rewrite Hs. apply Hne.
  - split; [done|]. split; [by eapply undo_pushed|].
    apply redo_undo_doc. rewrite Hs. apply Hne.
Qed.

Lemma edit_undone_by_one_undo_witness :
  let e := EDelete ETable 1 in
  checkpointing e = true /\
  doc (runEdit (idle hall) e) <> doc (idle hall) /\
  doc (undo (runEdit (idle hall) e)) = hall.
Proof.
  intros e.
  assert (Hchg : doc (runEdit (idle hall) e) <> doc (idle hall)).
  { intros H. apply (f_equal (fun d => length (tables d))) in H.
    vm_compute in H. discriminate. }
  split; [reflexivity|]. split; [exact Hchg|].
  exact (proj1 (proj2 (edit_undone_by_one_undo (idle hall) e eq_refl Hchg))).
Defined.

(** X2.  [undo] and [redo] are inverse to each other on a history within
    its bounds: with a checkpoint to go back to, at most 50 of them, and
    room on the redo stack, [redo] after [undo] gives back the plan and
    both stacks (only the status line differs); and likewise [undo] after
    [redo]. *)
Theorem undo_redo_round_trip (st : App) :
  (undoStack st <> [] -> length (undoStack st) <= 50 ->
   length (redoStack st) < 50 ->
   redo (undo st) = setStatus "Redone" st) /\
  (redoStack st <> [] -> length (redoStack st) <= 50 ->
   length (undoStack st) < 50 ->
   undo (redo st) = setStatus "Undone" st).
Proof.
  split; intros Hne Hlen Hroom.
  - unfold undo.
    destruct (pop (undoStack st)) as [[rest prev]|] eqn:E;
      [|by apply pop_None in E].
    apply pop_Some in E.
    unfold redo. cbn [redoStack doc undoStack selectedItem selectedItems dragging dragRef].
    destruct (pushUndo_snoc (doc st) (redoStack st)) as (r & -> & Hr & _).
    rewrite pop_snoc, (Hr Hroom).
    destruct (pushUndo_snoc prev rest) as (u & -> & Hu & _).
    rewrite Hu, <- E; [by destruct st|].
    rewrite E, length_app in Hlen. cbn in Hlen. lia.
  - unfold redo.
    destruct (pop (redoStack st)) as [[rest next]|] eqn:E;
      [|by apply pop_None in E].
    apply pop_Some in E.
    unfold undo. cbn [redoStack doc undoStack selectedItem selectedItems dragging dragRef].
    destruct (pushUndo_snoc (doc st) (undoStack st)) as (r & -> & Hr & _).
    rewrite pop_snoc, (Hr Hroom).
    destruct (pushUndo_snoc next rest) as (u & -> & Hu & _).
    rewrite Hu, <- E; [by destruct st|].
    rewrite E, length_app in Hlen. cbn in Hlen. lia.
Qed.

Lemma undo_redo_round_trip_witness :
  let st := unassignSeat ETable 1 "0" (idle hall) in
  undoStack st <> [] /\ length (undoStack st) <= 50 /\
  length (redoStack st) < 50 /\
  redo (undo st) = setStatus "Redone" st.
Proof.
  intros st.
  assert (H1 : undoStack st <> []) by discriminate.
  assert (H2 : length (undoStack st) <= 50) by (cbn; lia).
  assert (H3 : length (redoStack st) < 50) by (cbn; lia).
  split; [exact H1|]. split; [exact H2|]. split; [exact H3|].
  exact (proj1 (undo_redo_round_trip st) H1 H2 H3).
Defined.

Lemma undo_bounded (st : App) : HistoryBounded st -> HistoryBounded (undo st).
Proof.
  intros [Hu Hr]. unfold undo.
  destruct (pop (undoStack st)) as [[rest prev]|] eqn:E; [|done].
  apply pop_Some in E. split; cbn.
  - rewrite E, length_app in Hu. cbn in Hu. lia.
  - by apply pushUndo_bounded.
Qed.

Lemma redo_bounded (st : App) : HistoryBounded st -> HistoryBounded (redo st).
Proof.
  intros [Hu Hr]. unfold redo.
  destruct (pop (redoStack st)) as [[rest next]|] eqn:E; [|done].
  apply pop_Some in E. split; cbn.
  - by apply pushUndo_bounded.
  - rewrite E, length_app in Hr. cbn in Hr. lia.
Qed.

Lemma runEdit_bounded (st : App) (e : Edit) :
  HistoryBounded st -> HistoryBounded (runEdit st e).
Proof.
  intros Hb.
  assert (He : e = EUndo \/ e = ERedo \/ (e <> EUndo /\ e <> ERedo))
    by (destruct e; auto; right; right; split; discriminate).
  destruct He as [->|[->|[Hu Hr]]];
    [by apply undo_bounded|by apply redo_bounded|].
  destruct Hb as [Hbu Hbr].
  destruct (edit_history st e Hu Hr) as [Hs Hre _|Hs Hre|Hs Hre];
    split; rewrite ?Hs, ?Hre; cbn [length]; try lia;
    auto using pushUndo_bounded.
Qed.

(** X3.  The history never grows beyond 50 checkpoints: whatever edits,
    undos and redos are made, in any order, the undo stack and the redo
    stack each hold at most 50 snapshots. *)
Theorem history_stays_bounded (st : App) (es : list Edit) :
  HistoryBounded st -> HistoryBounded (runEdits st es).
Proof.
  revert st; induction es as [|e es IH]; intros st Hb; [exact Hb|].
  apply IH, runEdit_bounded, Hb.
Qed.


(** ** Removing an attendee from every seat *)

Lemma foldl_delete_lookup (i : nat) (l : list (string * nat))
    (m : gmap string nat) (k : string) (v : nat) :
  foldl (fun newA kv => if decide (kv.2 = i) then delete kv.1 newA else newA) m l
    !! k = Some v
  <-> m !! k = Some v /\ (k, i) ∉ l.
Proof.
  revert m; induction l as [|[k0 v0] l IH]; intros m; cbn [foldl].
  - split; [intros H; split; [done|apply not_elem_of_nil]|by intros [? _]].
  - rewrite IH, not_elem_of_cons. cbn [fst snd].
    destruct (decide (v0 = i)) as [->|Hne].
    + rewrite lookup_delete_Some. split.
      * intros [[Hk Hm] Hl]. split; [done|]. split; [congruence|done].
      * intros [Hm [Hk Hl]]. split; [|done]. split; [congruence|done].
    + split.
      * intros [Hm Hl]. split; [done|]. split; [congruence|done].
      * intros [Hm [_ Hl]]. done.
Qed.

Lemma withoutAttendee_lookup (i : nat) (a : gmap string nat) (k : string) (v : nat) :
  withoutAttendee i a !! k = Some v <-> a !! k = Some v /\ v <> i.
Proof.
  unfold withoutAttendee. rewrite foldl_delete_lookup, elem_of_entries.
  split; intros [Hk Hn]; (split; [done|congruence]).
Qed.

Lemma withoutAttendee_absent (i : nat) (a : gmap string nat) :
  (forall k, a !! k <> Some i) -> withoutAttendee i a = a.
Proof.
  intros Hfree. apply map_eq; intros k. apply option_eq; intros v.
  rewrite withoutAttendee_lookup. split; [by intros [? _]|].
  intros Hk. split; [done|]. intros ->. by apply (Hfree k).
Qed.

Section Unseat.

Context {E : Type} `{SeatedLaws E}.

Lemma occ_unseat (i : nat) (l : list E) (n : nat) (k : string) (j : nat) :
  occ (unseat i l) n k j <-> occ l n k j /\ j <> i.
Proof.
  unfold occ, unseat. setoid_rewrite list_lookup_fmap. split.
  - intros (e' & He' & Hk). destruct (l !! n) as [e|] eqn:En; [|done].
    injection He' as <-. rewrite assignments_with, withoutAttendee_lookup in Hk.
    destruct Hk as [Hk Hne]. split; [by exists e|done].
  - intros [(e & En & Hk) Hne]. rewrite En.
    eexists; split; [reflexivity|].
    rewrite assignments_with, withoutAttendee_lookup. done.
Qed.

Lemma ids_unseat (i : nat) (l : list E) : ent_id <$> unseat i l = ent_id <$> l.
Proof.
  unfold unseat. rewrite <- list_fmap_compose. apply list_fmap_ext.
  intros ? e _. cbn. apply ent_id_with.
Qed.

Lemma unseat_absent (i : nat) (l : list E) :
  (forall n k, ~ occ l n k i) -> unseat i l = l.
Proof.
  intros Hfree. unfold unseat. rewrite <- (list_fmap_id l) at 2.
  apply list_fmap_ext. intros n e Hn. cbn.
  rewrite withoutAttendee_absent; [apply with_same|].
  intros k Hk. apply (Hfree n k). by exists e.
Qed.

Lemma seatedIn_true (i : nat) (l : list E) :
  seatedIn i l = true <-> exists n k, occ l n k i.
Proof.
  unfold seatedIn. rewrite existsb_exists. split.
  - intros (e & He & Hv). apply bool_decide_eq_true in Hv.
    apply elem_of_values in Hv as [k Hk].
    apply list_elem_of_In, list_elem_of_lookup in He as [n Hn].
    exists n, k, e. done.
  - intros (n & k & e & Hn & Hk). exists e. split.
    + apply list_elem_of_In. by eapply list_elem_of_lookup_2.
    + apply bool_decide_eq_true, elem_of_values. by exists k.
Qed.

End Unseat.

Lemma occupies_unseatAll (i : nat) (d : Doc) (r : SeatRef) (j : nat) :
  occupies (unseatAll i d) r j <-> occupies d r j /\ j <> i.
Proof. destruct r; cbn; apply occ_unseat. Qed.

Lemma occupies_withDisabled (s : gset nat) (d : Doc) (r : SeatRef) (j : nat) :
  occupies (withDisabled s d) r j <-> occupies d r j.
Proof. by destruct r. Qed.

Lemma Exclusive_sub (d d' : Doc) :
  (forall r i, occupies d' r i -> occupies d r i) -> Exclusive d -> Exclusive d'.
Proof. intros Hsub Hex i r1 r2 H1 H2. eapply Hex; eauto. Qed.

Lemma UniqueIds_same_ids (d d' : Doc) :
  t_id <$> tables d' = t_id <$> tables d ->
  b_id <$> chairBlocks d' = b_id <$> chairBlocks d ->
  UniqueIds d -> UniqueIds d'.
Proof. intros Ht Hb [? ?]. split; congruence. Qed.

Lemma unseatAll_absent (i : nat) (d : Doc) :
  (forall r, ~ occupies d r i) -> unseatAll i d = d.
Proof.
  intros Hfree. unfold unseatAll.
  rewrite !unseat_absent; [by destruct d| |].
  - intros n k. apply (Hfree (InBlock n k)).
  - intros n k. apply (Hfree (InTable n k)).
Qed.

Lemma doc_toggleDisable (nameOrder : string) (attendees : list (string * string))
    (i : nat) (st : App) :
  doc (stateOf (toggleDisable nameOrder attendees i st)) =
  let now := disabledAttendees (doc st) in
  if decide (i ∈ now)
  then withDisabled (match attendees !! i with Some _ => now ∖ {[i]} | None => now end) (doc st)
  else withDisabled (match attendees !! i with Some _ => now ∪ {[i]} | None => now end)
                    (unseatAll i (doc st)).
Proof.
  unfold toggleDisable. cbn zeta.
  destruct (decide _), (attendees !! i); cbn; try reflexivity.
  by destruct (doc st).
Qed.

Lemma toggleDisable_outcome (nameOrder : string) (attendees : list (string * string))
    (i : nat) (st : App) :
  toggleDisable nameOrder attendees i st =
  (match attendees !! i with Some _ => Returned | None => Threw end)
    (stateOf (toggleDisable nameOrder attendees i st)).
Proof.
  unfold toggleDisable. cbn zeta. by destruct (decide _), (attendees !! i).
Qed.

Lemma status_toggleDisable (nameOrder : string) (attendees : list (string * string))
    (i : nat) (st : App) :
  status (stateOf (toggleDisable nameOrder attendees i st)) =
  match attendees !! i with
  | Some att =>
      (if decide (i ∈ disabledAttendees (doc st)) then "Enabled: " else "Disabled: ")
        +:+ dn nameOrder att
  | None => status st
  end.
Proof.
  unfold toggleDisable. cbn zeta. by destruct (decide _), (attendees !! i).
Qed.

Lemma undoStack_toggleDisable (nameOrder : string)
    (attendees : list (string * string)) (i : nat) (st : App) :
  undoStack (stateOf (toggleDisable nameOrder attendees i st)) = undoStack st.
Proof.
  unfold toggleDisable. cbn zeta. by destruct (decide _), (attendees !! i).
Qed.

Lemma doc_recallAttendee (now now' : bool) (name : string) (i : nat) (st : App) :
  doc (recallAttendee now now' name i st) =
  if now && seatedIn i (tables (doc st))
  then mkDoc (unseat i (tables (doc st))) (chairBlocks (doc st))
             (venueElements (doc st)) (disabledAttendees (doc st))
  else unseatAll i (doc st).
Proof. unfold recallAttendee. cbn zeta. cbn [doc saveUndo]. by destruct (_ && _). Qed.

(** X4.  Disabling an attendee takes them out of every seat and blocks
    further assignment.  After [toggleDisable] on an enabled attendee the
    attendee occupies no seat, every other attendee sits exactly where
    they sat, and no undo checkpoint has been taken.  For an index inside
    the roster the call returns: the attendee has joined the disabled set,
    the status is 'Disabled: ' followed by the display name, and neither
    [assignAttendee] nor [assignNextAvailable] changes the plan for that
    attendee.  For an index outside the roster the call throws while the
    status text is built: the attendee has left every seat but is not in
    the disabled set, and the status is unchanged. *)
Theorem toggleDisable_unseats (nameOrder : string)
    (attendees : list (string * string)) (i : nat) (st : App) :
  i ∉ disabledAttendees (doc st) ->
  let st' := stateOf (toggleDisable nameOrder attendees i st) in
  (forall r, ~ occupies (doc st') r i) /\
  (i ∉ assigned st') /\
  (forall r j, j <> i -> occupies (doc st') r j <-> occupies (doc st) r j) /\
  undoStack st' = undoStack st /\
  match attendees !! i with
  | Some att =>
      toggleDisable nameOrder attendees i st = Returned st' /\
      disabledAttendees (doc st') = disabledAttendees (doc st) ∪ {[i]} /\
      status st' = "Disabled: " +:+ dn nameOrder att /\
      (forall ty id k, doc (assignAttendee ty id k i st') = doc st') /\
      (forall ty id, doc (assignNextAvailable ty id i st') = doc st')
  | None =>
      toggleDisable nameOrder attendees i st = Threw st' /\
      disabledAttendees (doc st') = disabledAttendees (doc st) /\
      status st' = status st
  end.
Proof.
  intros Hen st'.
  assert (Hd : doc st' =
               withDisabled (match attendees !! i with
                             | Some _ => disabledAttendees (doc st) ∪ {[i]}
                             | None => disabledAttendees (doc st)
                             end)
                            (unseatAll i (doc st))).
  { unfold st'. rewrite doc_toggleDisable. cbn zeta. by rewrite decide_False. }
  assert (Hfree : forall r, ~ occupies (doc st') r i).
  { intros r. rewrite Hd, occupies_withDisabled, occupies_unseatAll. tauto. }
  split; [exact Hfree|]. split.
  { rewrite elem_of_assigned. intros [r Hr]. by apply (Hfree r). }
  split.
  { intros r j Hj. rewrite Hd, occupies_withDisabled, occupies_unseatAll. tauto. }
  split; [apply undoStack_toggleDisable|].
  pose proof (toggleDisable_outcome nameOrder attendees i st) as Hout.
  pose proof (status_toggleDisable nameOrder attendees i st) as Hstat.
  fold st' in Hout, Hstat.
  destruct (attendees !! i) as [att|].
  - assert (Hin : i ∈ disabledAttendees (doc st')) by (rewrite Hd; cbn; set_solver).
    split; [exact Hout|]. split; [by rewrite Hd|]. split.
    { by rewrite Hstat, decide_False. }
    split.
    + intros ty id k. unfold assignAttendee. by rewrite decide_True.
    + intros ty id. unfold assignNextAvailable. by rewrite decide_True.
  - split; [exact Hout|]. split; [by rewrite Hd|exact Hstat].
Qed.

Lemma toggleDisable_unseats_witness :
  let st' := stateOf (toggleDisable "lastFirst" guests 3 (idle hall)) in
  (3 ∉ disabledAttendees (doc (idle hall))) /\
  toggleDisable "lastFirst" guests 3 (idle hall) = Returned st' /\
  3 ∈ disabledAttendees (doc st') /\
  status st' = "Disabled: Dean, Di" /\
  (forall r, ~ occupies (doc st') r 3) /\
  occupies (doc st') (InBlock 0 "0-1") 4.
Proof.
  intros st'.
  assert (Hen : 3 ∉ disabledAttendees (doc (idle hall))) by apply not_elem_of_empty.
  destruct (toggleDisable_unseats "lastFirst" guests 3 (idle hall) Hen)
    as (Hfree & _ & Hkeep & _ & Hret & Hdis & Hstat & _).
  split; [exact Hen|]. split; [exact Hret|]. split.
  { fold st' in Hdis. rewrite Hdis. apply elem_of_union_r, elem_of_singleton.
    reflexivity. }
  split; [exact Hstat|]. split; [exact Hfree|].
  apply Hkeep; [lia|]. eexists. split; reflexivity.
Defined.

(** Outside the roster: attendee 9 of a roster of seven is taken from the
    seat but not disabled, and the call throws. *)
Example toggleDisable_outside_roster :
  let st := idle (putAt ETable 2 "0" 9 hall) in
  toggleDisable "lastFirst" guests 9 st =
    Threw (setTables (unseat 9) (setChairBlocks (unseat 9) st)) /\
  occupies (doc st) (InTable 1 "0") 9 /\
  (forall r, ~ occupies (doc (stateOf (toggleDisable "lastFirst" guests 9 st))) r 9) /\
  9 ∉ disabledAttendees (doc (stateOf (toggleDisable "lastFirst" guests 9 st))).
Proof.
  intros st. split; [reflexivity|]. split; [eexists; split; reflexivity|].
  split; [|apply not_elem_of_empty].
  intros r. rewrite doc_toggleDisable. cbn zeta.
  rewrite decide_False by apply not_elem_of_empty.
  rewrite occupies_withDisabled, occupies_unseatAll. tauto.
Qed.

(** X5.  Enabling an attendee again does not give the seat back: after
    [toggleDisable] has been called twice on an attendee who was enabled,
    the attendee is enabled and occupies no seat, and the plan is the one
    before the two calls exactly when the attendee had no seat to begin
    with.  For an index inside the roster both calls return and the status
    is 'Enabled: ' followed by the display name; for an index outside the
    roster both calls throw and the status is unchanged. *)
Theorem toggleDisable_twice (nameOrder : string)
    (attendees : list (string * string)) (i : nat) (st : App) :
  i ∉ disabledAttendees (doc st) ->
  let st' := stateOf (toggleDisable nameOrder attendees i st) in
  let st'' := stateOf (toggleDisable nameOrder attendees i st') in
  (i ∉ disabledAttendees (doc st'')) /\
  (forall r, ~ occupies (doc st'') r i) /\
  (doc st'' = doc st <-> i ∉ assigned st) /\
  match attendees !! i with
  | Some att =>
      toggleDisable nameOrder attendees i st = Returned st' /\
      toggleDisable nameOrder attendees i st' = Returned st'' /\
      status st'' = "Enabled: " +:+ dn nameOrder att
  | None =>
      toggleDisable nameOrder attendees i st = Threw st' /\
      toggleDisable nameOrder attendees i st' = Threw st'' /\
      status st'' = status st
  end.
Proof.
  intros Hen st' st''.
  assert (Hd' : doc st' =
                withDisabled (match attendees !! i with
                              | Some _ => disabledAttendees (doc st) ∪ {[i]}
                              | None => disabledAttendees (doc st)
                              end)
                             (unseatAll i (doc st))).
  { unfold st'. rewrite doc_toggleDisable. cbn zeta. by rewrite decide_False. }
  assert (Hagain : unseatAll i (unseatAll i (doc st)) = unseatAll i (doc st)).
  { apply unseatAll_absent. intros r. rewrite occupies_unseatAll. tauto. }
  assert (Hd : doc st'' = unseatAll i (doc st)).
  { unfold st''. rewrite doc_toggleDisable. cbn zeta. rewrite Hd'.
    destruct (attendees !! i) as [att|]; cbn [disabledAttendees withDisabled].
    - rewrite decide_True by set_solver.
      unfold withDisabled, unseatAll. cbn. f_equal.
      apply set_eq; intros x.
      rewrite elem_of_difference, elem_of_union, elem_of_singleton.
      split; [tauto|]. intros Hx. split; [tauto|congruence].
    - change (disabledAttendees (unseatAll i (doc st)))
        with (disabledAttendees (doc st)).
      rewrite decide_False by done.
      change (withDisabled ?s (withDisabled _ ?d)) with (withDisabled s d).
      change (unseatAll i (withDisabled ?s ?d)) with (withDisabled s (unseatAll i d)).
      rewrite Hagain. unfold withDisabled, unseatAll. reflexivity. }
  assert (Hfree : forall r, ~ occupies (doc st'') r i).
  { intros r. rewrite Hd, occupies_unseatAll. tauto. }
  split; [by rewrite Hd|]. split; [exact Hfree|]. split.
  { rewrite elem_of_assigned. split.
    - intros Heq [r Hr]. apply (Hfree r). by rewrite Heq.
    - intros Hno. rewrite Hd. apply unseatAll_absent.
      intros r Hr. apply Hno. by exists r. }
  pose proof (toggleDisable_outcome nameOrder attendees i st) as Hout.
  pose proof (toggleDisable_outcome nameOrder attendees i st') as Hout'.
  pose proof (status_toggleDisable nameOrder attendees i st') as Hstat'.
  pose proof (status_toggleDisable nameOrder attendees i st) as Hstat.
  fold st' in Hout, Hstat. fold st'' in Hout', Hstat'.
  destruct (attendees !! i) as [att|].
  - split; [exact Hout|]. split; [exact Hout'|].
    rewrite Hstat', decide_True; [done|]. rewrite Hd'. cbn. set_solver.
  - split; [exact Hout|]. split; [exact Hout'|]. by rewrite Hstat'.
Qed.

Lemma toggleDisable_twice_witness :
  let st' := stateOf (toggleDisable "lastFirst" guests 3 (idle hall)) in
  let st'' := stateOf (toggleDisable "lastFirst" guests 3 st') in
  (3 ∉ disabledAttendees (doc (idle hall))) /\
  (3 ∉ disabledAttendees (doc st'')) /\
  (forall r, ~ occupies (doc st'') r 3) /\
  status st'' = "Enabled: Dean, Di" /\
  doc st'' <> hall.
Proof.
  intros st' st''.
  assert (Hen : 3 ∉ disabledAttendees (doc (idle hall))) by apply not_elem_of_empty.
  destruct (toggleDisable_twice "lastFirst" guests 3 (idle hall) Hen)
    as (Hin & Hfree & Hiff & _ & _ & Hstat).
  split; [exact Hen|]. split; [exact Hin|]. split; [exact Hfree|].
  split; [exact Hstat|].
  intros Heq. apply (Hfree (InTable 0 "0")). fold st' st''. rewrite Heq.
  eexists. split; reflexivity.
Defined.

(** X6.  Recalling an attendee frees their seat: in a plan where nobody
    is seated twice, after [recallAttendee] the attendee occupies no seat,
    whether or not React has run the updaters when [found] is read; every
    other attendee sits exactly where they sat; and for an attendee who
    had no seat the plan is unchanged and the status is 'Not seated'. *)
Theorem recallAttendee_unseats (now now' : bool) (name : string) (i : nat)
    (st : App) :
  Exclusive (doc st) ->
  let st' := recallAttendee now now' name i st in
  (forall r, ~ occupies (doc st') r i) /\
  (forall r j, j <> i -> occupies (doc st') r j <-> occupies (doc st) r j) /\
  (i ∉ assigned st -> doc st' = doc st /\ status st' = "Not seated").
Proof.
  intros Hex st'.
  assert (Hd : forall r j, occupies (doc st') r j <-> occupies (doc st) r j /\ j <> i).
  { intros r j. unfold st'. rewrite doc_recallAttendee.
    destruct (now && seatedIn i (tables (doc st))) eqn:Hfound;
      [|apply occupies_unseatAll].
    apply andb_true_iff in Hfound as [_ Hfound].
    apply (seatedIn_true (E:=Table)) in Hfound as (n & k & Hocc).
    destruct r as [m k'|m k']; cbn [occupies tables chairBlocks].
    - apply (occ_unseat (E:=Table)).
    - split; [|by intros [? _]]. intros Hb. split; [done|]. intros ->.
      by specialize (Hex i (InTable n k) (InBlock m k') Hocc Hb). }
  split; [intros r; rewrite Hd; tauto|].
  split; [intros r j Hj; rewrite Hd; tauto|].
  intros Hno. rewrite elem_of_assigned in Hno.
  assert (Ht : seatedIn i (tables (doc st)) = false).
  { apply not_true_is_false. rewrite (seatedIn_true (E:=Table)).
    intros (n & k & Hocc). apply Hno. by exists (InTable n k). }
  assert (Hb : seatedIn i (chairBlocks (doc st)) = false).
  { apply not_true_is_false. rewrite (seatedIn_true (E:=ChairBlock)).
    intros (n & k & Hocc). apply Hno. by exists (InBlock n k). }
  split.
  - unfold st'. rewrite doc_recallAttendee, Ht, andb_false_r.
    apply unseatAll_absent. intros r Hr. apply Hno. by exists r.
  - unfold st', recallAttendee. cbn zeta. cbn [doc saveUndo].
    rewrite Ht, andb_false_r.
    cbn [doc setTables with_doc chairBlocks].
    change (doc (saveUndo st)) with (doc st). by rewrite Hb, andb_false_r.
Qed.

Lemma recallAttendee_unseats_witness :
  let st' := recallAttendee true false "Ada" 4 (idle hall) in
  Exclusive (doc (idle hall)) /\
  (forall r, ~ occupies (doc st') r 4) /\
  occupies (doc st') (InTable 0 "0") 3.
Proof.
  intros st'.
  destruct (recallAttendee_unseats true false "Ada" 4 (idle hall) hall_Exclusive)
    as (Hfree & Hkeep & _).
  split; [exact hall_Exclusive|]. split; [exact Hfree|].
  apply Hkeep; [lia|]. eexists. split; reflexivity.
Defined.


(** ** Deleting an entity *)

(** Two positions of a filtered list come from two positions of the list,
    distinct when they are. *)
Lemma filter_positions {A} (P : A -> Prop) `{!forall x, Decision (P x)}
    (l : list A) (n1 n2 : nat) (e1 e2 : A) :
  filter P l !! n1 = Some e1 -> filter P l !! n2 = Some e2 ->
  exists m1 m2, l !! m1 = Some e1 /\ l !! m2 = Some e2 /\ P e1 /\ P e2 /\
                (m1 = m2 -> n1 = n2).
Proof.
  revert n1 n2 e1 e2; induction l as [|a l IH]; intros n1 n2 e1 e2; [done|].
  rewrite filter_cons. destruct (decide (P a)) as [Ha|Ha].
  - destruct n1 as [|n1], n2 as [|n2]; cbn; intros H1 H2.
    + injection H1 as <-. injection H2 as <-. by exists 0, 0.
    + injection H1 as <-.
      destruct (IH n2 n2 _ _ H2 H2) as (m & _ & Hm & _ & Hp & _).
      exists 0, (S m). repeat split; try done.
    + injection H2 as <-.
      destruct (IH n1 n1 _ _ H1 H1) as (m & _ & Hm & _ & Hp & _).
      exists (S m), 0. repeat split; try done.
    + destruct (IH _ _ _ _ H1 H2) as (m1 & m2 & ? & ? & ? & ? & Hinj).
      exists (S m1), (S m2). repeat split; try done.
      intros [= Heq]. f_equal. by apply Hinj.
  - intros H1 H2.
    destruct (IH _ _ _ _ H1 H2) as (m1 & m2 & ? & ? & ? & ? & Hinj).
    exists (S m1), (S m2). repeat split; try done.
    intros [= Heq]. by apply Hinj.
Qed.

Lemma filter_position {A} (P : A -> Prop) `{!forall x, Decision (P x)}
    (l : list A) (m : nat) (e : A) :
  l !! m = Some e -> P e -> exists n, filter P l !! n = Some e.
Proof.
  intros Hm Hp. apply list_elem_of_lookup, list_elem_of_filter.
  split; [done|]. by eapply list_elem_of_lookup_2.
Qed.

Lemma NoDup_ids_filter {A} (id : A -> nat) (P : A -> Prop)
    `{!forall x, Decision (P x)} (l : list A) :
  NoDup (id <$> l) -> NoDup (id <$> filter P l).
Proof.
  intros Hnd.
  exact (sublist_NoDup _ _ Hnd (fmap_sublist id _ _ (sublist_filter P l))).
Qed.

(** The plan after [performDelete]. *)
Lemma doc_performDelete (ty : EntityType) (id : nat) (st : App) :
  doc (performDelete ty id st) =
  match ty with
  | ETable => mkDoc (filter (fun t => t_id t <> id) (tables (doc st)))
                    (chairBlocks (doc st)) (venueElements (doc st))
                    (disabledAttendees (doc st))
  | EBlock => mkDoc (tables (doc st))
                    (filter (fun b => b_id b <> id) (chairBlocks (doc st)))
                    (venueElements (doc st)) (disabledAttendees (doc st))
  | EVenue => mkDoc (tables (doc st)) (chairBlocks (doc st))
                    (filter (fun e => v_id e <> id) (venueElements (doc st)))
                    (disabledAttendees (doc st))
  end.
Proof.
  unfold performDelete. cbn zeta.
  destruct ty, (selectedItem st) as [item|];
    try destruct (decide (e_id item = id)); reflexivity.
Qed.

(** Every seat of the plan after a deletion is a seat of the plan before
    it, in an entity that was not deleted; distinct seats come from
    distinct seats. *)
Lemma occupies_performDelete (ty : EntityType) (id : nat) (st : App)
    (r1 r2 : SeatRef) (i1 i2 : nat) :
  occupies (doc (performDelete ty id st)) r1 i1 ->
  occupies (doc (performDelete ty id st)) r2 i2 ->
  exists r1' r2',
    occupies (doc st) r1' i1 /\ occupies (doc st) r2' i2 /\
    (ty <> EVenue -> ~ isTarget (doc st) ty id r1') /\
    (r1' = r2' -> r1 = r2).
Proof.
  rewrite doc_performDelete.
  destruct ty.
  - destruct r1 as [n1 k1|n1 k1], r2 as [n2 k2|n2 k2];
      cbn [occupies tables chairBlocks].
    + intros (e1 & H1 & Hk1) (e2 & H2 & Hk2).
      destruct (filter_positions _ _ _ _ _ _ H1 H2)
        as (m1 & m2 & Hm1 & Hm2 & Hp1 & Hp2 & Hinj).
      exists (InTable m1 k1), (InTable m2 k2). split; [by exists e1|].
      split; [by exists e2|]. split.
      * intros _ (e & He & Hid). cbn in Hp1. congruence.
      * intros [= Hm Hk]. f_equal; auto.
    + intros (e1 & H1 & Hk1) Hb.
      destruct (filter_positions _ _ _ _ _ _ H1 H1)
        as (m1 & _ & Hm1 & _ & Hp1 & _).
      exists (InTable m1 k1), (InBlock n2 k2). split; [by exists e1|].
      split; [done|]. split; [|done].
      intros _ (e & He & Hid). cbn in Hp1. congruence.
    + intros Hb (e2 & H2 & Hk2).
      destruct (filter_positions _ _ _ _ _ _ H2 H2)
        as (m2 & _ & Hm2 & _ & Hp2 & _).
      exists (InBlock n1 k1), (InTable m2 k2). split; [done|].
      split; [by exists e2|]. split; [|done]. by intros _ [].
    + intros H1 H2. exists (InBlock n1 k1), (InBlock n2 k2).
      split; [done|]. split; [done|]. split; [|done]. by intros _ [].
  - destruct r1 as [n1 k1|n1 k1], r2 as [n2 k2|n2 k2];
      cbn [occupies tables chairBlocks].
    + intros H1 H2. exists (InTable n1 k1), (InTable n2 k2).
      split; [done|]. split; [done|]. split; [|done]. by intros _ [].
    + intros Hb (e2 & H2 & Hk2).
      destruct (filter_positions _ _ _ _ _ _ H2 H2)
        as (m2 & _ & Hm2 & _ & Hp2 & _).
      exists (InTable n1 k1), (InBlock m2 k2). split; [done|].
      split; [by exists e2|]. split; [|done]. by intros _ [].
    + intros (e1 & H1 & Hk1) Hb.
      destruct (filter_positions _ _ _ _ _ _ H1 H1)
        as (m1 & _ & Hm1 & _ & Hp1 & _).
      exists (InBlock m1 k1), (InTable n2 k2). split; [by exists e1|].
      split; [done|]. split; [|done].
      intros _ (e & He & Hid). cbn in Hp1. congruence.
    + intros (e1 & H1 & Hk1) (e2 & H2 & Hk2).
      destruct (filter_positions _ _ _ _ _ _ H1 H2)
        as (m1 & m2 & Hm1 & Hm2 & Hp1 & Hp2 & Hinj).
      exists (InBlock m1 k1), (InBlock m2 k2). split; [by exists e1|].
      split; [by exists e2|]. split.
      * intros _ (e & He & Hid). cbn in Hp1. congruence.
      * intros [= Hm Hk]. f_equal; auto.
  - intros H1 H2. exists r1, r2. split; [by destruct r1|].
    split; [by destruct r2|]. split; [congruence|done].
Qed.

(** A seat outside the deleted entity survives the deletion. *)
Lemma occupies_performDelete_keep (ty : EntityType) (id : nat) (st : App)
    (r : SeatRef) (i : nat) :
  occupies (doc st) r i -> (ty <> EVenue -> ~ isTarget (doc st) ty id r) ->
  exists r', occupies (doc (performDelete ty id st)) r' i.
Proof.
  rewrite doc_performDelete. intros Hocc Hnt.
  destruct ty, r as [n k|n k]; cbn [occupies tables chairBlocks] in *;
    try (by eexists (InTable n k)); try (by eexists (InBlock n k)).
  - destruct Hocc as (e & He & Hk).
    destruct (filter_position (fun t => t_id t <> id) _ _ _ He) as [n' Hn'].
    { intros Hid. apply Hnt; [done|]. by exists e. }
    exists (InTable n' k), e. done.
  - destruct Hocc as (e & He & Hk).
    destruct (filter_position (fun b => b_id b <> id) _ _ _ He) as [n' Hn'].
    { intros Hid. apply Hnt; [done|]. by exists e. }
    exists (InBlock n' k), e. done.
Qed.

Lemma UniqueIds_performDelete (ty : EntityType) (id : nat) (st : App) :
  UniqueIds (doc st) -> UniqueIds (doc (performDelete ty id st)).
Proof.
  rewrite doc_performDelete. intros [Ht Hb].
  destruct ty; split; cbn [tables chairBlocks]; try done;
    by apply NoDup_ids_filter.
Qed.

Lemma Exclusive_performDelete (ty : EntityType) (id : nat) (st : App) :
  Exclusive (doc st) -> Exclusive (doc (performDelete ty id st)).
Proof.
  intros Hex i r1 r2 H1 H2.
  destruct (occupies_performDelete _ _ _ _ _ _ _ H1 H2)
    as (r1' & r2' & H1' & H2' & _ & Hinj).
  apply Hinj. by eapply Hex.
Qed.

(** X7.  Deleting a table or a chair block unseats exactly its occupants:
    in a plan where nobody is seated twice, after [performDelete] of a
    table or chair block every attendee who sat at an entity with the
    deleted id is unassigned, every attendee seated anywhere else is still
    assigned, no entity of that kind carries the id any more, and the plan
    is still one where nobody is seated twice. *)
Theorem performDelete_unseats_occupants (ty : EntityType) (id : nat) (st : App) :
  ty <> EVenue -> Exclusive (doc st) ->
  let st' := performDelete ty id st in
  (forall r i, occupies (doc st) r i -> isTarget (doc st) ty id r ->
               i ∉ assigned st') /\
  (forall r i, occupies (doc st) r i -> ~ isTarget (doc st) ty id r ->
               i ∈ assigned st') /\
  (forall r, ~ isTarget (doc st') ty id r) /\
  Exclusive (doc st').
Proof.
  intros Hty Hex st'. split; [|split; [|split]].
  - intros r i Hocc Htgt. rewrite elem_of_assigned. intros [r0 Hr0].
    destruct (occupies_performDelete _ _ _ _ _ _ _ Hr0 Hr0)
      as (r' & _ & Hr' & _ & Hnt & _).
    rewrite (Hex i r r' Hocc Hr') in Htgt. by apply Hnt.
  - intros r i Hocc Hnt. rewrite elem_of_assigned.
    by apply (occupies_performDelete_keep ty id st r i).
  - intros r. unfold st'. rewrite doc_performDelete.
    destruct ty; [| |done];
      destruct r as [n k|n k]; cbn [isTarget tables chairBlocks];
      try (by intros []); intros (e & He & Hid);
      apply list_elem_of_lookup_2 in He; apply list_elem_of_filter in He;
      destruct He as [Hp _]; by apply Hp.
  - by apply Exclusive_performDelete.
Qed.

Lemma performDelete_unseats_occupants_witness :
  let st' := performDelete ETable 1 (idle hall) in
  ETable <> EVenue /\ Exclusive (doc (idle hall)) /\
  (3 ∉ assigned st') /\ 4 ∈ assigned st'.
Proof.
  intros st'.
  assert (Hty : ETable <> EVenue) by discriminate.
  destruct (performDelete_unseats_occupants ETable 1 (idle hall) Hty hall_Exclusive)
    as (Hgone & Hkept & _).
  split; [exact Hty|]. split; [exact hall_Exclusive|]. split.
  - apply (Hgone (InTable 0 "0")).
    + eexists. split; reflexivity.
    + eexists. split; reflexivity.
  - apply (Hkept (InBlock 0 "0-1")).
    + eexists. split; reflexivity.
    + intros [].
Defined.


(** ** Automatic assignment *)

Lemma fillsFor_cons tbl id p ps a :
  fillsFor tbl id (p :: ps) a =
  fillsFor tbl id ps (if decide (forTables p.2 = tbl /\ os_id p.2 = id)
                      then <[os_key p.2 := p.1]> a else a).
Proof. reflexivity. Qed.

(** The two maps and the counter after the filling loop. *)
Lemma foldl_fillSeat (ps : list (nat * OpenSeat))
    (tA0 bA0 : gmap nat (gmap string nat)) (c : nat) :
  exists tA bA,
    foldl fillSeat (tA0, bA0, c) ps = (tA, bA, c + length ps) /\
    (forall id, tA !! id = fillsFor true id ps <$> tA0 !! id) /\
    (forall id, bA !! id = fillsFor false id ps <$> bA0 !! id).
Proof.
  revert tA0 bA0 c; induction ps as [|p ps IH]; intros tA0 bA0 c.
  - exists tA0, bA0. cbn. rewrite Nat.add_0_r. split; [done|].
    split; intros id; by destruct (_ !! id).
  - cbn [foldl length]. unfold fillSeat at 2.
    destruct (os_type p.2) eqn:Ety;
      match goal with
      | |- context [foldl fillSeat (?t, ?b, ?n) ps] =>
          destruct (IH t b n) as (tA & bA & Hf & HtA & HbA)
      end;
      exists tA, bA; (split; [rewrite Hf; f_equal; lia|]);
      split; intros id;
      rewrite ?HtA, ?HbA, ?lookup_alter;
      try destruct (decide (os_id p.2 = id)) as [<-|Hne];
      match goal with
      | |- context [?m !! ?i] => destruct (m !! i)
      end; cbn [fmap option_fmap option_map]; try done;
      rewrite fillsFor_cons; unfold forTables; rewrite Ety;
      first [ by rewrite decide_True by done
            | by rewrite decide_False by (intros [? ?]; congruence) ].
Qed.

(** A seat of the copy holds what it held, or the attendee of a pair of
    the loop that names it. *)
Lemma fillsFor_lookup tbl id ps a k i :
  fillsFor tbl id ps a !! k = Some i ->
  a !! k = Some i \/
  exists j s, ps !! j = Some (i, s) /\ forTables s = tbl /\ os_id s = id /\
              os_key s = k.
Proof.
  revert a; induction ps as [|[i0 s0] ps IH]; intros a; [by left|].
  rewrite fillsFor_cons. intros H. apply IH in H as [H|(j & s & Hj & Hs)].
  - cbn [fst snd] in H. destruct (decide _) as [[Ht Hid]|_]; [|by left].
    destruct (decide (os_key s0 = k)) as [Hk|Hk].
    + rewrite Hk, lookup_insert_eq in H. injection H as ->.
      right. by exists 0, s0.
    + rewrite lookup_insert_ne in H by done. by left.
  - right. by exists (S j), s.
Qed.

(** A seat that no pair names keeps its occupant. *)
Lemma fillsFor_keep tbl id ps a k i :
  a !! k = Some i ->
  (forall p, p ∈ ps -> ~ (forTables p.2 = tbl /\ os_id p.2 = id /\ os_key p.2 = k)) ->
  fillsFor tbl id ps a !! k = Some i.
Proof.
  revert a; induction ps as [|p ps IH]; intros a Ha Hfree; [done|].
  rewrite fillsFor_cons. apply IH.
  - destruct (decide _) as [[Ht Hid]|_]; [|done].
    rewrite lookup_insert_ne; [done|]. intros Hk.
    apply (Hfree p); [by left|done].
  - intros q Hq. apply Hfree. by right.
Qed.

(** With no seat named twice, the seat of each pair holds its attendee. *)
Lemma fillsFor_new ps a j i s :
  NoDup (seatName <$> ps.*2) -> ps !! j = Some (i, s) ->
  fillsFor (forTables s) (os_id s) ps a !! os_key s = Some i.
Proof.
  revert a j; induction ps as [|p ps IH]; intros a j Hnd Hj; [done|].
  rewrite fillsFor_cons. cbn [fmap list_fmap] in Hnd.
  apply NoDup_cons in Hnd as [Hp Hnd].
  destruct j as [|j]; cbn in Hj.
  - injection Hj as ->. cbn [fst snd]. rewrite decide_True by done.
    apply fillsFor_keep; [apply lookup_insert_eq|].
    intros q Hq (Ht & Hid & Hk). apply Hp.
    apply list_elem_of_fmap. exists q.2. split.
    + unfold seatName. cbn. by rewrite Ht, Hid, Hk.
    + apply list_elem_of_fmap. by exists q.
  - by apply (IH _ j).
Qed.

Lemma zip_snd_sublist {A B} (l : list A) (k : list B) : (zip l k).*2 `sublist_of` k.
Proof.
  revert k; induction l as [|x l IH]; intros [|y k]; cbn;
    try apply sublist_nil_l. by apply sublist_skip.
Qed.

Section ById.

Context {E : Type} `{SeatedLaws E}.

Lemma assignmentsById_snoc (l : list E) (x : E) :
  assignmentsById (l ++ [x]) = <[ent_id x := assignments x]> (assignmentsById l).
Proof. unfold assignmentsById. by rewrite foldl_app. Qed.

Lemma assignmentsById_lookup (l : list E) (n : nat) (e : E) :
  NoDup (ent_id <$> l) -> l !! n = Some e ->
  assignmentsById l !! ent_id e = Some (assignments e).
Proof.
  revert n; induction l as [|x l IH] using rev_ind; intros n Hnd Hn; [done|].
  rewrite assignmentsById_snoc.
  rewrite fmap_app in Hnd. apply NoDup_app in Hnd as (Hl & Hx & _).
  apply lookup_app_Some in Hn as [Hn|[_ Hn]].
  - rewrite lookup_insert_ne; [by eapply IH|].
    intros Heq. apply (Hx (ent_id e)).
    + apply list_elem_of_fmap. exists e. split; [done|].
      by eapply list_elem_of_lookup_2.
    + replace (ent_id e) with (ent_id x) by congruence. cbn. by left.
  - destruct (n - length l) as [|m]; [|done]. injection Hn as ->.
    apply lookup_insert_eq.
Qed.

Lemma occ_takeAssignments (tbl : bool) (ps : list (nat * OpenSeat))
    (byId : gmap nat (gmap string nat)) (l : list E) (n : nat) (k : string)
    (i : nat) :
  NoDup (ent_id <$> l) ->
  (forall id, byId !! id = fillsFor tbl id ps <$> assignmentsById l !! id) ->
  occ (takeAssignments byId l) n k i <->
  exists e, l !! n = Some e /\
            fillsFor tbl (ent_id e) ps (assignments e) !! k = Some i.
Proof.
  intros Hnd Hby. unfold occ, takeAssignments.
  setoid_rewrite list_lookup_fmap.
  destruct (l !! n) as [e|] eqn:En; cbn [fmap option_fmap option_map].
  - assert (Hd : default (assignments e) (byId !! ent_id e) =
                 fillsFor tbl (ent_id e) ps (assignments e)).
    { by rewrite Hby, (assignmentsById_lookup l n e). }
    split.
    + intros (e' & [= <-] & Hk). rewrite assignments_with, Hd in Hk. eauto.
    + intros (e' & [= <-] & Hk). eexists; split; [reflexivity|].
      by rewrite assignments_with, Hd.
  - split; intros (e & ? & _); discriminate.
Qed.

Lemma ids_takeAssignments (byId : gmap nat (gmap string nat)) (l : list E) :
  ent_id <$> takeAssignments byId l = ent_id <$> l.
Proof.
  unfold takeAssignments. rewrite <- list_fmap_compose. apply list_fmap_ext.
  intros ? e _. cbn. apply ent_id_with.
Qed.

End ById.


Lemma elem_of_blockSeatKeys (b : ChairBlock) (key : string) :
  key ∈ blockSeatKeys b <->
  exists r c, key = blockSeatKey r c /\ r < rows b /\ c < cols b.
Proof.
  unfold blockSeatKeys. rewrite list_elem_of_bind. split.
  - intros (r & Hc & Hr). apply list_elem_of_fmap in Hc as (c & -> & Hc).
    apply elem_of_seq in Hr, Hc. exists r, c. split; [done|]. lia.
  - intros (r & c & -> & Hr & Hc). exists r. split.
    + apply list_elem_of_fmap. exists c. split; [done|]. apply elem_of_seq. lia.
    + apply elem_of_seq. lia.
Qed.

Lemma NoDup_blockSeatKeys (b : ChairBlock) : NoDup (blockSeatKeys b).
Proof.
  unfold blockSeatKeys. apply NoDup_bind; [| |apply NoDup_seq].
  - intros r1 r2 key _ _ H1 H2.
    apply list_elem_of_fmap in H1 as (c1 & -> & _).
    apply list_elem_of_fmap in H2 as (c2 & Heq & _).
    by apply blockSeatKey_inj in Heq as [-> _].
  - intros r _. apply NoDup_fmap_2; [|apply NoDup_seq].
    intros c1 c2 Heq. by apply blockSeatKey_inj in Heq as [_ ->].
Qed.

(** The free seats are the seats the entities really have and that hold
    nobody. *)
Lemma elem_of_emptySeats (d : Doc) (s : OpenSeat) :
  s ∈ emptySeats d <->
  (exists n t i, tables d !! n = Some t /\ i < getTableTotalSeats t /\
                 t_assignments t !! numToString i = None /\
                 s = mkOpenSeat ETable (t_id t) (numToString i)) \/
  (exists n b r c, chairBlocks d !! n = Some b /\ r < rows b /\ c < cols b /\
                   b_assignments b !! blockSeatKey r c = None /\
                   s = mkOpenSeat EBlock (b_id b) (blockSeatKey r c)).
Proof.
  unfold emptySeats. rewrite elem_of_app, !list_elem_of_bind.
  split; (intros [H|H]; [left|right]).
  - destruct H as (t & Hs & Ht). apply list_elem_of_fmap in Hs as (i & -> & Hi).
    apply list_elem_of_filter in Hi as [Hfree Hi]. apply elem_of_seq in Hi.
    apply list_elem_of_lookup in Ht as [n Hn]. exists n, t, i.
    repeat split; try done. lia.
  - destruct H as (b & Hs & Hb). apply list_elem_of_fmap in Hs as (key & -> & Hk).
    apply list_elem_of_filter in Hk as [Hfree Hk].
    apply elem_of_blockSeatKeys in Hk as (r & c & -> & Hr & Hc).
    apply list_elem_of_lookup in Hb as [n Hn]. by exists n, b, r, c.
  - destruct H as (n & t & i & Hn & Hi & Hfree & ->). exists t. split.
    + apply list_elem_of_fmap. exists i. split; [done|].
      apply list_elem_of_filter. split; [done|]. apply elem_of_seq. lia.
    + by eapply list_elem_of_lookup_2.
  - destruct H as (n & b & r & c & Hn & Hr & Hc & Hfree & ->). exists b. split.
    + apply list_elem_of_fmap. exists (blockSeatKey r c). split; [done|].
      apply list_elem_of_filter. split; [done|].
      apply elem_of_blockSeatKeys. by exists r, c.
    + by eapply list_elem_of_lookup_2.
Qed.

Lemma NoDup_ids_inj {A} (id : A -> nat) (l : list A) (x y : A) :
  NoDup (id <$> l) -> x ∈ l -> y ∈ l -> id x = id y -> x = y.
Proof.
  intros Hnd Hx Hy Heq.
  apply list_elem_of_lookup in Hx as [n Hn], Hy as [m Hm].
  assert (n = m).
  { eapply NoDup_lookup; [exact Hnd| |];
      rewrite list_lookup_fmap; [by rewrite Hn|by rewrite Hm, Heq]. }
  congruence.
Qed.

(** With unique ids no free seat is listed twice. *)
Lemma NoDup_emptySeats (d : Doc) :
  UniqueIds d -> NoDup (seatName <$> emptySeats d).
Proof.
  intros [Ht Hb]. unfold emptySeats. rewrite fmap_app.
  apply NoDup_app. split; [|split].
  - apply NoDup_fmap_2_strong.
    + intros s1 s2 H1 H2 Heq.
      apply list_elem_of_bind in H1 as (t1 & H1 & _).
      apply list_elem_of_bind in H2 as (t2 & H2 & _).
      apply list_elem_of_fmap in H1 as (i1 & -> & _).
      apply list_elem_of_fmap in H2 as (i2 & -> & _).
      unfold seatName in Heq. cbn in Heq. by injection Heq as -> ->.
    + apply NoDup_bind; [| |by eapply NoDup_fmap_1].
      * intros t1 t2 s Ht1 Ht2 H1 H2.
        apply list_elem_of_fmap in H1 as (i1 & -> & _).
        apply list_elem_of_fmap in H2 as (i2 & [= Hid _] & _).
        by apply (NoDup_ids_inj t_id (tables d)).
      * intros t _. apply NoDup_fmap_2; [|apply NoDup_filter, NoDup_seq].
        intros i1 i2 [= Heq]. by apply numToString_inj.
  - intros x H1 H2.
    apply list_elem_of_fmap in H1 as (s1 & -> & H1).
    apply list_elem_of_fmap in H2 as (s2 & Heq & H2).
    apply list_elem_of_bind in H1 as (t1 & H1 & _).
    apply list_elem_of_bind in H2 as (b2 & H2 & _).
    apply list_elem_of_fmap in H1 as (i1 & -> & _).
    apply list_elem_of_fmap in H2 as (k2 & -> & _).
    discriminate Heq.
  - apply NoDup_fmap_2_strong.
    + intros s1 s2 H1 H2 Heq.
      apply list_elem_of_bind in H1 as (t1 & H1 & _).
      apply list_elem_of_bind in H2 as (t2 & H2 & _).
      apply list_elem_of_fmap in H1 as (i1 & -> & _).
      apply list_elem_of_fmap in H2 as (i2 & -> & _).
      unfold seatName in Heq. cbn in Heq. by injection Heq as -> ->.
    + apply NoDup_bind; [| |by eapply NoDup_fmap_1].
      * intros b1 b2 s Hb1 Hb2 H1 H2.
        apply list_elem_of_fmap in H1 as (i1 & -> & _).
        apply list_elem_of_fmap in H2 as (i2 & [= Hid _] & _).
        by apply (NoDup_ids_inj b_id (chairBlocks d)).
      * intros b _. apply NoDup_fmap_2; [|apply NoDup_filter, NoDup_blockSeatKeys].
        by intros k1 k2 [= Heq].
Qed.

Lemma elem_of_unassignedOf (n : nat) (st : App) (i : nat) :
  i ∈ unassignedOf n st <->
  i < n /\ (i ∉ assigned st) /\ (i ∉ disabledAttendees (doc st)).
Proof.
  unfold unassignedOf. rewrite list_elem_of_filter, elem_of_seq.
  split; [intros [[? ?] ?]|intros (? & ? & ?)]; repeat split; try done; lia.
Qed.

Lemma NoDup_unassignedOf (n : nat) (st : App) : NoDup (unassignedOf n st).
Proof. apply NoDup_filter, NoDup_seq. Qed.

(** The plan and the status line after [autoAssign]. *)
Lemma autoAssign_result (order : list nat -> list nat) (n : nat) (st : App) :
  UniqueIds (doc st) -> (forall l, order l ≡ₚ l) ->
  exists tA bA,
    doc (autoAssign order n st) =
      mkDoc (takeAssignments tA (tables (doc st)))
            (takeAssignments bA (chairBlocks (doc st)))
            (venueElements (doc st)) (disabledAttendees (doc st)) /\
    (forall id, tA !! id =
       fillsFor true id (pairing order n st) <$> assignmentsById (tables (doc st)) !! id) /\
    (forall id, bA !! id =
       fillsFor false id (pairing order n st) <$>
       assignmentsById (chairBlocks (doc st)) !! id) /\
    status (autoAssign order n st) =
      if decide (unassignedOf n st = []) then "No unassigned attendees"
      else "Auto-assigned " +:+ numToString (length (pairing order n st)) +:+
           " attendees".
Proof.
  intros [Hut Hub] Hperm. unfold autoAssign. cbn zeta.
  destruct (foldl_fillSeat (pairing order n st)
              (assignmentsById (tables (doc st)))
              (assignmentsById (chairBlocks (doc st))) 0)
    as (tA & bA & Hf & HtA & HbA).
  unfold pairing in Hf. exists tA, bA. rewrite Hf.
  split; [|split; [exact HtA|split; [exact HbA|]]].
  - destruct (decide (unassignedOf n st = [])) as [He|He]; [|reflexivity].
    cbn [doc setStatus saveUndo].
    assert (Hps : pairing order n st = []).
    { unfold pairing. rewrite He.
      assert (order [] = []) as -> by apply Permutation_nil_r, Hperm.
      reflexivity. }
    rewrite Hps in HtA, HbA.
    assert (Ht : takeAssignments tA (tables (doc st)) = tables (doc st)).
    { unfold takeAssignments. rewrite <- (list_fmap_id (tables (doc st))) at 2.
      apply list_fmap_ext. intros m e Hm.
      change (with_assignments (default (assignments e) (tA !! ent_id e)) e = e).
      rewrite HtA, (assignmentsById_lookup (H:=Table_Seated) (tables (doc st)) m e Hut Hm). cbn.
      by destruct e. }
    assert (Hb : takeAssignments bA (chairBlocks (doc st)) = chairBlocks (doc st)).
    { unfold takeAssignments. rewrite <- (list_fmap_id (chairBlocks (doc st))) at 2.
      apply list_fmap_ext. intros m e Hm.
      change (with_assignments (default (assignments e) (bA !! ent_id e)) e = e).
      rewrite HbA, (assignmentsById_lookup (H:=Block_Seated) (chairBlocks (doc st)) m e Hub Hm). cbn.
      by destruct e. }
    rewrite Ht, Hb. by destruct (doc st).
  - by destruct (decide (unassignedOf n st = [])).
Qed.


(** Every seat after [autoAssign] is a seat of the copy of its entity. *)
Lemma occupies_autoAssign (order : list nat -> list nat) (n : nat) (st : App)
    (r : SeatRef) (i : nat) :
  UniqueIds (doc st) -> (forall l, order l ≡ₚ l) ->
  occupies (doc (autoAssign order n st)) r i <->
  match r with
  | InTable m k =>
      exists t, tables (doc st) !! m = Some t /\
                fillsFor true (t_id t) (pairing order n st) (t_assignments t) !! k
                  = Some i
  | InBlock m k =>
      exists b, chairBlocks (doc st) !! m = Some b /\
                fillsFor false (b_id b) (pairing order n st) (b_assignments b) !! k
                  = Some i
  end.
Proof.
  intros Hu Hperm.
  destruct (autoAssign_result order n st Hu Hperm) as (tA & bA & -> & HtA & HbA & _).
  destruct Hu as [Hut Hub].
  destruct r as [m k|m k]; cbn [occupies tables chairBlocks].
  - exact (occ_takeAssignments (H:=Table_Seated) true _ tA (tables (doc st))
             m k i Hut HtA).
  - exact (occ_takeAssignments (H:=Block_Seated) false _ bA (chairBlocks (doc st))
             m k i Hub HbA).
Qed.

Lemma pairing_lookup (order : list nat -> list nat) (n : nat) (st : App)
    (j i : nat) (s : OpenSeat) :
  (forall l, order l ≡ₚ l) ->
  pairing order n st !! j = Some (i, s) ->
  i ∈ unassignedOf n st /\ s ∈ emptySeats (doc st).
Proof.
  intros Hperm Hj. apply lookup_zip_Some in Hj as [Hi Hs]. split.
  - rewrite <- (Hperm (unassignedOf n st)). by eapply list_elem_of_lookup_2.
  - by eapply list_elem_of_lookup_2.
Qed.

Lemma seatOf_inj (d : Doc) (r1 r2 : SeatRef) (s : OpenSeat) :
  UniqueIds d -> seatOf d r1 = Some s -> seatOf d r2 = Some s -> r1 = r2.
Proof.
  intros [Ht Hb].
  destruct r1 as [n1 k1|n1 k1], r2 as [n2 k2|n2 k2]; cbn [seatOf];
    intros H1 H2;
    apply fmap_Some in H1 as (e1 & H1 & ->);
    apply fmap_Some in H2 as (e2 & H2 & [= Hid Hk]); subst.
  - f_equal. by eapply (unique_position (H:=Table_Seated) (tables d)).
  - f_equal. by eapply (unique_position (H:=Block_Seated) (chairBlocks d)).
Qed.

(** A seat of [emptySeats] is a free seat that its entity really has. *)
Lemma emptySeats_free (d : Doc) (s : OpenSeat) :
  UniqueIds d -> s ∈ emptySeats d ->
  exists r, seatOf d r = Some s /\ RealSeat d r /\ (forall j, ~ occupies d r j) /\
            forTables s = match r with InTable _ _ => true | InBlock _ _ => false end.
Proof.
  intros Hu Hs. apply elem_of_emptySeats in Hs as
    [(m & t & i & Hm & Hi & Hfree & ->)|(m & b & r & c & Hm & Hr & Hc & Hfree & ->)].
  - exists (InTable m (numToString i)). cbn. rewrite Hm. split; [done|].
    split; [by exists t, i|]. split; [|done].
    intros j (t' & Ht' & Hk). rewrite Hm in Ht'. injection Ht' as <-.
    cbn in Hk. congruence.
  - exists (InBlock m (blockSeatKey r c)). cbn. rewrite Hm. split; [done|].
    split; [by exists b, r, c|]. split; [|done].
    intros j (b' & Hb' & Hk). rewrite Hm in Hb'. injection Hb' as <-.
    cbn in Hk. congruence.
Qed.

(** A seat filled by [autoAssign] was filled before or is the free seat of
    a pair of the loop. *)
Lemma autoAssign_old_or_new (order : list nat -> list nat) (n : nat) (st : App)
    (r : SeatRef) (i : nat) :
  UniqueIds (doc st) -> (forall l, order l ≡ₚ l) ->
  occupies (doc (autoAssign order n st)) r i ->
  occupies (doc st) r i \/
  exists j s, pairing order n st !! j = Some (i, s) /\ seatOf (doc st) r = Some s.
Proof.
  intros Hu Hperm Hocc. apply occupies_autoAssign in Hocc; [|done..].
  destruct r as [m k|m k]; destruct Hocc as (e & Hm & Hk);
    apply fillsFor_lookup in Hk as [Hk|(j & s & Hj & Ht & Hid & Hkey)];
    try (left; by exists e); right; exists j, s; (split; [done|]);
    destruct (pairing_lookup _ _ _ _ _ _ Hperm Hj) as [_ Hs];
    destruct (emptySeats_free _ _ Hu Hs) as (r' & Hr' & _ & _ & Hside);
    cbn [seatOf]; rewrite Hm; cbn; f_equal;
    destruct r' as [m' k'|m' k']; rewrite Ht in Hside; try discriminate;
    cbn in Hr'; apply fmap_Some in Hr' as (e' & _ & ->); cbn in *; congruence.
Qed.

(** [autoAssign] leaves every occupant where they sit. *)
Lemma autoAssign_keeps (order : list nat -> list nat) (n : nat) (st : App)
    (r : SeatRef) (i : nat) :
  UniqueIds (doc st) -> (forall l, order l ≡ₚ l) ->
  occupies (doc st) r i -> occupies (doc (autoAssign order n st)) r i.
Proof.
  intros Hu Hperm Hocc. apply occupies_autoAssign; [done..|].
  destruct r as [m k|m k]; destruct Hocc as (e & Hm & Hk); exists e;
    (split; [done|]); apply fillsFor_keep; try done;
    intros [i' s] Hp (Ht & Hid & Hkey); cbn [fst snd] in *;
    apply list_elem_of_lookup in Hp as [j Hj];
    destruct (pairing_lookup _ _ _ _ _ _ Hperm Hj) as [_ Hs];
    destruct (emptySeats_free _ _ Hu Hs) as (r' & Hr' & _ & Hfree & Hside);
    rewrite Ht in Hside; destruct r' as [m' k'|m' k']; try discriminate.
  - assert (InTable m' k' = InTable m k) as [= -> ->].
    { eapply seatOf_inj; [done|exact Hr'|]. cbn. rewrite Hm. cbn.
      cbn in Hr'. apply fmap_Some in Hr' as (e' & _ & ->). cbn in *.
      by rewrite Hid, Hkey. }
    apply (Hfree i). by exists e.
  - assert (InBlock m' k' = InBlock m k) as [= -> ->].
    { eapply seatOf_inj; [done|exact Hr'|]. cbn. rewrite Hm. cbn.
      cbn in Hr'. apply fmap_Some in Hr' as (e' & _ & ->). cbn in *.
      by rewrite Hid, Hkey. }
    apply (Hfree i). by exists e.
Qed.

Lemma NoDup_pairing_seats (order : list nat -> list nat) (n : nat) (st : App) :
  UniqueIds (doc st) -> NoDup (seatName <$> (pairing order n st).*2).
Proof.
  intros Hu.
  exact (sublist_NoDup _ _ (NoDup_emptySeats _ Hu)
           (fmap_sublist seatName _ _ (zip_snd_sublist _ _))).
Qed.

(** A seat that [autoAssign] fills is the free seat of one pair of its
    loop. *)
Lemma autoAssign_new (order : list nat -> list nat) (n : nat) (st : App)
    (r : SeatRef) (i : nat) :
  UniqueIds (doc st) -> (forall l, order l ≡ₚ l) ->
  occupies (doc (autoAssign order n st)) r i -> ~ occupies (doc st) r i ->
  i ∈ unassignedOf n st /\ (forall j, ~ occupies (doc st) r j) /\
  RealSeat (doc st) r /\
  exists j s, pairing order n st !! j = Some (i, s) /\ seatOf (doc st) r = Some s.
Proof.
  intros Hu Hperm Hocc Hno.
  apply autoAssign_old_or_new in Hocc; [|done..].
  destruct Hocc as [?|(j & s & Hj & Hr)]; [done|].
  destruct (pairing_lookup _ _ _ _ _ _ Hperm Hj) as [Hi Hs].
  destruct (emptySeats_free _ _ Hu Hs) as (r' & Hr' & Hreal & Hfree & _).
  assert (r' = r) as -> by (by eapply seatOf_inj).
  split; [done|]. split; [done|]. split; [done|]. by exists j, s.
Qed.

(** The attendee of a pair of the loop had no seat. *)
Lemma pairing_unseated (order : list nat -> list nat) (n : nat) (st : App)
    (j i : nat) (s : OpenSeat) (r : SeatRef) :
  (forall l, order l ≡ₚ l) ->
  pairing order n st !! j = Some (i, s) -> ~ occupies (doc st) r i.
Proof.
  intros Hperm Hj Hr.
  destruct (pairing_lookup _ _ _ _ _ _ Hperm Hj) as [Hi _].
  apply elem_of_unassignedOf in Hi as (_ & Hi & _).
  apply Hi, elem_of_assigned. by exists r.
Qed.

(** The loop pairs an attendee at most once. *)
Lemma pairing_attendee_once (order : list nat -> list nat) (n : nat) (st : App)
    (j1 j2 i : nat) (s1 s2 : OpenSeat) :
  (forall l, order l ≡ₚ l) ->
  pairing order n st !! j1 = Some (i, s1) ->
  pairing order n st !! j2 = Some (i, s2) -> s1 = s2.
Proof.
  intros Hperm Hj1 Hj2.
  assert (j1 = j2) as ->; [|congruence].
  apply lookup_zip_Some in Hj1 as [Hj1 _], Hj2 as [Hj2 _].
  eapply NoDup_lookup; [|exact Hj1|exact Hj2].
  rewrite (Hperm (unassignedOf n st)). apply NoDup_unassignedOf.
Qed.

Lemma UniqueIds_autoAssign (order : list nat -> list nat) (n : nat) (st : App) :
  UniqueIds (doc st) -> (forall l, order l ≡ₚ l) ->
  UniqueIds (doc (autoAssign order n st)).
Proof.
  intros Hu Hperm.
  destruct (autoAssign_result order n st Hu Hperm) as (tA & bA & Hd & _).
  rewrite Hd. destruct Hu as [Hut Hub]. split; cbn [tables chairBlocks].
  - by rewrite (ids_takeAssignments (H:=Table_Seated)).
  - by rewrite (ids_takeAssignments (H:=Block_Seated)).
Qed.

(** Nobody is seated twice after [autoAssign] if nobody was before. *)
Lemma Exclusive_autoAssign (order : list nat -> list nat) (n : nat) (st : App) :
  UniqueIds (doc st) -> Exclusive (doc st) -> (forall l, order l ≡ₚ l) ->
  Exclusive (doc (autoAssign order n st)).
Proof.
  intros Hu Hex Hperm i r1 r2 H1 H2.
  apply autoAssign_old_or_new in H1; [|done..].
  apply autoAssign_old_or_new in H2; [|done..].
  destruct H1 as [Ho1|(j1 & s1 & Hj1 & Hs1)], H2 as [Ho2|(j2 & s2 & Hj2 & Hs2)].
  - by eapply Hex.
  - by destruct (pairing_unseated _ _ _ _ _ _ r1 Hperm Hj2).
  - by destruct (pairing_unseated _ _ _ _ _ _ r2 Hperm Hj1).
  - rewrite (pairing_attendee_once _ _ _ _ _ _ _ _ Hperm Hj1 Hj2) in Hs1.
    by eapply seatOf_inj.
Qed.

(** X8.  [autoAssign] only fills free seats with unassigned attendees:
    for a plan with unique ids where nobody is seated twice, and a mode
    that only reorders the unassigned attendees, every occupant stays on
    their seat; every seat newly filled is a seat its entity really has,
    was empty, and goes to an enabled roster member who had no seat; and
    afterwards still nobody is seated twice. *)
Theorem autoAssign_fills_free_seats (order : list nat -> list nat) (n : nat)
    (st : App) :
  UniqueIds (doc st) -> Exclusive (doc st) -> (forall l, order l ≡ₚ l) ->
  let st' := autoAssign order n st in
  (forall r i, occupies (doc st) r i -> occupies (doc st') r i) /\
  (forall r i, occupies (doc st') r i -> ~ occupies (doc st) r i ->
     i < n /\ (i ∉ assigned st) /\ (i ∉ disabledAttendees (doc st)) /\
     (forall j, ~ occupies (doc st) r j) /\ RealSeat (doc st) r) /\
  Exclusive (doc st') /\ UniqueIds (doc st').
Proof.
  intros Hu Hex Hperm st'.
  split; [intros r i; by apply autoAssign_keeps|]. split; [|split].
  - intros r i Hocc Hno.
    destruct (autoAssign_new _ _ _ _ _ Hu Hperm Hocc Hno) as (Hi & Hfree & Hreal & _).
    apply elem_of_unassignedOf in Hi as (? & ? & ?). done.
  - by apply Exclusive_autoAssign.
  - by apply UniqueIds_autoAssign.
Qed.


Lemma autoAssign_fills_free_seats_witness :
  let st' := autoAssign (fun l => l) 7 (idle hall) in
  UniqueIds (doc (idle hall)) /\ Exclusive (doc (idle hall)) /\
  (forall l : list nat, l ≡ₚ l) /\
  occupies (doc st') (InTable 0 "0") 3 /\ Exclusive (doc st').
Proof.
  intros st'.
  assert (Hperm : forall l : list nat, l ≡ₚ l) by reflexivity.
  destruct (autoAssign_fills_free_seats (fun l => l) 7 (idle hall)
              hall_UniqueIds hall_Exclusive Hperm) as (Hkeep & _ & Hex & _).
  split; [exact hall_UniqueIds|]. split; [exact hall_Exclusive|].
  split; [exact Hperm|]. split; [|exact Hex].
  apply Hkeep. eexists. split; reflexivity.
Defined.

(** X9.  [autoAssign] seats the unassigned attendees in order on the free
    seats in order: for a plan with unique ids and a mode that only
    reorders, the [j]-th unassigned attendee occupies the [j]-th free seat
    afterwards (tables before chair blocks, each in seat order); so when
    there are at least as many free seats as unassigned attendees, every
    enabled roster member is assigned afterwards; and the status line
    counts the smaller of the two numbers. *)
Theorem autoAssign_seats_in_order (order : list nat -> list nat) (n : nat)
    (st : App) :
  UniqueIds (doc st) -> (forall l, order l ≡ₚ l) ->
  let st' := autoAssign order n st in
  (forall j i s,
     order (unassignedOf n st) !! j = Some i ->
     emptySeats (doc st) !! j = Some s ->
     exists r, seatOf (doc st) r = Some s /\ occupies (doc st') r i) /\
  (length (unassignedOf n st) <= length (emptySeats (doc st)) ->
   forall i, i < n -> i ∉ disabledAttendees (doc st) -> i ∈ assigned st') /\
  status st' =
    if decide (unassignedOf n st = []) then "No unassigned attendees"
    else "Auto-assigned " +:+
         numToString (length (unassignedOf n st) `min` length (emptySeats (doc st)))
         +:+ " attendees".
Proof.
  intros Hu Hperm st'.
  assert (Hseat : forall j i s,
            order (unassignedOf n st) !! j = Some i ->
            emptySeats (doc st) !! j = Some s ->
            exists r, seatOf (doc st) r = Some s /\ occupies (doc st') r i).
  { intros j i s Hi Hs.
    assert (Hj : pairing order n st !! j = Some (i, s))
      by (by apply lookup_zip_Some).
    destruct (emptySeats_free (doc st) s Hu) as (r & Hr & _ & Hfree & Hside);
      [by eapply list_elem_of_lookup_2|].
    exists r. split; [done|]. apply occupies_autoAssign; [done..|].
    destruct r as [m k|m k]; cbn [seatOf] in Hr;
      apply fmap_Some in Hr as (e & Hm & ->); exists e; (split; [done|]).
    - exact (fillsFor_new _ (t_assignments e) j i _
               (NoDup_pairing_seats order n st Hu) Hj).
    - exact (fillsFor_new _ (b_assignments e) j i _
               (NoDup_pairing_seats order n st Hu) Hj). }
  split; [exact Hseat|]. split.
  - intros Hlen i Hi Hen. destruct (decide (i ∈ assigned st)) as [Hin|Hout].
    + apply elem_of_assigned in Hin as [r Hr]. apply elem_of_assigned.
      exists r. by apply autoAssign_keeps.
    + assert (Hin : i ∈ order (unassignedOf n st)).
      { rewrite (Hperm (unassignedOf n st)). by apply elem_of_unassignedOf. }
      apply list_elem_of_lookup in Hin as [j Hj].
      assert (Hlt : j < length (emptySeats (doc st))).
      { apply lookup_lt_Some in Hj. rewrite (Permutation_length (Hperm _)) in Hj.
        lia. }
      apply lookup_lt_is_Some in Hlt as [s Hs].
      destruct (Hseat j i s Hj Hs) as (r & _ & Hr).
      apply elem_of_assigned. by exists r.
  - unfold st'.
    destruct (autoAssign_result order n st Hu Hperm) as (_ & _ & _ & _ & _ & ->).
    destruct (decide _); [done|].
    unfold pairing. by rewrite length_zip, (Permutation_length (Hperm _)).
Qed.

Lemma autoAssign_seats_in_order_witness :
  let st' := autoAssign (fun l => l) 7 (idle hall) in
  UniqueIds (doc (idle hall)) /\ (forall l : list nat, l ≡ₚ l) /\
  length (unassignedOf 7 (idle hall)) <= length (emptySeats (doc (idle hall))) /\
  (forall i, i < 7 -> i ∉ disabledAttendees (doc (idle hall)) -> i ∈ assigned st') /\
  status st' = "Auto-assigned 5 attendees".
Proof.
  intros st'.
  assert (Hperm : forall l : list nat, l ≡ₚ l) by reflexivity.
  assert (Hlen : length (unassignedOf 7 (idle hall)) <=
                 length (emptySeats (doc (idle hall)))) by (vm_compute; lia).
  destruct (autoAssign_seats_in_order (fun l => l) 7 (idle hall)
              hall_UniqueIds Hperm) as (_ & Hall & Hstatus).
  split; [exact hall_UniqueIds|]. split; [exact Hperm|]. split; [exact Hlen|].
  split; [exact (Hall Hlen)|]. unfold st'. rewrite Hstatus. vm_compute. reflexivity.
Defined.


(** ** Sound plans *)

(** A plan with the same ids whose seats are all seats of a sound plan,
    and whose disabled attendees are either disabled there or unseated, is
    sound. *)
Lemma Sound_sub (d d' : Doc) :
  t_id <$> tables d' = t_id <$> tables d ->
  b_id <$> chairBlocks d' = b_id <$> chairBlocks d ->
  (forall r i, occupies d' r i -> occupies d r i) ->
  (forall i, i ∈ disabledAttendees d' ->
             i ∈ disabledAttendees d \/ forall r, ~ occupies d' r i) ->
  Sound d -> Sound d'.
Proof.
  intros Ht Hb Hsub Hdis (Hu & Hex & Hnd). split; [|split].
  - by eapply UniqueIds_same_ids.
  - by eapply Exclusive_sub.
  - intros i r Hi Hr. destruct (Hdis i Hi) as [Hd|Hfree].
    + apply (Hnd i r Hd). by apply Hsub.
    + by apply (Hfree r).
Qed.

Lemma Sound_putAt (d : Doc) (ty : EntityType) (id : nat) (k : string) (v : nat) :
  v ∉ disabledAttendees d -> (forall r, ~ occupies d r v) ->
  Sound d -> Sound (putAt ty id k v d).
Proof.
  intros Hen Hfree (Hu & Hex & Hnd). split; [|split].
  - by apply UniqueIds_putAt.
  - by apply Exclusive_putAt.
  - intros i r Hi Hr.
    assert (Hi' : i ∈ disabledAttendees d) by (by destruct ty).
    apply occupies_putAt in Hr as [(_ & _ & ->)|Hr]; [done|].
    by apply (Hnd i r).
Qed.

Lemma Sound_dropAt (d : Doc) (ty : EntityType) (id : nat) (k : string) :
  Sound d -> Sound (dropAt ty id k d).
Proof.
  intros (Hu & Hex & Hnd). split; [|split].
  - by apply UniqueIds_dropAt.
  - by apply Exclusive_dropAt.
  - intros i r Hi Hr.
    assert (Hi' : i ∈ disabledAttendees d) by (by destruct ty).
    apply occupies_dropAt in Hr as [Hr _]. by apply (Hnd i r).
Qed.

Lemma Sound_swapAt (d : Doc) (ty : EntityType) (id : nat) (A B : string) :
  Sound d -> Sound (swapAt ty id A B d).
Proof.
  intros (Hu & Hex & Hnd). split; [|split].
  - by apply UniqueIds_swapAt.
  - by apply Exclusive_swapAt.
  - intros i r Hi Hr.
    assert (Hi' : i ∈ disabledAttendees d) by (by destruct ty).
    apply occupies_swapAt in Hr. exact (Hnd i _ Hi' Hr).
Qed.

Lemma Sound_move_put (d : Doc) (sty : EntityType) (sid : nat) (sk : string)
    (dty : EntityType) (did : nat) (dk : string) (att : nat) :
  sourceOccupantAt sty sid sk d = Some att ->
  Sound d -> Sound (putAt dty did dk att (dropAt sty sid sk d)).
Proof.
  intros Hsrc Hs. pose proof Hs as (Hu & Hex & Hnd).
  apply sourceOccupantAt_Some in Hsrc as (r0 & Htgt & Hkey & Hocc).
  apply Sound_putAt; [| |by apply Sound_dropAt].
  - assert (Hd : disabledAttendees (dropAt sty sid sk d) = disabledAttendees d)
      by (by destruct sty).
    rewrite Hd. intros Hin. by apply (Hnd att r0).
  - intros r Hr. apply occupies_dropAt in Hr as [Hr Hnt].
    apply Hnt. by rewrite <- (Hex att r0 r Hocc Hr).
Qed.

Lemma doc_unassignSeat (ty : EntityType) (id : nat) (k : string) (st : App) :
  doc (unassignSeat ty id k st) = dropAt ty id k (doc st).
Proof. by destruct ty. Qed.

(** The plan after [assignNextAvailable]. *)
Lemma doc_assignNextAvailable (ty : EntityType) (id att : nat) (st : App) :
  doc (assignNextAvailable ty id att st) = doc st \/
  (att ∉ disabledAttendees (doc st)) /\ (att ∉ assigned st) /\
  exists k, doc (assignNextAvailable ty id att st) = putAt ty id k att (doc st).
Proof.
  unfold assignNextAvailable.
  destruct (decide (att ∈ disabledAttendees (doc st))) as [|Hen]; [by left|].
  destruct (decide (att ∈ assigned st)) as [|Hun]; [by left|].
  match goal with
  | |- context [match ?o with _ => _ end] => destruct o as [[k|]|]
  end; [|by left..].
  right. split; [done|]. split; [done|]. exists k.
  rewrite doc_forceAssignSeat. by rewrite decide_False.
Qed.

(** The plan after [toggleLock]: the same seats. *)
Lemma toggleLock_seats (st : App) :
  t_id <$> tables (doc (toggleLock st)) = t_id <$> tables (doc st) /\
  b_id <$> chairBlocks (doc (toggleLock st)) = b_id <$> chairBlocks (doc st) /\
  disabledAttendees (doc (toggleLock st)) = disabledAttendees (doc st) /\
  t_assignments <$> tables (doc (toggleLock st)) = t_assignments <$> tables (doc st) /\
  b_assignments <$> chairBlocks (doc (toggleLock st)) =
    b_assignments <$> chairBlocks (doc st).
Proof.
  unfold toggleLock. destruct (selectedItem st) as [[item|item|item]|];
    cbn [doc setStatus setSelectedItem setTables setChairBlocks setVenueElements
         saveUndo with_doc tables chairBlocks disabledAttendees];
    repeat split; try reflexivity;
    rewrite <- list_fmap_compose; apply list_fmap_ext; intros ? e _; cbn;
    by destruct (decide _).
Qed.

Lemma occ_same_assignments {E} `{Seated E} (l l' : list E) (n : nat) (k : string)
    (i : nat) :
  assignments <$> l' = assignments <$> l -> occ l' n k i -> occ l n k i.
Proof.
  intros Heq (e' & Hn & Hk).
  assert (Hl : (assignments <$> l) !! n = Some (assignments e'))
    by (by rewrite <- Heq, list_lookup_fmap, Hn).
  rewrite list_lookup_fmap in Hl. destruct (l !! n) as [e|] eqn:En; [|done].
  injection Hl as Hl. exists e. split; [done|]. by rewrite Hl.
Qed.

Lemma Sound_toggleLock (st : App) : Sound (doc st) -> Sound (doc (toggleLock st)).
Proof.
  destruct (toggleLock_seats st) as (Ht & Hb & Hd & Hta & Hba).
  apply Sound_sub; try done.
  - intros [n k|n k] i; cbn [occupies].
    + by apply (occ_same_assignments (H:=Table_Seated)).
    + by apply (occ_same_assignments (H:=Block_Seated)).
  - intros i Hi. left. by rewrite <- Hd.
Qed.

Lemma doc_clearAllAssignments (st : App) :
  doc (clearAllAssignments st) =
  mkDoc (t_with_assignments ∅ <$> tables (doc st))
        (b_with_assignments ∅ <$> chairBlocks (doc st))
        (venueElements (doc st)) (disabledAttendees (doc st)).
Proof. reflexivity. Qed.

Lemma clearAllAssignments_empty (st : App) (r : SeatRef) (i : nat) :
  ~ occupies (doc (clearAllAssignments st)) r i.
Proof.
  rewrite doc_clearAllAssignments.
  destruct r as [n k|n k]; cbn [occupies tables chairBlocks];
    intros (e & Hn & Hk); rewrite list_lookup_fmap in Hn;
    apply fmap_Some in Hn as (e0 & _ & ->); by destruct e0.
Qed.

Lemma Sound_clearAllAssignments (st : App) :
  Sound (doc st) -> Sound (doc (clearAllAssignments st)).
Proof.
  apply Sound_sub.
  - rewrite doc_clearAllAssignments. cbn [tables].
    rewrite <- list_fmap_compose. by apply list_fmap_ext.
  - rewrite doc_clearAllAssignments. cbn [chairBlocks].
    rewrite <- list_fmap_compose. by apply list_fmap_ext.
  - intros r i Hr. by apply clearAllAssignments_empty in Hr.
  - intros i _. right. intros r. apply clearAllAssignments_empty.
Qed.

Lemma Sound_unseatAll (i : nat) (d : Doc) (s : gset nat) :
  s ⊆ disabledAttendees d ∪ {[i]} -> Sound d -> Sound (withDisabled s (unseatAll i d)).
Proof.
  intros Hs. apply Sound_sub.
  - cbn. apply (ids_unseat (H:=Table_Seated)).
  - cbn. apply (ids_unseat (H:=Block_Seated)).
  - intros r j. rewrite occupies_withDisabled, occupies_unseatAll. tauto.
  - intros j Hj. cbn in Hj. apply Hs in Hj.
    apply elem_of_union in Hj as [Hj|Hj]; [by left|].
    apply elem_of_singleton in Hj as ->. right. intros r.
    rewrite occupies_withDisabled, occupies_unseatAll. tauto.
Qed.

Lemma Sound_runEdit_doc (st : App) (e : Edit) :
  match e with
  | EAutoAssign order _ => forall l, order l ≡ₚ l
  | EUndo | ERedo => False
  | _ => True
  end ->
  Sound (doc st) -> Sound (doc (runEdit st e)).
Proof.
  intros Hok Hs. pose proof Hs as (Hu & Hex & Hnd).
  destruct e as [ty id k att|ty id att|ty id k|ty id A B
                |now sty sid sk dty did dk|nameOrder attendees att|now now' name att
                |order rosterSize| |ty id| | |]; cbn [runEdit]; try done.
  - rewrite doc_assignAttendee. destruct (decide _) as [|Hel]; [done|].
    apply Sound_putAt; [tauto| |done].
    intros r Hr. apply Hel. right. apply elem_of_assigned. by exists r.
  - destruct (doc_assignNextAvailable ty id att st)
      as [->|(Hen & Hun & k & ->)]; [done|].
    apply Sound_putAt; [done| |done].
    intros r Hr. apply Hun, elem_of_assigned. by exists r.
  - rewrite doc_unassignSeat. by apply Sound_dropAt.
  - rewrite doc_swapSeats. destruct (decide _); [done|]. by apply Sound_swapAt.
  - rewrite doc_moveSeatToSeat. destruct (decide _).
    + destruct (decide _); [done|]. by apply Sound_swapAt.
    + destruct now; [|by apply Sound_dropAt].
      destruct (sourceOccupantAt sty sid sk (doc st)) as [att|] eqn:Hsrc;
        [by apply Sound_move_put|by apply Sound_dropAt].
  - rewrite doc_toggleDisable. cbn zeta. destruct (decide _) as [Hin|Hout].
    + revert Hs. apply Sound_sub; try done.
      intros i Hi. left. cbn in Hi.
      destruct (_ !! _); [by apply elem_of_difference in Hi as [? _]|done].
    + apply Sound_unseatAll; [|done]. destruct (_ !! _); set_solver.
  - revert Hs. apply Sound_sub.
    + rewrite doc_recallAttendee. destruct (_ && _); cbn [tables unseatAll];
        apply (ids_unseat (H:=Table_Seated)).
    + rewrite doc_recallAttendee. destruct (_ && _); cbn [chairBlocks unseatAll];
        [done|apply (ids_unseat (H:=Block_Seated))].
    + intros r i. rewrite doc_recallAttendee. destruct (_ && _).
      * destruct r as [n k|n k]; cbn [occupies tables chairBlocks]; [|done].
        intros Hr. by apply (occ_unseat (H:=Table_Seated)) in Hr as [? _].
      * rewrite occupies_unseatAll. tauto.
    + intros i Hi. left. rewrite doc_recallAttendee in Hi.
      by destruct (_ && _).
  - split; [by apply UniqueIds_autoAssign|].
    split; [by apply Exclusive_autoAssign|].
    intros i r Hi Hr.
    assert (Hi' : i ∈ disabledAttendees (doc st)).
    { destruct (autoAssign_result order rosterSize st Hu Hok) as (? & ? & Hd & _).
      by rewrite Hd in Hi. }
    destruct (decide (i ∈ assigned st)) as [Hin|Hout].
    + apply elem_of_assigned in Hin as [r' Hr']. by apply (Hnd i r').
    + destruct (autoAssign_new _ _ _ _ _ Hu Hok Hr) as (Hen & _).
      * intros Hocc. apply Hout, elem_of_assigned. by exists r.
      * by apply elem_of_unassignedOf in Hen as (_ & _ & Hen).
  - by apply Sound_clearAllAssignments.
  - split; [by apply UniqueIds_performDelete|].
    split; [by apply Exclusive_performDelete|].
    intros i r Hi Hr.
    destruct (occupies_performDelete _ _ _ _ _ _ _ Hr Hr) as (r' & _ & Hr' & _).
    apply (Hnd i r'); [|done]. rewrite doc_performDelete in Hi. by destruct ty.
  - by apply Sound_toggleLock.
Qed.


Lemma history_stays_bounded_witness :
  HistoryBounded (idle hall) /\ HistoryBounded (runEdits (idle hall) rehearsal).
Proof.
  assert (Hb : HistoryBounded (idle hall)) by (split; cbn; lia).
  split; [exact Hb|]. exact (history_stays_bounded (idle hall) rehearsal Hb).
Defined.

Lemma Forall_pushUndo (d : Doc) (s : list Doc) :
  Sound d -> Forall Sound s -> Forall Sound (pushUndo d s).
Proof.
  intros Hd Hs. destruct (pushUndo_snoc d s) as (rest & -> & _ & _ & Hsub).
  apply Forall_app. split; [|by apply Forall_singleton].
  apply Forall_forall. intros x Hx. rewrite Forall_forall in Hs. by apply Hs, Hsub.
Qed.

Lemma SoundHistory_undo (st : App) : SoundHistory st -> SoundHistory (undo st).
Proof.
  intros (Hd & Hu & Hr). unfold undo.
  destruct (pop (undoStack st)) as [[rest prev]|] eqn:E; [|done].
  apply pop_Some in E. rewrite E in Hu. apply Forall_app in Hu as [Hrest Hprev].
  rewrite Forall_singleton in Hprev.
  split; [exact Hprev|]. split; [exact Hrest|]. by apply Forall_pushUndo.
Qed.

Lemma SoundHistory_redo (st : App) : SoundHistory st -> SoundHistory (redo st).
Proof.
  intros (Hd & Hu & Hr). unfold redo.
  destruct (pop (redoStack st)) as [[rest next]|] eqn:E; [|done].
  apply pop_Some in E. rewrite E in Hr. apply Forall_app in Hr as [Hrest Hnext].
  rewrite Forall_singleton in Hnext.
  split; [exact Hnext|]. split; [by apply Forall_pushUndo|exact Hrest].
Qed.

Lemma SoundHistory_runEdit (st : App) (e : Edit) :
  Reorders e -> SoundHistory st -> SoundHistory (runEdit st e).
Proof.
  intros Hok Hs.
  assert (He : e = EUndo \/ e = ERedo \/ (e <> EUndo /\ e <> ERedo))
    by (destruct e; auto; right; right; split; discriminate).
  destruct He as [->|[->|[Hu Hr]]];
    [by apply SoundHistory_undo|by apply SoundHistory_redo|].
  destruct Hs as (Hd & Hus & Hrs).
  assert (Hd' : Sound (doc (runEdit st e))).
  { apply Sound_runEdit_doc; [|done]. by destruct e. }
  split; [done|].
  destruct (edit_history st e Hu Hr) as [-> -> _| -> ->| -> ->];
    split; auto using Forall_pushUndo, Forall_nil_2.
Qed.

(** X10.  The plan stays sound through every edit: starting from a plan
    with unique ids per kind in which nobody is seated twice and no
    disabled attendee is seated, with a history of such plans, any
    sequence of handler calls, each made on the state the call before has
    left, leaves a plan, and a history, with the same three properties.
    The calls are assignments, next-available assignments, unassignments,
    swaps, moves, disable toggles (whether they return or throw), recalls,
    automatic assignments (in a mode that only reorders), clearings,
    deletions, lock toggles, undos and redos. *)
Theorem plan_stays_sound (st : App) (es : list Edit) :
  SoundHistory st -> Forall Reorders es -> SoundHistory (runEdits st es).
Proof.
  revert st; induction es as [|e es IH]; intros st Hs Hok; [exact Hs|].
  apply Forall_cons in Hok as [He Hes].
  apply IH; [|exact Hes]. by apply SoundHistory_runEdit.
Qed.

Lemma hall_Sound : Sound hall.
Proof.
  split; [exact hall_UniqueIds|]. split; [exact hall_Exclusive|].
  intros i r Hi. by apply not_elem_of_empty in Hi.
Qed.

Lemma plan_stays_sound_witness :
  SoundHistory (idle hall) /\ Forall Reorders rehearsal /\
  Exclusive (doc (runEdits (idle hall) rehearsal)).
Proof.
  assert (Hs : SoundHistory (idle hall)).
  { split; [exact hall_Sound|]. split; apply Forall_nil_2. }
  assert (Hok : Forall Reorders rehearsal).
  { unfold rehearsal. repeat (apply Forall_cons; split; [try exact I|]).
    - intros l. reflexivity.
    - apply Forall_nil_2. }
  split; [exact Hs|]. split; [exact Hok|].
  exact (proj1 (proj2 (proj1 (plan_stays_sound (idle hall) rehearsal Hs Hok)))).
Defined.

(** ** Emptying a seat *)

Section DropSeat.

Context {E : Type} `{SeatedLaws E}.

Lemma occ_drop_iff (entityId : nat) (k : string) (l : list E)
    (n : nat) (k' : string) (i : nat) :
  occ (mapById entityId (dropSeat k) l) n k' i <->
  occ l n k' i /\ ~ (exists e, l !! n = Some e /\ ent_id e = entityId /\ k' = k).
Proof.
  split; [apply occ_drop|]. intros [(e & Hn & Hk) Hnt].
  unfold occ. rewrite lookup_mapById, Hn. cbn.
  destruct (decide (ent_id e = entityId)) as [Hid|Hid]; [|by exists e].
  eexists. split; [reflexivity|]. unfold dropSeat.
  rewrite assignments_with, lookup_delete_ne; [done|].
  intros <-. apply Hnt. by exists e.
Qed.

Lemma drop_put_free (entityId : nat) (k : string) (v : nat) (l : list E) :
  (forall n e, l !! n = Some e -> ent_id e = entityId -> assignments e !! k = None) ->
  mapById entityId (dropSeat k) (mapById entityId (putSeat k v) l) = l.
Proof.
  intros Hfree. unfold mapById. rewrite map_map.
  rewrite <- (map_id l) at 2. apply map_ext_in. intros e He.
  apply list_elem_of_In, list_elem_of_lookup in He as [n Hn].
  cbn beta. destruct (decide (ent_id e = entityId)) as [Hid|Hid].
  - rewrite decide_True by (unfold putSeat; by rewrite ent_id_with).
    unfold dropSeat, putSeat. rewrite assignments_with, with_with.
    rewrite delete_insert_id by (by eapply Hfree). apply with_same.
  - by rewrite decide_False.
Qed.

End DropSeat.

Lemma occupies_dropAt_iff d ty id k r i :
  occupies (dropAt ty id k d) r i <->
  occupies d r i /\ ~ (isTarget d ty id r /\ keyOf r = k).
Proof.
  split; [apply occupies_dropAt|]. intros [Hocc Hnt].
  destruct ty, r as [n k'|n k']; cbn [occupies dropAt tables chairBlocks] in *;
    try done;
    first [ apply (occ_drop_iff (H:=Table_Seated))
          | apply (occ_drop_iff (H:=Block_Seated)) ];
    (split; [done|]); intros (e & Hn & Hid & ->); apply Hnt;
    (split; [by exists e|done]).
Qed.

(** X11.  [unassignSeat] empties exactly the addressed seat: afterwards a
    seat holds an attendee precisely when it held that attendee before and
    is not the seat with the given key of an entity with the given id; in
    a plan where nobody is seated twice the attendee who sat there is
    unassigned afterwards. *)
Theorem unassignSeat_frees_seat (ty : EntityType) (id : nat) (k : string)
    (st : App) :
  let st' := unassignSeat ty id k st in
  (forall r i, occupies (doc st') r i <->
               occupies (doc st) r i /\ ~ (isTarget (doc st) ty id r /\ keyOf r = k)) /\
  (Exclusive (doc st) ->
   forall r i, occupies (doc st) r i -> isTarget (doc st) ty id r -> keyOf r = k ->
               i ∉ assigned st').
Proof.
  intros st'. unfold st'. split.
  - intros r i. rewrite doc_unassignSeat. apply occupies_dropAt_iff.
  - intros Hex r i Hocc Htgt Hkey. rewrite elem_of_assigned. intros [r' Hr'].
    rewrite doc_unassignSeat in Hr'. apply occupies_dropAt_iff in Hr' as [Hr' Hnt].
    apply Hnt. by rewrite <- (Hex i r r' Hocc Hr').
Qed.


(** X12.  Unassigning the seat just assigned gives the plan back: when an
    enabled, unseated attendee is assigned to a seat that is empty in
    every entity with the given id, [unassignSeat] on the same seat
    restores the tables and chair blocks exactly. *)
Theorem unassign_after_assign_restores (ty : EntityType) (id : nat) (k : string)
    (att : nat) (st : App) :
  att ∉ disabledAttendees (doc st) -> att ∉ assigned st ->
  (forall r j, isTarget (doc st) ty id r -> keyOf r = k -> ~ occupies (doc st) r j) ->
  doc (unassignSeat ty id k (assignAttendee ty id k att st)) = doc st.
Proof.
  intros Hen Hun Hfree.
  rewrite doc_unassignSeat, doc_assignAttendee, decide_False by tauto.
  assert (Hopt : forall (o : option nat), (forall j, o <> Some j) -> o = None)
    by (intros [j|] Ho; [by destruct (Ho j)|done]).
  destruct ty; unfold dropAt, putAt; cbn [tables chairBlocks venueElements
                                          disabledAttendees].
  - rewrite (drop_put_free (H:=Table_Seated)); [by destruct (doc st)|].
    intros n e Hn Hid. apply Hopt. intros j Hj.
    apply (Hfree (InTable n k) j); [by exists e|done|by exists e].
  - rewrite (drop_put_free (H:=Block_Seated)); [by destruct (doc st)|].
    intros n e Hn Hid. apply Hopt. intros j Hj.
    apply (Hfree (InBlock n k) j); [by exists e|done|by exists e].
  - rewrite (drop_put_free (H:=Block_Seated)); [by destruct (doc st)|].
    intros n e Hn Hid. apply Hopt. intros j Hj.
    apply (Hfree (InBlock n k) j); [by exists e|done|by exists e].
Qed.

Lemma unassign_after_assign_restores_witness :
  (5 ∉ disabledAttendees (doc (idle hall))) /\ (5 ∉ assigned (idle hall)) /\
  doc (unassignSeat ETable 2 "0" (assignAttendee ETable 2 "0" 5 (idle hall))) = hall.
Proof.
  assert (Hen : 5 ∉ disabledAttendees (doc (idle hall))) by apply not_elem_of_empty.
  assert (Hun : 5 ∉ assigned (idle hall)).
  { rewrite assigned_in_hall. intros H.
    apply elem_of_union in H as [H|H]; apply elem_of_singleton in H;
      discriminate H. }
  split; [exact Hen|]. split; [exact Hun|].
  apply (unassign_after_assign_restores ETable 2 "0" 5 (idle hall) Hen Hun).
  intros [n k|n k] j; cbn [isTarget keyOf]; [|done].
  intros (e & Hn & Hid) -> (e' & Hn' & Hk). rewrite Hn in Hn'. injection Hn' as <-.
  destruct n as [|[|n]]; cbn in Hn.
  - injection Hn as <-. discriminate Hid.
  - injection Hn as <-. cbn in Hk. by apply lookup_empty_Some in Hk.
  - discriminate Hn.
Defined.

(** ** The next available seat *)

Lemma openSeat_Some (keys : list string) (a : gmap string nat) (k : string) :
  openSeat keys a = Some k -> FirstOpen keys a k.
Proof.
  unfold openSeat. induction keys as [|k0 keys IH]; [done|]. cbn [List.find].
  destruct (bool_decide (a !! k0 = None)) eqn:E.
  - intros [= <-]. apply bool_decide_eq_true in E. exists [], keys.
    split; [done|]. split; [done|]. intros k' Hk'. by apply elem_of_nil in Hk'.
  - apply bool_decide_eq_false in E. intros Hf.
    destruct (IH Hf) as (before & after & -> & Hk & Hb).
    exists (k0 :: before), after. split; [done|]. split; [done|].
    intros k' [->|Hk']%elem_of_cons; [|by apply Hb].
    by destruct (a !! k0).
Qed.

Lemma openSeat_None (keys : list string) (a : gmap string nat) :
  openSeat keys a = None -> forall k, k ∈ keys -> is_Some (a !! k).
Proof.
  unfold openSeat. intros Hf k Hk. apply list_elem_of_In in Hk.
  pose proof (find_none _ _ Hf k Hk) as Hb. cbn in Hb.
  apply bool_decide_eq_false in Hb. by destruct (a !! k).
Qed.

Lemma find_by_id_unique {E} (id : E -> nat) (entityId : nat) (l : list E)
    (n : nat) (e : E) :
  NoDup (id <$> l) -> l !! n = Some e -> id e = entityId ->
  List.find (fun x => bool_decide (id x = entityId)) l = Some e.
Proof.
  intros Hnd Hn Hid.
  destruct (List.find _ l) as [e'|] eqn:Hf.
  - apply find_by_id in Hf as [Hid' [m Hm]]. f_equal.
    apply (NoDup_ids_inj id l); [done| | |congruence];
      by eapply list_elem_of_lookup_2.
  - pose proof (find_none _ _ Hf e) as Hb. cbn in Hb.
    rewrite bool_decide_eq_false in Hb. destruct Hb; [|done].
    apply list_elem_of_In. by eapply list_elem_of_lookup_2.
Qed.

Lemma elem_of_tableSeatKeys (t : Table) (k : string) :
  k ∈ tableSeatKeys t <-> exists i, k = numToString i /\ i < getTableTotalSeats t.
Proof.
  unfold tableSeatKeys. rewrite list_elem_of_fmap. split.
  - intros (i & -> & Hi). apply elem_of_seq in Hi. exists i. split; [done|lia].
  - intros (i & -> & Hi). exists i. split; [done|]. apply elem_of_seq. lia.
Qed.

(** X13.  [assignNextAvailable] takes the first free seat in seat order:
    for a plan with unique ids and an enabled, unseated attendee, when the
    addressed table (chair block) has a free seat among the seats it
    really has, the attendee sits afterwards on the first of them in seat
    order (row by row for a block) and the status is 'Assigned'; when it
    has none, the plan is unchanged and the status is 'Table full'. *)
Theorem assignNextAvailable_first_open (att : nat) (st : App) :
  UniqueIds (doc st) ->
  att ∉ disabledAttendees (doc st) -> att ∉ assigned st ->
  (forall n t,
     tables (doc st) !! n = Some t ->
     let st' := assignNextAvailable ETable (t_id t) att st in
     match openSeat (tableSeatKeys t) (t_assignments t) with
     | Some k =>
         FirstOpen (tableSeatKeys t) (t_assignments t) k /\
         RealSeat (doc st) (InTable n k) /\
         occupies (doc st') (InTable n k) att /\ status st' = "Assigned"
     | None =>
         (forall i, i < getTableTotalSeats t ->
                    is_Some (t_assignments t !! numToString i)) /\
         doc st' = doc st /\ status st' = "Table full"
     end) /\
  (forall n b,
     chairBlocks (doc st) !! n = Some b ->
     let st' := assignNextAvailable EBlock (b_id b) att st in
     match openSeat (blockSeatKeys b) (b_assignments b) with
     | Some k =>
         FirstOpen (blockSeatKeys b) (b_assignments b) k /\
         RealSeat (doc st) (InBlock n k) /\
         occupies (doc st') (InBlock n k) att /\ status st' = "Assigned"
     | None =>
         (forall r c, r < rows b -> c < cols b ->
                      is_Some (b_assignments b !! blockSeatKey r c)) /\
         doc st' = doc st /\ status st' = "Table full"
     end).
Proof.
  intros [Hut Hub] Hen Hun. split.
  - intros n t Hn st'. unfold st', assignNextAvailable.
    rewrite !decide_False by done.
    rewrite (find_by_id_unique t_id (t_id t) _ n t Hut Hn eq_refl).
    cbn [fmap option_fmap option_map].
    destruct (openSeat (tableSeatKeys t) (t_assignments t)) as [k|] eqn:Hopen.
    + pose proof (openSeat_Some _ _ _ Hopen) as Hfirst.
      split; [done|]. split; [|split].
      * destruct Hfirst as (before & after & Hkeys & _).
        assert (Hk : k ∈ tableSeatKeys t)
          by (rewrite Hkeys; apply elem_of_app; right; by left).
        apply elem_of_tableSeatKeys in Hk as (i & -> & Hi). by exists t, i.
      * rewrite doc_forceAssignSeat, decide_False by done.
        cbn [putAt occupies tables]. unfold occ. rewrite lookup_mapById, Hn.
        cbn. rewrite decide_True by done. eexists. split; [reflexivity|].
        apply lookup_insert_eq.
      * unfold forceAssignSeat. by rewrite decide_False.
    + split; [|done]. intros i Hi. apply (openSeat_None _ _ Hopen).
      apply elem_of_tableSeatKeys. by exists i.
  - intros n b Hn st'. unfold st', assignNextAvailable.
    rewrite !decide_False by done.
    rewrite (find_by_id_unique b_id (b_id b) _ n b Hub Hn eq_refl).
    cbn [fmap option_fmap option_map].
    destruct (openSeat (blockSeatKeys b) (b_assignments b)) as [k|] eqn:Hopen.
    + pose proof (openSeat_Some _ _ _ Hopen) as Hfirst.
      split; [done|]. split; [|split].
      * destruct Hfirst as (before & after & Hkeys & _).
        assert (Hk : k ∈ blockSeatKeys b)
          by (rewrite Hkeys; apply elem_of_app; right; by left).
        apply elem_of_blockSeatKeys in Hk as (r & c & -> & Hr & Hc).
        by exists b, r, c.
      * rewrite doc_forceAssignSeat, decide_False by done.
        cbn [putAt occupies chairBlocks]. unfold occ. rewrite lookup_mapById, Hn.
        cbn. rewrite decide_True by done. eexists. split; [reflexivity|].
        apply lookup_insert_eq.
      * unfold forceAssignSeat. by rewrite decide_False.
    + split; [|done]. intros r c Hr Hc. apply (openSeat_None _ _ Hopen).
      apply elem_of_blockSeatKeys. by exists r, c.
Qed.


Lemma assignNextAvailable_first_open_witness :
  UniqueIds (doc (idle hall)) /\
  (5 ∉ disabledAttendees (doc (idle hall))) /\ (5 ∉ assigned (idle hall)) /\
  occupies (doc (assignNextAvailable ETable 1 5 (idle hall))) (InTable 0 "1") 5.
Proof.
  assert (Hen : 5 ∉ disabledAttendees (doc (idle hall))) by apply not_elem_of_empty.
  assert (Hun : 5 ∉ assigned (idle hall)).
  { rewrite assigned_in_hall. intros H.
    apply elem_of_union in H as [H|H]; apply elem_of_singleton in H;
      discriminate H. }
  split; [exact hall_UniqueIds|]. split; [exact Hen|]. split; [exact Hun|].
  pose proof (proj1 (assignNextAvailable_first_open 5 (idle hall)
                       hall_UniqueIds Hen Hun) 0 _ eq_refl) as H.
  cbn zeta in H.
  change (openSeat _ _) with (Some "1") in H.
  exact (proj1 (proj2 (proj2 H))).
Defined.

(** ** Clearing all assignments *)

(** X14.  [clearAllAssignments] empties every seat and nothing else:
    afterwards no seat is occupied and the assigned set is empty, every
    table and chair block is the one it was with an empty assignments
    object, venue elements and disabled attendees are untouched, and one
    [undo] brings the plan back. *)
Theorem clearAllAssignments_empties (st : App) :
  let st' := clearAllAssignments st in
  (forall r i, ~ occupies (doc st') r i) /\
  assigned st' = ∅ /\
  tables (doc st') = t_with_assignments ∅ <$> tables (doc st) /\
  chairBlocks (doc st') = b_with_assignments ∅ <$> chairBlocks (doc st) /\
  venueElements (doc st') = venueElements (doc st) /\
  disabledAttendees (doc st') = disabledAttendees (doc st) /\
  doc (undo st') = doc st.
Proof.
  intros st'. split; [intros r i; apply clearAllAssignments_empty|].
  split.
  { apply set_eq. intros i. rewrite elem_of_assigned. split.
    - intros [r Hr]. by apply clearAllAssignments_empty in Hr.
    - intros Hi. by apply not_elem_of_empty in Hi. }
  repeat (split; [reflexivity|]).
  by apply (undo_pushed st' (doc st) (undoStack st)).
Qed.

(** ** Locking *)

Lemma sameEntity_true (a b : Entity) :
  sameEntity a b = true <-> entityType a = entityType b /\ e_id a = e_id b.
Proof.
  unfold sameEntity. rewrite andb_true_iff, !bool_decide_eq_true. tauto.
Qed.




(** ** Adding and copying entities *)

Lemma NoDup_ids_snoc {A} (id : A -> nat) (l : list A) (x : A) (next : nat) :
  Forall (fun e => id e < next) l -> id x = next ->
  NoDup (id <$> l) -> NoDup (id <$> l ++ [x]).
Proof.
  intros Hlt Hx Hnd. rewrite fmap_app. apply NoDup_app. split; [done|].
  split; [|apply NoDup_singleton].
  intros i Hi Hix. cbn in Hix. apply list_elem_of_singleton in Hix as ->.
  apply list_elem_of_fmap in Hi as (e & He & Hin).
  rewrite Forall_forall in Hlt. specialize (Hlt e Hin). lia.
Qed.

Lemma Forall_below_snoc {A} (id : A -> nat) (l : list A) (x : A) (next : nat) :
  Forall (fun e => id e < next) l -> id x = next ->
  Forall (fun e => id e < S next) (l ++ [x]).
Proof.
  intros Hlt Hx. apply Forall_app. split.
  - eapply Forall_impl; [exact Hlt|]. cbn. lia.
  - apply Forall_singleton. lia.
Qed.

Lemma occ_snoc_empty {E} `{SeatedLaws E} (l : list E) (x : E) (n : nat)
    (k : string) (i : nat) :
  assignments x = ∅ -> occ (l ++ [x]) n k i <-> occ l n k i.
Proof.
  intros Hx. unfold occ. split.
  - intros (e & Hn & Hk). apply lookup_app_Some in Hn as [Hn|[_ Hn]].
    + by exists e.
    + destruct (n - length l) as [|m]; [|done]. injection Hn as <-.
      rewrite Hx in Hk. by apply lookup_empty_Some in Hk.
  - intros (e & Hn & Hk). exists e. split; [|done].
    by apply lookup_app_l_Some.
Qed.

(** X16.  A copy is a new, empty entity: with every id in use below its
    kind's counter, [copySelected] appends one entity that has the
    counter value as id, sits 3 ft right of and below the selected
    object, has its shape and no assignments, and becomes the selection;
    the counters stay above all ids, ids stay unique per kind, every seat
    holds who it held and the copy holds nobody. *)
Theorem copySelected_appends_fresh_copy (ed : Editor) (sel : Entity) :
  selectedItem (appState ed) = Some sel ->
  FreshCounters ed -> AllIdsUnique (doc (appState ed)) ->
  let ed' := copySelected ed in
  let d := doc (appState ed) in
  let d' := doc (appState ed') in
  FreshCounters ed' /\ AllIdsUnique d' /\
  (forall r i, occupies d' r i <-> occupies d r i) /\
  (exists copy,
     selectedItem (appState ed') = Some copy /\
     entityType copy = entityType sel /\ e_locked copy = e_locked sel /\
     e_x copy = (e_x sel + 3)%Q /\ e_y copy = (e_y sel + 3)%Q /\
     match copy, sel with
     | TableE c, TableE s =>
         tables d' = tables d ++ [c] /\ t_id c = nextTableId ed /\
         t_assignments c = ∅ /\
         (tableType c, seats c, endSeats c, orientation c) =
         (tableType s, seats s, endSeats s, orientation s) /\
         (t_widthFt c, t_heightFt c) = (t_widthFt s, t_heightFt s)
     | BlockE c, BlockE s =>
         chairBlocks d' = chairBlocks d ++ [c] /\ b_id c = nextBlockId ed /\
         b_assignments c = ∅ /\
         (rows c, cols c, spacing c) = (rows s, cols s, spacing s)
     | VenueE c, VenueE s =>
         venueElements d' = venueElements d ++ [c] /\ v_id c = nextElementId ed /\
         (v_widthFt c, v_heightFt c) = (v_widthFt s, v_heightFt s)
     | _, _ => False
     end).
Proof.
  intros Hsel (Hft & Hfb & Hfv) ((Hut & Hub) & Huv) ed' d d'.
  subst d' d ed'. unfold copySelected. rewrite Hsel.
  destruct sel as [item|item|item];
    cbn [appState doc setStatus setSelectedItem setTables setChairBlocks
         setVenueElements saveUndo with_doc tables chairBlocks venueElements
         disabledAttendees nextTableId nextBlockId nextElementId selectedItem].
  - split; [|split; [|split]].
    + split; [|split]; cbn; try done. by apply (Forall_below_snoc t_id).
    + split; [split|]; cbn; try done. by apply (NoDup_ids_snoc t_id _ _ (nextTableId ed)).
    + intros [n k|n k] i; cbn [occupies tables chairBlocks]; [|done].
      by apply (occ_snoc_empty (H:=Table_Seated)).
    + eexists. split; [reflexivity|]. repeat split.
  - split; [|split; [|split]].
    + split; [|split]; cbn; try done. by apply (Forall_below_snoc b_id).
    + split; [split|]; cbn; try done. by apply (NoDup_ids_snoc b_id _ _ (nextBlockId ed)).
    + intros [n k|n k] i; cbn [occupies tables chairBlocks]; [done|].
      by apply (occ_snoc_empty (H:=Block_Seated)).
    + eexists. split; [reflexivity|]. repeat split.
  - split; [|split; [|split]].
    + split; [|split]; cbn; try done. by apply (Forall_below_snoc v_id).
    + split; [split|]; cbn; try done. by apply (NoDup_ids_snoc v_id _ _ (nextElementId ed)).
    + by intros [n k|n k] i.
    + eexists. split; [reflexivity|]. repeat split.
Qed.


Lemma copySelected_appends_fresh_copy_witness :
  let ed := mkEditor (onSelect (TableE octet) (idle hall)) 3 2 1 None in
  selectedItem (appState ed) = Some (TableE octet) /\
  FreshCounters ed /\ AllIdsUnique (doc (appState ed)) /\
  FreshCounters (copySelected ed) /\
  AllIdsUnique (doc (appState (copySelected ed))).
Proof.
  intros ed.
  assert (Hsel : selectedItem (appState ed) = Some (TableE octet)) by reflexivity.
  assert (Hf : FreshCounters ed).
  { repeat split; cbn; repeat (apply Forall_cons; split; [cbn; lia|]);
      apply Forall_nil_2. }
  assert (Hu : AllIdsUnique (doc (appState ed))).
  { split; [exact hall_UniqueIds|]. apply NoDup_nil_2. }
  destruct (copySelected_appends_fresh_copy ed _ Hsel Hf Hu) as (Hf' & Hu' & _).
  split; [exact Hsel|]. split; [exact Hf|]. split; [exact Hu|].
  split; [exact Hf'|exact Hu'].
Defined.

(** The snapped position does not depend on where the entity is. *)
Lemma snapEntityPos_moved (cfg : Settings) (rawX rawY x y : Q) (e : Entity) :
  snapEntityPos cfg rawX rawY (e_with_pos x y e) = snapEntityPos cfg rawX rawY e.
Proof. by destruct e. Qed.

Lemma e_with_pos_twice (x y x' y' : Q) (e : Entity) :
  e_with_pos x y (e_with_pos x' y' e) = e_with_pos x y e.
Proof. by destruct e. Qed.

(** Hovering moves the ghost and nothing else. *)
Lemma hover_ghost (cfg : Settings) (offsetX offsetY : Q) (ps : list (Q * Q))
    (ed : Editor) (g : Entity) :
  ghostEntity ed = Some g ->
  exists g',
    hover cfg offsetX offsetY ps ed =
      mkEditor (appState ed) (nextTableId ed) (nextBlockId ed) (nextElementId ed)
               (Some g') /\
    (g' = g \/ exists x y, g' = e_with_pos x y g).
Proof.
  revert ed g; induction ps as [|p ps IH]; intros ed g Hg.
  - exists g. split; [by destruct ed; cbn in *; subst|by left].
  - unfold hover. cbn [foldl]. unfold handleCanvasMouseMove_ghost at 2.
    rewrite Hg.
    match goal with
    | |- context [foldl _ ?e ps] => destruct (IH e _ eq_refl) as (g' & Heq & Hg')
    end.
    unfold hover in Heq. rewrite Heq. exists g'. split; [reflexivity|].
    right. destruct Hg' as [->|(x & y & ->)]; [by eexists _, _|].
    rewrite e_with_pos_twice. by eexists _, _.
Qed.

(** X17.  A new entity lands where the canvas is clicked, with a fresh
    id: from a state where every id in use is below its kind's counter and
    ids are unique per kind, [confirmAdd] followed by any hovering of the
    ghost and a click places exactly one new entity, appended to the list
    of its kind, whose id is the counter value, whose shape is the one of
    the form and whose position is the snapped click position, wherever
    the ghost hovered before; afterwards no ghost is pending, the counters
    are above all ids, ids are still unique per kind, and one [undo] gives
    the plan before the placement. *)
Theorem new_entity_lands_at_click (cfg : Settings) (offsetX offsetY x y : Q)
    (ps : list (Q * Q)) (form : AddForm) (ed : Editor) :
  FreshCounters ed -> AllIdsUnique (doc (appState ed)) ->
  let pending := confirmAdd cfg form ed in
  let placed := handleCanvasMouseDown_ghost cfg offsetX offsetY x y
                  (hover cfg offsetX offsetY ps pending) in
  exists g,
    ghostEntity pending = Some g /\ GhostCurrent pending /\
    e_locked g = false /\
    let snapped := snapEntityPos cfg (pxToFt cfg (x - offsetX))
                                 (pxToFt cfg (y - offsetY)) g in
    doc (appState placed) =
      addEntity (e_with_pos snapped.1 snapped.2 g) (doc (appState ed)) /\
    ghostEntity placed = None /\
    FreshCounters placed /\ AllIdsUnique (doc (appState placed)) /\
    doc (undo (appState placed)) = doc (appState ed).
Proof.
  intros (Hft & Hfb & Hfv) ((Hut & Hub) & Huv) pending placed.
  assert (Hg : exists g, ghostEntity pending = Some g /\ GhostCurrent pending /\
                         e_locked g = false)
    by (destruct form; eexists; (split; [reflexivity|]); split; reflexivity).
  destruct Hg as (g & Hg & Hcur & Hlock). exists g.
  split; [exact Hg|]. split; [exact Hcur|]. split; [exact Hlock|].
  destruct (hover_ghost cfg offsetX offsetY ps pending g Hg) as (g' & Hh & Hg').
  assert (Hsnap : forall a b, snapEntityPos cfg a b g' = snapEntityPos cfg a b g).
  { intros a b. destruct Hg' as [->|(x' & y' & ->)]; [done|].
    apply snapEntityPos_moved. }
  subst placed. rewrite Hh. unfold handleCanvasMouseDown_ghost.
  cbn [ghostEntity appState nextTableId nextBlockId nextElementId].
  rewrite Hsnap. set (snapped := snapEntityPos cfg _ _ g).
  unfold GhostCurrent in Hcur. rewrite Hg in Hcur.
  assert (Hst : doc (appState pending) = doc (appState ed) /\
                undoStack (appState pending) = undoStack (appState ed) /\
                nextTableId pending = nextTableId ed /\
                nextBlockId pending = nextBlockId ed /\
                nextElementId pending = nextElementId ed)
    by (by destruct form).
  destruct Hst as (Hd & Hus & Hnt & Hnb & Hne).
  clearbody snapped. clear Hsnap Hh Hg.
  destruct Hg' as [->|(x' & y' & ->)]; destruct g as [t|b|v];
    cbn [e_with_pos]; cbn zeta;
    cbn [appState doc setStatus setTables setChairBlocks setVenueElements
         saveUndo with_doc tables chairBlocks venueElements disabledAttendees
         ghostEntity nextTableId nextBlockId nextElementId undoStack
         e_with_pos addEntity FreshCounters AllIdsUnique UniqueIds];
    rewrite Hd, ?Hnt, ?Hnb, ?Hne;
    (split; [reflexivity|]); (split; [reflexivity|]);
    (split; [|split]);
    try (eapply undo_pushed; reflexivity);
    try (split; [|split]; try done;
         first [ apply (Forall_below_snoc t_id); [done|]
               | apply (Forall_below_snoc b_id); [done|]
               | apply (Forall_below_snoc v_id); [done|] ];
         cbn; congruence);
    (split; [split|]; try done;
     first [ apply (NoDup_ids_snoc t_id _ _ (nextTableId ed)); try done
           | apply (NoDup_ids_snoc b_id _ _ (nextBlockId ed)); try done
           | apply (NoDup_ids_snoc v_id _ _ (nextElementId ed)); try done ];
     cbn; congruence).
Qed.

Lemma new_entity_lands_at_click_witness :
  let placed := handleCanvasMouseDown_ghost grid1 0 0 123 187
                  (hover grid1 0 0 [(50, 60); (120, 180)]%Q
                     (confirmAdd grid1 (RoundTableForm (Some 10) (Some 6%Q))
                        emptyEditor)) in
  FreshCounters emptyEditor /\ AllIdsUnique (doc (appState emptyEditor)) /\
  FreshCounters placed /\ AllIdsUnique (doc (appState placed)) /\
  ghostEntity placed = None.
Proof.
  intros placed.
  assert (Hf : FreshCounters emptyEditor) by (repeat split; apply Forall_nil_2).
  assert (Hu : AllIdsUnique (doc (appState emptyEditor)))
    by (repeat split; apply NoDup_nil_2).
  destruct (new_entity_lands_at_click grid1 0 0 123 187 [(50, 60); (120, 180)]%Q
              (RoundTableForm (Some 10) (Some 6%Q)) emptyEditor Hf Hu)
    as (g & _ & _ & _ & H).
  cbn zeta in H. destruct H as (_ & Hg & Hf' & Hu' & _).
  split; [exact Hf|]. split; [exact Hu|]. split; [exact Hf'|].
  split; [exact Hu'|exact Hg].
Defined.


(** ** Zoom *)

Lemma Qltb_true (a b : Q) : Qltb a b = true <-> (a < b)%Q.
Proof.
  unfold Qltb. rewrite negb_true_iff, <- not_true_iff_false, Qle_bool_iff.
  split; [apply Qnot_le_lt|apply Qlt_not_le].
Qed.

Lemma Qltb_false (a b : Q) : Qltb a b = false <-> (b <= a)%Q.
Proof. unfold Qltb. by rewrite negb_false_iff, Qle_bool_iff. Qed.

Lemma baseScale_ge (rw rh : Q) (v : View) : (2 <= baseScale rw rh v)%Q.
Proof. unfold baseScale. apply Q.le_max_l. Qed.

Lemma zoomed_pos (base : Q) (zoom : Z) :
  (0 < base)%Q -> (0 < zoom)%Z -> (0 < zoomed base zoom)%Q.
Proof.
  intros Hb Hz. unfold zoomed. destruct (zoom =? 100)%Z; [done|].
  assert (0 < inject_Z zoom)%Q by (unfold Qlt; cbn; lia).
  apply Qlt_shift_div_l; [done|]. nra.
Qed.

Lemma zoomIn_range (z : Z) : (25 <= z <= 400)%Z -> (25 <= zoomIn z <= 400)%Z.
Proof. unfold zoomIn. destruct (Z.eqb_spec z 100); lia. Qed.

Lemma zoomOut_range (z : Z) : (25 <= z <= 400)%Z -> (25 <= zoomOut z <= 400)%Z.
Proof.
  unfold zoomOut. destruct (Z.ltb_spec 100 z), (Z.eqb_spec z 100); lia.
Qed.

(** X18.  The zoom level stays on its ladder: from a level that is a
    multiple of 25 between 25 and 400 (the initial level is 100), one
    step in or out gives again a multiple of 25 between 25 and 400; a
    step in followed by a step out returns to the level unless it was
    400, and a step out followed by a step in returns to it unless it was
    25. *)
Theorem zoom_steps_stay_on_ladder (z : Z) :
  (25 | z)%Z -> (25 <= z <= 400)%Z ->
  (25 | zoomIn z)%Z /\ (25 <= zoomIn z <= 400)%Z /\
  (25 | zoomOut z)%Z /\ (25 <= zoomOut z <= 400)%Z /\
  (z < 400 -> zoomOut (zoomIn z) = z)%Z /\
  (25 < z -> zoomIn (zoomOut z) = z)%Z.
Proof.
  intros [k ->] Hr.
  assert (Hcase : (k = 1 \/ k = 2 \/ k = 3 \/ k = 4 \/ k = 5 \/ k = 6 \/ k = 7 \/
                  k = 8 \/ k = 9 \/ k = 10 \/ k = 11 \/ k = 12 \/ k = 13 \/
                  k = 14 \/ k = 15 \/ k = 16)%Z) by lia.
  clear Hr.
  repeat (destruct Hcase as [->|Hcase]); try subst k;
    (split; [apply Z.mod_divide; [lia | reflexivity] | ]);
    (split; [cbv; split; discriminate | ]);
    (split; [apply Z.mod_divide; [lia | reflexivity] | ]);
    (split; [cbv; split; discriminate | ]);
    (split; intros Hlt; first [reflexivity | by cbv in Hlt]).
Qed.

Lemma zoom_steps_stay_on_ladder_witness :
  (25 | 100)%Z /\ (25 <= 100 <= 400)%Z /\
  zoomIn 100 = 125%Z /\ zoomOut 100 = 75%Z /\
  zoomOut (zoomIn 100) = 100%Z /\ zoomIn (zoomOut 100) = 100%Z.
Proof.
  assert (Hd : (25 | 100)%Z) by (exists 4%Z; reflexivity).
  assert (Hr : (25 <= 100 <= 400)%Z) by lia.
  destruct (zoom_steps_stay_on_ladder 100 Hd Hr) as (_ & _ & _ & _ & Hio & Hoi).
  split; [exact Hd|]. split; [exact Hr|]. split; [reflexivity|].
  split; [reflexivity|]. split; [apply Hio; lia|apply Hoi; lia].
Defined.

(** X19.  Zooming keeps the point under the cursor in place: for a room
    of positive size, a canvas of at least 10 x 10 pixels and a positive
    zoom level, the room
    coordinates of the cursor position, computed with the scale and
    offsets of the view, are the same after the wheel handler as before;
    the canvas size is unchanged and the new level is one step in or out;
    the scale is positive before and after. *)
Theorem zoom_keeps_cursor_point (rw rh mx my deltaY : Q) (v : View) :
  (0 < rw)%Q -> (0 < rh)%Q ->
  (10 <= canvasW v)%Q -> (10 <= canvasH v)%Q -> (0 < zoomLevel v)%Z ->
  let v' := handleWheel rw rh mx my deltaY v in
  ((mx - viewOffsetX rw rh v') / viewScale rw rh v' ==
   (mx - viewOffsetX rw rh v) / viewScale rw rh v)%Q /\
  ((my - viewOffsetY rw rh v') / viewScale rw rh v' ==
   (my - viewOffsetY rw rh v) / viewScale rw rh v)%Q /\
  (0 < viewScale rw rh v)%Q /\ (0 < viewScale rw rh v')%Q /\
  canvasW v' = canvasW v /\ canvasH v' = canvasH v /\
  zoomLevel v' = (if Qltb deltaY 0 then zoomIn (zoomLevel v)
                  else zoomOut (zoomLevel v)).
Proof.
  intros _ _ Hw Hh Hz v'.
  assert (Hbig : Qltb (canvasW v) 10 || Qltb (canvasH v) 10 = false).
  { apply orb_false_iff. split; by apply Qltb_false. }
  assert (Hs : viewScale rw rh v = zoomed (baseScale rw rh v) (zoomLevel v))
    by (unfold viewScale; by rewrite Hbig).
  assert (Hs' : viewScale rw rh v' = zoomed (baseScale rw rh v) (zoomLevel v'))
    by (unfold viewScale; cbn [canvasW canvasH v' handleWheel]; by rewrite Hbig).
  assert (Hbase : (0 < baseScale rw rh v)%Q).
  { eapply Qlt_le_trans; [|apply baseScale_ge]. reflexivity. }
  assert (Hz' : (0 < zoomLevel v')%Z).
  { cbn. unfold zoomIn, zoomOut.
    destruct (Qltb deltaY 0), (Z.eqb_spec (zoomLevel v) 100),
             (Z.ltb_spec 100 (zoomLevel v)); lia. }
  pose proof (zoomed_pos _ _ Hbase Hz) as Hpos.
  pose proof (zoomed_pos _ _ Hbase Hz') as Hpos'.
  split; [|split; [|split; [|split]]].
  - unfold viewOffsetX. rewrite Hs', Hs.
    cbn [panX canvasW v' handleWheel]. rewrite Hs.
    change (zoomLevel (handleWheel rw rh mx my deltaY v)) with (zoomLevel v') in *.
    set (s := zoomed (baseScale rw rh v) (zoomLevel v)) in *.
    set (s' := zoomed (baseScale rw rh v) (zoomLevel v')) in *.
    change (zoomed (baseScale rw rh v) (if Qltb deltaY 0 then _ else _)) with s'.
    clearbody s s'. field.
    split; intros H0; [rewrite H0 in Hpos|rewrite H0 in Hpos'];
      by apply Qlt_irrefl in H0 || (exfalso; eapply Qlt_irrefl; eassumption).
  - unfold viewOffsetY. rewrite Hs', Hs.
    cbn [panY canvasH v' handleWheel]. rewrite Hs.
    change (zoomLevel (handleWheel rw rh mx my deltaY v)) with (zoomLevel v') in *.
    set (s := zoomed (baseScale rw rh v) (zoomLevel v)) in *.
    set (s' := zoomed (baseScale rw rh v) (zoomLevel v')) in *.
    change (zoomed (baseScale rw rh v) (if Qltb deltaY 0 then _ else _)) with s'.
    clearbody s s'. field.
    split; intros H0; [rewrite H0 in Hpos|rewrite H0 in Hpos'];
      by apply Qlt_irrefl in H0 || (exfalso; eapply Qlt_irrefl; eassumption).
  - by rewrite Hs.
  - by rewrite Hs'.
  - done.
Qed.

Lemma zoom_keeps_cursor_point_witness :
  let v := mkView 800 600 100 0 0 in
  let v' := handleWheel 60 40 200 150 (-1) v in
  (0 < 60)%Q /\ (0 < 40)%Q /\ (10 <= canvasW v)%Q /\ (10 <= canvasH v)%Q /\
  (0 < zoomLevel v)%Z /\
  ((200 - viewOffsetX 60 40 v') / viewScale 60 40 v' ==
   (200 - viewOffsetX 60 40 v) / viewScale 60 40 v)%Q /\
  zoomLevel v' = 125%Z.
Proof.
  intros v v'.
  assert (H1 : (0 < 60)%Q) by reflexivity.
  assert (H2 : (0 < 40)%Q) by reflexivity.
  assert (H3 : (10 <= canvasW v)%Q) by discriminate.
  assert (H4 : (10 <= canvasH v)%Q) by discriminate.
  assert (H5 : (0 < zoomLevel v)%Z) by reflexivity.
  destruct (zoom_keeps_cursor_point 60 40 200 150 (-1) v H1 H2 H3 H4 H5)
    as (Hx & _ & _ & _ & _ & _ & Hz).
  split; [exact H1|]. split; [exact H2|]. split; [exact H3|].
  split; [exact H4|]. split; [exact H5|]. split; [exact Hx|exact Hz].
Defined.


(** ** Hit tests *)

Lemma findLast_snoc {A} (p : A -> bool) (l : list A) (x : A) :
  findLast p (l ++ [x]) = if p x then Some x else findLast p l.
Proof. unfold findLast. by rewrite rev_app_distr. Qed.

Lemma findLast_Some {A} (p : A -> bool) (l : list A) (x : A) :
  findLast p l = Some x -> LastHit p l x.
Proof.
  induction l as [|a l IH] using rev_ind; [done|].
  rewrite findLast_snoc. destruct (p a) eqn:Ha.
  - intros [= <-]. exists (length l). split; [|split; [done|]].
    + by rewrite lookup_app_r, Nat.sub_diag.
    + intros m y Hm Hy. apply lookup_lt_Some in Hy.
      rewrite length_app in Hy. cbn in Hy. lia.
  - intros Hf. destruct (IH Hf) as (n & Hn & Hp & Hlast).
    exists n. split; [by apply lookup_app_l_Some|]. split; [done|].
    intros m y Hm Hy. apply lookup_app_Some in Hy as [Hy|[Hlen Hy]].
    + by eapply Hlast.
    + destruct (m - length l) as [|k]; [|done]. by injection Hy as <-.
Qed.

Lemma findLast_None {A} (p : A -> bool) (l : list A) :
  findLast p l = None <-> NoHit p l.
Proof.
  unfold findLast, NoHit. split.
  - intros Hf x Hx. apply (find_none _ _ Hf).
    apply in_rev. rewrite rev_involutive. by apply list_elem_of_In.
  - intros Hno. destruct (List.find p (rev l)) as [x|] eqn:Hf; [|done].
    apply find_some in Hf as [Hin Hp]. apply in_rev, list_elem_of_In in Hin.
    rewrite (Hno x Hin) in Hp. discriminate.
Qed.

(** X20.  [hitTest] returns the topmost entity under the pointer, tables
    above chair blocks above venue elements: a table is returned exactly
    as the last table of the plan whose hit region contains the pointer;
    a chair block only when no table is hit, and then the last such
    block; a venue element only when neither a table nor a block is hit;
    and nothing exactly when no entity of the plan is hit. *)
Theorem hitTest_topmost (c : Canvas) (x y : Q) (d : Doc) :
  match hitTest c x y d with
  | Some (TableE t) => LastHit (tableHit c x y) (tables d) t
  | Some (BlockE b) =>
      NoHit (tableHit c x y) (tables d) /\
      LastHit (blockHit c x y) (chairBlocks d) b
  | Some (VenueE v) =>
      NoHit (tableHit c x y) (tables d) /\
      NoHit (blockHit c x y) (chairBlocks d) /\
      LastHit (venueHit c x y) (venueElements d) v
  | None => forall e, inPlan d e -> hits c x y e = false
  end.
Proof.
  unfold hitTest.
  destruct (findLast (tableHit c x y) (tables d)) as [t|] eqn:Ht;
    [by apply findLast_Some|].
  apply findLast_None in Ht.
  destruct (findLast (blockHit c x y) (chairBlocks d)) as [b|] eqn:Hb;
    [split; [done|by apply findLast_Some]|].
  apply findLast_None in Hb.
  destruct (findLast (venueHit c x y) (venueElements d)) as [v|] eqn:Hv; cbn.
  - split; [done|]. split; [done|]. by apply findLast_Some.
  - apply findLast_None in Hv. intros [t|b|v] Hin; cbn in *; auto.
Qed.

Lemma firstSome_Some {A B} (f : A -> option B) (l : list A) (b : B) :
  firstSome f l = Some b -> exists a, a ∈ l /\ f a = Some b.
Proof.
  induction l as [|a l IH]; [done|]. cbn. destruct (f a) as [b'|] eqn:Ha.
  - intros [= <-]. exists a. split; [by left|done].
  - intros Hf. destruct (IH Hf) as (a' & Hin & Ha'). exists a'.
    split; [by right|done].
Qed.

Lemma findIndex_Some {A} (p : A -> bool) (l : list A) (n : nat) :
  findIndex p l = Some n -> exists a, l !! n = Some a /\ p a = true.
Proof.
  revert n; induction l as [|a l IH]; intros n; [done|]. cbn.
  destruct (p a) eqn:Ha.
  - intros [= <-]. by exists a.
  - intros Hf. apply fmap_Some in Hf as (m & Hm & ->). by apply IH.
Qed.

Lemma inRect_true (x y l r t b : Q) :
  inRect x y l r t b = true <-> (l <= x <= r)%Q /\ (t <= y <= b)%Q.
Proof. unfold inRect. rewrite !andb_true_iff, !Qle_bool_iff. tauto. Qed.

(** X21.  A resize handle is only found on a selected, unlocked venue
    element: when [resizeHandleHitTest] answers with an element and a
    corner, the element is a venue element of the plan, it is not locked,
    it is selected, the corner is one of the four (0 to 3), and the
    pointer is within the handle's hit radius of that corner on both
    axes. *)
Theorem resizeHandleHitTest_sound (c : Canvas) (x y : Q) (st : App)
    (e : VenueElement) (corner : nat) :
  resizeHandleHitTest c x y st = Some (e, corner) ->
  e ∈ venueElements (doc st) /\ v_locked e = false /\
  isSelected (VenueE e) st = true /\ corner < 4 /\
  exists h, corners c e !! corner = Some h /\
    let hitR := (Qmax 6 (c_scale c * (35 # 100)) / 2 + 4)%Q in
    (Qabs (x - h.1) <= hitR)%Q /\ (Qabs (y - h.2) <= hitR)%Q.
Proof.
  unfold resizeHandleHitTest. intros Hf.
  apply firstSome_Some in Hf as (e' & Hin & He').
  apply list_elem_of_In, in_rev, list_elem_of_In in Hin.
  destruct (v_locked e') eqn:Hl; [done|].
  destruct (isSelected (VenueE e') st) eqn:Hs; [|done]. cbn [negb] in He'.
  apply fmap_Some in He' as (n & Hn & [= <- <-]).
  apply findIndex_Some in Hn as (h & Hh & Hp).
  split; [done|]. split; [done|]. split; [done|]. split.
  - apply lookup_lt_Some in Hh. by cbn in Hh.
  - exists h. split; [done|]. cbn zeta.
    apply inRect_true in Hp as [[? ?] [? ?]].
    split; apply Qabs_Qle_condition; split; lra.
Qed.

Lemma resizeHandleHitTest_sound_witness :
  resizeHandleHitTest canvas10 226 124 ballroom = Some (danceFloor, 0) /\
  v_locked danceFloor = false /\ isSelected (VenueE danceFloor) ballroom = true.
Proof.
  assert (Hf : resizeHandleHitTest canvas10 226 124 ballroom = Some (danceFloor, 0))
    by (vm_compute; reflexivity).
  destruct (resizeHandleHitTest_sound canvas10 226 124 ballroom danceFloor 0 Hf)
    as (_ & Hl & Hs & _).
  split; [exact Hf|]. split; [exact Hl|exact Hs].
Defined.


(** ** Resizing a venue element *)

(** Linear arithmetic with halves. *)
Ltac qlra :=
  unfold Qdiv in *; change (/ 2)%Q with (1 # 2)%Q in *; lra.

Lemma resizedLength_min (cfg : Settings) (world anchor : Q) :
  (2 <= resizedLength cfg world anchor)%Q.
Proof.
  unfold resizedLength. destruct (snapEnabled cfg && Qgtb (gridSize cfg) 0);
    apply Q.le_max_l.
Qed.

Lemma resizedCentre_half (world anchor newW : Q) :
  (0 <= newW)%Q ->
  (Qabs (resizedCentre world anchor newW - anchor) == newW / 2)%Q.
Proof.
  intros Hw. unfold resizedCentre. destruct (Qle_bool anchor world).
  - rewrite Qabs_pos; qlra.
  - rewrite Qabs_neg; qlra.
Qed.

(** The centre lies on the pointer's side of the anchor. *)
Lemma resizedCentre_side (world anchor newW : Q) :
  (0 <= newW)%Q ->
  ((anchor <= world -> anchor <= resizedCentre world anchor newW) /\
   (world < anchor -> resizedCentre world anchor newW <= anchor))%Q.
Proof.
  intros Hw. unfold resizedCentre.
  destruct (Qle_bool anchor world) eqn:E.
  - split; [qlra|]. apply Qle_bool_iff in E. lra.
  - split; [|qlra]. intros Hle. apply Qle_bool_iff in Hle. congruence.
Qed.

(** X22.  Resizing pivots on the corner opposite to the grabbed handle
    and never goes below 2 ft: after a handle of a venue element is
    grabbed and the pointer moved anywhere, the element with that id has
    the same id and lock flag, is at least 2 ft wide and 2 ft high, and
    has the corner diagonally opposite to the grabbed one (of the element
    as grabbed) as one of its corners; every other venue element, every
    table and every chair block is unchanged; one [undo] gives the plan
    before the grab. *)
Theorem resize_pivots_on_opposite_corner (cfg : Settings) (c : Canvas) (x y : Q)
    (ve : VenueElement) (corner : nat) (st : App) (n : nat) (v : VenueElement) :
  corner < 4 ->
  venueElements (doc st) !! n = Some v -> v_id v = v_id ve ->
  let down := handleCanvasMouseDown_resize ve corner st in
  let st' := handleCanvasMouseMove_resize cfg c x y down.1 down.2 in
  exists v' g,
    venueElements (doc st') !! n = Some v' /\
    v_id v' = v_id v /\ v_locked v' = v_locked v /\
    (2 <= v_widthFt v')%Q /\ (2 <= v_heightFt v')%Q /\
    corners (mkCanvas 1 0 0) ve !! corner = Some g /\
    (Qabs (v_x v' - (2 * v_x ve - g.1)) == v_widthFt v' / 2)%Q /\
    (Qabs (v_y v' - (2 * v_y ve - g.2)) == v_heightFt v' / 2)%Q /\
    (forall m u, venueElements (doc st) !! m = Some u -> v_id u <> v_id ve ->
                 venueElements (doc st') !! m = Some u) /\
    tables (doc st') = tables (doc st) /\
    chairBlocks (doc st') = chairBlocks (doc st) /\
    doc (undo st') = doc st.
Proof.
  intros Hc Hn Hid down st'.
  assert (Hrz : exists g,
            corners (mkCanvas 1 0 0) ve !! corner = Some g /\
            rz_entityId down.1 = v_id ve /\
            (anchorX down.1 == 2 * v_x ve - g.1)%Q /\
            (anchorY down.1 == 2 * v_y ve - g.2)%Q).
  { destruct corner as [|[|[|[|k]]]]; [| | |  |lia];
      eexists; (split; [reflexivity|]); (split; [reflexivity|]);
      cbn; split; field. }
  destruct Hrz as (g & Hg & Hrid & Hax & Hay).
  set (rz := down.1) in *.
  assert (Hdoc : doc down.2 = doc st) by reflexivity.
  set (worldX := pxToFt cfg (x - c_offsetX c)).
  set (worldY := pxToFt cfg (y - c_offsetY c)).
  set (newW := resizedLength cfg worldX (anchorX rz)).
  set (newH := resizedLength cfg worldY (anchorY rz)).
  pose proof (resizedLength_min cfg worldX (anchorX rz)) as HW.
  pose proof (resizedLength_min cfg worldY (anchorY rz)) as HH.
  fold newW in HW. fold newH in HH.
  exists (mkVenue (v_id v) (resizedCentre worldX (anchorX rz) newW)
                  (resizedCentre worldY (anchorY rz) newH) newW newH (v_locked v)), g.
  split.
  { unfold st', handleCanvasMouseMove_resize.
    cbn [doc setVenueElements with_doc venueElements].
    rewrite Hdoc. change (map ?f ?l) with (f <$> l).
    rewrite list_lookup_fmap, Hn. cbn.
    by rewrite decide_True by congruence. }
  split; [reflexivity|]. split; [reflexivity|].
  split; [exact HW|]. split; [exact HH|]. split; [exact Hg|].
  split.
  { cbn [v_x v_widthFt]. rewrite <- Hax. apply resizedCentre_half. lra. }
  split.
  { cbn [v_y v_heightFt]. rewrite <- Hay. apply resizedCentre_half. lra. }
  split.
  { intros m u Hm Hne. unfold st', handleCanvasMouseMove_resize.
    cbn [doc setVenueElements with_doc venueElements].
    rewrite Hdoc. change (map ?f ?l) with (f <$> l).
    rewrite list_lookup_fmap, Hm. cbn.
    by rewrite decide_False by congruence. }
  split; [reflexivity|]. split; [reflexivity|].
  by apply (undo_pushed st' (doc st) (undoStack st)).
Qed.

Lemma resize_pivots_on_opposite_corner_witness :
  let down := handleCanvasMouseDown_resize danceFloor 0 ballroom in
  let st' := handleCanvasMouseMove_resize grid1 canvas10 262 171 down.1 down.2 in
  0 < 4 /\ venueElements (doc ballroom) !! 0 = Some danceFloor /\
  exists v',
    venueElements (doc st') !! 0 = Some v' /\
    (2 <= v_widthFt v')%Q /\
    (Qabs (v_x v' - (75 # 2)) == v_widthFt v' / 2)%Q.
Proof.
  intros down st'.
  assert (Hc : 0 < 4) by lia.
  assert (Hn : venueElements (doc ballroom) !! 0 = Some danceFloor) by reflexivity.
  destruct (resize_pivots_on_opposite_corner grid1 canvas10 262 171 danceFloor 0
              ballroom 0 danceFloor Hc Hn eq_refl)
    as (v' & g & Hv' & _ & _ & Hw & _ & Hg & Hx & _).
  split; [exact Hc|]. split; [exact Hn|].
  exists v'. split; [exact Hv'|]. split; [exact Hw|].
  injection Hg as <-. cbn [fst] in Hx.
  rewrite <- Hx. apply Qabs_wd. cbn. field.
Defined.


(** ** Seats of a rectangular table *)

Lemma length_spread (sr gap : Q) (n : nat) (halfLen : Q) :
  length (spread sr gap n halfLen) = n.
Proof.
  destruct n as [|[|n]]; [done..|]. unfold spread.
  by rewrite length_map, length_seq.
Qed.

(** A fraction [i / m] of a span lies within the span. *)
Lemma fraction_of_span (i m : nat) (span : Q) :
  i <= m -> 0 < m -> (0 <= span)%Q ->
  (0 <= inject_Z (Z.of_nat i) * span / inject_Z (Z.of_nat m) <= span)%Q.
Proof.
  intros Him Hm Hs.
  assert (HI : (0 <= inject_Z (Z.of_nat i))%Q) by (unfold Qle; cbn; lia).
  assert (HM : (0 < inject_Z (Z.of_nat m))%Q) by (unfold Qlt; cbn; lia).
  assert (HIM : (inject_Z (Z.of_nat i) <= inject_Z (Z.of_nat m))%Q)
    by (unfold Qle; cbn; lia).
  split.
  - apply Qle_shift_div_l; [done|]. nra.
  - apply Qle_shift_div_r; [done|]. nra.
Qed.

(** The seats of a side lie within the side. *)
Lemma spread_within (sr gap : Q) (n : nat) (halfLen v : Q) :
  (0 <= sr)%Q -> (0 <= gap)%Q -> (0 <= halfLen)%Q ->
  v ∈ spread sr gap n halfLen -> (Qabs v <= halfLen)%Q.
Proof.
  intros Hsr Hgap Hh Hv. destruct n as [|[|n]].
  - by apply elem_of_nil in Hv.
  - apply list_elem_of_singleton in Hv as ->. by rewrite Qabs_pos.
  - unfold spread in Hv. apply list_elem_of_In, in_map_iff in Hv as (i & <- & Hi).
    apply in_seq in Hi.
    set (pad := Qmin (sr + gap * (7 # 10)) (halfLen * (1 # 4))).
    assert (Hpad : (0 <= pad <= halfLen * (1 # 4))%Q).
    { split; [|apply Q.le_min_r]. apply Q.min_glb; lra. }
    pose proof (fraction_of_span i (S (S n) - 1) (2 * halfLen - 2 * pad)) as Hf.
    destruct Hf as [Hf1 Hf2]; [lia|lia|lra|].
    apply Qabs_Qle_condition. split; lra.
Qed.

Lemma length_bind_pair {A B} (a b : A -> B) (xs : list A) :
  length (xs ≫= fun x => [a x; b x]) = 2 * length xs.
Proof. induction xs as [|x xs IH]; cbn in *; lia. Qed.

Lemma lookup_bind_pair {A B} (a b : A -> B) (xs : list A) (i : nat) (x : A) :
  xs !! i = Some x ->
  (xs ≫= fun x => [a x; b x]) !! (2 * i) = Some (a x) /\
  (xs ≫= fun x => [a x; b x]) !! (2 * i + 1) = Some (b x).
Proof.
  revert i; induction xs as [|x0 xs IH]; intros i Hi; [done|].
  destruct i as [|i]; cbn in Hi.
  - injection Hi as ->. by split.
  - destruct (IH i Hi) as [H1 H2].
    replace (2 * S i) with (S (S (2 * i))) by lia.
    replace (S (S (2 * i)) + 1) with (S (S (2 * i + 1))) by lia. by split.
Qed.

Lemma elem_of_bind_pair {A B} (a b : A -> B) (xs : list A) (p : B) :
  p ∈ (xs ≫= fun x => [a x; b x]) <-> exists x, x ∈ xs /\ (p = a x \/ p = b x).
Proof.
  rewrite list_elem_of_bind. split.
  - intros (x & H1 & H2). exists x. split; [done|].
    apply elem_of_cons in H1 as [->|H1]; [by left|].
    apply list_elem_of_singleton in H1 as ->. by right.
  - intros (x & Hx & [-> | ->]); exists x; (split; [|done]); [by left|].
    right. by left.
Qed.

(** X23.  The seats of a rectangular table are as many as the table has
    and sit just outside its edges: for a positive scale and non-negative
    table sizes, [getRectSeatPositions] gives [2 * seats + 2 * endSeats]
    positions, the table's seat total; every seat centre lies at distance
    [sr + gap] outside one edge of the table and within the extent of
    that edge; and the seats come in facing pairs, seat [2i + 1] being the
    mirror image of seat [2i] across the table. *)
Theorem rect_seats_ring_the_table (t : Table) (scale : Q) :
  tableType t = Rect ->
  (0 < scale)%Q -> (0 <= t_widthFt t)%Q -> (0 <= t_heightFt t)%Q ->
  let hw := (t_widthFt t * scale / 2)%Q in
  let hh := (t_heightFt t * scale / 2)%Q in
  let out := ((3 # 4) * scale + Qmax 3 (scale * (1 # 5)))%Q in
  let positions := getRectSeatPositions t scale in
  length positions = getTableTotalSeats t /\
  (forall p, p ∈ positions ->
     ((Qabs p.2 == hh + out)%Q /\ (Qabs p.1 <= hw)%Q) \/
     ((Qabs p.1 == hw + out)%Q /\ (Qabs p.2 <= hh)%Q)) /\
  (forall i, i < seats t + endSeats t ->
     exists p q, positions !! (2 * i) = Some p /\ positions !! (2 * i + 1) = Some q /\
       ((p.1 = q.1 /\ (p.2 == - q.2)%Q) \/ (p.2 = q.2 /\ (p.1 == - q.1)%Q))).
Proof.
  intros Hrect Hs Hw Hh hw hh out positions.
  set (sr := ((3 # 4) * scale)%Q).
  set (gap := Qmax 3 (scale * (1 # 5))%Q).
  assert (Hsr : (0 <= sr)%Q) by (unfold sr; lra).
  assert (Hgap : (3 <= gap)%Q) by apply Q.le_max_l.
  assert (Hhw : (0 <= hw)%Q) by (unfold hw; apply Qle_shift_div_l; nra).
  assert (Hhh : (0 <= hh)%Q) by (unfold hh; apply Qle_shift_div_l; nra).
  assert (Hout : (out == sr + gap)%Q) by reflexivity.
  set (top := fun dx : Q => (dx, - hh - sr - gap)%Q).
  set (bottom := fun dx : Q => (dx, hh + sr + gap)%Q).
  set (west := fun dy : Q => (- hw - sr - gap, dy)%Q).
  set (east := fun dy : Q => (hw + sr + gap, dy)%Q).
  assert (HX : forall n p, p ∈ (spread sr gap n hw ≫= fun dx => [top dx; bottom dx]) ->
             (Qabs p.2 == hh + out)%Q /\ (Qabs p.1 <= hw)%Q).
  { intros n p Hp. apply elem_of_bind_pair in Hp as (dx & Hdx & [-> | ->]);
      unfold top, bottom; cbn [fst snd];
      (split; [|eapply spread_within; [| | |exact Hdx]; lra]).
    - rewrite Qabs_neg; lra.
    - rewrite Qabs_pos; lra. }
  assert (HY : forall n p, p ∈ (spread sr gap n hh ≫= fun dy => [west dy; east dy]) ->
             (Qabs p.1 == hw + out)%Q /\ (Qabs p.2 <= hh)%Q).
  { intros n p Hp. apply elem_of_bind_pair in Hp as (dy & Hdy & [-> | ->]);
      unfold west, east; cbn [fst snd];
      (split; [|eapply spread_within; [| | |exact Hdy]; lra]).
    - rewrite Qabs_neg; lra.
    - rewrite Qabs_pos; lra. }
  assert (Hpair : forall (a b : Q -> Q * Q) xs ys i,
            (forall v, ((a v).1 = (b v).1 /\ ((a v).2 == - (b v).2)%Q) \/
                       ((a v).2 = (b v).2 /\ ((a v).1 == - (b v).1)%Q)) ->
            i < length xs ->
            exists p q,
              ((xs ≫= fun v => [a v; b v]) ++ ys) !! (2 * i) = Some p /\
              ((xs ≫= fun v => [a v; b v]) ++ ys) !! (2 * i + 1) = Some q /\
              ((p.1 = q.1 /\ (p.2 == - q.2)%Q) \/ (p.2 = q.2 /\ (p.1 == - q.1)%Q))).
  { intros a b xs ys i Hab Hi. apply lookup_lt_is_Some in Hi as [v Hv].
    destruct (lookup_bind_pair a b xs i v Hv) as [H1 H2].
    exists (a v), (b v). split; [by apply lookup_app_l_Some|].
    split; [by apply lookup_app_l_Some|]. apply Hab. }
  assert (Hpair' : forall (a b : Q -> Q * Q) (xs : list (Q * Q)) ys i,
            (forall v, ((a v).1 = (b v).1 /\ ((a v).2 == - (b v).2)%Q) \/
                       ((a v).2 = (b v).2 /\ ((a v).1 == - (b v).1)%Q)) ->
            length xs <= 2 * i -> i - length xs / 2 < length ys ->
            Nat.even (length xs) = true ->
            exists p q,
              (xs ++ (ys ≫= fun v => [a v; b v])) !! (2 * i) = Some p /\
              (xs ++ (ys ≫= fun v => [a v; b v])) !! (2 * i + 1) = Some q /\
              ((p.1 = q.1 /\ (p.2 == - q.2)%Q) \/ (p.2 = q.2 /\ (p.1 == - q.1)%Q))).
  { intros a b xs ys i Hab Hge Hi Hev.
    apply Nat.even_spec in Hev as [k Hk].
    assert (Hdiv : length xs / 2 = k) by (rewrite Hk; by rewrite Nat.mul_comm, Nat.div_mul).
    rewrite Hdiv in Hi.
    apply lookup_lt_is_Some in Hi as [v Hv].
    destruct (lookup_bind_pair a b ys (i - k) v Hv) as [H1 H2].
    exists (a v), (b v).
    rewrite !lookup_app_r by lia.
    replace (2 * i - length xs) with (2 * (i - k)) by lia.
    replace (2 * i + 1 - length xs) with (2 * (i - k) + 1) by lia.
    split; [done|]. split; [done|]. apply Hab. }
  assert (HabX : forall v, ((top v).1 = (bottom v).1 /\ ((top v).2 == - (bottom v).2)%Q) \/
                           ((top v).2 = (bottom v).2 /\ ((top v).1 == - (bottom v).1)%Q)).
  { intros v. left. split; [done|]. unfold top, bottom. cbn [fst snd]. lra. }
  assert (HabY : forall v, ((west v).1 = (east v).1 /\ ((west v).2 == - (east v).2)%Q) \/
                           ((west v).2 = (east v).2 /\ ((west v).1 == - (east v).1)%Q)).
  { intros v. right. split; [done|]. unfold west, east. cbn [fst snd]. lra. }
  unfold positions, getRectSeatPositions. fold sr gap hw hh.
  change (fun dx : Q => [(dx, (- hh - sr - gap)%Q); (dx, (hh + sr + gap)%Q)])
    with (fun dx : Q => [top dx; bottom dx]).
  change (fun dy : Q => [((- hw - sr - gap)%Q, dy); ((hw + sr + gap)%Q, dy)])
    with (fun dy : Q => [west dy; east dy]).
  destruct (orientation t).
  - split; [|split].
    + rewrite length_app, !length_bind_pair, !length_spread.
      unfold getTableTotalSeats. rewrite Hrect. lia.
    + intros p Hp. apply elem_of_app in Hp as [Hp|Hp]; [left|right]; eauto.
    + intros i Hi. destruct (decide (i < seats t)) as [Hlt|Hge].
      * apply Hpair; [done|]. by rewrite length_spread.
      * apply Hpair'; try done; rewrite length_bind_pair, length_spread.
        -- lia.
        -- rewrite Nat.mul_comm, Nat.div_mul, length_spread by lia. lia.
        -- apply Nat.even_spec. by exists (seats t).
  - split; [|split].
    + rewrite length_app, !length_bind_pair, !length_spread.
      unfold getTableTotalSeats. rewrite Hrect. lia.
    + intros p Hp. apply elem_of_app in Hp as [Hp|Hp]; [right|left]; eauto.
    + intros i Hi. destruct (decide (i < seats t)) as [Hlt|Hge].
      * apply Hpair; [done|]. by rewrite length_spread.
      * apply Hpair'; try done; rewrite length_bind_pair, length_spread.
        -- lia.
        -- rewrite Nat.mul_comm, Nat.div_mul, length_spread by lia. lia.
        -- apply Nat.even_spec. by exists (seats t).
Qed.

Lemma rect_seats_ring_the_table_witness :
  tableType banquet = Rect /\ (0 < 10)%Q /\
  (0 <= t_widthFt banquet)%Q /\ (0 <= t_heightFt banquet)%Q /\
  length (getRectSeatPositions banquet 10) = 8.
Proof.
  assert (H1 : (0 < 10)%Q) by reflexivity.
  assert (H2 : (0 <= t_widthFt banquet)%Q) by discriminate.
  assert (H3 : (0 <= t_heightFt banquet)%Q) by discriminate.
  split; [reflexivity|]. split; [exact H1|]. split; [exact H2|].
  split; [exact H3|].
  exact (proj1 (rect_seats_ring_the_table banquet 10 eq_refl H1 H2 H3)).
Defined.


(** ** Drags that follow the pointer *)

Lemma follow_Some (moved : Q * Q -> bool) (ps : list (Q * Q)) (r : Q * Q) :
  foldl (follow moved) (Some r) ps <> None.
Proof. revert r. induction ps as [|q ps IH]; intros r; cbn; [done|apply IH]. Qed.

Lemma followed_None (moved : Q * Q -> bool) (ps : list (Q * Q)) :
  followed moved ps = None <-> Forall (fun q => moved q = false) ps.
Proof.
  unfold followed. induction ps as [|q ps IH]; cbn; [by split; [constructor|]|].
  destruct (moved q) eqn:He.
  - split; [intros H; by apply follow_Some in H|].
    intros H. apply Forall_cons in H as [H _]. congruence.
  - rewrite IH. split; [by constructor|]. by intros [_ H]%Forall_cons.
Qed.

Lemma followed_snoc (moved : Q * Q -> bool) (ps : list (Q * Q)) (p : Q * Q) :
  Exists (fun q => moved q = true) (ps ++ [p]) ->
  followed moved (ps ++ [p]) = Some p.
Proof.
  intros Hex. unfold followed. rewrite foldl_app. cbn [foldl].
  fold (followed moved ps).
  destruct (followed moved ps) as [q|] eqn:Hf; [reflexivity|].
  apply followed_None in Hf. cbn.
  destruct (moved p) eqn:He; [reflexivity|].
  apply Exists_app in Hex as [Hex|Hex].
  - apply Exists_exists in Hex as (q & Hq & Hn).
    rewrite Forall_forall in Hf. rewrite (Hf q Hq) in Hn. discriminate Hn.
  - apply Exists_cons in Hex as [Hn|Hex]; [congruence|by apply Exists_nil in Hex].
Qed.

Lemma beyondThreshold_true (cfg : Settings) (down : App) (p : Q * Q) :
  beyondThreshold cfg down p = true <-> ~ withinThreshold cfg down p.
Proof.
  unfold beyondThreshold. rewrite <- not_false_iff_true.
  by rewrite exceedsThreshold_false.
Qed.

Lemma InGesture_refl (down : App) : InGesture down down.
Proof. by repeat split. Qed.

Lemma withinThreshold_InGesture (cfg : Settings) (down s : App) (p : Q * Q) :
  InGesture down s -> withinThreshold cfg s p <-> withinThreshold cfg down p.
Proof.
  intros (_ & _ & Hx & Hy & _). unfold withinThreshold, displacement.
  by rewrite Hx, Hy.
Qed.

(** A gesture whose moves put the plan where [F] says follows the pointer:
    after the moves the plan is [F] of the last pointer position, applied
    to the plan at pointer-down. *)
Section Gesture.

Variables (cfg : Settings) (down : App) (F : Q * Q -> Doc -> Doc).
Hypothesis start : hasMoved (dragRef down) = false.
Hypothesis F_over : forall p q d, F p (F q d) = F p d.
Hypothesis step : forall s p,
  InGesture down s ->
  hasMoved (dragRef s) = true \/ ~ withinThreshold cfg down p ->
  doc (handleCanvasMouseMove cfg p.1 p.2 s) = F p (doc s) /\
  hasMoved (dragRef (handleCanvasMouseMove cfg p.1 p.2 s)) = true /\
  InGesture down (handleCanvasMouseMove cfg p.1 p.2 s).

Lemma gesture_tracks (ps : list (Q * Q)) (s : App) (o : option (Q * Q)) :
  Tracks down F s o ->
  Tracks down F (moves cfg ps s) (foldl (follow (beyondThreshold cfg down)) o ps).
Proof.
  unfold moves. revert s o. induction ps as [|p ps IH]; intros s o Ht; [done|].
  cbn [foldl]. apply IH. destruct Ht as [Hin Ho]. unfold follow.
  destruct o as [q|].
  - destruct Ho as [Hm Hd].
    destruct (step s p Hin (or_introl Hm)) as (Hd' & Hm' & Hin').
    split; [done|]. split; [done|]. by rewrite Hd', Hd, F_over.
  - destruct Ho as [Hm Hd].
    destruct (beyondThreshold cfg down p) eqn:He.
    + apply beyondThreshold_true in He.
      destruct (step s p Hin (or_intror He)) as (Hd' & Hm' & Hin').
      split; [done|]. split; [done|]. by rewrite Hd', Hd.
    + apply exceedsThreshold_false in He.
      rewrite move_within_threshold; [done|done|].
      by apply (withinThreshold_InGesture cfg down s p Hin).
Qed.

Lemma gesture_follows (ps : list (Q * Q)) (p : Q * Q) :
  Exists (fun q => ~ withinThreshold cfg down q) (ps ++ [p]) ->
  doc (moves cfg (ps ++ [p]) down) = F p (doc down).
Proof.
  intros Hex.
  pose proof (gesture_tracks (ps ++ [p]) down None) as Ht.
  fold (followed (beyondThreshold cfg down) (ps ++ [p])) in Ht.
  rewrite (followed_snoc (beyondThreshold cfg down) ps p) in Ht.
  - destruct Ht as (_ & _ & Hd); [|done].
    split; [apply InGesture_refl|done].
  - eapply Exists_impl; [exact Hex|]. intros q. by apply beyondThreshold_true.
Qed.

End Gesture.


(** *** Multi-drag *)

(** Where the multi-drag puts an item. *)
Lemma multiDragUpdates_snoc (cfg : Settings) (dx dy : Q) (items : list DragItem)
    (it : DragItem) (ty : EntityType) (id : nat) :
  updatesOf ty (multiDragUpdates cfg dx dy (items ++ [it])) !! id =
  if decide (di_type it = ty /\ di_id it = id)
  then Some (clampTo (roomWidth cfg) (di_origX it + dx),
             clampTo (roomHeight cfg) (di_origY it + dy))
  else updatesOf ty (multiDragUpdates cfg dx dy items) !! id.
Proof.
  unfold multiDragUpdates. rewrite foldl_app. cbn [foldl].
  destruct (foldl _ _ items) as [[tu bu] vu].
  destruct (di_type it) eqn:Hty, ty; cbn [updatesOf fst snd];
    destruct (decide _) as [[? Hid]|Hn]; try discriminate;
    try reflexivity.
  all: try (rewrite <- Hid; by rewrite lookup_insert_eq).
  all: try (rewrite lookup_insert_ne; [done|]; intros Hid; by apply Hn).
  all: by destruct Hn.
Qed.

Lemma multiDragUpdates_nil (cfg : Settings) (dx dy : Q) (ty : EntityType) (id : nat) :
  updatesOf ty (multiDragUpdates cfg dx dy []) !! id = None.
Proof. destruct ty; apply lookup_empty. Qed.

(** An update comes from an item of that kind and id. *)
Lemma multiDragUpdates_Some (cfg : Settings) (dx dy : Q) (items : list DragItem)
    (ty : EntityType) (id : nat) (v : Q * Q) :
  updatesOf ty (multiDragUpdates cfg dx dy items) !! id = Some v ->
  exists it, it ∈ items /\ di_type it = ty /\ di_id it = id /\
             v = (clampTo (roomWidth cfg) (di_origX it + dx),
                  clampTo (roomHeight cfg) (di_origY it + dy)).
Proof.
  induction items as [|it items IH] using rev_ind.
  - by rewrite multiDragUpdates_nil.
  - rewrite multiDragUpdates_snoc. destruct (decide _) as [[Hty Hid]|_].
    + intros [= <-]. exists it. split; [apply elem_of_app; right; by left|done].
    + intros Hv. destruct (IH Hv) as (it' & Hin & ?).
      exists it'. split; [apply elem_of_app; by left|done].
Qed.

(** Every item has an update. *)
Lemma multiDragUpdates_is_Some (cfg : Settings) (dx dy : Q) (items : list DragItem)
    (it : DragItem) :
  it ∈ items ->
  is_Some (updatesOf (di_type it) (multiDragUpdates cfg dx dy items) !! di_id it).
Proof.
  induction items as [|it' items IH] using rev_ind; [by intros ?%elem_of_nil|].
  intros Hin. rewrite multiDragUpdates_snoc.
  destruct (decide _) as [_|Hn]; [done|].
  apply elem_of_app in Hin as [Hin|Hin]; [by apply IH|].
  apply list_elem_of_singleton in Hin as ->. by destruct Hn.
Qed.

(** The ids that get an update do not depend on the displacement. *)
Lemma multiDragUpdates_dom (cfg : Settings) (dx dy dx' dy' : Q)
    (items : list DragItem) (ty : EntityType) (id : nat) :
  is_Some (updatesOf ty (multiDragUpdates cfg dx dy items) !! id) ->
  is_Some (updatesOf ty (multiDragUpdates cfg dx' dy' items) !! id).
Proof.
  intros [v Hv]. apply multiDragUpdates_Some in Hv as (it & Hin & <- & <- & _).
  by apply multiDragUpdates_is_Some.
Qed.

(** A later update of the same ids overwrites an earlier one. *)
Lemma applyUpdates_over {E} (id : E -> nat) (with_pos : Q -> Q -> E -> E)
    (u u' : gmap nat (Q * Q)) (l : list E) :
  (forall x y e, id (with_pos x y e) = id e) ->
  (forall x y x' y' e, with_pos x y (with_pos x' y' e) = with_pos x y e) ->
  (forall k, is_Some (u' !! k) -> is_Some (u !! k)) ->
  applyUpdates id with_pos u (applyUpdates id with_pos u' l) =
  applyUpdates id with_pos u l.
Proof.
  intros Hid Hover Hdom. unfold applyUpdates. rewrite map_map.
  apply map_ext. intros e.
  destruct (u' !! id e) as [[x' y']|] eqn:Hu'; [|done].
  rewrite Hid. destruct (Hdom (id e)) as [[x y] Hu]; [done|].
  by rewrite Hu, Hover.
Qed.

Lemma applyUpdates_empty {E} (id : E -> nat) (with_pos : Q -> Q -> E -> E)
    (u : gmap nat (Q * Q)) (l : list E) :
  (0 <? size u)%nat = false -> applyUpdates id with_pos u l = l.
Proof.
  intros Hs. apply Nat.ltb_ge in Hs.
  assert (u = ∅) as -> by (apply map_size_empty_iff; lia).
  unfold applyUpdates. rewrite <- (map_id l) at 2. apply map_ext.
  intros e. by rewrite lookup_empty.
Qed.

(** What one move of a multi-drag does to the plan, once the drag moves. *)
Lemma multiDragMove_doc (cfg : Settings) (x y : Q) (items : list DragItem)
    (st : App) :
  let dx := pxToFt cfg (x - startX (dragRef st)) in
  let dy := pxToFt cfg (y - startY (dragRef st)) in
  hasMoved (dragRef (crossThreshold dx dy st)) = true ->
  doc (multiDragMove cfg x y items st) =
  applyAll (multiDragUpdates cfg dx dy items) (doc st).
Proof.
  intros dx dy Hm. unfold multiDragMove. fold dx dy. rewrite Hm.
  assert (Hd : doc (crossThreshold dx dy st) = doc st).
  { unfold crossThreshold. by destruct (_ && _). }
  revert Hd. generalize (crossThreshold dx dy st). intros s Hd.
  destruct (multiDragUpdates cfg dx dy items) as [[tu bu] vu].
  unfold applyAll. cbn [fst snd]. rewrite <- Hd.
  destruct (0 <? size tu)%nat eqn:Ht, (0 <? size bu)%nat eqn:Hb,
    (0 <? size vu)%nat eqn:Hv;
    rewrite ?(applyUpdates_empty _ _ tu) by done;
    rewrite ?(applyUpdates_empty _ _ bu) by done;
    rewrite ?(applyUpdates_empty _ _ vu) by done;
    by destruct s as [[ts bs vs dis] us rs stat sel sels dg dr].
Qed.


Lemma crossThreshold_gesture (dx dy : Q) (down s : App) :
  InGesture down s -> InGesture down (crossThreshold dx dy s).
Proof. unfold crossThreshold. by destruct (_ && _). Qed.

Lemma crossThreshold_hasMoved (cfg : Settings) (down s : App) (p : Q * Q) :
  InGesture down s ->
  hasMoved (dragRef s) = true \/ ~ withinThreshold cfg down p ->
  hasMoved (dragRef (crossThreshold (pxToFt cfg (p.1 - startX (dragRef s)))
                                    (pxToFt cfg (p.2 - startY (dragRef s))) s)) = true.
Proof.
  intros Hin [Hm|Hn]; [by rewrite crossThreshold_moved|].
  destruct (hasMoved (dragRef s)) eqn:Hm; [by rewrite crossThreshold_moved|].
  rewrite crossThreshold_crossing; [done|done|].
  destruct (exceedsThreshold _ _) eqn:He; [done|].
  destruct Hn. apply (withinThreshold_InGesture cfg down s p Hin).
  by apply exceedsThreshold_false.
Qed.

(** One move of a multi-drag, once the drag moves. *)
Lemma multiDrag_step (cfg : Settings) (down : App) (items : list DragItem)
    (s : App) (p : Q * Q) :
  dragging down = true -> multiDrag (dragRef down) = Some items ->
  InGesture down s ->
  hasMoved (dragRef s) = true \/ ~ withinThreshold cfg down p ->
  doc (handleCanvasMouseMove cfg p.1 p.2 s) =
    applyAll (multiDragUpdates cfg (displacement cfg down p).1
                               (displacement cfg down p).2 items) (doc s) /\
  hasMoved (dragRef (handleCanvasMouseMove cfg p.1 p.2 s)) = true /\
  InGesture down (handleCanvasMouseMove cfg p.1 p.2 s).
Proof.
  intros Hd Hmd Hin Hgo.
  pose proof (crossThreshold_hasMoved cfg down s p Hin Hgo) as Hm.
  pose proof Hin as (Hdg & _ & Hx & Hy & _ & _ & _ & Hmd').
  unfold handleCanvasMouseMove. rewrite Hdg, Hd, Hmd', Hmd.
  split; [|split].
  - rewrite multiDragMove_doc by done. unfold displacement. cbn [fst snd].
    by rewrite Hx, Hy.
  - unfold multiDragMove. rewrite Hm.
    destruct (multiDragUpdates _ _ _ _) as [[tu bu] vu].
    rewrite <- Hm. gesture_kept.
  - unfold multiDragMove. rewrite Hm.
    pose proof (crossThreshold_gesture
                  (pxToFt cfg (p.1 - startX (dragRef s)))
                  (pxToFt cfg (p.2 - startY (dragRef s))) down s Hin) as Hin'.
    revert Hin'. generalize (crossThreshold (pxToFt cfg (p.1 - startX (dragRef s)))
                               (pxToFt cfg (p.2 - startY (dragRef s))) s).
    intros s' Hin'. destruct (multiDragUpdates _ _ _ _) as [[tu bu] vu].
    destruct (0 <? size tu)%nat, (0 <? size bu)%nat, (0 <? size vu)%nat;
      exact Hin'.
Qed.

Lemma applyAll_over (cfg : Settings) (items : list DragItem)
    (dx dy dx' dy' : Q) (d : Doc) :
  applyAll (multiDragUpdates cfg dx dy items)
           (applyAll (multiDragUpdates cfg dx' dy' items) d) =
  applyAll (multiDragUpdates cfg dx dy items) d.
Proof.
  unfold applyAll. cbn [tables chairBlocks venueElements disabledAttendees].
  f_equal; apply applyUpdates_over; try done.
  - intros k. apply (multiDragUpdates_dom cfg dx' dy' dx dy items ETable).
  - intros k. apply (multiDragUpdates_dom cfg dx' dy' dx dy items EBlock).
  - intros k. apply (multiDragUpdates_dom cfg dx' dy' dx dy items EVenue).
Qed.

(** With unique ids, the entity found by id is the entity itself. *)
Lemma latestOf_self (d : Doc) (i e : Entity) :
  AllIdsUnique d -> e ∈ entitiesOf d -> sameEntity e i = true ->
  latestOf d i = e.
Proof.
  intros [[Ht Hb] Hv] Hin Hs. unfold sameEntity in Hs.
  apply andb_true_iff in Hs as [Hty Hid].
  apply bool_decide_eq_true in Hty, Hid.
  unfold entitiesOf in Hin. rewrite !elem_of_app, !list_elem_of_fmap in Hin.
  destruct Hin as [(t & -> & Hin)|[(b & -> & Hin)|(v & -> & Hin)]];
    destruct i as [t'|b'|v']; try discriminate; cbn in Hid;
    apply list_elem_of_lookup in Hin as [n Hn]; cbn [latestOf].
  - by rewrite (find_by_id_unique t_id (t_id t') (tables d) n t).
  - by rewrite (find_by_id_unique b_id (b_id b') (chairBlocks d) n b).
  - by rewrite (find_by_id_unique v_id (v_id v') (venueElements d) n v).
Qed.

(** The update that a multi-drag begun in [st] holds for an entity of the
    plan. *)
Lemma multiDrag_update (cfg : Settings) (dx dy : Q) (st : App) (e : Entity) :
  AllIdsUnique (doc st) -> e ∈ entitiesOf (doc st) ->
  let items := map (fun i => let latest := latestOf (doc st) i in
                             mkDragItem (entityType i) (e_id i) (e_x latest) (e_y latest))
                   (selectedItems st) in
  updatesOf (entityType e) (multiDragUpdates cfg dx dy items) !! e_id e =
  if existsb (sameEntity e) (selectedItems st)
  then Some (clampTo (roomWidth cfg) (e_x e + dx), clampTo (roomHeight cfg) (e_y e + dy))
  else None.
Proof.
  intros Hu Hin items.
  assert (Hback : forall v,
            updatesOf (entityType e) (multiDragUpdates cfg dx dy items) !! e_id e = Some v ->
            existsb (sameEntity e) (selectedItems st) = true /\
            v = (clampTo (roomWidth cfg) (e_x e + dx),
                 clampTo (roomHeight cfg) (e_y e + dy))).
  { intros v Hv.
    apply multiDragUpdates_Some in Hv as (it & Hit & Hty & Hid & ->).
    apply list_elem_of_In, in_map_iff in Hit as (i & <- & Hi).
    cbn in Hty, Hid |- *.
    assert (Hs : sameEntity e i = true).
    { unfold sameEntity. by rewrite Hty, Hid, !bool_decide_eq_true_2. }
    split. { apply existsb_exists. exists i. split. exact Hi. exact Hs. }
    by rewrite (latestOf_self (doc st) i e Hu Hin Hs). }
  destruct (updatesOf _ _ !! e_id e) as [v|] eqn:Hv.
  - destruct (Hback v eq_refl) as [-> ->]. reflexivity.
  - destruct (existsb _ _) eqn:Hex; [|done].
    apply existsb_exists in Hex as (i & Hi & Hs).
    unfold sameEntity in Hs. apply andb_true_iff in Hs as [Hty Hid].
    apply bool_decide_eq_true in Hty, Hid.
    destruct (multiDragUpdates_is_Some cfg dx dy items
                (mkDragItem (entityType i) (e_id i) (e_x (latestOf (doc st) i))
                            (e_y (latestOf (doc st) i)))) as [v Hv'].
    { apply list_elem_of_In, in_map_iff. exists i. split; [reflexivity|exact Hi]. }
    cbn [di_type di_id] in Hv'. rewrite <- Hty, <- Hid, Hv in Hv'. discriminate Hv'.
Qed.

Lemma fmap_map_commute {A B} (inj : A -> B) (g : A -> A) (f : B -> B)
    (l : list A) :
  (forall a, a ∈ l -> inj (g a) = f (inj a)) ->
  inj <$> map g l = map f (inj <$> l).
Proof.
  induction l as [|a l IH]; intros H; [done|]. cbn.
  rewrite H by left. f_equal. apply IH. intros b Hb. apply H. by right.
Qed.




(** *** Single drag *)

Lemma placeAt_over (ty : EntityType) (id : nat) (pos pos' : Q * Q) (d : Doc) :
  placeAt ty id pos (placeAt ty id pos' d) = placeAt ty id pos d.
Proof.
  destruct ty; unfold placeAt; cbn [tables chairBlocks venueElements disabledAttendees];
    f_equal; rewrite map_map; apply map_ext; intros e;
    repeat case_decide; cbn in *; done.
Qed.

Lemma fmap_map_fixed {A B} (inj : A -> B) (f : B -> B) (l : list A) :
  (forall a, a ∈ l -> inj a = f (inj a)) -> inj <$> l = map f (inj <$> l).
Proof.
  induction l as [|a l IH]; intros H; [done|]. cbn.
  rewrite <- H by left. f_equal. apply IH. intros b Hb. apply H. by right.
Qed.

(** One move of a single drag of an unlocked entity, once the drag moves. *)
Lemma singleDrag_step (cfg : Settings) (down : App) (item sel : Entity)
    (s : App) (p : Q * Q) :
  dragging down = true -> multiDrag (dragRef down) = None ->
  dr_entity (dragRef down) = Some item -> selectedItem down = Some sel ->
  e_locked item = false ->
  InGesture down s ->
  hasMoved (dragRef s) = true \/ ~ withinThreshold cfg down p ->
  doc (handleCanvasMouseMove cfg p.1 p.2 s) =
    placeAt (entityType sel) (e_id item)
      (snapEntityPos cfg
         (clampTo (roomWidth cfg) (origX (dragRef down) + (displacement cfg down p).1))
         (clampTo (roomHeight cfg) (origY (dragRef down) + (displacement cfg down p).2))
         item) (doc s) /\
  hasMoved (dragRef (handleCanvasMouseMove cfg p.1 p.2 s)) = true /\
  InGesture down (handleCanvasMouseMove cfg p.1 p.2 s).
Proof.
  intros Hd Hmd Hit Hsel Hl Hin Hgo.
  pose proof (crossThreshold_hasMoved cfg down s p Hin Hgo) as Hm.
  pose proof Hin as (Hdg & Hsel' & Hx & Hy & Hit' & Hox & Hoy & Hmd').
  unfold handleCanvasMouseMove. rewrite Hdg, Hd, Hmd', Hmd, Hit', Hit, Hsel', Hsel.
  unfold singleDragMove. rewrite Hl, Hm.
  pose proof (crossThreshold_gesture
                (pxToFt cfg (p.1 - startX (dragRef s)))
                (pxToFt cfg (p.2 - startY (dragRef s))) down s Hin) as Hin'.
  assert (Hdoc : doc (crossThreshold (pxToFt cfg (p.1 - startX (dragRef s)))
                        (pxToFt cfg (p.2 - startY (dragRef s))) s) = doc s).
  { unfold crossThreshold. by destruct (_ && _). }
  revert Hin' Hm Hdoc.
  generalize (crossThreshold (pxToFt cfg (p.1 - startX (dragRef s)))
                (pxToFt cfg (p.2 - startY (dragRef s))) s).
  intros s' Hin' Hm <-.
  destruct Hin' as (? & ? & Hx' & Hy' & ? & Hox' & Hoy' & ?).
  unfold displacement. cbn [fst snd]. rewrite Hox', Hoy', Hx, Hy.
  destruct s' as [[ts bs vs dis] us rs stat sl sls dg dr].
  destruct (entityType sel); repeat split; try done.
Qed.




(** ** Editing an entity *)

(** The plan after [confirmEdit]: the same seats at the same places. *)
Lemma confirmEdit_seats (form : EditForm) (entity : Entity) (st : App) :
  let d' := doc (confirmEdit form entity st) in
  t_assignments <$> tables d' = t_assignments <$> tables (doc st) /\
  b_assignments <$> chairBlocks d' = b_assignments <$> chairBlocks (doc st) /\
  placement <$> entitiesOf d' = placement <$> entitiesOf (doc st) /\
  disabledAttendees d' = disabledAttendees (doc st).
Proof.
  unfold entitiesOf.
  destruct form;
    cbn [confirmEdit doc setStatus setSelectedItem setTables setChairBlocks
         setVenueElements saveUndo with_doc tables chairBlocks venueElements
         disabledAttendees];
    rewrite !fmap_app, <- !list_fmap_compose;
    repeat split; try reflexivity;
    repeat match goal with |- _ ++ _ = _ ++ _ => f_equal end;
    try reflexivity;
    apply list_fmap_ext; intros ? e _; cbn; by destruct (decide _).
Qed.

Lemma assigned_same_assignments (d d' : Doc) :
  t_assignments <$> tables d' = t_assignments <$> tables d ->
  b_assignments <$> chairBlocks d' = b_assignments <$> chairBlocks d ->
  (forall r i, occupies d' r i <-> occupies d r i).
Proof.
  intros Ht Hb [n k|n k] i; cbn [occupies]; split.
  - by apply (occ_same_assignments (H:=Table_Seated)).
  - by apply (occ_same_assignments (H:=Table_Seated)).
  - by apply (occ_same_assignments (H:=Block_Seated)).
  - by apply (occ_same_assignments (H:=Block_Seated)).
Qed.

(** X26.  Editing an entity in the dialog never unseats or moves anybody:
    after [confirmEdit] every seat key of every table and chair block holds
    the attendee it held before, whether or not the edited entity still has
    that seat, so the assigned set is the same; kind, id, position and lock
    of every entity and the disabled set are unchanged; one checkpoint of
    the plan before the edit is taken, the redo stack is emptied and the
    selection is cleared. *)
Theorem confirmEdit_keeps_occupants (form : EditForm) (entity : Entity) (st : App) :
  let st' := confirmEdit form entity st in
  (forall r i, occupies (doc st') r i <-> occupies (doc st) r i) /\
  assigned st' = assigned st /\
  placement <$> entitiesOf (doc st') = placement <$> entitiesOf (doc st) /\
  disabledAttendees (doc st') = disabledAttendees (doc st) /\
  undoStack st' = pushUndo (doc st) (undoStack st) /\
  redoStack st' = [] /\ selectedItem st' = None.
Proof.
  intros st'.
  destruct (confirmEdit_seats form entity st) as (Ht & Hb & Hp & Hd).
  pose proof (assigned_same_assignments (doc st) (doc st') Ht Hb) as Hocc.
  split; [exact Hocc|]. split.
  - apply set_eq. intros i. rewrite !elem_of_assigned.
    split; intros [r Hr]; exists r; by apply Hocc.
  - split; [exact Hp|]. split; [exact Hd|]. by destruct form.
Qed.

(** An occupant of a seat that the edit removes stays on that seat, which
    the table no longer has, and cannot be seated anywhere else. *)
Example confirmEdit_strands_occupant :
  let st := idle (mkDoc [lastSeat] [] [] ∅) in
  let st' := confirmEdit (EditRoundTable 4 5) (TableE lastSeat) st in
  (seats <$> tables (doc st')) = [4%nat] /\
  occupies (doc st') (InTable 0 "7") 3 /\
  ~ RealSeat (doc st') (InTable 0 "7") /\
  doc (assignAttendee ETable 1 "0" 3 st') = doc st'.
Proof.
  split; [reflexivity|]. split; [by eexists|]. split; [|reflexivity].
  intros (t & i & Ht & Hk & Hi). injection Ht as <-. cbn in Hi.
  assert (i = 0 \/ i = 1 \/ i = 2 \/ i = 3)%nat as [-> | [-> | [-> | ->]]] by lia;
    discriminate Hk.
Qed.


(** ** Panning *)

Lemma pan_step (x0 y0 : Q) (vp s : Viewport) (o : option (Q * Q)) (p : Q * Q) :
  PanTracks x0 y0 vp s o ->
  PanTracks x0 y0 vp (handleCanvasMouseMove_pan p.1 p.2 s)
            (follow (beyondSlack x0 y0) o p).
Proof.
  intros (Ha & Hr & Hv). unfold handleCanvasMouseMove_pan. rewrite Hr.
  cbn [pan_active pan_startX pan_startY origPanX origPanY pan_hasMoved].
  fold (beyondSlack x0 y0 p).
  destruct o as [q|]; cbn [follow].
  - assert (bool_decide (is_Some (Some q)) = true) as -> by done.
    cbn [orb]. split; [done|]. split; [done|]. cbn [view]. by rewrite Hv.
  - assert (bool_decide (is_Some (@None (Q * Q))) = false) as Hn
      by (apply bool_decide_eq_false_2; by intros [? ?]).
    rewrite Hn. cbn [orb]. destruct (beyondSlack x0 y0 p).
    + split; [done|]. split; [done|]. cbn [view]. by rewrite Hv.
    + split; [done|]. split; [|done]. cbn [panRef]. by rewrite Hn.
Qed.

Lemma pans_track (x0 y0 : Q) (vp : Viewport) (ps : list (Q * Q)) (s : Viewport)
    (o : option (Q * Q)) :
  PanTracks x0 y0 vp s o ->
  PanTracks x0 y0 vp (pans ps s) (foldl (follow (beyondSlack x0 y0)) o ps).
Proof.
  unfold pans. revert s o. induction ps as [|p ps IH]; intros s o Ht; [done|].
  cbn [foldl]. by apply IH, pan_step.
Qed.

Lemma pan_down_tracks (x0 y0 : Q) (vp : Viewport) :
  PanTracks x0 y0 vp (handleCanvasMouseDown_pan x0 y0 vp) None.
Proof. by repeat split. Qed.

(** X27.  A press on empty canvas pans or deselects.  Once the pointer has
    been more than 3 pixels from where it went down, the view is panned by
    the way from there to the last pointer position (size and zoom level
    unchanged), so the room point that was under the pointer at
    pointer-down is under it again, and the release keeps the selection.
    If the pointer never went beyond 3 pixels, the view is untouched and
    the release clears the selection.  Either way the plan and its history
    are unchanged and the release ends the gesture. *)
Theorem press_on_empty_canvas (rw rh left top x0 y0 : Q) (vp : Viewport)
    (ps : list (Q * Q)) (p : Q * Q) (qs : list (Q * Q)) :
  let down := handleCanvasMouseDown_pan x0 y0 vp in
  (Exists (fun q => beyondSlack x0 y0 q = true) (ps ++ [p]) ->
   let vp' := pans (ps ++ [p]) down in
   let up := handleCanvasMouseUp_pan vp' in
   view vp' = pannedBy x0 y0 p (view vp) /\
   ((p.1 - left - viewOffsetX rw rh (view vp')) / viewScale rw rh (view vp') ==
    (x0 - left - viewOffsetX rw rh (view vp)) / viewScale rw rh (view vp))%Q /\
   ((p.2 - top - viewOffsetY rw rh (view vp')) / viewScale rw rh (view vp') ==
    (y0 - top - viewOffsetY rw rh (view vp)) / viewScale rw rh (view vp))%Q /\
   selectedItem (vp_app up) = selectedItem (vp_app vp) /\
   selectedItems (vp_app up) = selectedItems (vp_app vp)) /\
  (Forall (fun q => beyondSlack x0 y0 q = false) qs ->
   let up := handleCanvasMouseUp_pan (pans qs down) in
   view (pans qs down) = view vp /\
   selectedItem (vp_app up) = None /\ selectedItems (vp_app up) = []) /\
  (let up := handleCanvasMouseUp_pan (pans qs down) in
   view up = view (pans qs down) /\
   doc (vp_app up) = doc (vp_app vp) /\
   undoStack (vp_app up) = undoStack (vp_app vp) /\
   redoStack (vp_app up) = redoStack (vp_app vp) /\
   dragging (vp_app up) = false /\ pan_active (panRef up) = false).
Proof.
  intros down. split; [|split].
  - intros Hex vp' up.
    pose proof (pans_track x0 y0 vp (ps ++ [p]) down None (pan_down_tracks x0 y0 vp))
      as (Ha & Hr & Hv).
    fold (followed (beyondSlack x0 y0) (ps ++ [p])) in Hr, Hv.
    rewrite (followed_snoc _ ps p Hex) in Hr, Hv. fold vp' in Ha, Hr, Hv.
    split; [exact Hv|].
    assert (Hs : viewScale rw rh (view vp') = viewScale rw rh (view vp))
      by (by rewrite Hv).
    split; [|split].
    + unfold viewOffsetX. rewrite Hs, Hv. cbn [pannedBy canvasW panX].
      generalize (viewScale rw rh (view vp)). intros s. unfold Qdiv. ring.
    + unfold viewOffsetY. rewrite Hs, Hv. cbn [pannedBy canvasH panY].
      generalize (viewScale rw rh (view vp)). intros s. unfold Qdiv. ring.
    + unfold up, handleCanvasMouseUp_pan. rewrite Hr, Ha. by split.
  - intros Hall up.
    pose proof (pans_track x0 y0 vp qs down None (pan_down_tracks x0 y0 vp))
      as (Ha & Hr & Hv).
    fold (followed (beyondSlack x0 y0) qs) in Hr, Hv.
    rewrite (proj2 (followed_None _ qs) Hall) in Hr, Hv.
    split; [exact Hv|]. unfold up, handleCanvasMouseUp_pan. rewrite Hr, Ha. by split.
  - intros up.
    pose proof (pans_track x0 y0 vp qs down None (pan_down_tracks x0 y0 vp))
      as (Ha & Hr & _).
    unfold up, handleCanvasMouseUp_pan. rewrite Hr, Ha. cbn [pan_active pan_hasMoved].
    by destruct (bool_decide _).
Qed.

Lemma press_on_empty_canvas_witness :
  let down := handleCanvasMouseDown_pan 400 300 atRest in
  view (pans [(402, 300)%Q; (450, 320)%Q] down)
    = pannedBy 400 300 (450, 320)%Q (view atRest) /\
  selectedItem (vp_app (handleCanvasMouseUp_pan (pans [(402, 300)%Q] down))) = None.
Proof.
  intros down.
  destruct (press_on_empty_canvas 60 40 0 0 400 300 atRest [(402, 300)%Q]
              (450, 320)%Q [(402, 300)%Q]) as (Hpan & Hclick & _).
  destruct Hpan as [Hv _]; [right; left; reflexivity|].
  destruct Hclick as (_ & Hs & _); [constructor; [reflexivity|constructor]|].
  split; [exact Hv|exact Hs].
Defined.


(** ** CSV export *)

(** *** The entries of [assignedMap] in index order *)

#[local] Instance indexBefore_trans {V} : Transitive (@indexBefore V).
Proof. intros x y z. unfold indexBefore. lia. Qed.

#[local] Instance indexBefore_total {V} : Total (@indexBefore V).
Proof. intros x y. unfold indexBefore. lia. Qed.

Lemma elem_of_entriesByIndex {V} (m : gmap nat V) (i : nat) (v : V) :
  (i, v) ∈ entriesByIndex m <-> m !! i = Some v.
Proof.
  unfold entriesByIndex. rewrite merge_sort_Permutation. apply elem_of_map_to_list.
Qed.

Lemma elem_of_omap_seq {V} (m : gmap nat V) (a N i : nat) (v : V) :
  (i, v) ∈ omap (fun j => (fun w => (j, w)) <$> m !! j) (seq a N) <->
  m !! i = Some v /\ a <= i < a + N.
Proof.
  rewrite list_elem_of_omap. split.
  - intros (j & Hj & Hv). apply elem_of_seq in Hj.
    apply fmap_Some in Hv as (w & Hw & [= -> ->]). split; [done|lia].
  - intros [Hv Hi]. exists i. split; [apply elem_of_seq; lia|by rewrite Hv].
Qed.

Lemma StronglySorted_omap_seq {V} (m : gmap nat V) (a N : nat) :
  StronglySorted indexBefore
    (omap (fun j => (fun w => (j, w)) <$> m !! j) (seq a N)).
Proof.
  revert a. induction N as [|N IH]; intros a; [constructor|].
  cbn [seq omap list_omap]. destruct (m !! a) as [w|]; cbn; [|apply IH].
  constructor; [apply IH|]. apply Forall_forall. intros [i v] Hi.
  apply elem_of_omap_seq in Hi as [_ Hi]. unfold indexBefore. cbn. lia.
Qed.

Lemma NoDup_omap_seq {V} (m : gmap nat V) (a N : nat) :
  NoDup (omap (fun j => (fun w => (j, w)) <$> m !! j) (seq a N)).
Proof.
  revert a. induction N as [|N IH]; intros a; [constructor|].
  cbn [seq omap list_omap]. destruct (m !! a) as [w|]; cbn; [|apply IH].
  constructor; [|apply IH]. intros Hi. apply elem_of_omap_seq in Hi as [_ Hi]. lia.
Qed.

(** Below a bound on its keys, the entries of a map in index order are the
    indices in order, each with its value. *)
Lemma entriesByIndex_seq {V} (m : gmap nat V) (N : nat) :
  (forall i, is_Some (m !! i) -> i < N) ->
  entriesByIndex m = omap (fun j => (fun w => (j, w)) <$> m !! j) (seq 0 N).
Proof.
  intros Hbound.
  apply (StronglySorted_unique_strong indexBefore).
  - intros [i v] [j w] Hi Hj Hij Hji. unfold indexBefore in Hij, Hji. cbn in *.
    assert (i = j) as -> by lia.
    apply elem_of_entriesByIndex in Hi. apply elem_of_omap_seq in Hj as [Hj _].
    congruence.
  - apply StronglySorted_merge_sort; apply _.
  - apply StronglySorted_omap_seq.
  - apply NoDup_Permutation.
    + unfold entriesByIndex. rewrite merge_sort_Permutation. apply NoDup_map_to_list.
    + apply NoDup_omap_seq.
    + intros [i v]. rewrite elem_of_entriesByIndex, elem_of_omap_seq.
      split; [|tauto]. intros Hv. split; [done|].
      specialize (Hbound i). rewrite Hv in Hbound. split; [lia|]. by apply Hbound.
Qed.

Lemma keys_bounded {V} (m : gmap nat V) :
  exists N, forall i, is_Some (m !! i) -> i < N.
Proof.
  induction m as [|i v m Hi IH] using map_ind.
  - exists 0. intros i [v Hv]. by rewrite lookup_empty in Hv.
  - destruct IH as [N HN]. exists (S (N `max` i)). intros j Hj.
    destruct (decide (i = j)) as [->|Hne]; [lia|].
    rewrite lookup_insert_ne in Hj by done. specialize (HN j Hj). lia.
Qed.

Lemma omap_omap {A B C} (g : A -> option B) (f : B -> option C) (l : list A) :
  omap f (omap g l) = omap (fun x => g x ≫= f) l.
Proof.
  induction l as [|x l IH]; [done|]. cbn. destruct (g x) as [y|]; cbn; [|done].
  destruct (f y); by rewrite IH.
Qed.

Lemma omap_ext_in {A B} (f g : A -> option B) (l : list A) :
  (forall x, x ∈ l -> f x = g x) -> omap f l = omap g l.
Proof.
  induction l as [|x l IH]; intros H; [done|]. cbn.
  rewrite (H x) by left. rewrite IH; [done|]. intros y Hy. apply H. by right.
Qed.

Lemma omap_none {A B} (f : A -> option B) (l : list A) :
  (forall x, x ∈ l -> f x = None) -> omap f l = [].
Proof.
  induction l as [|x l IH]; intros H; [done|]. cbn.
  rewrite (H x) by left. apply IH. intros y Hy. apply H. by right.
Qed.

(** The rows of the seated attendees: one for each roster member with a
    seat, in roster order. *)
Lemma seated_rows (attendees : list (string * string))
    (cells : gmap nat (string * string)) :
  omap (fun e : nat * (string * string) =>
          (fun att : string * string => [att.1; att.2; e.2.1; e.2.2])
            <$> attendees !! e.1)
       (entriesByIndex cells) =
  omap (seatedRow attendees cells) (seq 0 (length attendees)).
Proof.
  destruct (keys_bounded cells) as [K HK].
  rewrite (entriesByIndex_seq cells (length attendees + K)) by (intros i Hi; specialize (HK i Hi); lia).
  rewrite omap_omap, seq_app, omap_app.
  rewrite (omap_none _ (seq _ K)), app_nil_r.
  - apply omap_ext_in. intros i _. unfold seatedRow.
    destruct (cells !! i) as [c|]; cbn; [|done]. by destruct (attendees !! i).
  - intros i Hi. apply elem_of_seq in Hi.
    destruct (cells !! i) as [c|]; cbn; [|done].
    rewrite (lookup_ge_None_2 attendees i) by lia. done.
Qed.

(** The rows of the others, in roster order. *)
Lemma unseated_rows (attendees : list (string * string))
    (cells : gmap nat (string * string)) :
  omap (fun e : nat * (string * string) =>
          if decide (cells !! e.1 = None)
          then Some [e.2.1; e.2.2; ""; ""] else None)
       (imap pair attendees) =
  omap (unseatedRow attendees cells) (seq 0 (length attendees)).
Proof.
  induction attendees as [|att l IH] using rev_ind; [done|].
  rewrite imap_app, length_app, seq_app, !omap_app. cbn [length imap seq omap list_omap].
  rewrite Nat.add_0_r. f_equal.
  - rewrite IH. apply omap_ext_in. intros i Hi. apply elem_of_seq in Hi.
    unfold unseatedRow. by rewrite lookup_app_l by lia.
  - cbn. unfold unseatedRow. rewrite lookup_app_r, Nat.sub_diag by lia. cbn.
    destruct (decide _) as [->|Hn]; [done|]. by destruct (cells !! length l).
Qed.

Lemma length_rows (attendees : list (string * string))
    (cells : gmap nat (string * string)) (l : list nat) :
  (forall i, i ∈ l -> i < length attendees) ->
  length (omap (seatedRow attendees cells) l) +
  length (omap (unseatedRow attendees cells) l) = length l.
Proof.
  induction l as [|i l IH]; intros Hl; [done|]. cbn.
  destruct (lookup_lt_is_Some_2 attendees i (Hl i ltac:(left))) as [att Hatt].
  unfold seatedRow at 1, unseatedRow at 1. rewrite Hatt.
  destruct (cells !! i) as [c|]; cbn; rewrite <- IH by (intros j Hj; apply Hl; by right);
    lia.
Qed.


(** *** What [assignedMap] holds *)

Lemma recordSeats_Some (name : string) (cell : string -> string)
    (a : gmap string nat) (m : gmap nat (string * string)) (i : nat)
    (c : string * string) :
  recordSeats name cell a m !! i = Some c ->
  m !! i = Some c \/ exists k, a !! k = Some i /\ c = (name, cell k).
Proof.
  unfold recordSeats.
  assert (Hes : forall kv, kv ∈ entries a -> a !! kv.1 = Some kv.2)
    by (intros [k v]; apply elem_of_entries).
  revert Hes. generalize (entries a). intros es.
  induction es as [|[k v] es IH] using rev_ind; intros Hes; [by left|].
  rewrite foldl_app. cbn [foldl fst snd].
  destruct (decide (v = i)) as [->|Hne].
  - rewrite lookup_insert_eq. intros [= <-]. right. exists k. split; [|done].
    apply (Hes (k, i)). apply elem_of_app. right. by left.
  - rewrite lookup_insert_ne by done. apply IH.
    intros kv Hkv. apply Hes, elem_of_app. by left.
Qed.

Lemma recordSeats_is_Some (name : string) (cell : string -> string)
    (a : gmap string nat) (m : gmap nat (string * string)) (i : nat) :
  is_Some (m !! i) \/ (exists k, a !! k = Some i) ->
  is_Some (recordSeats name cell a m !! i).
Proof.
  unfold recordSeats.
  assert (Hes : (exists k, a !! k = Some i) -> exists k, (k, i) ∈ entries a).
  { intros [k Hk]. exists k. by apply elem_of_entries. }
  revert Hes. generalize (entries a). intros es.
  induction es as [|[k v] es IH] using rev_ind; intros Hes [Hm|Ha]; cbn.
  - done.
  - destruct (Hes Ha) as [k Hk]. by apply elem_of_nil in Hk.
  - rewrite foldl_app. cbn [foldl fst snd].
    destruct (decide (v = i)) as [->|Hne]; [by rewrite lookup_insert_eq|].
    rewrite lookup_insert_ne by done. apply IH; [|by left].
    intros Ha. destruct (Hes Ha) as [k' Hk'].
    apply elem_of_app in Hk' as [Hk'|Hk']; [by exists k'|].
    apply list_elem_of_singleton in Hk'. congruence.
  - rewrite foldl_app. cbn [foldl fst snd].
    destruct (decide (v = i)) as [->|Hne]; [by rewrite lookup_insert_eq|].
    rewrite lookup_insert_ne by done.
    destruct (Hes Ha) as [k' Hk'].
    apply elem_of_app in Hk' as [Hk'|Hk'].
    + apply IH; [|right; exact Ha]. intros _. by exists k'.
    + apply list_elem_of_singleton in Hk'. congruence.
Qed.

Section RecordAll.

Context {E : Type} (label : string * E -> string) (cell : string -> string)
        (asg : E -> gmap string nat).

Lemma recordAll_Some (l : list (string * E)) (m : gmap nat (string * string))
    (i : nat) (c : string * string) :
  foldl (fun m e => recordSeats (label e) cell (asg e.2) m) m l !! i = Some c ->
  m !! i = Some c \/
  exists n e k, l !! n = Some e /\ asg e.2 !! k = Some i /\ c = (label e, cell k).
Proof.
  induction l as [|e l IH] using rev_ind; [by left|].
  rewrite foldl_app. cbn [foldl]. intros Hc.
  apply recordSeats_Some in Hc as [Hc|(k & Hk & ->)].
  - destruct (IH Hc) as [?|(n & e' & k & Hn & Hk & ->)]; [by left|].
    right. exists n, e', k. split; [by apply lookup_app_l_Some|done].
  - right. exists (length l), e, k. split; [|done].
    by rewrite lookup_app_r, Nat.sub_diag by lia.
Qed.

Lemma recordAll_is_Some (l : list (string * E)) (m : gmap nat (string * string))
    (i : nat) :
  is_Some (m !! i) \/ (exists n e k, l !! n = Some e /\ asg e.2 !! k = Some i) ->
  is_Some (foldl (fun m e => recordSeats (label e) cell (asg e.2) m) m l !! i).
Proof.
  induction l as [|e l IH] using rev_ind.
  - intros [Hm|(n & e & k & Hn & _)]; [done|by rewrite lookup_nil in Hn].
  - intros H. rewrite foldl_app. cbn [foldl]. apply recordSeats_is_Some.
    destruct H as [Hm|(n & e' & k & Hn & Hk)]; [left; apply IH; by left|].
    apply lookup_app_Some in Hn as [Hn|[Hlen Hn]].
    + left. apply IH. right. by exists n, e', k.
    + destruct (n - length l) as [|?]; [|done].
      injection Hn as <-. right. by exists k.
Qed.

End RecordAll.

(** A cell of [assignedMap] is that of a seat which the attendee holds. *)
Lemma assignedMap_Some (tables : list (string * Table))
    (blocks : list (string * ChairBlock)) (i : nat) (c : string * string) :
  assignedMap tables blocks !! i = Some c ->
  exists r, occupies (planOf tables blocks) r i /\ seatCells tables blocks r = Some c.
Proof.
  unfold assignedMap. intros Hc.
  apply (recordAll_Some blockName blockSeatCell b_assignments) in Hc
    as [Hc|(n & e & k & Hn & Hk & ->)].
  - apply (recordAll_Some tableName tableSeatCell t_assignments) in Hc
      as [Hc|(n & e & k & Hn & Hk & ->)]; [by rewrite lookup_empty in Hc|].
    exists (InTable n k). cbn. rewrite Hn. split; [|done].
    exists e.2. split; [by rewrite list_lookup_fmap, Hn|done].
  - exists (InBlock n k). cbn. rewrite Hn. split; [|done].
    exists e.2. split; [by rewrite list_lookup_fmap, Hn|done].
Qed.

(** Every seated attendee has a cell. *)
Lemma assignedMap_None (tables : list (string * Table))
    (blocks : list (string * ChairBlock)) (i : nat) :
  assignedMap tables blocks !! i = None <->
  forall r, ~ occupies (planOf tables blocks) r i.
Proof.
  split.
  - intros Hnone r Hr.
    assert (Hsome : is_Some (assignedMap tables blocks !! i));
      [|rewrite Hnone in Hsome; by destruct Hsome].
    unfold assignedMap.
    apply (recordAll_is_Some blockName blockSeatCell b_assignments).
    destruct r as [n k|n k]; destruct Hr as (e & Hn & Hk);
      unfold planOf in Hn; cbn in Hn; rewrite list_lookup_fmap in Hn;
      apply fmap_Some in Hn as (ne & Hn & ->).
    + left. apply (recordAll_is_Some tableName tableSeatCell t_assignments).
      right. by exists n, ne, k.
    + right. by exists n, ne, k.
  - intros Hfree. destruct (assignedMap tables blocks !! i) as [c|] eqn:Hc; [|done].
    apply assignedMap_Some in Hc as (r & Hr & _). by destruct (Hfree r).
Qed.

(** X28.  The flat CSV export lists every roster member exactly once.
    After the header come the seated roster members in roster order, each
    with the name of an entity and the cell of a seat which they hold
    there, and then the roster members without a seat in roster order with
    two empty cells; so there is one row per roster member besides the
    header, and an attendee seated twice is still listed once. *)
Theorem flat_export_lists_everyone
    (sortRows : list (list string) -> list (list string))
    (tables : list (string * Table)) (blocks : list (string * ChairBlock))
    (attendees : list (string * string)) :
  let cells := assignedMap tables blocks in
  let rows := exportRows sortRows Flat tables blocks attendees in
  rows = ["Last Name"; "First Name"; "Table/Block"; "Seat"] ::
         omap (seatedRow attendees cells) (seq 0 (length attendees)) ++
         omap (unseatedRow attendees cells) (seq 0 (length attendees)) /\
  length rows = S (length attendees) /\
  (forall i c, cells !! i = Some c ->
     exists r, occupies (planOf tables blocks) r i /\
               seatCells tables blocks r = Some c) /\
  (forall i, cells !! i = None <-> forall r, ~ occupies (planOf tables blocks) r i).
Proof.
  intros cells rows.
  assert (Hrows : rows = ["Last Name"; "First Name"; "Table/Block"; "Seat"] ::
            omap (seatedRow attendees cells) (seq 0 (length attendees)) ++
            omap (unseatedRow attendees cells) (seq 0 (length attendees))).
  { unfold rows, exportRows. fold cells. by rewrite seated_rows, unseated_rows. }
  split; [exact Hrows|]. split; [|split].
  - rewrite Hrows. cbn [length]. rewrite length_app, length_rows, length_seq; [done|].
    intros i Hi. apply elem_of_seq in Hi. lia.
  - apply assignedMap_Some.
  - apply assignedMap_None.
Qed.

(** In the hall, attendee 3 sits at table 1 and attendee 4 in the block. *)
Example flat_export_of_the_hall :
  exportRows (fun l => l) Flat hallTables hallBlocks guests =
  [ ["Last Name"; "First Name"; "Table/Block"; "Seat"];
    ["Dean"; "Di"; "Table 1"; "1"];
    ["Evans"; "Eve"; "Section 1"; "R1C2"];
    ["Adams"; "Ann"; ""; ""]; ["Brown"; "Bob"; ""; ""]; ["Clark"; "Cy"; ""; ""];
    ["Ford"; "Al"; ""; ""]; ["Gray"; "Jo"; ""; ""] ].
Proof. vm_compute. reflexivity. Qed.


(** ** Dropping a seat dragged out of the seat popup *)

Section MoveSeat.

Context {E : Type} `{SeatedLaws E}.

Lemma occ_put_iff (entityId : nat) (k : string) (v : nat) (l : list E)
    (n : nat) (k' : string) (i : nat) :
  occ (mapById entityId (putSeat k v) l) n k' i <->
  (exists e, l !! n = Some e /\ ent_id e = entityId /\ k' = k /\ i = v) \/
  (occ l n k' i /\ ~ exists e, l !! n = Some e /\ ent_id e = entityId /\ k' = k).
Proof.
  unfold occ. rewrite lookup_mapById. split.
  - intros (e' & Hl & Ha). destruct (l !! n) as [e|] eqn:Hn; [|done].
    cbn in Hl. injection Hl as <-.
    destruct (decide (ent_id e = entityId)) as [Hid|Hid].
    + unfold putSeat in Ha. rewrite assignments_with in Ha.
      destruct (decide (k' = k)) as [->|Hk].
      * rewrite lookup_insert_eq in Ha. injection Ha as <-. left. by exists e.
      * rewrite lookup_insert_ne in Ha by done. right. split; [by exists e|].
        intros (? & _ & _ & ?). done.
    + right. split; [by exists e|]. intros (e'' & [= <-] & ? & _). done.
  - intros [(e & Hn & Hid & -> & ->)|[(e & Hn & Hk) Hnt]]; rewrite Hn; cbn.
    + rewrite decide_True by done. eexists. split; [done|].
      unfold putSeat. by rewrite assignments_with, lookup_insert_eq.
    + destruct (decide (ent_id e = entityId)) as [Hid|Hid]; [|by exists e].
      eexists. split; [done|]. unfold putSeat. rewrite assignments_with.
      rewrite lookup_insert_ne; [done|]. intros <-. apply Hnt. by exists e.
Qed.

Lemma occ_swap_iff (entityId : nat) (A B : string) (l : list E)
    (n : nat) (k : string) (i : nat) :
  occ (swapUpdater entityId A B l) n k i <->
  exists e, l !! n = Some e /\
    assignments e !! (if decide (ent_id e = entityId) then transpose A B k else k)
      = Some i.
Proof.
  split; [apply occ_swap|]. intros (e & Hn & Hk).
  unfold occ, swapUpdater. rewrite lookup_mapById, Hn. cbn.
  destruct (decide (ent_id e = entityId)); [|by exists e].
  eexists. split; [done|]. by rewrite assignments_with, lookup_swapAssignments.
Qed.

(** With unique ids the source updater reads the seat of the one entity
    with the id. *)
Lemma sourceOccupant_unique (srcId : nat) (srcKey : string) (l : list E)
    (n : nat) (e : E) :
  NoDup (ent_id <$> l) -> l !! n = Some e -> ent_id e = srcId ->
  sourceOccupant srcId srcKey l = assignments e !! srcKey.
Proof.
  unfold sourceOccupant. revert n.
  induction l as [|e' l IH] using rev_ind; intros n Hnd Hn Hid; [done|].
  rewrite foldl_app. cbn [foldl].
  rewrite fmap_app in Hnd. apply NoDup_app in Hnd as (Hnd & Hdis & _).
  apply lookup_app_Some in Hn as [Hn|[Hlen Hn]].
  - rewrite decide_False; [by eapply IH|].
    intros Hid'. apply (Hdis (ent_id e)).
    + apply list_elem_of_fmap. exists e. split; [done|by eapply list_elem_of_lookup_2].
    + cbn. rewrite Hid, <- Hid'. by left.
  - destruct (n - length l) as [|?]; [|done]. injection Hn as ->.
    by rewrite decide_True.
Qed.

End MoveSeat.

Lemma occupies_putAt_iff d ty id k v r i :
  occupies (putAt ty id k v d) r i <->
  (atSeat d ty id k r /\ i = v) \/ (occupies d r i /\ ~ atSeat d ty id k r).
Proof.
  unfold atSeat.
  destruct ty, r as [n k'|n k']; cbn [occupies putAt tables chairBlocks isTarget keyOf];
    try (split; [intros ?; right; split; [done|]; by intros [[] _]
                |intros [[[[] _] _]|[? _]]; done]);
    first [ rewrite (occ_put_iff (H:=Table_Seated))
          | rewrite (occ_put_iff (H:=Block_Seated)) ];
    cbn [ent_id Table_Seated Block_Seated];
    (split; intros [Hput|[Hocc Hn]];
      [ left; destruct Hput as (e & ? & ? & ? & ?); split; [split; [by exists e|done]|done]
      | right; split; [done|]; intros [(e & ? & ?) ?]; apply Hn; by exists e
      | left; destruct Hput as [[(e & ? & ?) ?] ?]; by exists e
      | right; split; [done|]; intros (e & ? & ? & ?); apply Hn; split; [by exists e|done] ]).
Qed.

Lemma occupies_swapAt_iff d ty id A B r i :
  occupies (swapAt ty id A B d) r i <-> occupies d (swapRef d ty id A B r) i.
Proof.
  split; [apply occupies_swapAt|].
  destruct ty, r as [n k|n k]; cbn [occupies swapAt swapRef tables chairBlocks];
    try done;
    first [ rewrite (occ_swap_iff (H:=Table_Seated))
          | rewrite (occ_swap_iff (H:=Block_Seated)) ];
    cbn [ent_id Table_Seated Block_Seated];
    match goal with
    | |- context [?l !! n] => destruct (l !! n) as [e|] eqn:Hn
    end;
    try (intros (? & ? & _); congruence);
    destruct (decide _); cbn [occupies]; intros (e' & Hn' & Hk);
    exists e; (split; [done|]); rewrite Hn in Hn'; injection Hn' as <-;
    try rewrite decide_True by done; try rewrite decide_False by done; done.
Qed.

Lemma isTarget_dropAt d ty' id' k ty id r :
  isTarget (dropAt ty' id' k d) ty id r <-> isTarget d ty id r.
Proof.
  destruct ty', ty, r as [n k'|n k'];
    cbn [isTarget dropAt tables chairBlocks]; try done;
    first [ rewrite (lookup_mapById (H:=Table_Seated))
          | rewrite (lookup_mapById (H:=Block_Seated)) ];
    cbn [ent_id Table_Seated Block_Seated];
    match goal with
    | |- context [?l !! n] => destruct (l !! n) as [e|]
    end; cbn;
    (split; intros (e' & [= <-] & Hid); eexists; (split; [done|]);
     revert Hid; by destruct (decide _), e).
Qed.

Lemma sourceOccupantAt_unique d ty id k r i :
  UniqueIds d -> atSeat d ty id k r -> occupies d r i ->
  sourceOccupantAt ty id k d = Some i.
Proof.
  intros [Ht Hb] [Htar <-] Hocc.
  destruct ty, r as [n k|n k]; cbn [isTarget] in Htar; try done;
    destruct Htar as (e & Hn & Hid), Hocc as (e' & Hn' & Hk);
    cbn [tables chairBlocks] in *; rewrite Hn in Hn'; injection Hn' as <-;
    cbn [sourceOccupantAt keyOf].
  - by rewrite (sourceOccupant_unique (H:=Table_Seated) id k _ n e).
  - by rewrite (sourceOccupant_unique (H:=Block_Seated) id k _ n e).
  - by rewrite (sourceOccupant_unique (H:=Block_Seated) id k _ n e).
Qed.


Lemma swapRef_other d ty id A B r :
  ~ isTarget d ty id r -> swapRef d ty id A B r = r.
Proof.
  intros Hn. destruct ty, r as [n k|n k]; cbn [swapRef]; try done;
    match goal with
    | |- context [?l !! n] => destruct (l !! n) as [e|] eqn:Hl
    end; try done;
    destruct (decide _) as [Hid|]; try done; destruct Hn; by exists e.
Qed.

Lemma swapRef_target d ty id A B r :
  isTarget d ty id r ->
  isTarget d ty id (swapRef d ty id A B r) /\
  keyOf (swapRef d ty id A B r) = transpose A B (keyOf r).
Proof.
  intros Ht. destruct ty, r as [n k|n k]; cbn [isTarget] in Ht; try done;
    destruct Ht as (e & Hn & Hid); cbn [swapRef]; rewrite Hn, decide_True by done;
    (split; [by exists e|done]).
Qed.

Lemma isTarget_cases d ty id r : isTarget d ty id r \/ ~ isTarget d ty id r.
Proof.
  destruct ty, r as [n k|n k]; cbn [isTarget]; try (by right; intros []);
    match goal with
    | |- context [?l !! n] => destruct (l !! n) as [e|] eqn:Hl
    end; try (right; by intros (? & ? & _));
    match goal with
    | |- context [?f _ = id] => destruct (decide (f e = id)) as [Hid|Hid]
    end;
    first [ left; by exists e | right; intros (e' & [= <-] & ?); done ].
Qed.

(** Where everybody sits after a move to a free seat. *)
Lemma moveSeatToSeat_to_free (now : bool) (sty : EntityType) (sid : nat)
    (sk : string) (dty : EntityType) (did : nat) (dk : string) (st : App)
    (r : SeatRef) (i : nat) :
  UniqueIds (doc st) ->
  (forall r j, atSeat (doc st) dty did dk r -> ~ occupies (doc st) r j) ->
  occupies (doc (moveSeatToSeat now sty sid sk dty did dk st)) r i <->
  (occupies (doc st) r i /\ ~ atSeat (doc st) sty sid sk r) \/
  ((now = true \/ (sty = dty /\ sid = did)) /\ atSeat (doc st) dty did dk r /\
   exists r0, atSeat (doc st) sty sid sk r0 /\ occupies (doc st) r0 i).
Proof.
  intros Hu Hfree. rewrite doc_moveSeatToSeat.
  destruct (decide (sty = dty /\ sid = did)) as [[<- <-]|Hcross].
  - destruct (decide (sk = dk)) as [<-|Hne].
    + split.
      * intros Hocc. left. split; [done|]. intros Hat. by apply (Hfree r i).
      * intros [[? _]|(_ & _ & r0 & Hat & Hocc)]; [done|]. by destruct (Hfree r0 i).
    + rewrite occupies_swapAt_iff. split.
      * intros Hocc.
        destruct (isTarget_cases (doc st) sty sid r) as [Ht|Ht].
        -- destruct (swapRef_target (doc st) sty sid sk dk r Ht) as [Ht' Hk'].
           unfold transpose in Hk'.
           destruct (decide (keyOf r = sk)) as [Hs|Hs].
           { destruct (Hfree _ i (conj Ht' Hk')). exact Hocc. }
           destruct (decide (keyOf r = dk)) as [Hd|Hd].
           { right. split; [by right|]. split; [by split|].
             eexists. split; [|exact Hocc]. by split. }
           left. split; [|by intros [_ ?]].
           replace r with (swapRef (doc st) sty sid sk dk r); [done|].
           by apply (isTarget_unique (doc st) sty sid).
        -- rewrite swapRef_other in Hocc by done. left. split; [done|by intros [? _]].
      * intros [[Hocc Hn]|(_ & [Ht Hk] & r0 & [Ht0 Hk0] & Hocc)].
        -- destruct (isTarget_cases (doc st) sty sid r) as [Ht|Ht];
             [|by rewrite swapRef_other].
           destruct (swapRef_target (doc st) sty sid sk dk r Ht) as [Ht' Hk'].
           replace (swapRef (doc st) sty sid sk dk r) with r; [done|].
           apply (isTarget_unique (doc st) sty sid); [done..|].
           rewrite Hk'. unfold transpose.
           destruct (decide (keyOf r = sk)) as [Hs|Hs]; [by destruct Hn|].
           destruct (decide (keyOf r = dk)) as [Hd|Hd]; [|done].
           by destruct (Hfree r i).
        -- destruct (swapRef_target (doc st) sty sid sk dk r Ht) as [Ht' Hk'].
           replace (swapRef (doc st) sty sid sk dk r) with r0; [done|].
           apply (isTarget_unique (doc st) sty sid); [done..|].
           rewrite Hk', Hk, Hk0. unfold transpose.
           destruct (decide (dk = sk)); [done|]. by rewrite decide_True.
  - destruct (if now then sourceOccupantAt sty sid sk (doc st) else None)
      as [att|] eqn:Hsrc.
    + destruct now; [|done].
      rewrite occupies_putAt_iff, occupies_dropAt_iff. unfold atSeat.
      rewrite !isTarget_dropAt. fold (atSeat (doc st) dty did dk r).
      fold (atSeat (doc st) sty sid sk r). split.
      * intros [[Hat ->]|[[Hocc Hns] Hnd]]; [|by left].
        right. split; [by left|]. split; [done|].
        apply sourceOccupantAt_Some in Hsrc as (r0 & Ht0 & Hk0 & Hocc0).
        exists r0. by repeat split.
      * intros [[Hocc Hns]|(_ & Hat & r0 & Hat0 & Hocc0)].
        -- right. split; [done|]. intros Hat. by apply (Hfree r i).
        -- left. split; [done|].
           rewrite (sourceOccupantAt_unique _ _ _ _ _ _ Hu Hat0 Hocc0) in Hsrc.
           congruence.
    + rewrite occupies_dropAt_iff. fold (atSeat (doc st) sty sid sk r). split.
      * by left.
      * intros [?|([->|?] & _ & r0 & Hat0 & Hocc0)]; [done| |done].
        rewrite (sourceOccupantAt_unique _ _ _ _ _ _ Hu Hat0 Hocc0) in Hsrc. done.
Qed.

(** A seat that [seatHitTest] finds free in an entity of the plan is free
    in the plan. *)
Lemma currentSeat_free (d : Doc) (s : SeatInfo) (r : SeatRef) (j : nat) :
  UniqueIds d -> currentSeat d s -> ~ seatTaken s ->
  atSeat d (seatAddress s).1.1 (seatAddress s).1.2 (seatAddress s).2 r ->
  ~ occupies d r j.
Proof.
  intros [Ht Hb] Hcur Hfree [Htar Hk] Hocc.
  destruct s as [t k|b k], r as [n k'|n k']; cbn in Htar, Hk, Hcur, Hfree; try done;
    destruct Htar as (e & Hn & Hid), Hocc as (e' & Hn' & Hk');
    cbn [tables chairBlocks] in *; rewrite Hn in Hn'; injection Hn' as <-;
    subst k'; apply Hfree.
  - assert (e = t) as ->; [|by eexists].
    apply (NoDup_ids_inj t_id (tables d)); [done| |done..].
    by eapply list_elem_of_lookup_2.
  - assert (e = b) as ->; [|by eexists].
    apply (NoDup_ids_inj b_id (chairBlocks d)); [done| |done..].
    by eapply list_elem_of_lookup_2.
Qed.




(** ** Smart guides *)

Lemma foldl_bind {A B C} (f : A -> C -> A) (g : B -> list C) (a : A) (l : list B) :
  foldl f a (l ≫= g) = foldl (fun a x => foldl f a (g x)) a l.
Proof.
  revert a. induction l as [|x l IH]; intros a; [done|].
  cbn. by rewrite foldl_app, IH.
Qed.

Lemma foldl_same {A B} (f g : A -> B -> A) (a : A) (l : list B) :
  (forall a x, f a x = g a x) -> foldl f a l = foldl g a l.
Proof.
  intros Hfg. revert a. induction l as [|x l IH]; intros a; [done|].
  cbn. by rewrite Hfg, IH.
Qed.

(** The loops of [computeSmartGuides] are one pass over the alignment
    tests. *)
Lemma computeSmartGuides_offers (draggedIds : list (EntityType * nat)) (d : Doc) :
  computeSmartGuides draggedIds d =
  (foldl (fun acc c => offerGuide c acc) ([], ∅) (allAlignments draggedIds d)).1.
Proof.
  unfold computeSmartGuides, allAlignments. f_equal.
  rewrite foldl_bind. apply foldl_same. intros acc db.
  rewrite foldl_bind. apply foldl_same. intros acc' ob. reflexivity.
Qed.

Lemma near_Qltb (dv ov : Q) : Qltb (Qabs (dv - ov)) (1 # 2) = true <-> near dv ov.
Proof.
  unfold Qltb, near. rewrite negb_true_iff, <- not_true_iff_false, Qle_bool_iff.
  split; [apply Qnot_le_lt|apply Qlt_not_le].
Qed.

(** What a pass over alignment tests leaves in [guides] and [seen]. *)
Lemma offerGuide_pass (cs : list (Q * Q * Axis)) (guides : list (Axis * Q))
    (seen : gset string) :
  (forall k, k ∈ seen <-> exists g, g ∈ guides /\ guideKey g.1 g.2 = k) ->
  NoDup ((fun g => guideKey g.1 g.2) <$> guides) ->
  let acc := foldl (fun acc c => offerGuide c acc) (guides, seen) cs in
  (forall k, k ∈ acc.2 <-> exists g, g ∈ acc.1 /\ guideKey g.1 g.2 = k) /\
  NoDup ((fun g => guideKey g.1 g.2) <$> acc.1) /\
  (forall g, g ∈ acc.1 ->
     g ∈ guides \/ exists dv, (dv, g.2, g.1) ∈ cs /\ near dv g.2) /\
  (forall g, g ∈ guides -> g ∈ acc.1) /\
  (forall dv ov axis, (dv, ov, axis) ∈ cs -> near dv ov -> guideKey axis ov ∈ acc.2).
Proof.
  revert guides seen. induction cs as [|c cs IH] using rev_ind;
    intros guides seen Hseen Hnd acc.
  - subst acc. cbn. split; [done|]. split; [done|]. split; [by left|].
    split; [done|]. by intros ??? ?%elem_of_nil.
  - subst acc. rewrite foldl_app. cbn [foldl].
    specialize (IH guides seen Hseen Hnd). cbn zeta in IH.
    destruct (foldl _ (guides, seen) cs) as [gs sn].
    destruct IH as (Hs & Hn & Hfrom & Hkeep & Hall). cbn [fst snd] in *.
    destruct c as [[dv ov] axis]. unfold offerGuide.
    destruct (Qltb (Qabs (dv - ov)) (1 # 2)) eqn:Hnear.
    + apply near_Qltb in Hnear. cbn [fst snd].
      destruct (decide (guideKey axis ov ∈ sn)) as [Hin|Hout]; cbn [fst snd].
      * split; [done|]. split; [done|]. split; [|split; [done|]].
        -- intros g Hg. destruct (Hfrom g Hg) as [?|(dv' & Hc & ?)]; [by left|].
           right. exists dv'. split; [apply elem_of_app; by left|done].
        -- intros dv' ov' axis' Hc Hn'.
           apply elem_of_app in Hc as [Hc|Hc]; [by eapply Hall|].
           apply list_elem_of_singleton in Hc. by injection Hc as -> -> ->.
      * split; [|split; [|split; [|split]]].
        -- intros k. rewrite elem_of_union, elem_of_singleton, Hs. split.
           ++ intros [(g & Hg & Hk) | ->].
              ** exists g. split; [apply elem_of_app; by left|done].
              ** exists (axis, ov). split; [apply elem_of_app; right; by left|done].
           ++ intros (g & Hg & Hk). apply elem_of_app in Hg as [Hg|Hg].
              ** left. by exists g.
              ** apply list_elem_of_singleton in Hg as ->. by right.
        -- rewrite fmap_app. apply NoDup_app. split; [done|]. split.
           ++ intros k Hk Hk'. cbn in Hk'. apply list_elem_of_singleton in Hk' as ->.
              apply Hout, Hs. apply list_elem_of_fmap in Hk as (g & Hk & Hg).
              by exists g.
           ++ cbn. apply NoDup_singleton.
        -- intros g Hg. apply elem_of_app in Hg as [Hg|Hg].
           ++ destruct (Hfrom g Hg) as [?|(dv' & Hc & ?)]; [by left|].
              right. exists dv'. split; [apply elem_of_app; by left|done].
           ++ apply list_elem_of_singleton in Hg as ->. right. exists dv.
              split; [apply elem_of_app; right; by left|done].
        -- intros g Hg. apply elem_of_app. left. by apply Hkeep.
        -- intros dv' ov' axis' Hc Hn'. apply elem_of_union.
           apply elem_of_app in Hc as [Hc|Hc]; [left; by eapply Hall|].
           apply list_elem_of_singleton in Hc. injection Hc as -> -> ->.
           right. by apply elem_of_singleton.
    + split; [done|]. split; [done|]. split; [|split; [done|]].
      * intros g Hg. destruct (Hfrom g Hg) as [?|(dv' & Hc & ?)]; [by left|].
        right. exists dv'. split; [apply elem_of_app; by left|done].
      * intros dv' ov' axis' Hc Hn'.
        apply elem_of_app in Hc as [Hc|Hc]; [by eapply Hall|].
        apply list_elem_of_singleton in Hc. injection Hc as -> -> ->.
        apply near_Qltb in Hn'. congruence.
Qed.

Lemma elem_of_allAlignments (draggedIds : list (EntityType * nat)) (d : Doc)
    (c : Q * Q * Axis) :
  c ∈ allAlignments draggedIds d <->
  exists e o, e ∈ entitiesOf d /\ o ∈ entitiesOf d /\
              isDragged draggedIds e = true /\ isDragged draggedIds o = false /\
              c ∈ alignments (getEntityBounds e) (getEntityBounds o).
Proof.
  unfold allAlignments. rewrite list_elem_of_bind. split.
  - intros (db & Hc & Hdb). apply list_elem_of_bind in Hc as (ob & Hc & Hob).
    apply list_elem_of_fmap in Hdb as (e & -> & He), Hob as (o & -> & Ho).
    apply list_elem_of_In, filter_In in He as [He Hde], Ho as [Ho Hdo].
    exists e, o. rewrite <- !list_elem_of_In in *.
    by rewrite negb_true_iff in Hdo.
  - intros (e & o & He & Ho & Hde & Hdo & Hc).
    exists (getEntityBounds e). split.
    + apply list_elem_of_bind. exists (getEntityBounds o). split; [done|].
      apply list_elem_of_fmap. exists o. split; [done|].
      apply list_elem_of_In, filter_In. rewrite <- list_elem_of_In.
      by rewrite Hdo.
    + apply list_elem_of_fmap. exists e. split; [done|].
      apply list_elem_of_In, filter_In. by rewrite <- list_elem_of_In.
Qed.

(** X30.  Smart guides mark the alignments of dragged entities with the
    others, and nothing else.  Every guide lies on the centre line or an
    edge of an entity that is not being dragged, less than 0.5 ft from the
    centre line (for a centre) or an edge (for an edge) of the same
    direction of a dragged entity.  Conversely every such alignment is
    marked by a guide of the same direction whose position prints to the
    same two decimals.  No two guides of one direction print to the same
    two decimals. *)
Theorem smart_guides_mark_alignments (draggedIds : list (EntityType * nat))
    (d : Doc) :
  let guides := computeSmartGuides draggedIds d in
  (forall axis pos, (axis, pos) ∈ guides ->
     exists e o dv,
       e ∈ entitiesOf d /\ o ∈ entitiesOf d /\
       isDragged draggedIds e = true /\ isDragged draggedIds o = false /\
       (dv, pos, axis) ∈ alignments (getEntityBounds e) (getEntityBounds o) /\
       near dv pos) /\
  (forall e o dv ov axis,
     e ∈ entitiesOf d -> o ∈ entitiesOf d ->
     isDragged draggedIds e = true -> isDragged draggedIds o = false ->
     (dv, ov, axis) ∈ alignments (getEntityBounds e) (getEntityBounds o) ->
     near dv ov ->
     exists pos, (axis, pos) ∈ guides /\ guideKey axis pos = guideKey axis ov) /\
  NoDup ((fun g => guideKey g.1 g.2) <$> guides).
Proof.
  intros guides. unfold guides. rewrite computeSmartGuides_offers.
  destruct (offerGuide_pass (allAlignments draggedIds d) [] ∅)
    as (Hs & Hn & Hfrom & _ & Hall).
  { intros k. split; [by intros ?%elem_of_empty|].
    by intros (g & ?%elem_of_nil & _). }
  { constructor. }
  split; [|split; [|exact Hn]].
  - intros axis pos Hg.
    destruct (Hfrom _ Hg) as [?%elem_of_nil|(dv & Hc & Hnear)]; [done|].
    apply elem_of_allAlignments in Hc as (e & o & ? & ? & ? & ? & ?).
    by exists e, o, dv.
  - intros e o dv ov axis He Ho Hde Hdo Hc Hnear.
    assert (Hk : guideKey axis ov ∈
              (foldl (fun acc c => offerGuide c acc) ([], ∅)
                     (allAlignments draggedIds d)).2).
    { apply (Hall dv ov axis); [|done]. apply elem_of_allAlignments.
      by exists e, o. }
    apply Hs in Hk as ([axis' pos] & Hg & Hk). cbn [fst snd] in Hk.
    assert (axis' = axis) as ->.
    { unfold guideKey in Hk. by destruct axis', axis. }
    by exists pos.
Qed.

(** Dragging table 2 of the floor plan, level with table 1: a guide through
    the centre of table 1 and one along each of its horizontal edges. *)
Example smart_guides_of_the_floor_plan :
  (fun g => guideKey g.1 g.2) <$> computeSmartGuides [(ETable, 2%nat)] floorPlan
    = ["h-10.00"; "h-7.50"; "h-12.50"].
Proof. vm_compute. reflexivity. Qed.


(** ** Ids handed out twice *)

Lemma occ_by_lookup {E} `{Seated E} (l : list E) (n : nat) (k : string) (i : nat) :
  (fun e => assignments e !! k) <$> l !! n = Some (Some i) -> occ l n k i.
Proof.
  intros Hl. unfold occ. destruct (l !! n) as [e|]; [|discriminate Hl].
  exists e. split; [reflexivity|]. cbn in Hl. congruence.
Qed.

(** C1.  Seat exclusivity is lost in a plan the editor itself produces.
    A round table is added and placed, and selected; a second table is
    added, which fixes the id 2 of the entity waiting to be placed; before
    it is placed the selected table is copied, and the copy takes the id
    2 as well; the click then places the waiting table.  The plan has
    tables with ids 1, 2, 2 and nobody is seated, so nobody is seated
    twice.  One [assignAttendee] on seat 0 of table 2 now seats attendee 5
    at both tables of that id. *)
Theorem copy_while_placing_breaks_exclusivity :
  let form := RoundTableForm (Some 8) (Some 5%Q) in
  let click x y := handleCanvasMouseDown_ghost grid1 0 0 x y in
  let ed1 := click 100%Q 100%Q (confirmAdd grid1 form emptyEditor) in
  let ed2 := confirmAdd grid1 form (with_app (selectTable 0 (appState ed1)) ed1) in
  let ed3 := copySelected ed2 in
  let ed4 := click 300%Q 100%Q ed3 in
  let st := appState ed4 in
  let st' := assignAttendee ETable 2 "0" 5 st in
  t_id <$> tables (doc st) = [1; 2; 2] /\
  Exclusive (doc st) /\
  (5 ∉ disabledAttendees (doc st)) /\
  occupies (doc st') (InTable 1 "0") 5 /\
  occupies (doc st') (InTable 2 "0") 5 /\
  ~ Exclusive (doc st').
Proof.
  intros form click ed1 ed2 ed3 ed4 st st'.
  assert (H1 : occupies (doc st') (InTable 1 "0") 5)
    by (apply (occ_by_lookup (H:=Table_Seated)); vm_compute; reflexivity).
  assert (H2 : occupies (doc st') (InTable 2 "0") 5)
    by (apply (occ_by_lookup (H:=Table_Seated)); vm_compute; reflexivity).
  split; [vm_compute; reflexivity|]. split.
  { apply Exclusive_of_NoDup. refine (bool_decide_unpack _ _). vm_compute. exact I. }
  split; [apply not_elem_of_empty|]. split; [exact H1|]. split; [exact H2|].
  intros Hex. pose proof (Hex 5 _ _ H1 H2) as Heq. discriminate Heq.
Qed.

(** ** Dropping an attendee on an occupied seat *)

Lemma dragAttendee_on_taken_seat (seatInfo : SeatInfo) (tableHit : option Entity)
    (att : nat) (st : App) :
  seatTaken seatInfo ->
  handleCanvasMouseUp_dragAttendee (Some seatInfo) tableHit att st =
  setDragging false
    match tableHit with
    | Some (TableE t) => assignNextAvailable ETable (t_id t) att st
    | Some (BlockE b) => assignNextAvailable EBlock (b_id b) att st
    | _ => st
    end.
Proof.
  intros Htaken. unfold handleCanvasMouseUp_dragAttendee.
  destruct seatInfo as [t k|b k]; cbn in Htaken; destruct Htaken as [x Hx];
    rewrite decide_False by congruence; reflexivity.
Qed.

Lemma assignNextAvailable_blocked (ty : EntityType) (id att : nat) (st : App) :
  att ∈ disabledAttendees (doc st) \/ att ∈ assigned st ->
  assignNextAvailable ty id att st = st.
Proof.
  intros [Hd|Ha]; unfold assignNextAvailable.
  - by rewrite decide_True.
  - destruct (decide _); [done|]. by rewrite decide_True.
Qed.

(** The attendee put on a free seat of the one entity with the id sits
    there, and the rest of the seating is as it was. *)
Lemma seatedAt_putAt_table (d : Doc) (n : nat) (t : Table) (k : string) (att : nat) :
  NoDup (t_id <$> tables d) -> tables d !! n = Some t ->
  t_assignments t !! k = None ->
  seatedAt d (putAt ETable (t_id t) k att d) (InTable n k) att.
Proof.
  intros Hu Hn Hfree r i. rewrite occupies_putAt_iff. unfold atSeat.
  assert (Hat : isTarget d ETable (t_id t) r /\ keyOf r = k <-> r = InTable n k).
  { destruct r as [m k'|m k']; cbn [isTarget keyOf].
    - split.
      + intros [(e & Hm & Hid) ->]. f_equal.
        eapply (NoDup_lookup (t_id <$> tables d)); [done| |];
          rewrite list_lookup_fmap; [rewrite Hm|rewrite Hn]; cbn; by f_equal.
      + intros [= -> ->]. split; [by exists t|done].
    - split; [by intros [[] _]|done]. }
  rewrite Hat. split.
  - intros [[-> ->]|[Ho _]]; [by right|by left].
  - intros [Ho|[-> ->]]; [|by left]. right. split; [done|].
    intros ->. destruct Ho as (e & He & Ha). cbn in He, Ha. congruence.
Qed.

Lemma seatedAt_putAt_block (d : Doc) (n : nat) (b : ChairBlock) (k : string)
    (att : nat) :
  NoDup (b_id <$> chairBlocks d) -> chairBlocks d !! n = Some b ->
  b_assignments b !! k = None ->
  seatedAt d (putAt EBlock (b_id b) k att d) (InBlock n k) att.
Proof.
  intros Hu Hn Hfree r i. rewrite occupies_putAt_iff. unfold atSeat.
  assert (Hat : isTarget d EBlock (b_id b) r /\ keyOf r = k <-> r = InBlock n k).
  { destruct r as [m k'|m k']; cbn [isTarget keyOf].
    - split; [by intros [[] _]|done].
    - split.
      + intros [(e & Hm & Hid) ->]. f_equal.
        eapply (NoDup_lookup (b_id <$> chairBlocks d)); [done| |];
          rewrite list_lookup_fmap; [rewrite Hm|rewrite Hn]; cbn; by f_equal.
      + intros [= -> ->]. split; [by exists b|done]. }
  rewrite Hat. split.
  - intros [[-> ->]|[Ho _]]; [by right|by left].
  - intros [Ho|[-> ->]]; [|by left]. right. split; [done|].
    intros ->. destruct Ho as (e & He & Ha). cbn in He, Ha. congruence.
Qed.




(** ** Rotating a table whose seats were reduced *)


(** ** A drop on a seat row of the list view *)

(** Called on the state of their own render, the closures are the
    handlers. *)
Lemma closures_of_the_current_render (st : App) :
  (forall ty id k att,
     assignAttendee_in st ty id k att st = assignAttendee ty id k att st) /\
  (forall ty id k att,
     forceAssignSeat_in st ty id k att st = forceAssignSeat ty id k att st) /\
  (forall ty id att,
     assignNextAvailable_in st ty id att st = assignNextAvailable ty id att st).
Proof. repeat split; reflexivity. Qed.

(** One event that is not a sequence of handler calls, each on the state
    the one before has left: a mouse-up on a free seat row runs
    [assignAttendee] and then, bubbling to the card, [assignNextAvailable],
    both on the plan of the same render.  Attendee 5 dropped on row 3 of
    the empty table 2 of the hall is seated on seat 3 and on seat 0, the
    first open seat of that render, and two checkpoints of the same plan
    are taken; the two handlers called one after the other seat the
    attendee once. *)
Example seat_row_drop_seats_twice :
  let t2 := mkTable 2 30 10 Round 8 5 5 Horizontal 0 false ∅ in
  let st' := mouseUp_on_SeatRow (TableSeat t2 "3") (Some 5) true true (idle hall) in
  let st'' := runEdits (idle hall) [EAssign ETable 2 "3" 5; ENext ETable 2 5] in
  tables hall !! 1 = Some t2 /\ Sound hall /\
  occupies (doc st') (InTable 1 "3") 5 /\
  occupies (doc st') (InTable 1 "0") 5 /\
  ~ Exclusive (doc st') /\
  undoStack st' = [hall; hall] /\
  occupies (doc st'') (InTable 1 "3") 5 /\
  ~ occupies (doc st'') (InTable 1 "0") 5.
Proof.
  intros t2 st' st''.
  assert (H3 : occupies (doc st') (InTable 1 "3") 5)
    by (eexists; split; vm_compute; reflexivity).
  assert (H0 : occupies (doc st') (InTable 1 "0") 5)
    by (eexists; split; vm_compute; reflexivity).
  split; [reflexivity|]. split; [exact hall_Sound|].
  split; [exact H3|]. split; [exact H0|]. split.
  { intros Hex. pose proof (Hex 5 _ _ H3 H0) as Heq. discriminate Heq. }
  split; [vm_compute; reflexivity|]. split.
  - eexists. split; vm_compute; reflexivity.
  - intros (e & He & Ha). vm_compute in He. injection He as <-.
    vm_compute in Ha. discriminate Ha.
Qed.
